(** * Rosetta Mark: the incremental translation engine

    A shallow embedding of the segmenter ([src/engine/parser.ts]), of
    the AI service with its retry policy and its dispatcher (the module
    that the engine imports as [../ai/service]), and of the forward and
    reverse translation of [src/engine/translator.ts], over the types
    of [../types]; then the properties of the engine that the
    specification states.

    Conventions of the embedding.
    - A JavaScript string is a [string]; every [ascii] is one UTF-16 code
      unit below 256, so the white space that [String.prototype.trim]
      strips is the code units 9-13, 32 and 160.
    - [crypto.createHash('md5')] is a parameter, [calculateHash].
    - Token counts are natural numbers ([N]).
    - Promises are run on a virtual clock: the AI provider answers every
      request with a latency and an outcome, [sleep] advances the clock,
      and the abort signal is the instant at which the user cancelled. *)

From Stdlib Require Import ZArith NArith Lia List Ascii String Bool DecimalString DecimalN.
From stdpp Require Import base option list gmap strings.
Import ListNotations.

Local Open Scope string_scope.
Local Open Scope list_scope.

(** ** JavaScript string primitives *)

Module JS.

Definition LF : ascii := "010"%char.

(** [s.split(sep)] for a one-character separator: the pieces between
    the occurrences, always at least one piece. *)
Fixpoint split (sep : ascii) (s : string) : list string :=
  match s with
  | EmptyString => [EmptyString]
  | String c s' =>
      if Ascii.eqb c sep then EmptyString :: split sep s'
      else match split sep s' with
           | l :: ls => String c l :: ls
           | [] => [String c EmptyString]
           end
  end.

(** [a.join(sep)]. *)
Fixpoint join (sep : string) (a : list string) : string :=
  match a with
  | [] => EmptyString
  | [x] => x
  | x :: rest => x +:+ sep +:+ join sep rest
  end.

(** WhiteSpace and LineTerminator code units below 256. *)
Definition isWhiteSpace (c : ascii) : bool :=
  let n := nat_of_ascii c in
  ((9 <=? n)%nat && (n <=? 13)%nat) || (n =? 32)%nat || (n =? 160)%nat.

Fixpoint trimStart (s : string) : string :=
  match s with
  | EmptyString => EmptyString
  | String c s' => if isWhiteSpace c then trimStart s' else s
  end.

Fixpoint trimEnd (s : string) : string :=
  match s with
  | EmptyString => EmptyString
  | String c s' =>
      match trimEnd s' with
      | EmptyString => if isWhiteSpace c then EmptyString else String c EmptyString
      | t => String c t
      end
  end.

Definition trim (s : string) : string := trimEnd (trimStart s).

Fixpoint startsWith (s p : string) : bool :=
  match p, s with
  | EmptyString, _ => true
  | String _ _, EmptyString => false
  | String a p', String b s' => Ascii.eqb a b && startsWith s' p'
  end.

(** [s.includes(p)]. *)
Fixpoint includes (s p : string) : bool :=
  startsWith s p ||
  match s with
  | EmptyString => false
  | String _ s' => includes s' p
  end.

(** [toLowerCase] on code units below 256: A-Z, and the Latin-1
    capitals 192-222 except the multiplication sign 215. *)
Definition lowerChar (c : ascii) : ascii :=
  let n := nat_of_ascii c in
  if ((65 <=? n)%nat && (n <=? 90)%nat)
     || ((192 <=? n)%nat && (n <=? 222)%nat && negb (n =? 215)%nat)
  then ascii_of_nat (n + 32) else c.

Fixpoint toLowerCase (s : string) : string :=
  match s with
  | EmptyString => EmptyString
  | String c s' => String (lowerChar c) (toLowerCase s')
  end.

(** [s.split(/\n\n+/)]: the separators are the maximal runs of two or
    more line feeds; a single line feed stays in its piece. [inSep]
    says that the scan is inside a separator, whose remaining line
    feeds are skipped. *)
Fixpoint splitBlank (inSep : bool) (s : string) : list string :=
  match s with
  | EmptyString => [EmptyString]
  | String c s' =>
      if inSep && Ascii.eqb c LF then splitBlank true s'
      else if Ascii.eqb c LF && startsWith s' (String LF EmptyString)
      then EmptyString :: splitBlank true s'
      else match splitBlank false s' with
           | p :: ps => String c p :: ps
           | [] => [String c EmptyString]
           end
  end.

(** [s.slice(n)] for [n >= 0]. *)
Fixpoint sliceFrom (n : nat) (s : string) : string :=
  match n, s with
  | O, _ => s
  | S n', String _ s' => sliceFrom n' s'
  | S _, EmptyString => EmptyString
  end.

(** [s.substring(0, n)]. *)
Fixpoint substringTo (n : nat) (s : string) : string :=
  match n, s with
  | S n', String c s' => String c (substringTo n' s')
  | _, _ => EmptyString
  end.

(** The first occurrence of [p] in [s]: what precedes it and what
    follows it. *)
Fixpoint splitAtFirst (p s : string) : option (string * string) :=
  if startsWith s p then Some (EmptyString, sliceFrom (String.length p) s)
  else match s with
       | EmptyString => None
       | String c s' =>
           match splitAtFirst p s' with
           | Some (before, after) => Some (String c before, after)
           | None => None
           end
       end.

(** The replacement text of [s.replace(pattern, replacement)] for a
    string pattern: [$$] is a dollar sign, [$&] the matched text, [$`]
    what precedes the match and [$'] what follows it; there is no
    capture, so any other [$] stands for itself. *)
Fixpoint expandReplacement (matched before after replacement : string) : string :=
  match replacement with
  | EmptyString => EmptyString
  | String c rest =>
      if Ascii.eqb c "$" then
        match rest with
        | String d rest' =>
            if Ascii.eqb d "$" then String "$" (expandReplacement matched before after rest')
            else if Ascii.eqb d "&" then matched +:+ expandReplacement matched before after rest'
            else if Ascii.eqb d "`" then before +:+ expandReplacement matched before after rest'
            else if Ascii.eqb d "'" then after +:+ expandReplacement matched before after rest'
            else String c (expandReplacement matched before after rest)
        | EmptyString => String c EmptyString
        end
      else String c (expandReplacement matched before after rest)
  end.

(** [s.replace(pattern, replacement)] for two strings: the first
    occurrence is replaced. *)
Definition replaceFirst (pattern replacement s : string) : string :=
  match splitAtFirst pattern s with
  | Some (before, after) =>
      before +:+ expandReplacement pattern before after replacement +:+ after
  | None => s
  end.

(** [String(n)] for a natural number. *)
Definition numberToString (n : N) : string := NilEmpty.string_of_uint (N.to_uint n).

(** [s.replace(regex, callback)] for a global regex: the matches are
    found from left to right and do not overlap. [matchAt] gives the
    text that the regex matches at the head of a string, if it does,
    and [skip] is the number of code units still to pass of the match
    in progress. The result is the text with the match number [k]
    replaced by [callback k], and the replacements with the matches, in
    their order. *)
Fixpoint replaceMatches (matchAt : string → option string) (callback : nat → string)
    (skip : nat) (k : nat) (s : string) : string * list (string * string) :=
  match s with
  | EmptyString => (EmptyString, [])
  | String c s' =>
      match skip with
      | S skip' => replaceMatches matchAt callback skip' k s'
      | O =>
          match matchAt s with
          | Some m =>
              let '(out, ms) :=
                replaceMatches matchAt callback (String.length m - 1) (S k) s' in
              (callback k +:+ out, (callback k, m) :: ms)
          | None =>
              let '(out, ms) := replaceMatches matchAt callback 0 k s' in
              (String c out, ms)
          end
      end
  end.

(** [s.split(/(?<=[.!?])\s+/)] on code units below 256: the separators
    are the runs of white space that follow a full stop, an exclamation
    mark or a question mark. [afterEnd] says that the code unit before
    is one of these marks, [inSep] that the scan is inside a separator. *)
Definition isSentenceEnd (c : ascii) : bool :=
  Ascii.eqb c "." || Ascii.eqb c "!" || Ascii.eqb c "?".

Fixpoint splitSentences (afterEnd inSep : bool) (s : string) : list string :=
  match s with
  | EmptyString => [EmptyString]
  | String c s' =>
      if inSep && isWhiteSpace c then splitSentences false true s'
      else if afterEnd && isWhiteSpace c then EmptyString :: splitSentences false true s'
      else match splitSentences (isSentenceEnd c) false s' with
           | p :: ps => String c p :: ps
           | [] => [String c EmptyString]
           end
  end.

End JS.

(** ** [src/engine/parser.ts] *)

Inductive ParagraphType := Text | Code | Frontmatter.

Record ParsedParagraph := {
  content : string;
  type : ParagraphType;
  hash : string;
  startLine : Z;
  endLine : Z;
}.

Section Parser.

(** [calculateHash]: the MD5 digest of the content, in hexadecimal. *)
Variable calculateHash : string → string.

Definition fence : string := "```".

(** [splitIntoParagraphs]: split at blank-line runs, drop the pieces
    that are white space only. *)
Definition splitIntoParagraphs (content : string) : list string :=
  List.filter (fun p => negb (String.length (JS.trim p) =? 0)%nat)
              (JS.splitBlank false content).

Definition joinParagraphs (paragraphs : list string) : string :=
  JS.join (String JS.LF (String JS.LF EmptyString)) paragraphs.

(** The local variables of the loop of [splitIntoParagraphsWithHash]. *)
Record SplitState := {
  paragraphs : list ParsedParagraph;
  currentParagraph : list string;
  st_startLine : Z;
  inCodeBlock : bool;
  codeBlockStart : nat;
}.

Definition mkParagraph (lines : list string) (ty : ParagraphType) (s e : Z)
  : ParsedParagraph :=
  let c := JS.join (String JS.LF EmptyString) lines in
  {| content := c; type := ty; hash := calculateHash c;
     startLine := s; endLine := e |}.

(** One iteration of the [for] loop, at line [i] of [lines]. *)
Definition splitStep (lines : list string) (st : SplitState) (i : nat) (line : string)
  : SplitState :=
  let trimmedLine := JS.trim line in
  let isFence := JS.startsWith trimmedLine fence in
  if isFence && inCodeBlock st then
    (* the closing fence *)
    let cur := currentParagraph st ++ [line] in
    {| paragraphs := paragraphs st ++ [mkParagraph cur Code (Z.of_nat (codeBlockStart st)) (Z.of_nat i)];
       currentParagraph := [];
       st_startLine := Z.of_nat i + 1;
       inCodeBlock := false;
       codeBlockStart := codeBlockStart st |}
  else
    (* an opening fence first saves the paragraph before it *)
    let st1 :=
      if isFence then
        {| paragraphs :=
             match currentParagraph st with
             | [] => paragraphs st
             | cur => paragraphs st ++ [mkParagraph cur Text (st_startLine st) (Z.of_nat i - 1)]
             end;
           currentParagraph := [];
           st_startLine := st_startLine st;
           inCodeBlock := true;
           codeBlockStart := i |}
      else st in
    if inCodeBlock st1 then
      let cur1 :=
        match currentParagraph st1 with
        | [] => [nth (codeBlockStart st1) lines EmptyString]
        | cur => cur
        end in
      let cur2 := if (i =? codeBlockStart st1)%nat then cur1 else cur1 ++ [line] in
      {| paragraphs := paragraphs st1; currentParagraph := cur2;
         st_startLine := st_startLine st1; inCodeBlock := true;
         codeBlockStart := codeBlockStart st1 |}
    else if String.eqb trimmedLine EmptyString then
      {| paragraphs :=
           match currentParagraph st1 with
           | [] => paragraphs st1
           | cur => paragraphs st1 ++ [mkParagraph cur Text (st_startLine st1) (Z.of_nat i - 1)]
           end;
         currentParagraph := [];
         st_startLine := Z.of_nat i + 1;
         inCodeBlock := false;
         codeBlockStart := codeBlockStart st1 |}
    else
      {| paragraphs := paragraphs st1;
         currentParagraph := currentParagraph st1 ++ [line];
         st_startLine := match currentParagraph st1 with
                         | [] => Z.of_nat i
                         | _ => st_startLine st1
                         end;
         inCodeBlock := false;
         codeBlockStart := codeBlockStart st1 |}.

Fixpoint splitLoop (lines rest : list string) (i : nat) (st : SplitState) : SplitState :=
  match rest with
  | [] => st
  | line :: rest' => splitLoop lines rest' (S i) (splitStep lines st i line)
  end.

Definition splitFinish (lines : list string) (st : SplitState) : list ParsedParagraph :=
  match currentParagraph st with
  | [] => paragraphs st
  | cur =>
      paragraphs st ++
      [mkParagraph cur (if inCodeBlock st then Code else Text)
                   (st_startLine st) (Z.of_nat (List.length lines) - 1)]
  end.

Definition splitInit : SplitState :=
  {| paragraphs := []; currentParagraph := []; st_startLine := 0;
     inCodeBlock := false; codeBlockStart := 0 |}.

Definition splitIntoParagraphsWithHash (content : string) : list ParsedParagraph :=
  let lines := JS.split JS.LF content in
  splitFinish lines (splitLoop lines lines 0 splitInit).

Definition joinParsedParagraphs (paragraphs : list ParsedParagraph) : string :=
  JS.join (String JS.LF (String JS.LF EmptyString)) (List.map content paragraphs).

End Parser.

(** ** The types ([../types]) *)

Inductive TranslationErrorCode :=
| NETWORK_ERROR | RATE_LIMIT | AUTH_ERROR | INVALID_RESPONSE
| CANCELLED | FILE_TOO_LARGE | UNKNOWN.

(** [class TranslationError]; its [cause] is not modelled. *)
Record TranslationError := {
  message : string;
  code : TranslationErrorCode;
  retryable : bool;
}.

Record TokenUsage := { prompt : N; completion : N; total : N }.

Record TranslationResult := {
  translatedText : string;
  tokenUsage : option TokenUsage;
}.

Record ParagraphMapping := {
  sourceContent : string;
  translatedContent : string;
  sourceHash : string;
}.

Record IncrementalTranslationResult := {
  itr_translatedText : string;
  itr_paragraphs : list ParagraphMapping;
  changedParagraphs : nat;
  reusedParagraphs : nat;
  itr_tokenUsage : option TokenUsage;
}.

(** ** Promises on a virtual clock *)

(** A thrown JavaScript value: an instance of [TranslationError], or
    anything else, given by its [message] (for a non-[Error] value, by
    [String(value)]). *)
Inductive Thrown :=
| ThrownTranslationError (e : TranslationError)
| ThrownOther (errorMessage : string).

Inductive Event :=
| EvRequest (index attempt : nat) (text : string) (time : N)
| EvSleep (ms : N) (time : N)
| EvProgress (current total : nat) (time : N).

Inductive Settled (A : Type) :=
| Fulfilled (v : A)
| Rejected (e : Thrown)
| Pending.
Arguments Fulfilled {A} v.
Arguments Rejected {A} e.
Arguments Pending {A}.

(** What a promise did: how it settled, when, and what it caused; a
    [Pending] promise never settles. *)
Record Run (A : Type) := mkRun {
  outcome : Settled A;
  finish : N;
  events : list Event;
}.
Arguments mkRun {A} _ _ _.
Arguments outcome {A} _.
Arguments finish {A} _.
Arguments events {A} _.

(** An [async] computation, started at a given instant. *)
Definition Task (A : Type) : Type := N → Run A.

Definition resolve {A} (v : A) : Task A := fun t => mkRun (Fulfilled v) t [].
Definition throw {A} (e : Thrown) : Task A := fun t => mkRun (Rejected e) t [].
Definition never {A} : Task A := fun t => mkRun Pending t [].

(** [await m], then [f]. *)
Definition andThen {A B} (m : Task A) (f : A → Task B) : Task B := fun t =>
  let r := m t in
  match outcome r with
  | Fulfilled v =>
      let r' := f v (finish r) in
      mkRun (outcome r') (finish r') (events r ++ events r')
  | Rejected e => mkRun (Rejected e) (finish r) (events r)
  | Pending => mkRun Pending (finish r) (events r)
  end.

#[global] Instance Task_ret : MRet Task := @resolve.
#[global] Instance Task_bind : MBind Task := fun A B f m => andThen m f.

(** [try { return await m } catch (error) { handler }]. *)
Definition tryCatch {A} (m : Task A) (handler : Thrown → Task A) : Task A := fun t =>
  let r := m t in
  match outcome r with
  | Rejected e =>
      let r' := handler e (finish r) in
      mkRun (outcome r') (finish r') (events r ++ events r')
  | _ => r
  end.

Definition emit (e : N → Event) : Task () := fun t => mkRun (Fulfilled ()) t [e t].

Definition sleep (ms : N) : Task () := fun t => mkRun (Fulfilled ()) (t + ms)%N [EvSleep ms t].

(** The abort signal: the instant of the [abort()] call, if any. *)
Definition AbortSignal : Type := option N.

Definition aborted (signal : AbortSignal) : Task bool := fun t =>
  mkRun (Fulfilled (match signal with Some a => (a <=? t)%N | None => false end)) t [].

(** The first rejection among [runs] in time (the earliest in the list
    among equal instants). *)
Fixpoint firstRejection {A} (runs : list (Run A)) : option (N * Thrown) :=
  match runs with
  | [] => None
  | r :: rest =>
      match outcome r, firstRejection rest with
      | Rejected e, Some (t', e') => if (finish r <=? t')%N then Some (finish r, e) else Some (t', e')
      | Rejected e, None => Some (finish r, e)
      | _, other => other
      end
  end.

Fixpoint fulfilledValues {A} (runs : list (Run A)) : option (list A) :=
  match runs with
  | [] => Some []
  | r :: rest =>
      match outcome r, fulfilledValues rest with
      | Fulfilled v, Some vs => Some (v :: vs)
      | _, _ => None
      end
  end.

(** [Promise.all]: the tasks start together; the values come in the
    order of the tasks once the last one has fulfilled; the first
    rejection rejects the whole, and the other tasks still run to their
    end (their events are kept). *)
Definition promiseAll {A} (tasks : list (Task A)) : Task (list A) := fun t =>
  let runs := List.map (fun task => task t) tasks in
  let evs := List.concat (List.map events runs) in
  match firstRejection runs with
  | Some (t', e) => mkRun (Rejected e) t' evs
  | None =>
      match fulfilledValues runs with
      | Some vs => mkRun (Fulfilled vs) (fold_right N.max t (List.map finish runs)) evs
      | None => mkRun Pending t evs
      end
  end.

(** ** The AI service ([../ai/service]) *)

Definition DEFAULT_MAX_RETRIES : nat := 3.
Definition RETRY_DELAY_MS : N := 1000.
Definition RATE_LIMIT_DELAY_MS : N := 60000.

(** The answer of [generateText]: [{ text, usage }]. *)
Record ProviderUsage := { promptTokens : N; completionTokens : N; totalTokens : N }.
Record GenerateTextResult := { text : string; usage : option ProviderUsage }.

(** One request to the AI provider. The system prompt and the model are
    fixed by the configuration, so the request is told by the text to
    translate; [req_index] and [req_attempt] name the call (the unit of
    the dispatch and the attempt of [withRetry]), so that two calls with
    the same text may be answered differently. *)
Record Request := {
  req_index : nat;
  req_attempt : nat;
  req_content : string;
  req_time : N;
}.

(** The AI provider: the latency of the answer, and the answer or the
    error thrown. Nothing is assumed about it. *)
Definition Provider : Type := Request → N * (Thrown + GenerateTextResult).

Definition convertTokenUsage (usage : option ProviderUsage) : option TokenUsage :=
  match usage with
  | Some u => Some {| prompt := promptTokens u; completion := completionTokens u;
                      total := totalTokens u |}
  | None => None
  end.

Definition classifyError (error : Thrown) : TranslationError :=
  match error with
  | ThrownTranslationError e => e
  | ThrownOther errorMessage =>
      let lowerMessage := JS.toLowerCase errorMessage in
      if JS.includes lowerMessage "rate limit" || JS.includes lowerMessage "429" then
        {| message := "Rate limit exceeded. Please wait before retrying.";
           code := RATE_LIMIT; retryable := true |}
      else if JS.includes lowerMessage "unauthorized" || JS.includes lowerMessage "401"
              || JS.includes lowerMessage "invalid api key"
              || JS.includes lowerMessage "authentication" then
        {| message := "Authentication failed. Please check your API key.";
           code := AUTH_ERROR; retryable := false |}
      else if JS.includes lowerMessage "network" || JS.includes lowerMessage "econnrefused"
              || JS.includes lowerMessage "timeout" || JS.includes lowerMessage "enotfound" then
        {| message := "Network error. Please check your connection.";
           code := NETWORK_ERROR; retryable := true |}
      else if JS.includes lowerMessage "abort" || JS.includes lowerMessage "cancel" then
        {| message := "Translation was cancelled.";
           code := CANCELLED; retryable := false |}
      else
        {| message := errorMessage; code := UNKNOWN; retryable := true |}
  end.

(** [new TranslationError('Translation was cancelled.', CANCELLED)];
    [retryable] defaults to [false]. *)
Definition cancelledError : TranslationError :=
  {| message := "Translation was cancelled."; code := CANCELLED; retryable := false |}.

Definition TranslationErrorCode_eqb (a b : TranslationErrorCode) : bool :=
  match a, b with
  | NETWORK_ERROR, NETWORK_ERROR | RATE_LIMIT, RATE_LIMIT | AUTH_ERROR, AUTH_ERROR
  | INVALID_RESPONSE, INVALID_RESPONSE | CANCELLED, CANCELLED
  | FILE_TOO_LARGE, FILE_TOO_LARGE | UNKNOWN, UNKNOWN => true
  | _, _ => false
  end.

(** The delay before the attempt that follows the failed [attempt]. *)
Definition retryDelay (lastError : TranslationError) (attempt : nat) : N :=
  if TranslationErrorCode_eqb (code lastError) RATE_LIMIT
  then RATE_LIMIT_DELAY_MS
  else (RETRY_DELAY_MS * 2 ^ N.of_nat attempt)%N.

(** [throw lastError]: [lastError] is [undefined] when the loop never
    ran. *)
Definition throwLast {T} (lastError : option TranslationError) : Task T :=
  match lastError with
  | Some e => throw (ThrownTranslationError e)
  | None => throw (ThrownOther "undefined")
  end.

(** The loop of [withRetry], with [remaining = maxRetries - attempt]
    iterations to go. The operation is told the attempt it runs in. *)
Fixpoint withRetryFrom {T} (operation : nat → Task T) (maxRetries : nat)
    (signal : AbortSignal) (remaining attempt : nat)
    (lastError : option TranslationError) : Task T :=
  match remaining with
  | O => throwLast lastError
  | S remaining' =>
      isAborted ← aborted signal;
      if isAborted : bool then throw (ThrownTranslationError cancelledError)
      else
        tryCatch (operation attempt) (fun error =>
          let lastError := classifyError error in
          if negb (retryable lastError) then throw (ThrownTranslationError lastError)
          else
            (if (attempt <? maxRetries - 1)%nat
             then sleep (retryDelay lastError attempt)
             else resolve ());;
            withRetryFrom operation maxRetries signal remaining' (S attempt) (Some lastError))
  end.

Definition withRetry {T} (operation : nat → Task T) (maxRetries : nat)
    (signal : AbortSignal) : Task T :=
  withRetryFrom operation maxRetries signal maxRetries 0 None.

Section Service.

Variable provider : Provider.

Definition generateText (index attempt : nat) (content : string)
  : Task GenerateTextResult := fun t =>
  let '(latency, answer) :=
    provider {| req_index := index; req_attempt := attempt;
                req_content := content; req_time := t |} in
  mkRun (match answer with inl e => Rejected e | inr r => Fulfilled r end)
        (t + latency)%N [EvRequest index attempt content t].

(** [translate] without [onProgress], as the dispatcher calls it: the
    [generateText] branch. [index] names the unit for the provider. *)
Definition translate (index : nat) (content : string) (signal : AbortSignal)
  : Task TranslationResult :=
  withRetry (fun attempt =>
               r ← generateText index attempt content;
               resolve {| translatedText := text r;
                          tokenUsage := convertTokenUsage (usage r) |})
            DEFAULT_MAX_RETRIES signal.

(** [a.slice(i, j)] for [0 <= i <= j]. *)
Definition slice {A} (a : list A) (i j : nat) : list A := firstn (j - i) (skipn i a).

(** [a[i] = v] on an array with holes: beyond the end, the array grows. *)
Definition arraySet {A} (a : list (option A)) (i : nat) (v : A) : list (option A) :=
  if (i <? List.length a)%nat then <[i := Some v]> a
  else a ++ replicate (i - List.length a) None ++ [Some v].

(** The task of one unit of a batch. *)
Definition translateUnit (total : nat) (signal : AbortSignal)
    (globalIndex : nat) (paragraph : string) : Task (nat * TranslationResult) :=
  result ← translate globalIndex paragraph signal;
  emit (EvProgress (globalIndex + 1) total);;
  resolve (globalIndex, result).

(** The [for] loop of [translateParagraphs] from [i]; [fuel] bounds the
    number of iterations, and the promise of a loop that does not end
    is [Pending]. *)
Fixpoint translateParagraphsFrom (fuel : nat) (paragraphs : list string)
    (signal : AbortSignal) (maxConcurrency : nat)
    (i : nat) (results : list (option TranslationResult))
  : Task (list (option TranslationResult)) :=
  if negb (i <? List.length paragraphs)%nat then resolve results
  else
    match fuel with
    | O => never
    | S fuel' =>
        isAborted ← aborted signal;
        if isAborted : bool then throw (ThrownTranslationError cancelledError)
        else
          let batch := slice paragraphs i (i + maxConcurrency) in
          let batchPromises :=
            imap (fun batchIndex paragraph =>
                    translateUnit (List.length paragraphs) signal (i + batchIndex) paragraph)
                 batch in
          batchResults ← promiseAll batchPromises;
          translateParagraphsFrom fuel' paragraphs signal maxConcurrency
            (i + maxConcurrency)
            (fold_left (fun rs ir => arraySet rs (fst ir) (snd ir)) batchResults results)
    end.

(** With a positive [maxConcurrency] the loop ends within
    [length paragraphs] iterations, and more fuel changes nothing (lemma
    [loop_fuel]); with [maxConcurrency = 0] it never ends (lemma
    [loop_zero_cap]). *)
Definition translateParagraphs (paragraphs : list string)
    (signal : AbortSignal) (maxConcurrency : nat)
  : Task (list (option TranslationResult)) :=
  translateParagraphsFrom (List.length paragraphs) paragraphs signal maxConcurrency 0
    (replicate (List.length paragraphs) None).

End Service.

(** ** [src/engine/translator.ts] *)

Record IncrementalTranslateOptions := {
  signal : AbortSignal;
  existingParagraphs : option (list ParagraphMapping);
  maxConcurrency : option nat;
}.

Record ReverseTranslationResult := {
  modifiedIndices : list nat;
  translatedParagraphs : list (nat * string);
  newSourceContent : string;
  newParagraphs : list ParagraphMapping;
}.

(** [TypeError]: a property of [undefined] was read. *)
Definition typeError : Thrown := ThrownOther "Cannot read properties of undefined".

Section Engine.

Variable calculateHash : string → string.
Variable provider : Provider.
(** [this.config.maxConcurrency]. *)
Variable configMaxConcurrency : option nat.

(** The [Map] from [sourceHash] to the existing paragraph; a later
    entry replaces an earlier one with the same hash. *)
Definition existingHashMap (existingParagraphs : option (list ParagraphMapping))
  : gmap string ParagraphMapping :=
  match existingParagraphs with
  | Some ps => fold_left (fun m p => <[sourceHash p := p]> m) ps ∅
  | None => ∅
  end.

(** The two arrays that the first loop of [translateIncremental] fills. *)
Record Plan := {
  paragraphsToTranslate : list (nat * ParsedParagraph);
  resultParagraphs : list ParagraphMapping;
}.

Definition planStep (existing : gmap string ParagraphMapping)
    (pl : Plan) (i : nat) (paragraph : ParsedParagraph) : Plan :=
  match type paragraph with
  | Code =>
      {| paragraphsToTranslate := paragraphsToTranslate pl;
         resultParagraphs := resultParagraphs pl ++
           [{| sourceContent := content paragraph;
               translatedContent := content paragraph;
               sourceHash := hash paragraph |}] |}
  | _ =>
      match existing !! hash paragraph with
      | Some e =>
          {| paragraphsToTranslate := paragraphsToTranslate pl;
             resultParagraphs := resultParagraphs pl ++ [e] |}
      | None =>
          {| paragraphsToTranslate := paragraphsToTranslate pl ++ [(i, paragraph)];
             resultParagraphs := resultParagraphs pl ++
               [{| sourceContent := content paragraph;
                   translatedContent := EmptyString;
                   sourceHash := hash paragraph |}] |}
      end
  end.

Fixpoint planLoop (existing : gmap string ParagraphMapping)
    (rest : list ParsedParagraph) (i : nat) (pl : Plan) : Plan :=
  match rest with
  | [] => pl
  | paragraph :: rest' => planLoop existing rest' (S i) (planStep existing pl i paragraph)
  end.

Definition plan (existing : gmap string ParagraphMapping)
    (currentParagraphs : list ParsedParagraph) : Plan :=
  planLoop existing currentParagraphs 0
    {| paragraphsToTranslate := []; resultParagraphs := [] |}.

Definition addUsage (acc : TokenUsage) (u : option TokenUsage) : TokenUsage :=
  match u with
  | Some u => {| prompt := prompt acc + prompt u;
                 completion := completion acc + completion u;
                 total := total acc + total u |}
  | None => acc
  end.

Definition setTranslatedContent (t : string) (p : ParagraphMapping) : ParagraphMapping :=
  {| sourceContent := sourceContent p; translatedContent := t; sourceHash := sourceHash p |}.

(** The loop that fills in the results of the dispatch, from position
    [i] of [paragraphsToTranslate]. It writes only to the placeholder
    entries, which the plan created; the entries shared with
    [existingParagraphs] are not written to. *)
Fixpoint fillLoop (results : list (option TranslationResult))
    (rest : list (nat * ParsedParagraph)) (i : nat)
    (resultParagraphs : list ParagraphMapping) (totalTokenUsage : TokenUsage)
  : Task (list ParagraphMapping * TokenUsage) :=
  match rest with
  | [] => resolve (resultParagraphs, totalTokenUsage)
  | (index, _) :: rest' =>
      match mjoin (results !! i), resultParagraphs !! index with
      | Some result, Some p =>
          fillLoop results rest' (S i)
            (<[index := setTranslatedContent (translatedText result) p]> resultParagraphs)
            (addUsage totalTokenUsage (tokenUsage result))
      | _, _ => throw typeError
      end
  end.

Definition zeroUsage : TokenUsage := {| prompt := 0; completion := 0; total := 0 |}.

(** [translateIncremental]; the calls of [onProgress] only report. *)
Definition translateIncremental (document : string) (options : IncrementalTranslateOptions)
  : Task IncrementalTranslationResult :=
  let maxConcurrency := default 3%nat (maxConcurrency options) in
  let currentParagraphs := splitIntoParagraphsWithHash calculateHash document in
  let totalParagraphs := List.length currentParagraphs in
  let pl := plan (existingHashMap (existingParagraphs options)) currentParagraphs in
  let reusedCount := (totalParagraphs - List.length (paragraphsToTranslate pl))%nat in
  '(resultParagraphs, totalTokenUsage) ←
    (if (0 <? List.length (paragraphsToTranslate pl))%nat then
       let textsToTranslate := List.map (fun p => content (snd p)) (paragraphsToTranslate pl) in
       results ← translateParagraphs provider textsToTranslate (signal options) maxConcurrency;
       fillLoop results (paragraphsToTranslate pl) 0 (resultParagraphs pl) zeroUsage
     else resolve (resultParagraphs pl, zeroUsage));
  resolve
    {| itr_translatedText :=
         JS.join (String JS.LF (String JS.LF EmptyString))
                 (List.map translatedContent resultParagraphs);
       itr_paragraphs := resultParagraphs;
       changedParagraphs := List.length (paragraphsToTranslate pl);
       reusedParagraphs := reusedCount;
       itr_tokenUsage := if (0 <? total totalTokenUsage)%N
                         then Some totalTokenUsage else None |}.

Definition translateWithExisting (document : string)
    (existingParagraphs : list ParagraphMapping) (signal : AbortSignal)
  : Task IncrementalTranslationResult :=
  translateIncremental document
    {| signal := signal; existingParagraphs := Some existingParagraphs;
       maxConcurrency := configMaxConcurrency |}.

(** The indices [i] of [currentParagraphs], from [i] on, without a
    saved paragraph of the same translated content. *)
Fixpoint modifiedFrom (savedParagraphs : list ParagraphMapping)
    (rest : list string) (i : nat) : list nat :=
  match rest with
  | [] => []
  | current :: rest' =>
      match savedParagraphs !! i with
      | Some savedParagraph =>
          if String.eqb current (translatedContent savedParagraph)
          then modifiedFrom savedParagraphs rest' (S i)
          else i :: modifiedFrom savedParagraphs rest' (S i)
      | None => i :: modifiedFrom savedParagraphs rest' (S i)
      end
  end.

(** [results[i].translatedText] for every modified index. *)
Fixpoint collectTranslated (results : list (option TranslationResult))
    (rest : list nat) (i : nat) : Task (list (nat * string)) :=
  match rest with
  | [] => resolve []
  | index :: rest' =>
      match mjoin (results !! i) with
      | Some result =>
          more ← collectTranslated results rest' (S i);
          resolve ((index, translatedText result) :: more)
      | None => throw typeError
      end
  end.

(** [p.sourceHash || this.parser.calculateHash(p.sourceContent)]. *)
Definition withSourceHash (p : ParagraphMapping) : ParagraphMapping :=
  {| sourceContent := sourceContent p;
     translatedContent := translatedContent p;
     sourceHash := if String.eqb (sourceHash p) EmptyString
                   then calculateHash (sourceContent p) else sourceHash p |}.

(** One iteration of the rebuilding loop over [translatedParagraphs]. *)
Definition rebuildStep (currentParagraphs : list string)
    (acc : list string * list ParagraphMapping) (ic : nat * string)
  : list string * list ParagraphMapping :=
  let '(sourceParagraphContents, newParagraphs) := acc in
  let '(index, content) := ic in
  let entry := {| sourceContent := content;
                  translatedContent := default EmptyString (currentParagraphs !! index);
                  sourceHash := calculateHash content |} in
  (if (index <? List.length sourceParagraphContents)%nat
   then <[index := content]> sourceParagraphContents
   else sourceParagraphContents ++ [content],
   if (index <? List.length newParagraphs)%nat
   then <[index := entry]> newParagraphs
   else newParagraphs ++ [entry]).

(** [reverseTranslate]; its [sourceLanguage] is not read by the source,
    and [onProgress] only reports. *)
Definition reverseTranslate (currentTranslatedContent : string)
    (savedParagraphs : list ParagraphMapping) (signal : AbortSignal)
  : Task ReverseTranslationResult :=
  let currentParagraphs := splitIntoParagraphs currentTranslatedContent in
  let modifiedIndices := modifiedFrom savedParagraphs currentParagraphs 0 in
  if (List.length modifiedIndices =? 0)%nat then
    resolve {| modifiedIndices := [];
               translatedParagraphs := [];
               newSourceContent := joinParagraphs (List.map sourceContent savedParagraphs);
               newParagraphs := savedParagraphs |}
  else
    let paragraphsToTranslate :=
      List.map (fun i => default EmptyString (currentParagraphs !! i)) modifiedIndices in
    results ← translateParagraphs provider paragraphsToTranslate signal
                (match configMaxConcurrency with
                 | Some (S n) => S n
                 | _ => 3%nat
                 end);
    translatedParagraphs ← collectTranslated results modifiedIndices 0;
    let '(sourceParagraphContents, newParagraphs) :=
      fold_left (rebuildStep currentParagraphs) translatedParagraphs
                (List.map sourceContent savedParagraphs,
                 List.map withSourceHash savedParagraphs) in
    resolve {| modifiedIndices := modifiedIndices;
               translatedParagraphs := translatedParagraphs;
               newSourceContent := joinParagraphs sourceParagraphContents;
               newParagraphs := newParagraphs |}.

End Engine.

(** ** The rest of [src/engine/parser.ts] *)

Record ExtractedContent := {
  translatableText : string;
  codeBlocks : list (string * string);
  frontmatter : option string;
}.

(** [codeBlocks.set(key, value)]: a [Map] keeps its keys in the order of
    their first insertion. *)
Fixpoint mapSet (key value : string) (m : list (string * string)) : list (string * string) :=
  match m with
  | [] => [(key, value)]
  | (k, v) :: m' =>
      if String.eqb k key then (key, value) :: m' else (k, v) :: mapSet key value m'
  end.

(** The match of [/^---\n([\s\S]*?)\n---\n/]: the text matched, which
    ends at the first closing line, and what follows it. *)
Definition matchFrontmatter (content : string) : option (string * string) :=
  let opening := "---" +:+ String JS.LF EmptyString in
  let closing := String JS.LF ("---" +:+ String JS.LF EmptyString) in
  if JS.startsWith content opening then
    match JS.splitAtFirst closing (JS.sliceFrom 4 content) with
    | Some (inner, rest) => Some (opening +:+ inner +:+ closing, rest)
    | None => None
    end
  else None.

(** The match of [/```[\s\S]*?```/] at the head of [s]: up to the first
    fence that follows the opening one. *)
Definition matchCodeBlock (s : string) : option string :=
  if JS.startsWith s fence then
    match JS.splitAtFirst fence (JS.sliceFrom 3 s) with
    | Some (inner, _) => Some (fence +:+ inner +:+ fence)
    | None => None
    end
  else None.

(** The longest prefix without backtick and line feed. *)
Fixpoint inlineRun (s : string) : string :=
  match s with
  | EmptyString => EmptyString
  | String c s' =>
      if Ascii.eqb c "`" || Ascii.eqb c JS.LF then EmptyString
      else String c (inlineRun s')
  end.

(** The match of [/`[^`\n]+`/] at the head of [s]. *)
Definition matchInlineCode (s : string) : option string :=
  match s with
  | EmptyString => None
  | String c s' =>
      if Ascii.eqb c "`" then
        let run := inlineRun s' in
        if negb (String.length run =? 0)%nat
           && JS.startsWith (JS.sliceFrom (String.length run) s') "`"
        then Some ("`" +:+ run +:+ "`")
        else None
      else None
  end.

Definition codeBlockPlaceholder (placeholderIndex : nat) : string :=
  "__CODE_BLOCK_" +:+ JS.numberToString (N.of_nat placeholderIndex) +:+ "__".

Definition inlineCodePlaceholder (placeholderIndex : nat) : string :=
  "__INLINE_CODE_" +:+ JS.numberToString (N.of_nat placeholderIndex) +:+ "__".

(** [extractTextForTranslation]: the front matter is cut off, then the
    fenced blocks, then the inline code of what is left, are replaced by
    placeholders numbered by the one counter [placeholderIndex]. *)
Definition extractTextForTranslation (document : string) : ExtractedContent :=
  let '(frontmatter, body) :=
    match matchFrontmatter document with
    | Some (matched, rest) => (Some matched, rest)
    | None => (None, document)
    end in
  let '(withoutBlocks, blocks) :=
    JS.replaceMatches matchCodeBlock codeBlockPlaceholder 0 0 body in
  let placeholderIndex := List.length blocks in
  let '(translatableText, inlines) :=
    JS.replaceMatches matchInlineCode inlineCodePlaceholder 0 placeholderIndex withoutBlocks in
  {| translatableText := translatableText;
     codeBlocks := fold_left (fun m kv => mapSet (fst kv) (snd kv) m) (blocks ++ inlines) [];
     frontmatter := frontmatter |}.

(** [restoreCodeBlocks]: every placeholder is replaced once, in the
    order of the map, by [String.prototype.replace]; the front matter,
    never empty when there is one, is put back in front. *)
Definition restoreCodeBlocks (translatedText : string) (extracted : ExtractedContent)
  : string :=
  let result :=
    fold_left (fun result pc => JS.replaceFirst (fst pc) (snd pc) result)
              (codeBlocks extracted) translatedText in
  match frontmatter extracted with
  | Some f => f +:+ result
  | None => result
  end.

(** [Math.ceil(content.length / 4)]. *)
Definition estimateTokens (content : string) : N :=
  let n := N.of_nat (String.length content) in
  if (n mod 4 =? 0)%N then (n / 4)%N else (n / 4 + 1)%N.

Definition isContentTooLarge (content : string) (maxTokens : option N) : bool :=
  (default 100000%N maxTokens <? estimateTokens content)%N.

(** The local variables of the loop of [chunkContent]. *)
Record ChunkState := {
  chunks : list string;
  currentChunk : list string;
  currentTokens : N;
}.

(** The inner loop, over the sentences of a paragraph that is too large;
    its variables are [chunks], [sentenceChunk] and [sentenceTokens]. *)
Definition sentenceStep (maxTokensPerChunk : N) (st : list string * list string * N)
    (sentence : string) : list string * list string * N :=
  let '(chunks, sentenceChunk, sentenceTokens) := st in
  let tokens := estimateTokens sentence in
  let '(chunks, sentenceChunk, sentenceTokens) :=
    if (maxTokensPerChunk <? sentenceTokens + tokens)%N then
      match sentenceChunk with
      | [] => (chunks, sentenceChunk, sentenceTokens)
      | _ => (chunks ++ [JS.join " " sentenceChunk], [], 0%N)
      end
    else (chunks, sentenceChunk, sentenceTokens) in
  (chunks, sentenceChunk ++ [sentence], (sentenceTokens + tokens)%N).

(** One iteration of the loop over the paragraphs. *)
Definition chunkStep (maxTokensPerChunk : N) (st : ChunkState) (paragraph : string)
  : ChunkState :=
  let paragraphTokens := estimateTokens paragraph in
  if (maxTokensPerChunk <? paragraphTokens)%N then
    let st1 :=
      match currentChunk st with
      | [] => st
      | cur => {| chunks := chunks st ++ [joinParagraphs cur];
                  currentChunk := []; currentTokens := 0 |}
      end in
    let sentences := JS.splitSentences false false paragraph in
    let '(chunks, sentenceChunk, _) :=
      fold_left (sentenceStep maxTokensPerChunk) sentences (chunks st1, [], 0%N) in
    {| chunks := match sentenceChunk with
                 | [] => chunks
                 | _ => chunks ++ [JS.join " " sentenceChunk]
                 end;
       currentChunk := currentChunk st1;
       currentTokens := currentTokens st1 |}
  else
    let st1 :=
      if (maxTokensPerChunk <? currentTokens st + paragraphTokens)%N
      then {| chunks := chunks st ++ [joinParagraphs (currentChunk st)];
              currentChunk := []; currentTokens := 0 |}
      else st in
    {| chunks := chunks st1;
       currentChunk := currentChunk st1 ++ [paragraph];
       currentTokens := currentTokens st1 + paragraphTokens |}.

Definition chunkContent (content : string) (maxTokensPerChunk : option N) : list string :=
  let st := fold_left (chunkStep (default 4000%N maxTokensPerChunk))
                      (splitIntoParagraphs content)
                      {| chunks := []; currentChunk := []; currentTokens := 0 |} in
  match currentChunk st with
  | [] => chunks st
  | cur => chunks st ++ [joinParagraphs cur]
  end.

(** ** The rest of the AI service *)

Definition LANGUAGE_CACHE_TTL : N := 24 * 60 * 60 * 1000.

(** An entry of [languageCache]. *)
Record CachedLanguage := { language : string; timestamp : N }.

(** [Date.now()]: the clock counts milliseconds. *)
Definition dateNow : Task N := fun t => mkRun (Fulfilled t) t [].

(** [if (cacheKey)]: the empty string counts as no key. *)
Definition usableKey (cacheKey : option string) : option string :=
  match cacheKey with
  | Some key => if String.eqb key EmptyString then None else Some key
  | None => None
  end.

Section Detection.

(** The AI provider, asked to detect a language; the request is told by
    the text that is sent, the first 500 code units of the content. *)
Variable detector : Provider.

(** [detectLanguage]; the cache of the service is passed in, and
    returned as the call leaves it. *)
Definition detectLanguage (content : string) (cacheKey : option string)
    (languageCache : gmap string CachedLanguage)
  : Task (string * gmap string CachedLanguage) :=
  now ← dateNow;
  let cached :=
    key ← usableKey cacheKey;
    c ← languageCache !! key;
    if (Z.of_N now - Z.of_N (timestamp c) <? Z.of_N LANGUAGE_CACHE_TTL)%Z
    then Some (language c) else None in
  match cached with
  | Some lang => resolve (lang, languageCache)
  | None =>
      result ← withRetry (fun attempt =>
                            r ← generateText detector 0 attempt (JS.substringTo 500 content);
                            resolve (JS.trim (text r)))
                         DEFAULT_MAX_RETRIES None;
      now' ← dateNow;
      resolve (result,
               match usableKey cacheKey with
               | Some key => <[key := {| language := result; timestamp := now' |}]> languageCache
               | None => languageCache
               end)
  end.

(** [validateApiKey]: a minimal call; an authentication error is the
    answer [false], any other error is thrown again. *)
Definition validateApiKey (languageCache : gmap string CachedLanguage)
  : Task (bool * gmap string CachedLanguage) :=
  tryCatch ('(_, languageCache') ← detectLanguage "Hello world" None languageCache;
            resolve (true, languageCache'))
           (fun error =>
              let translationError := classifyError error in
              if TranslationErrorCode_eqb (code translationError) AUTH_ERROR
              then resolve (false, languageCache)
              else throw (ThrownTranslationError translationError)).

End Detection.

(** ** The rest of [src/engine/translator.ts] *)

Record TranslationWithMapping := {
  twm_result : TranslationResult;
  twm_paragraphs : list ParagraphMapping;
  sourceLanguage : option string;
}.

Record DocumentSize := {
  valid : bool;
  estimatedTokens : N;
  sizeMessage : option string;
}.

Module TranslationEngine.

Section Engine.

Variable calculateHash : string → string.
Variable provider : Provider.
Variable detector : Provider.

(** [translateWithMapping]: the whole document is translated as new,
    then its language is detected; a failed detection is ignored. *)
Definition translateWithMapping (document : string) (signal : AbortSignal)
    (languageCache : gmap string CachedLanguage)
  : Task (TranslationWithMapping * gmap string CachedLanguage) :=
  result ← translateIncremental calculateHash provider document
             {| signal := signal; existingParagraphs := None; maxConcurrency := None |};
  '(sourceLanguage, languageCache') ←
    tryCatch ('(lang, languageCache') ← detectLanguage detector document None languageCache;
              resolve (Some lang, languageCache'))
             (fun _ => resolve (None, languageCache));
  resolve ({| twm_result := {| translatedText := itr_translatedText result;
                               tokenUsage := itr_tokenUsage result |};
              twm_paragraphs := itr_paragraphs result;
              sourceLanguage := sourceLanguage |},
           languageCache').

Definition checkDocumentSize (content : string) : DocumentSize :=
  let estimatedTokens := estimateTokens content in
  let maxTokens := 100000%N in
  if (maxTokens <? estimatedTokens)%N then
    {| valid := false;
       estimatedTokens := estimatedTokens;
       sizeMessage :=
         Some ("Document is too large (estimated " +:+ JS.numberToString estimatedTokens
               +:+ " tokens). Maximum is " +:+ JS.numberToString maxTokens +:+ " tokens.") |}
  else {| valid := true; estimatedTokens := estimatedTokens; sizeMessage := None |}.

(** [translate] without [onProgress], as the command that translates a
    selection calls it: the code is taken out, the rest is translated in
    one request, and the code is put back. *)
Definition translate (document : string) : Task TranslationResult :=
  let extracted := extractTextForTranslation document in
  result ← translate provider 0 (translatableText extracted) None;
  resolve {| translatedText := restoreCodeBlocks (translatedText result) extracted;
             tokenUsage := tokenUsage result |}.

End Engine.

End TranslationEngine.

(** ** Sample documents and providers *)

(** The document with the given lines. *)
Definition doc (lines : list string) : string := JS.join (String JS.LF EmptyString) lines.

(** A provider that prefixes the text with [T:], reports a usage of
    (1, 2, 3), and answers the later units of a dispatch sooner. *)
Definition echoProvider : Provider := fun r =>
  ((10 - N.of_nat (req_index r))%N,
   inr {| text := "T:" +:+ req_content r;
          usage := Some {| promptTokens := 1; completionTokens := 2; totalTokens := 3 |} |}).

(** The same provider, reporting no usage. *)
Definition silentProvider : Provider := fun r =>
  (1%N, inr {| text := "T:" +:+ req_content r; usage := None |}).

(** A provider that is rate limited at every attempt. *)
Definition limitedProvider : Provider := fun r =>
  (5%N, inl (ThrownOther "HTTP 429: Rate limit reached")).

(** The identity as a stand-in digest: injective, as MD5 is assumed to be. *)
Definition idHash (s : string) : string := s.

(** ** Definitions used to state the properties *)

(** A segment of one of the two kinds that the segmenter produces. *)
Definition textOrCode (p : ParsedParagraph) : Prop := type p = Text ∨ type p = Code.

(** The mapping entry that the plan gives to a segment. *)
Definition planEntry (existing : gmap string ParagraphMapping) (p : ParsedParagraph)
  : ParagraphMapping :=
  match type p with
  | Code => {| sourceContent := content p; translatedContent := content p;
               sourceHash := hash p |}
  | _ => match existing !! hash p with
         | Some e => e
         | None => {| sourceContent := content p; translatedContent := EmptyString;
                      sourceHash := hash p |}
         end
  end.

(** Whether the plan emits a translation unit for a segment. *)
Definition isPending (existing : gmap string ParagraphMapping) (p : ParsedParagraph) : bool :=
  match type p with
  | Code => false
  | _ => match existing !! hash p with Some _ => false | None => true end
  end.

(** The translation units of the plan for the segments [rest], the
    first of which is at position [i]. *)
Fixpoint pendingFrom (existing : gmap string ParagraphMapping)
    (rest : list ParsedParagraph) (i : nat) : list (nat * ParsedParagraph) :=
  match rest with
  | [] => []
  | p :: rest' =>
      if isPending existing p then (i, p) :: pendingFrom existing rest' (S i)
      else pendingFrom existing rest' (S i)
  end.

(** The signal is not set at the instant [t]. *)
Definition beforeAbort (signal : AbortSignal) (t : N) : Prop :=
  match signal with Some a => (t < a)%N | None => True end.

(** What the dispatch of [paragraphs] may cause: a request carries the
    text of the unit it names and is made before the signal is set. *)
Definition dispatchEvent (paragraphs : list string) (signal : AbortSignal) (ev : Event) : Prop :=
  match ev with
  | EvRequest index _ txt time => paragraphs !! index = Some txt ∧ beforeAbort signal time
  | _ => True
  end.

(** The tasks of the batch that starts at unit [i]. *)
Definition batchPromises (provider : Provider) (paragraphs : list string)
    (signal : AbortSignal) (maxConcurrency : nat) (i : nat)
  : list (Task (nat * TranslationResult)) :=
  imap (fun batchIndex paragraph =>
          translateUnit provider (List.length paragraphs) signal (i + batchIndex) paragraph)
       (slice paragraphs i (i + maxConcurrency)).

(** The results of a batch, stored at the index of their unit. *)
Definition storeBatch (batchResults : list (nat * TranslationResult))
    (results : list (option TranslationResult)) : list (option TranslationResult) :=
  fold_left (fun rs ir => arraySet rs (fst ir) (snd ir)) batchResults results.

(** The instant at which batch [k] starts in a dispatch started at
    [t0]: the instant at which [Promise.all] settled for batch [k - 1]. *)
Fixpoint batchStart (provider : Provider) (paragraphs : list string)
    (signal : AbortSignal) (maxConcurrency : nat) (t0 : N) (k : nat) : N :=
  match k with
  | O => t0
  | S k' =>
      finish (promiseAll (batchPromises provider paragraphs signal maxConcurrency
                            (k' * maxConcurrency))
                         (batchStart provider paragraphs signal maxConcurrency t0 k'))
  end.

(** The usages that the results of a dispatch report. *)
Definition reportedUsages (results : list (option TranslationResult)) : list TokenUsage :=
  omap (fun o => o ≫= tokenUsage) results.

(** The sum of usages, component by component. *)
Definition sumUsage (us : list TokenUsage) : TokenUsage :=
  {| prompt := fold_right N.add 0%N (List.map prompt us);
     completion := fold_right N.add 0%N (List.map completion us);
     total := fold_right N.add 0%N (List.map total us) |}.

Definition plusUsage (a b : TokenUsage) : TokenUsage :=
  {| prompt := prompt a + prompt b; completion := completion a + completion b;
     total := total a + total b |}.

(** The plan of [translateIncremental] for a document. *)
Definition planOf (calculateHash : string → string) (document : string)
    (options : IncrementalTranslateOptions) : Plan :=
  plan (existingHashMap (existingParagraphs options))
       (splitIntoParagraphsWithHash calculateHash document).

(** The texts that it hands to the dispatcher. *)
Definition textsToTranslate (pl : Plan) : list string :=
  List.map (fun p => content (snd p)) (paragraphsToTranslate pl).

(** The dispatch that [translateIncremental] starts at [t]. *)
Definition dispatchOf (calculateHash : string → string) (provider : Provider)
    (document : string) (options : IncrementalTranslateOptions)
  : Task (list (option TranslationResult)) :=
  translateParagraphs provider (textsToTranslate (planOf calculateHash document options))
    (signal options) (default 3%nat (maxConcurrency options)).

(** The record that it returns. *)
Definition incrementalResult (totalParagraphs : nat) (pl : Plan)
    (out : list ParagraphMapping * TokenUsage) : IncrementalTranslationResult :=
  {| itr_translatedText :=
       JS.join (String JS.LF (String JS.LF EmptyString))
               (List.map translatedContent (fst out));
     itr_paragraphs := fst out;
     changedParagraphs := List.length (paragraphsToTranslate pl);
     reusedParagraphs := (totalParagraphs - List.length (paragraphsToTranslate pl))%nat;
     itr_tokenUsage := if (0 <? total (snd out))%N then Some (snd out) else None |}.

(** Paragraph [cur] at position [i] counts as edited. *)
Definition edited (savedParagraphs : list ParagraphMapping) (i : nat) (cur : string) : Prop :=
  savedParagraphs !! i = None
  ∨ ∃ sp, savedParagraphs !! i = Some sp ∧ cur ≠ translatedContent sp.

(** The mapping entry of a paragraph translated back to [fresh]. *)
Definition rebuiltEntry (calculateHash : string → string)
    (currentParagraphs : list string) (index : nat) (fresh : string) : ParagraphMapping :=
  {| sourceContent := fresh;
     translatedContent := default EmptyString (currentParagraphs !! index);
     sourceHash := calculateHash fresh |}.

(** The dispatch that [reverseTranslate] starts for the edited paragraphs. *)
Definition reverseDispatch (provider : Provider) (configMaxConcurrency : option nat)
    (currentTranslatedContent : string) (savedParagraphs : list ParagraphMapping)
    (signal : AbortSignal) : Task (list (option TranslationResult)) :=
  let currentParagraphs := splitIntoParagraphs currentTranslatedContent in
  translateParagraphs provider
    (List.map (fun i => default EmptyString (currentParagraphs !! i))
              (modifiedFrom savedParagraphs currentParagraphs 0))
    signal
    (match configMaxConcurrency with Some (S n) => S n | _ => 3%nat end).

(** The record that it returns after the dispatch. *)
Definition reverseResult (calculateHash : string → string)
    (currentTranslatedContent : string) (savedParagraphs : list ParagraphMapping)
    (tp : list (nat * string)) : ReverseTranslationResult :=
  let currentParagraphs := splitIntoParagraphs currentTranslatedContent in
  let out := fold_left (rebuildStep calculateHash currentParagraphs) tp
               (List.map sourceContent savedParagraphs,
                List.map (withSourceHash calculateHash) savedParagraphs) in
  {| modifiedIndices := modifiedFrom savedParagraphs currentParagraphs 0;
     translatedParagraphs := tp;
     newSourceContent := joinParagraphs (fst out);
     newParagraphs := snd out |}.

(** The attempts in which a request was made, and the delays slept. *)
Definition attemptsOf (evs : list Event) : list nat :=
  omap (fun ev => match ev with EvRequest _ k _ _ => Some k | _ => None end) evs.

Definition sleepsOf (evs : list Event) : list N :=
  omap (fun ev => match ev with EvSleep ms _ => Some ms | _ => None end) evs.

(** The delay of the source, by cases on the code of the error. *)
Definition policyDelay (e : TranslationError) (attempt : nat) : N :=
  match code e with
  | RATE_LIMIT => 60000
  | _ => 1000 * 2 ^ N.of_nat attempt
  end.

(** A string without line feed. *)
Fixpoint noLF (s : string) : Prop :=
  match s with
  | EmptyString => True
  | String c s' => c ≠ JS.LF ∧ noLF s'
  end.

(** The lines of segments joined by a blank line. *)
Fixpoint interleave (segs : list (list string)) : list string :=
  match segs with
  | [] => [EmptyString]
  | [s] => s
  | s :: rest => s ++ [EmptyString] ++ interleave rest
  end.

Definition isBlankLine (l : string) : bool := String.eqb (JS.trim l) EmptyString.

Definition isFenceLine (l : string) : bool := JS.startsWith (JS.trim l) fence.

(** The lines of a document that are not white space at a segment
    boundary: every line of a fenced code block, its fences included,
    and the lines outside code that are not blank. [inCode] says that
    the scan is inside a code block. *)
Fixpoint significantLines (inCode : bool) (lines : list string) : list string :=
  match lines with
  | [] => []
  | l :: rest =>
      if isFenceLine l then l :: significantLines (negb inCode) rest
      else if inCode then l :: significantLines true rest
      else if isBlankLine l then significantLines false rest
      else l :: significantLines false rest
  end.

(** The claim's own normal form: leading and trailing blank lines are
    dropped and every run of blank lines becomes one empty line. *)
Fixpoint collapseBlankRuns (started pending : bool) (lines : list string) : list string :=
  match lines with
  | [] => []
  | l :: rest =>
      if isBlankLine l then collapseBlankRuns started started rest
      else (if pending then [EmptyString] else []) ++ l :: collapseBlankRuns true false rest
  end.

Definition textLines (ls : list string) : Prop :=
  ls ≠ [] ∧ Forall (fun l => isFenceLine l = false ∧ isBlankLine l = false) ls.

Definition openCode (ls : list string) : Prop :=
  ∃ f mid, ls = f :: mid ∧ isFenceLine f = true
           ∧ Forall (fun l => isFenceLine l = false) mid.

Definition closedCode (ls : list string) : Prop :=
  ∃ f mid g, ls = f :: mid ++ [g] ∧ isFenceLine f = true ∧ isFenceLine g = true
             ∧ Forall (fun l => isFenceLine l = false) mid.

Definition closedSegment (ls : list string) : Prop := textLines ls ∨ closedCode ls.

(** The paragraphs found so far are the segments [segs], each a closed
    segment; the paragraph being read is a text paragraph, or a code
    block still open. *)
Definition SegInv (st : SplitState) (segs : list (list string)) (i : nat) : Prop :=
  List.map content (paragraphs st)
    = List.map (JS.join (String JS.LF EmptyString)) segs
  ∧ Forall (fun ls => closedSegment ls ∧ Forall noLF ls) segs
  ∧ Forall noLF (currentParagraph st)
  ∧ (if inCodeBlock st
     then openCode (currentParagraph st) ∧ (codeBlockStart st < i)%nat
     else currentParagraph st = [] ∨ textLines (currentParagraph st)).

(** ** The schedule of the retries *)

(** The events of a run of [withRetry] whose attempts [attempt ..
    attempt + d] fail with the errors [err]: every attempt makes its
    request; after each but the last comes the pause of the policy,
    which starts when the attempt has failed, and the next attempt
    starts when the pause is over. [t] is the instant at which attempt
    [attempt] starts. *)
Fixpoint retryTrace {T} (operation : nat → Task T) (err : nat → Thrown)
    (index : nat) (content : string) (attempt d : nat) (t : N) : list Event :=
  EvRequest index attempt content t ::
  match d with
  | O => []
  | S d' =>
      let failed := finish (operation attempt t) in
      let delay := policyDelay (classifyError (err attempt)) attempt in
      EvSleep delay failed
      :: retryTrace operation err index content (S attempt) d' (failed + delay)
  end.

(** The instant at which the last of these attempts has failed. *)
Fixpoint retryFinish {T} (operation : nat → Task T) (err : nat → Thrown)
    (attempt d : nat) (t : N) : N :=
  match d with
  | O => finish (operation attempt t)
  | S d' =>
      retryFinish operation err (S attempt) d'
        (finish (operation attempt t) + policyDelay (classifyError (err attempt)) attempt)
  end.

(** The instants of the requests. *)
Definition requestTimes (evs : list Event) : list N :=
  omap (fun ev => match ev with EvRequest _ _ _ time => Some time | _ => None end) evs.



(** ** The normal form of a document *)

(** The normal form of the lines of a document. Outside fenced code it
    is the claim's own: leading and trailing blank lines are dropped and
    every run of blank lines becomes one empty line. The lines of a
    fenced block are kept as they are, and an empty line is put before
    an opening fence and after a closing fence wherever a line comes
    before or after. [inCode] says that the scan is inside a code block,
    [started] that a line was kept already, [pending] that an empty line
    is due before the next line that is kept. *)
Fixpoint normalizeLines (inCode started pending : bool) (lines : list string)
  : list string :=
  match lines with
  | [] => []
  | l :: rest =>
      if isFenceLine l then
        if inCode then l :: normalizeLines false true true rest
        else (if started then [EmptyString] else [])
             ++ l :: normalizeLines true true false rest
      else if inCode then l :: normalizeLines true true false rest
      else if isBlankLine l then normalizeLines false started started rest
      else (if pending then [EmptyString] else [])
           ++ l :: normalizeLines false true false rest
  end.

(** The segments as lists of lines. *)
Definition linesOfSegments (ps : list ParsedParagraph) : list (list string) :=
  List.map (fun p => JS.split JS.LF (content p)) ps.

(** The lines of the segments with an empty line between two of them;
    no line when there is no segment. *)
Definition joinedLines (segs : list (list string)) : list string :=
  match segs with
  | [] => []
  | _ => interleave segs
  end.

(** The lines that the loop has put into segments so far, the
    paragraph being read included. *)
Definition emittedLines (st : SplitState) : list string :=
  joinedLines (linesOfSegments (paragraphs st)
               ++ match currentParagraph st with [] => [] | cur => [cur] end).

Definition startedOf (st : SplitState) : bool :=
  match paragraphs st, currentParagraph st with
  | [], [] => false
  | _, _ => true
  end.

Definition pendingOf (st : SplitState) : bool :=
  match currentParagraph st with
  | [] => startedOf st
  | _ => false
  end.

(** ** Definitions used to state the further properties *)

(** The hash of a segment is the digest of its content. *)
Definition digestOf (calculateHash : string → string) (p : ParsedParagraph) : Prop :=
  hash p = calculateHash (content p).

(** The segment is the lines [startLine] to [endLine] of the document. *)
Definition exactRange (lines : list string) (p : ParsedParagraph) : Prop :=
  ∃ s e : nat,
    startLine p = Z.of_nat s ∧ endLine p = Z.of_nat e
    ∧ (s ≤ e)%nat ∧ (e < List.length lines)%nat
    ∧ content p = JS.join (String JS.LF EmptyString) (slice lines s (S e)).

(** Before line [i] is read, the paragraphs found are exact, and the
    paragraph being read is the lines from its first line to [i]. *)
Definition RangeInv (lines : list string) (st : SplitState) (i : nat) : Prop :=
  Forall (exactRange lines) (paragraphs st)
  ∧ (if inCodeBlock st
     then (codeBlockStart st < i)%nat
          ∧ currentParagraph st = slice lines (codeBlockStart st) i
     else currentParagraph st = []
          ∨ ∃ s : nat, st_startLine st = Z.of_nat s ∧ (s < i)%nat
                       ∧ currentParagraph st = slice lines s i).

Definition blankRun : string := String JS.LF (String JS.LF EmptyString).

Definition lineFeed : string := String JS.LF EmptyString.

(** No run of two line feeds. *)
Definition noBlankRun (p : string) : Prop := JS.includes p blankRun = false.

Definition noLeadLF (p : string) : Prop := JS.startsWith p lineFeed = false.

Fixpoint endsLF (s : string) : bool :=
  match s with
  | EmptyString => false
  | String c EmptyString => Ascii.eqb c JS.LF
  | String _ s' => endsLF s'
  end.

(** The test of the filter of [splitIntoParagraphs]. *)
Definition nonBlank (p : string) : bool := negb (String.length (JS.trim p) =? 0)%nat.

(** A paragraph that [splitIntoParagraphs] gives back as it is: not
    blank, without a blank line inside, and without a line feed at
    either end. *)
Definition cleanParagraph (p : string) : Prop :=
  nonBlank p = true ∧ noBlankRun p ∧ noLeadLF p ∧ endsLF p = false.

(** Paragraphs that [joinParagraphs] keeps apart. *)
Fixpoint joinable (ps : list string) : Prop :=
  match ps with
  | [] => True
  | p :: rest =>
      noBlankRun p
      ∧ match rest with
        | [] => True
        | q :: _ => endsLF p = false ∧ noLeadLF q ∧ q ≠ EmptyString
        end
      ∧ joinable rest
  end.

Fixpoint allButLast (P : string → Prop) (ps : list string) : Prop :=
  match ps with
  | [] => True
  | p :: rest => match rest with [] => True | _ => P p end ∧ allButLast P rest
  end.

(** Counting the events of a run. *)
Definition isRequest (ev : Event) : bool :=
  match ev with EvRequest _ _ _ _ => true | _ => false end.

Definition isRequestOf (j : nat) (ev : Event) : bool :=
  match ev with EvRequest i _ _ _ => (i =? j)%nat | _ => false end.

Definition isSleep (ev : Event) : bool :=
  match ev with EvSleep _ _ => true | _ => false end.

Definition countEvents (f : Event → bool) (evs : list Event) : nat :=
  List.length (List.filter f evs).

(** The pairs [(current, total)] reported to [onParagraphProgress]. *)
Definition progressOf (evs : list Event) : list (nat * nat) :=
  omap (fun ev => match ev with EvProgress c n _ => Some (c, n) | _ => None end) evs.

Definition eventTime (ev : Event) : N :=
  match ev with
  | EvRequest _ _ _ time => time
  | EvSleep _ time => time
  | EvProgress _ _ time => time
  end.

(** What the retry policy of [translate] allows: three attempts, and
    pauses of one second, two seconds or a minute. *)
Definition withinPolicy (ev : Event) : Prop :=
  match ev with
  | EvRequest _ attempt _ _ => (attempt < DEFAULT_MAX_RETRIES)%nat
  | EvSleep ms _ => ms = 1000%N ∨ ms = 2000%N ∨ ms = 60000%N
  | EvProgress _ _ _ => True
  end.

(** The sum of [c j] for [j] from [i], [n] terms. *)
Definition sumFrom (c : nat → nat) (i n : nat) : nat :=
  fold_right Nat.add 0%nat (List.map c (seq i n)).

(** What [withRetry] may cause when its operation makes the one request
    [(index, content)]. *)
Definition retryEvent (maxRetries index : nat) (content : string) (ev : Event) : Prop :=
  match ev with
  | EvRequest i attempt c _ => i = index ∧ c = content ∧ (attempt < maxRetries)%nat
  | EvSleep ms _ => ∃ e k, (k < maxRetries - 1)%nat ∧ ms = retryDelay e k
  | EvProgress _ _ _ => False
  end.

(** [detectLanguage]: what the cache answers and how it is filled. *)
Definition cacheLookup (languageCache : gmap string CachedLanguage)
    (cacheKey : option string) (now : N) : option string :=
  key ← usableKey cacheKey;
  c ← languageCache !! key;
  if (Z.of_N now - Z.of_N (timestamp c) <? Z.of_N LANGUAGE_CACHE_TTL)%Z
  then Some (language c) else None.

Definition cacheStore (languageCache : gmap string CachedLanguage)
    (cacheKey : option string) (lang : string) (now : N) : gmap string CachedLanguage :=
  match usableKey cacheKey with
  | Some key => <[key := {| language := lang; timestamp := now |}]> languageCache
  | None => languageCache
  end.

(** The call that [detectLanguage] makes on a cache miss. *)
Definition detection (detector : Provider) (content : string) : Task string :=
  withRetry (fun attempt =>
               r ← generateText detector 0 attempt (JS.substringTo 500 content);
               resolve (JS.trim (text r)))
            DEFAULT_MAX_RETRIES None.

(** Sample detectors. *)
Definition frenchDetector : Provider := fun r =>
  (7%N, inr {| text := " fr "; usage := None |}).

Definition unauthorizedDetector : Provider := fun r =>
  (4%N, inl (ThrownOther "401 Unauthorized")).

(** The value [translateWithMapping] returns. *)
Definition withLanguage (res : IncrementalTranslationResult) (lang : option string)
  : TranslationWithMapping :=
  {| twm_result := {| translatedText := itr_translatedText res;
                      tokenUsage := itr_tokenUsage res |};
     twm_paragraphs := itr_paragraphs res;
     sourceLanguage := lang |}.

(** No code unit of [s] is a backtick. *)
Fixpoint noBacktick (s : string) : Prop :=
  match s with
  | EmptyString => True
  | String c s' => c ≠ "`"%char ∧ noBacktick s'
  end.

(** The estimates of the paragraphs of a group, added up as the loop
    of [chunkContent] does. *)
Definition sumTokens (g : list string) : N :=
  fold_right N.add 0%N (List.map estimateTokens g).

(** A chunk is closed only when the next paragraph does not fit. *)
Fixpoint greedyGroups (maxTokensPerChunk : N) (groups : list (list string)) : Prop :=
  match groups with
  | [] => True
  | g :: rest =>
      match rest with
      | (p :: _) :: _ => (maxTokensPerChunk < sumTokens g + estimateTokens p)%N
      | _ => True
      end
      ∧ greedyGroups maxTokensPerChunk rest
  end.

(** The groups closed so far and the one being filled. *)
Definition ChunkInv (maxTokensPerChunk : N) (st : ChunkState) (groups : list (list string)) : Prop :=
  chunks st = List.map joinParagraphs groups
  ∧ Forall (fun g => g ≠ [] ∧ (sumTokens g ≤ maxTokensPerChunk)%N) groups
  ∧ currentTokens st = sumTokens (currentChunk st)
  ∧ (sumTokens (currentChunk st) ≤ maxTokensPerChunk)%N
  ∧ (currentChunk st = [] → groups = [])
  ∧ greedyGroups maxTokensPerChunk
      (groups ++ match currentChunk st with [] => [] | cur => [cur] end).

(** Definitions used to state the properties of the placeholders. *)

(** No code unit of [s] is [c]. *)
Fixpoint lacks (c : ascii) (s : string) : Prop :=
  match s with
  | EmptyString => True
  | String a s' => a ≠ c ∧ lacks c s'
  end.

(** Neither an underscore, of which the placeholders are made, nor a
    dollar sign, which [String.prototype.replace] reads in a replacement. *)
Definition plain (s : string) : Prop := lacks "_" s ∧ lacks "$" s.

(** The loop of [restoreCodeBlocks]. *)
Definition restoreAll (entries : list (string * string)) (text : string) : string :=
  fold_left (fun result pc => JS.replaceFirst (fst pc) (snd pc) result) entries text.

(** [noStart p u y]: no match of [p] in [u +:+ y] starts inside [u]. *)
Fixpoint noStart (p u y : string) : Prop :=
  match u with
  | EmptyString => True
  | String c u' => JS.startsWith (u +:+ y) p = false ∧ noStart p u' y
  end.

(** A text after the fenced blocks were replaced: [mix1 blocks t d]
    reads [t] beside the text [d] it was made from. *)
Inductive mix1 : list (string * string) → string → string → Prop :=
| mix1_nil : mix1 [] EmptyString EmptyString
| mix1_char c bs t d :
    c ≠ "_"%char → c ≠ "$"%char → mix1 bs t d → mix1 bs (String c t) (String c d)
| mix1_block k b bs t d :
    plain b → mix1 bs t d →
    mix1 ((codeBlockPlaceholder k, b) :: bs) (codeBlockPlaceholder k +:+ t) (b +:+ d).

(** A text after both replacements: [mix blocks inlines t mid d] reads
    [t] beside [mid], in which the blocks are back, and the text [d]. *)
Inductive mix : list (string * string) → list (string * string)
                → string → string → string → Prop :=
| mix_nil : mix [] [] EmptyString EmptyString EmptyString
| mix_char c bs ins t mid d :
    c ≠ "_"%char → c ≠ "$"%char → mix bs ins t mid d →
    mix bs ins (String c t) (String c mid) (String c d)
| mix_block k b bs ins t mid d :
    plain b → mix bs ins t mid d →
    mix ((codeBlockPlaceholder k, b) :: bs) ins
        (codeBlockPlaceholder k +:+ t) (b +:+ mid) (b +:+ d)
| mix_inline k m bs ins t mid d :
    plain m → mix bs ins t mid d →
    mix bs ((inlineCodePlaceholder k, m) :: ins)
        (inlineCodePlaceholder k +:+ t) (inlineCodePlaceholder k +:+ mid) (m +:+ d).

(** Code units other than underscores, and placeholders of inline code. *)
Inductive quiet : string → Prop :=
| quiet_nil : quiet EmptyString
| quiet_char c w : c ≠ "_"%char → quiet w → quiet (String c w)
| quiet_inline k w : quiet w → quiet (inlineCodePlaceholder k +:+ w).

(** Definitions used to state the order of the segments and the edit loop. *)

(** The first line after the paragraphs [ps], from [lo] when there is none. *)
Definition nextFree (lo : Z) (ps : list ParsedParagraph) : Z :=
  fold_left (fun _ p => (endLine p + 1)%Z) ps lo.

(** The line ranges of [ps] follow one another from line [lo] on. *)
Fixpoint inOrder (lo : Z) (ps : list ParsedParagraph) : Prop :=
  match ps with
  | [] => True
  | p :: ps' => (lo ≤ startLine p)%Z ∧ (startLine p ≤ endLine p)%Z
                ∧ inOrder (endLine p + 1) ps'
  end.

(** Before line [i] is read, the paragraphs found are in order and end
    before the paragraph being read starts. *)
Definition OrderInv (st : SplitState) (i : nat) : Prop :=
  inOrder 0 (paragraphs st)
  ∧ (nextFree 0 (paragraphs st) ≤ Z.of_nat i)%Z
  ∧ (if inCodeBlock st
     then (nextFree 0 (paragraphs st) ≤ Z.of_nat (codeBlockStart st))%Z
          ∧ (codeBlockStart st < i)%nat
     else currentParagraph st = []
          ∨ (nextFree 0 (paragraphs st) ≤ st_startLine st)%Z
            ∧ (st_startLine st < Z.of_nat i)%Z).

(** A segment that is not code and whose hash is not among [oldHashes]. *)
Definition isNewText (oldHashes : list string) (p : ParsedParagraph) : bool :=
  match type p with
  | Code => false
  | _ => negb (bool_decide (hash p ∈ oldHashes))
  end.

(** * Properties *)

(** ** The embedding on the cases of [src/test/parser.test.ts] *)

Example splitIntoParagraphs_by_empty_lines :
  splitIntoParagraphs
    (doc ["First paragraph"; EmptyString; "Second paragraph"; EmptyString; "Third paragraph"])
  = ["First paragraph"; "Second paragraph"; "Third paragraph"].
Proof. reflexivity. Qed.

Example splitIntoParagraphs_multiple_empty_lines :
  List.length (splitIntoParagraphs
                 (doc ["First"; EmptyString; EmptyString; EmptyString; "Second"])) = 2%nat.
Proof. reflexivity. Qed.

Example splitIntoParagraphs_filters_empty :
  splitIntoParagraphs
    (doc [EmptyString; EmptyString; "First"; EmptyString; EmptyString; EmptyString;
          EmptyString])
  = ["First"].
Proof. reflexivity. Qed.

Example splitIntoParagraphsWithHash_code_block :
  List.map (fun p => (type p, content p))
    (splitIntoParagraphsWithHash idHash
       (doc ["Text before"; EmptyString; "```javascript"; "console.log(1);"; "```";
             EmptyString; "Text after"]))
  = [(Text, "Text before");
     (Code, doc ["```javascript"; "console.log(1);"; "```"]);
     (Text, "Text after")].
Proof. reflexivity. Qed.

Example joinParagraphs_double_newlines :
  joinParagraphs ["First"; "Second"; "Third"]
  = doc ["First"; EmptyString; "Second"; EmptyString; "Third"].
Proof. reflexivity. Qed.

(** The end-to-end example of the specification: two text units are
    dispatched, and the code block comes back as it was. *)
Example forward_translation_example :
  let r := translateIncremental idHash echoProvider
             (doc ["# Title"; EmptyString; "Hello"; EmptyString; "```js"; "console.log(1)"; "```"])
             {| signal := None; existingParagraphs := None; maxConcurrency := None |} 0%N in
  attemptsOf (events r) = [0; 0]%nat
  ∧ ∃ res, outcome r = Fulfilled res
           ∧ changedParagraphs res = 2%nat
           ∧ itr_translatedText res
             = doc ["T:# Title"; EmptyString; "T:Hello"; EmptyString;
                    "```js"; "console.log(1)"; "```"].
Proof.
  cbn zeta. split; [vm_compute; reflexivity|].
  eexists. split; [vm_compute; reflexivity|]. split; reflexivity.
Qed.


(** ** The segmenter *)

Section ParserFacts.

Variable calculateHash : string → string.

Lemma splitStep_types lines st i line :
  Forall textOrCode (paragraphs st) →
  Forall textOrCode (paragraphs (splitStep calculateHash lines st i line)).
Proof.
  intros H. unfold splitStep.
  repeat (match goal with
          | |- context [if ?b then _ else _] => destruct b
          | |- context [match currentParagraph ?s with _ => _ end] =>
              destruct (currentParagraph s)
          end; simpl);
    repeat (apply Forall_app; split); try assumption;
    (apply Forall_cons_2; [unfold textOrCode; simpl; auto | apply Forall_nil_2]).
Qed.

Lemma splitLoop_types lines rest : ∀ i st,
  Forall textOrCode (paragraphs st) →
  Forall textOrCode (paragraphs (splitLoop calculateHash lines rest i st)).
Proof.
  induction rest as [|line rest IH]; intros i st H; simpl; [assumption|].
  apply IH, splitStep_types, H.
Qed.

Lemma splitIntoParagraphsWithHash_types document :
  Forall textOrCode (splitIntoParagraphsWithHash calculateHash document).
Proof.
  unfold splitIntoParagraphsWithHash, splitFinish.
  set (lines := JS.split JS.LF document).
  pose proof (splitLoop_types lines lines 0 (splitInit)
                ltac:(constructor)) as H.
  destruct (currentParagraph _); [assumption|].
  apply Forall_app; split; [assumption|].
  apply Forall_cons_2; [|apply Forall_nil_2]. unfold textOrCode; simpl.
  destruct (inCodeBlock _); auto.
Qed.

End ParserFacts.

(** C10. Every segment of [splitIntoParagraphsWithHash] has type [Text]
    or [Code], never [Frontmatter]; a leading YAML front-matter block
    between [---] lines is cut at its blank lines into ordinary text
    paragraphs. *)
Theorem C10_no_frontmatter_segment :
  (∀ (calculateHash : string → string) (document : string) (p : ParsedParagraph),
     p ∈ splitIntoParagraphsWithHash calculateHash document →
     (type p = Text ∨ type p = Code) ∧ type p ≠ Frontmatter) ∧
  List.map (fun p => (content p, type p))
    (splitIntoParagraphsWithHash idHash
       (doc ["---"; "title: T"; EmptyString; "author: A"; "---"; EmptyString; "Body"]))
  = [(doc ["---"; "title: T"], Text); (doc ["author: A"; "---"], Text); ("Body", Text)].
Proof.
  split; [|reflexivity].
  intros calculateHash document p Hp.
  pose proof (splitIntoParagraphsWithHash_types calculateHash document) as H.
  rewrite Forall_forall in H.
  specialize (H p Hp). split; [exact H|].
  destruct H as [H|H]; rewrite H; discriminate.
Qed.

Lemma C10_witness :
  let document := doc ["---"; "title: T"; "---"; EmptyString; "```"; "x"; "```"] in
  let p := {| content := doc ["---"; "title: T"; "---"]; type := Text;
              hash := idHash (doc ["---"; "title: T"; "---"]);
              startLine := 0; endLine := 2 |} in
  p ∈ splitIntoParagraphsWithHash idHash document
  ∧ (type p = Text ∨ type p = Code) ∧ type p ≠ Frontmatter.
Proof.
  intros document p.
  assert (Hin : p ∈ splitIntoParagraphsWithHash idHash document) by (vm_compute; left).
  split; [exact Hin|].
  destruct C10_no_frontmatter_segment as [H _].
  exact (H idHash document p Hin).
Defined.

(** ** Promises *)

Lemma bind_run {A B} (m : Task A) (f : A → Task B) t :
  (m ≫= f) t = andThen m f t.
Proof. reflexivity. Qed.

Lemma andThen_fulfilled {A B} (m : Task A) (f : A → Task B) t w :
  outcome (andThen m f t) = Fulfilled w →
  ∃ v, outcome (m t) = Fulfilled v ∧ outcome (f v (finish (m t))) = Fulfilled w.
Proof.
  unfold andThen. destruct (outcome (m t)) as [v| |] eqn:E; simpl; try discriminate.
  intros H. exists v. split; [reflexivity | exact H].
Qed.

Lemma andThen_events {A B} (Q : Event → Prop) (m : Task A) (f : A → Task B) t :
  Forall Q (events (m t)) →
  (∀ v, outcome (m t) = Fulfilled v → Forall Q (events (f v (finish (m t))))) →
  Forall Q (events (andThen m f t)).
Proof.
  intros Hm Hf. unfold andThen.
  destruct (outcome (m t)) as [v| |] eqn:E; simpl; try assumption.
  apply Forall_app; split; [assumption | apply Hf; reflexivity].
Qed.

Lemma tryCatch_events {A} (Q : Event → Prop) (m : Task A) (h : Thrown → Task A) t :
  Forall Q (events (m t)) →
  (∀ e, outcome (m t) = Rejected e → Forall Q (events (h e (finish (m t))))) →
  Forall Q (events (tryCatch m h t)).
Proof.
  intros Hm Hh. unfold tryCatch.
  destruct (outcome (m t)) as [v|e|] eqn:E; simpl; try assumption.
  apply Forall_app; split; [assumption | apply Hh; reflexivity].
Qed.

Lemma promiseAll_events {A} (Q : Event → Prop) (tasks : list (Task A)) t :
  (∀ task, task ∈ tasks → Forall Q (events (task t))) →
  Forall Q (events (promiseAll tasks t)).
Proof.
  intros H.
  assert (Hc : Forall Q (List.concat (List.map events (List.map (fun task => task t) tasks)))).
  { induction tasks as [|task tasks IH]; simpl; [constructor|].
    apply Forall_app; split.
    - apply H. left.
    - apply IH. intros task' Hin. apply H. right. exact Hin. }
  unfold promiseAll.
  destruct (firstRejection _) as [[t' e]|]; [exact Hc|].
  destruct (fulfilledValues _); exact Hc.
Qed.

(** ** The reconciliation plan *)

Lemma fold_insert_lookup (ps : list ParagraphMapping) : ∀ (m : gmap string ParagraphMapping) h,
  is_Some (fold_left (fun m p => <[sourceHash p := p]> m) ps m !! h)
  ↔ (∃ e, e ∈ ps ∧ sourceHash e = h) ∨ is_Some (m !! h).
Proof.
  induction ps as [|p ps IH]; intros m h; simpl.
  - split; [auto|]. intros [[e [He _]]|H]; [inversion He | exact H].
  - rewrite IH. split.
    + intros [[e [He Hh]]|H].
      * left. exists e. split; [right; exact He | exact Hh].
      * destruct (decide (sourceHash p = h)) as [Heq|Hne].
        -- left. exists p. split; [left | exact Heq].
        -- right. rewrite lookup_insert_ne in H by exact Hne. exact H.
    + intros [[e [He Hh]]|H].
      * apply elem_of_cons in He as [->|He].
        -- right. rewrite <- Hh, lookup_insert_eq. eauto.
        -- left. exists e. auto.
      * right. destruct (decide (sourceHash p = h)) as [Heq|Hne].
        -- rewrite <- Heq, lookup_insert_eq. eauto.
        -- rewrite lookup_insert_ne by exact Hne. exact H.
Qed.

Lemma existingHashMap_lookup (prior : list ParagraphMapping) h :
  is_Some (existingHashMap (Some prior) !! h) ↔ ∃ e, e ∈ prior ∧ sourceHash e = h.
Proof.
  unfold existingHashMap. rewrite fold_insert_lookup. split; [|auto].
  intros [H|H]; [exact H|]. rewrite lookup_empty in H. destruct H; discriminate.
Qed.

Lemma planLoop_spec existing rest : ∀ i pl,
  paragraphsToTranslate (planLoop existing rest i pl)
    = paragraphsToTranslate pl ++ pendingFrom existing rest i
  ∧ resultParagraphs (planLoop existing rest i pl)
    = resultParagraphs pl ++ List.map (planEntry existing) rest.
Proof.
  induction rest as [|p rest IH]; intros i pl; simpl.
  - rewrite !app_nil_r. auto.
  - destruct (IH (S i) (planStep existing pl i p)) as [-> ->].
    unfold planStep, isPending, planEntry.
    destruct (type p); simpl; try destruct (existing !! hash p); simpl;
      rewrite <- ?app_assoc; auto.
Qed.

Lemma plan_spec existing currentParagraphs :
  paragraphsToTranslate (plan existing currentParagraphs)
    = pendingFrom existing currentParagraphs 0
  ∧ resultParagraphs (plan existing currentParagraphs)
    = List.map (planEntry existing) currentParagraphs.
Proof. unfold plan. destruct (planLoop_spec existing currentParagraphs 0
         {| paragraphsToTranslate := []; resultParagraphs := [] |}) as [-> ->]. auto. Qed.

Lemma pendingFrom_elem existing rest : ∀ i j p,
  (j, p) ∈ pendingFrom existing rest i →
  (i ≤ j)%nat ∧ rest !! (j - i)%nat = Some p ∧ isPending existing p = true.
Proof.
  induction rest as [|q rest IH]; intros i j p H; simpl in H; [inversion H|].
  destruct (isPending existing q) eqn:E.
  - apply elem_of_cons in H as [H|H].
    + inversion H; subst. rewrite Nat.sub_diag. auto.
    + destruct (IH _ _ _ H) as (Hle & Hl & Hp).
      replace (j - i)%nat with (S (j - S i)) by lia. split; [lia|]. auto.
  - destruct (IH _ _ _ H) as (Hle & Hl & Hp).
    replace (j - i)%nat with (S (j - S i)) by lia. split; [lia|]. auto.
Qed.

Lemma pendingFrom_nil existing rest i :
  Forall (fun p => isPending existing p = false) rest →
  pendingFrom existing rest i = [].
Proof.
  intros H. revert i. induction H as [|p rest Hp _ IH]; intros i; simpl; [reflexivity|].
  rewrite Hp. apply IH.
Qed.

Lemma pendingFrom_length existing rest i :
  (List.length (pendingFrom existing rest i) ≤ List.length rest)%nat.
Proof.
  revert i. induction rest as [|p rest IH]; intros i; simpl; [lia|].
  destruct (isPending existing p); simpl; specialize (IH (S i)); lia.
Qed.


(** ** Forward translation *)

Section ForwardFacts.

Variable calculateHash : string → string.
Variable provider : Provider.
Variable configMaxConcurrency : option nat.

Lemma translateIncremental_nothing_pending document options t :
  paragraphsToTranslate
    (plan (existingHashMap (existingParagraphs options))
          (splitIntoParagraphsWithHash calculateHash document)) = [] →
  translateIncremental calculateHash provider document options t
  = mkRun (Fulfilled
      {| itr_translatedText :=
           JS.join (String JS.LF (String JS.LF EmptyString))
             (List.map translatedContent
                (resultParagraphs
                   (plan (existingHashMap (existingParagraphs options))
                         (splitIntoParagraphsWithHash calculateHash document))));
         itr_paragraphs :=
           resultParagraphs
             (plan (existingHashMap (existingParagraphs options))
                   (splitIntoParagraphsWithHash calculateHash document));
         changedParagraphs := 0;
         reusedParagraphs :=
           List.length (splitIntoParagraphsWithHash calculateHash document);
         itr_tokenUsage := None |}) t [].
Proof.
  intros H. unfold translateIncremental. rewrite H. simpl.
  rewrite bind_run. unfold andThen, resolve. simpl.
  rewrite Nat.sub_0_r. reflexivity.
Qed.

End ForwardFacts.

(** C1. When every segment of the document has an entry of the same
    [sourceHash] in the prior mapping, [translateIncremental] makes no
    request to the provider (it causes no event at all and settles at
    once), and it returns [reusedParagraphs] equal to the number of
    segments and [changedParagraphs] equal to zero. *)
Theorem C1_unchanged_document_dispatches_nothing
    (calculateHash : string → string) (provider : Provider)
    (document : string) (prior : list ParagraphMapping)
    (signal : AbortSignal) (maxConcurrency : option nat) (t : N) :
  (∀ p, p ∈ splitIntoParagraphsWithHash calculateHash document →
        ∃ e, e ∈ prior ∧ sourceHash e = hash p) →
  let r := translateIncremental calculateHash provider document
             {| signal := signal; existingParagraphs := Some prior;
                maxConcurrency := maxConcurrency |} t in
  events r = [] ∧ finish r = t ∧
  ∃ res, outcome r = Fulfilled res
         ∧ changedParagraphs res = 0%nat
         ∧ reusedParagraphs res
           = List.length (splitIntoParagraphsWithHash calculateHash document)
         ∧ itr_tokenUsage res = None.
Proof.
  intros Hall r. subst r.
  rewrite translateIncremental_nothing_pending.
  - simpl. repeat split; eauto.
  - cbn [existingParagraphs].
    destruct (plan_spec (existingHashMap (Some prior))
             (splitIntoParagraphsWithHash calculateHash document)) as [-> _].
    apply pendingFrom_nil. apply Forall_forall. intros p Hp.
    unfold isPending. destruct (type p); try reflexivity;
      destruct (Hall p Hp) as (e & He & Hh);
      assert (Hs : is_Some (existingHashMap (Some prior) !! hash p))
        by (apply existingHashMap_lookup; eauto);
      destruct Hs as [x ->]; reflexivity.
Qed.

Lemma C1_witness :
  let prior := [ {| sourceContent := "Hello"; translatedContent := "Bonjour";
                    sourceHash := idHash "Hello" |} ] in
  let r := translateIncremental idHash echoProvider (doc ["Hello"; EmptyString; "Hello"])
             {| signal := None; existingParagraphs := Some prior;
                maxConcurrency := None |} 0%N in
  events r = [] ∧ finish r = 0%N ∧
  ∃ res, outcome r = Fulfilled res
         ∧ changedParagraphs res = 0%nat
         ∧ reusedParagraphs res = 2%nat
         ∧ itr_tokenUsage res = None.
Proof.
  apply (C1_unchanged_document_dispatches_nothing idHash echoProvider
           (doc ["Hello"; EmptyString; "Hello"])).
  intros p Hp. vm_compute in Hp.
  exists {| sourceContent := "Hello"; translatedContent := "Bonjour";
            sourceHash := idHash "Hello" |}.
  split; [left|].
  repeat (apply elem_of_cons in Hp as [->|Hp]; [reflexivity|]).
  inversion Hp.
Defined.

(** ** Retry *)

Lemma aborted_false signal t :
  outcome (aborted signal t) = Fulfilled false → beforeAbort signal t.
Proof.
  unfold aborted, beforeAbort. destruct signal as [a|]; simpl; [|auto].
  intros H. injection H as H. apply N.leb_gt in H. exact H.
Qed.

Lemma aborted_run signal t :
  aborted signal t
  = mkRun (Fulfilled (match signal with Some a => (a <=? t)%N | None => false end)) t [].
Proof. reflexivity. Qed.

Section RetryFacts.

Context {T : Type}.
Variable operation : nat → Task T.
Variable maxRetries : nat.
Variable signal : AbortSignal.

(** One iteration of the loop, spelled out. *)
Lemma withRetryFrom_step remaining attempt lastError t :
  withRetryFrom operation maxRetries signal (S remaining) attempt lastError t
  = if match signal with Some a => (a <=? t)%N | None => false end
    then mkRun (Rejected (ThrownTranslationError cancelledError)) t []
    else
      let r := operation attempt t in
      match outcome r with
      | Rejected error =>
          let e := classifyError error in
          if negb (retryable e)
          then mkRun (Rejected (ThrownTranslationError e)) (finish r) (events r ++ [])
          else
            let pause := if (attempt <? maxRetries - 1)%nat
                         then sleep (retryDelay e attempt) else resolve () in
            let p := pause (finish r) in
            let r' := withRetryFrom operation maxRetries signal remaining (S attempt)
                        (Some e) (finish p) in
            mkRun (outcome r') (finish r') (events r ++ events p ++ events r')
      | _ => mkRun (outcome r) (finish r) ([] ++ events r)
      end.
Proof.
  cbn [withRetryFrom]. rewrite bind_run. unfold andThen at 1.
  rewrite aborted_run. cbn [outcome finish events].
  destruct (match signal with Some a => (a <=? t)%N | None => false end); [reflexivity|].
  unfold tryCatch. cbn zeta.
  destruct (operation attempt t) as [o f ev]. cbn [outcome finish events].
  destruct o as [v|error|]; try reflexivity.
  destruct (negb (retryable (classifyError error))); [reflexivity|].
  rewrite bind_run. unfold andThen.
  destruct (attempt <? maxRetries - 1)%nat; reflexivity.
Qed.

Lemma withRetryFrom_settles :
  (∀ k t, outcome (operation k t) ≠ Pending) →
  ∀ remaining attempt lastError t,
    outcome (withRetryFrom operation maxRetries signal remaining attempt lastError t) ≠ Pending.
Proof.
  intros Hop. induction remaining as [|remaining IH]; intros attempt lastError t.
  - simpl. destruct lastError; discriminate.
  - rewrite withRetryFrom_step.
    destruct (match signal with Some a => (a <=? t)%N | None => false end); [discriminate|].
    cbn zeta. specialize (Hop attempt t).
    destruct (outcome (operation attempt t)) as [v|error|] eqn:E; cbn [outcome];
      try discriminate; try congruence.
    destruct (negb (retryable (classifyError error))); [discriminate|].
    cbn [outcome]. apply IH.
Qed.

Lemma withRetryFrom_events (Q : Event → Prop) :
  (∀ k t, beforeAbort signal t → Forall Q (events (operation k t))) →
  (∀ ms t, Q (EvSleep ms t)) →
  ∀ remaining attempt lastError t,
    Forall Q (events (withRetryFrom operation maxRetries signal remaining attempt lastError t)).
Proof.
  intros Hop Hsleep. induction remaining as [|remaining IH]; intros attempt lastError t.
  - simpl. destruct lastError; constructor.
  - rewrite withRetryFrom_step.
    pose proof (aborted_false signal t) as Hab. rewrite aborted_run in Hab. cbn in Hab.
    destruct (match signal with Some a => (a <=? t)%N | None => false end); [constructor|].
    specialize (Hop attempt t (Hab eq_refl)). cbn zeta.
    destruct (outcome (operation attempt t)) as [v|error|]; cbn [events];
      try exact Hop.
    destruct (negb (retryable (classifyError error))); cbn [events].
    + rewrite app_nil_r. exact Hop.
    + apply Forall_app; split; [exact Hop|]. apply Forall_app; split; [|apply IH].
      destruct (attempt <? maxRetries - 1)%nat; cbn; repeat constructor. apply Hsleep.
Qed.

End RetryFacts.

(** ** [Promise.all] *)

Lemma fulfilledValues_Forall2 {A} (runs : list (Run A)) vs :
  fulfilledValues runs = Some vs ↔ Forall2 (fun r v => outcome r = Fulfilled v) runs vs.
Proof.
  revert vs. induction runs as [|r runs IH]; intros vs; simpl.
  - split.
    + intros H. injection H as <-. constructor.
    + intros H. inversion H. reflexivity.
  - split.
    + destruct (outcome r) as [v| |] eqn:E; try discriminate.
      destruct (fulfilledValues runs) as [vs'|] eqn:E'; try discriminate.
      intros H. injection H as <-. constructor; [exact E | apply IH; reflexivity].
    + intros H. inversion H as [|r' v runs' vs' Hv Hrest]; subst.
      rewrite Hv. apply IH in Hrest. rewrite Hrest. reflexivity.
Qed.

Lemma firstRejection_None {A} (runs : list (Run A)) :
  firstRejection runs = None ↔ Forall (fun r => ∀ e, outcome r ≠ Rejected e) runs.
Proof.
  induction runs as [|r runs IH]; simpl.
  - split; [constructor | reflexivity].
  - split.
    + intros H. destruct (outcome r) as [v|e|] eqn:E.
      * constructor; [congruence | apply IH; exact H].
      * destruct (firstRejection runs) as [[t' e']|]; [|discriminate].
        destruct (finish r <=? t')%N; discriminate.
      * constructor; [congruence | apply IH; exact H].
    + intros H. inversion H as [|r' runs' Hr Hrest]; subst. apply IH in Hrest.
      rewrite Hrest. destruct (outcome r) as [v|e|]; try reflexivity.
      exfalso. apply (Hr e). reflexivity.
Qed.

Lemma fold_max_ge (l : list N) (t : N) :
  (t ≤ fold_right N.max t l)%N ∧ Forall (fun x => (x ≤ fold_right N.max t l)%N) l.
Proof.
  induction l as [|x l [IH1 IH2]]; simpl.
  - split; [lia | constructor].
  - split; [lia|]. constructor; [lia|].
    eapply Forall_impl; [exact IH2|]. simpl. intros y Hy. lia.
Qed.

Lemma promiseAll_fulfilled {A} (tasks : list (Task A)) t vs :
  outcome (promiseAll tasks t) = Fulfilled vs ↔
  Forall2 (fun task v => outcome (task t) = Fulfilled v) tasks vs.
Proof.
  unfold promiseAll. split.
  - destruct (firstRejection _) as [[t' e]|]; [discriminate|].
    destruct (fulfilledValues _) as [vs'|] eqn:E; [|discriminate].
    cbn. intros H. injection H as <-.
    apply fulfilledValues_Forall2 in E.
    apply Forall2_fmap_l in E. exact E.
  - intros H.
    assert (E : fulfilledValues (List.map (fun task => task t) tasks) = Some vs).
    { apply fulfilledValues_Forall2. apply Forall2_fmap_l. exact H. }
    assert (E' : firstRejection (List.map (fun task => task t) tasks) = None).
    { apply firstRejection_None. apply Forall_fmap.
      clear E. induction H as [|task v tasks vs Hv _ IH]; constructor; [|exact IH].
      cbn. intros e. rewrite Hv. discriminate. }
    rewrite E', E. reflexivity.
Qed.

Lemma promiseAll_fulfilled_finish {A} (tasks : list (Task A)) t vs :
  outcome (promiseAll tasks t) = Fulfilled vs →
  (t ≤ finish (promiseAll tasks t))%N ∧
  ∀ task, task ∈ tasks → (finish (task t) ≤ finish (promiseAll tasks t))%N.
Proof.
  unfold promiseAll.
  destruct (firstRejection _) as [[t' e]|]; [discriminate|].
  destruct (fulfilledValues _) as [vs'|]; [|discriminate].
  cbn. intros _.
  destruct (fold_max_ge (List.map finish (List.map (fun task => task t) tasks)) t) as [H1 H2].
  split; [exact H1|]. intros task Hin.
  rewrite Forall_forall in H2. apply H2.
  apply (list_elem_of_fmap_2 finish).
  apply (list_elem_of_fmap_2 (fun task => task t)). exact Hin.
Qed.

Lemma promiseAll_settles {A} (tasks : list (Task A)) t :
  (∀ task, task ∈ tasks → outcome (task t) ≠ Pending) →
  outcome (promiseAll tasks t) ≠ Pending.
Proof.
  intros H. unfold promiseAll.
  destruct (firstRejection _) as [[t' e]|] eqn:E; [discriminate|].
  destruct (fulfilledValues _) as [vs'|] eqn:E'; [discriminate|].
  exfalso. apply firstRejection_None in E.
  induction tasks as [|task tasks IH]; [discriminate|].
  simpl in E'. inversion E as [|r runs Hr Hrest]; subst.
  destruct (outcome (task t)) as [v|e|] eqn:Eo.
  - destruct (fulfilledValues (List.map (fun task => task t) tasks)) eqn:E2; [discriminate|].
    apply IH; auto. intros task' Hin. apply H. right. exact Hin.
  - apply (Hr e). reflexivity.
  - apply (H task); [left | exact Eo].
Qed.

(** ** The dispatcher *)

Section DispatchFacts.

Variable provider : Provider.

Lemma operation_run index attempt content t :
  (r ← generateText provider index attempt content;
   resolve {| translatedText := text r; tokenUsage := convertTokenUsage (usage r) |}) t
  = let '(latency, answer) :=
      provider {| req_index := index; req_attempt := attempt;
                  req_content := content; req_time := t |} in
    mkRun (match answer with
           | inl e => Rejected e
           | inr r => Fulfilled {| translatedText := text r;
                                   tokenUsage := convertTokenUsage (usage r) |}
           end)
          (t + latency)%N [EvRequest index attempt content t].
Proof.
  rewrite bind_run. unfold andThen, generateText.
  destruct (provider _) as [latency [e|r]]; reflexivity.
Qed.

Lemma translate_settles index content signal t :
  outcome (translate provider index content signal t) ≠ Pending.
Proof.
  apply withRetryFrom_settles. intros k t'. rewrite operation_run.
  destruct (provider _) as [latency [e|r]]; discriminate.
Qed.

Lemma translate_events (Q : Event → Prop) index content signal t :
  (∀ k t', beforeAbort signal t' → Q (EvRequest index k content t')) →
  (∀ ms t', Q (EvSleep ms t')) →
  Forall Q (events (translate provider index content signal t)).
Proof.
  intros Hreq Hsleep. apply withRetryFrom_events; [|exact Hsleep].
  intros k t' Hb. rewrite operation_run.
  destruct (provider _) as [latency [e|r]]; repeat constructor; apply Hreq, Hb.
Qed.

Lemma translateUnit_run total signal globalIndex paragraph t :
  translateUnit provider total signal globalIndex paragraph t
  = let r := translate provider globalIndex paragraph signal t in
    match outcome r with
    | Fulfilled v =>
        mkRun (Fulfilled (globalIndex, v)) (finish r)
              (events r ++ [EvProgress (globalIndex + 1) total (finish r)] ++ [])
    | Rejected e => mkRun (Rejected e) (finish r) (events r)
    | Pending => mkRun Pending (finish r) (events r)
    end.
Proof.
  unfold translateUnit. rewrite bind_run. unfold andThen at 1.
  destruct (outcome (translate provider globalIndex paragraph signal t)); reflexivity.
Qed.

Lemma translateUnit_fulfilled total signal globalIndex paragraph t x :
  outcome (translateUnit provider total signal globalIndex paragraph t) = Fulfilled x ↔
  ∃ v, x = (globalIndex, v)
       ∧ outcome (translate provider globalIndex paragraph signal t) = Fulfilled v.
Proof.
  rewrite translateUnit_run. cbn zeta.
  destruct (outcome (translate provider globalIndex paragraph signal t)) as [v|e|]; cbn.
  - split.
    + intros H. injection H as <-. eauto.
    + intros (v' & -> & H). injection H as ->. reflexivity.
  - split; [discriminate | intros (v' & _ & H); discriminate].
  - split; [discriminate | intros (v' & _ & H); discriminate].
Qed.

Lemma translateUnit_finish total signal globalIndex paragraph t :
  finish (translateUnit provider total signal globalIndex paragraph t)
  = finish (translate provider globalIndex paragraph signal t).
Proof.
  rewrite translateUnit_run. cbn zeta.
  destruct (outcome (translate provider globalIndex paragraph signal t)); reflexivity.
Qed.

Lemma translateUnit_settles total signal globalIndex paragraph t :
  outcome (translateUnit provider total signal globalIndex paragraph t) ≠ Pending.
Proof.
  rewrite translateUnit_run. cbn zeta.
  pose proof (translate_settles globalIndex paragraph signal t) as H.
  destruct (outcome (translate provider globalIndex paragraph signal t));
    cbn; congruence.
Qed.

Lemma translateUnit_events (Q : Event → Prop) total signal globalIndex paragraph t :
  (∀ k t', beforeAbort signal t' → Q (EvRequest globalIndex k paragraph t')) →
  (∀ ms t', Q (EvSleep ms t')) →
  (∀ c n t', Q (EvProgress c n t')) →
  Forall Q (events (translateUnit provider total signal globalIndex paragraph t)).
Proof.
  intros Hreq Hsleep Hprog. rewrite translateUnit_run. cbn zeta.
  pose proof (translate_events Q globalIndex paragraph signal t Hreq Hsleep) as H.
  destruct (outcome (translate provider globalIndex paragraph signal t)); cbn;
    try exact H.
  apply Forall_app; split; [exact H|]. repeat constructor. apply Hprog.
Qed.

Section Loop.

Variable paragraphs : list string.
Variable signal : AbortSignal.
Variable maxConcurrency : nat.

Lemma slice_lookup (i b : nat) :
  slice paragraphs i (i + maxConcurrency) !! b
  = if decide (b < maxConcurrency)%nat then paragraphs !! (i + b)%nat else None.
Proof.
  unfold slice. replace (i + maxConcurrency - i)%nat with maxConcurrency by lia.
  destruct (decide (b < maxConcurrency)%nat) as [H|H].
  - rewrite lookup_take_lt by exact H. apply lookup_drop.
  - apply lookup_take_ge. lia.
Qed.

Lemma slice_length (i : nat) :
  List.length (slice paragraphs i (i + maxConcurrency))
  = Nat.min maxConcurrency (List.length paragraphs - i).
Proof.
  unfold slice. replace (i + maxConcurrency - i)%nat with maxConcurrency by lia.
  rewrite length_take, length_drop. reflexivity.
Qed.

Lemma translateParagraphsFrom_step fuel i results t :
  (i < List.length paragraphs)%nat →
  translateParagraphsFrom provider (S fuel) paragraphs signal maxConcurrency i results t
  = if match signal with Some a => (a <=? t)%N | None => false end
    then mkRun (Rejected (ThrownTranslationError cancelledError)) t []
    else
      let pa := promiseAll (batchPromises provider paragraphs signal maxConcurrency i) t in
      match outcome pa with
      | Fulfilled batchResults =>
          let r' := translateParagraphsFrom provider fuel paragraphs signal maxConcurrency
                      (i + maxConcurrency) (storeBatch batchResults results) (finish pa) in
          mkRun (outcome r') (finish r') ([] ++ events pa ++ events r')
      | Rejected e => mkRun (Rejected e) (finish pa) ([] ++ events pa)
      | Pending => mkRun Pending (finish pa) ([] ++ events pa)
      end.
Proof.
  intros Hi. cbn [translateParagraphsFrom].
  apply Nat.ltb_lt in Hi. rewrite Hi. cbn [negb].
  rewrite bind_run. unfold andThen at 1. rewrite aborted_run. cbn [outcome finish events].
  destruct (match signal with Some a => (a <=? t)%N | None => false end); [reflexivity|].
  rewrite bind_run. unfold andThen. fold (batchPromises provider paragraphs signal maxConcurrency i).
  destruct (outcome (promiseAll (batchPromises provider paragraphs signal maxConcurrency i) t)); reflexivity.
Qed.

Lemma translateParagraphsFrom_done fuel i results t :
  (List.length paragraphs ≤ i)%nat →
  translateParagraphsFrom provider fuel paragraphs signal maxConcurrency i results t
  = mkRun (Fulfilled results) t [].
Proof.
  intros Hi. apply Nat.ltb_ge in Hi.
  destruct fuel; cbn [translateParagraphsFrom]; rewrite Hi; reflexivity.
Qed.

Lemma batchPromises_events i t task :
  task ∈ batchPromises provider paragraphs signal maxConcurrency i →
  Forall (dispatchEvent paragraphs signal) (events (task t)).
Proof.
  intros Hin. apply elem_of_lookup_imap in Hin as (b & p & -> & Hb).
  rewrite slice_lookup in Hb. destruct (decide (b < maxConcurrency)%nat); [|discriminate].
  apply translateUnit_events; cbn; auto.
Qed.

Lemma translateParagraphsFrom_events fuel : ∀ i results t,
  Forall (dispatchEvent paragraphs signal)
    (events (translateParagraphsFrom provider fuel paragraphs signal maxConcurrency i results t)).
Proof.
  induction fuel as [|fuel IH]; intros i results t.
  - cbn. destruct (negb _); constructor.
  - destruct (Nat.lt_ge_cases i (List.length paragraphs)) as [Hi|Hi].
    + rewrite translateParagraphsFrom_step by exact Hi.
      destruct (match signal with Some a => (a <=? t)%N | None => false end); [constructor|].
      cbn zeta.
      pose proof (promiseAll_events (dispatchEvent paragraphs signal) (batchPromises provider paragraphs signal maxConcurrency i) t
                    (fun task => batchPromises_events i t task)) as Hpa.
      destruct (outcome (promiseAll (batchPromises provider paragraphs signal maxConcurrency i) t)); cbn; try exact Hpa.
      apply Forall_app; split; [exact Hpa | apply IH].
    + rewrite translateParagraphsFrom_done by exact Hi. constructor.
Qed.

End Loop.

Lemma translateParagraphs_events paragraphs signal maxConcurrency t :
  Forall (dispatchEvent paragraphs signal)
    (events (translateParagraphs provider paragraphs signal maxConcurrency t)).
Proof. unfold translateParagraphs. apply translateParagraphsFrom_events. Qed.

End DispatchFacts.

Lemma div_in_batch (cap k j : nat) :
  (k * cap ≤ j)%nat → (j < k * cap + cap)%nat → (j / cap)%nat = k.
Proof.
  intros H1 H2. symmetry.
  apply (Nat.div_unique j cap k (j - k * cap)); lia.
Qed.

Lemma arraySet_in_range {A} (a : list (option A)) i v :
  (i < List.length a)%nat → arraySet a i v = <[i := Some v]> a.
Proof. intros H. unfold arraySet. apply Nat.ltb_lt in H. rewrite H. reflexivity. Qed.

Lemma storeBatch_spec (vs : list (nat * TranslationResult)) :
  ∀ (results : list (option TranslationResult)) (i : nat),
    (i + List.length vs ≤ List.length results)%nat →
    (∀ b x, vs !! b = Some x → fst x = (i + b)%nat) →
    List.length (storeBatch vs results) = List.length results
    ∧ (∀ j, (j < i ∨ i + List.length vs ≤ j)%nat →
            storeBatch vs results !! j = results !! j)
    ∧ (∀ b x, vs !! b = Some x →
              storeBatch vs results !! (i + b)%nat = Some (Some (snd x))).
Proof.
  unfold storeBatch.
  induction vs as [|x vs IH]; intros results i Hlen Hidx; cbn [fold_left].
  - split; [reflexivity|]. split; [reflexivity|]. intros b y H. discriminate.
  - cbn [List.length] in Hlen.
    assert (Hx : fst x = i) by (rewrite (Hidx 0%nat x eq_refl); lia).
    rewrite Hx, arraySet_in_range by lia.
    destruct (IH (<[i := Some (snd x)]> results) (S i)) as (IHlen & IHout & IHin).
    + rewrite length_insert. lia.
    + intros b y Hy. rewrite (Hidx (S b) y Hy). lia.
    + rewrite length_insert in IHlen.
      split; [exact IHlen|]. split.
      * intros j Hj. cbn [List.length] in Hj. rewrite IHout by lia.
        apply list_lookup_insert_ne. lia.
      * intros [|b] y Hy.
        -- cbn in Hy. injection Hy as <-.
           rewrite IHout by lia. rewrite Nat.add_0_r.
           apply list_lookup_insert_eq. lia.
        -- cbn in Hy. replace (i + S b)%nat with (S i + b)%nat by lia.
           apply IHin. exact Hy.
Qed.

Section DispatchResult.

Variable provider : Provider.
Variable paragraphs : list string.
Variable signal : AbortSignal.
Variable maxConcurrency : nat.

(** What [Promise.all] returns for the batch that starts at unit [i]. *)
Lemma batch_fulfilled i t batchResults :
  outcome (promiseAll (batchPromises provider paragraphs signal maxConcurrency i) t)
    = Fulfilled batchResults →
  List.length batchResults = Nat.min maxConcurrency (List.length paragraphs - i)
  ∧ ∀ b x, batchResults !! b = Some x →
      ∃ p v, paragraphs !! (i + b)%nat = Some p ∧ (b < maxConcurrency)%nat
             ∧ x = ((i + b)%nat, v)
             ∧ outcome (translate provider (i + b) p signal t) = Fulfilled v.
Proof.
  intros H. apply promiseAll_fulfilled in H.
  split.
  - rewrite <- (Forall2_length _ _ _ H). unfold batchPromises.
    rewrite length_imap. apply slice_length.
  - intros b x Hx.
    destruct (Forall2_lookup_r _ _ _ _ _ H Hx) as (task & Htask & Hout).
    unfold batchPromises in Htask. rewrite list_lookup_imap in Htask.
    rewrite slice_lookup in Htask.
    destruct (decide (b < maxConcurrency)%nat) as [Hb|]; [|discriminate].
    destruct (paragraphs !! (i + b)%nat) as [p|] eqn:Ep; [|discriminate].
    cbn in Htask. injection Htask as <-.
    apply translateUnit_fulfilled in Hout as (v & -> & Hv).
    exists p, v. auto.
Qed.

Lemma loop_fulfilled (t0 : N) (Hcap : (0 < maxConcurrency)%nat) :
  ∀ fuel k results rs,
    List.length results = List.length paragraphs →
    outcome (translateParagraphsFrom provider fuel paragraphs signal maxConcurrency
               (k * maxConcurrency) results (batchStart provider paragraphs signal maxConcurrency t0 k)) = Fulfilled rs →
    List.length rs = List.length paragraphs
    ∧ (∀ j, (j < k * maxConcurrency)%nat → rs !! j = results !! j)
    ∧ (∀ j p, (k * maxConcurrency ≤ j)%nat → paragraphs !! j = Some p →
         beforeAbort signal (batchStart provider paragraphs signal maxConcurrency t0 (j / maxConcurrency))
         ∧ (finish (translate provider j p signal (batchStart provider paragraphs signal maxConcurrency t0 (j / maxConcurrency)))
            ≤ batchStart provider paragraphs signal maxConcurrency t0 (S (j / maxConcurrency)))%N
         ∧ ∃ v, rs !! j = Some (Some v)
                ∧ outcome (translate provider j p signal
                             (batchStart provider paragraphs signal maxConcurrency t0 (j / maxConcurrency))) = Fulfilled v).
Proof.
  induction fuel as [|fuel IH]; intros k results rs Hlen Hout.
  - destruct (Nat.lt_ge_cases (k * maxConcurrency) (List.length paragraphs)) as [Hi|Hi].
    + exfalso. cbn [translateParagraphsFrom] in Hout.
      apply Nat.ltb_lt in Hi. rewrite Hi in Hout. discriminate Hout.
    + rewrite translateParagraphsFrom_done in Hout by exact Hi.
      cbn in Hout. injection Hout as <-.
      split; [exact Hlen|]. split; [reflexivity|].
      intros j p Hj Hp. apply lookup_lt_Some in Hp. lia.
  - destruct (Nat.lt_ge_cases (k * maxConcurrency) (List.length paragraphs)) as [Hi|Hi].
    + rewrite translateParagraphsFrom_step in Hout by exact Hi.
      pose proof (aborted_false signal (batchStart provider paragraphs signal maxConcurrency t0 k)) as Hab.
      rewrite aborted_run in Hab. cbn in Hab.
      destruct (match signal with Some a => (a <=? batchStart provider paragraphs signal maxConcurrency t0 k)%N | None => false end);
        [discriminate|].
      specialize (Hab eq_refl). cbn zeta in Hout.
      destruct (outcome (promiseAll (batchPromises provider paragraphs signal
                  maxConcurrency (k * maxConcurrency)) (batchStart provider paragraphs signal maxConcurrency t0 k)))
        as [batchResults| |] eqn:Epa; [|discriminate|discriminate].
      cbn [outcome] in Hout.
      destruct (batch_fulfilled _ _ _ Epa) as (Hblen & Hbatch).
      destruct (promiseAll_fulfilled_finish _ _ _ Epa) as (_ & Hfin).
      destruct (storeBatch_spec batchResults results (k * maxConcurrency))
        as (Hslen & Hsout & Hsin).
      { rewrite Hblen, Hlen. lia. }
      { intros b x Hx. destruct (Hbatch b x Hx) as (p & v & _ & _ & -> & _). reflexivity. }
      change (finish (promiseAll (batchPromises provider paragraphs signal maxConcurrency
                (k * maxConcurrency)) (batchStart provider paragraphs signal maxConcurrency t0 k)))
        with (batchStart provider paragraphs signal maxConcurrency t0 (S k)) in Hout, Hfin.
      replace (k * maxConcurrency + maxConcurrency)%nat with (S k * maxConcurrency)%nat
        in Hout by lia.
      destruct (IH (S k) _ rs (eq_trans Hslen Hlen) Hout) as (IHlen & IHlow & IHhigh).
      split; [exact IHlen|]. split.
      * intros j Hj. rewrite IHlow by lia. apply Hsout. lia.
      * intros j p Hj Hp.
        destruct (Nat.lt_ge_cases j (S k * maxConcurrency)) as [Hin|Hin];
          [|apply IHhigh; assumption].
        assert (Hdiv : (j / maxConcurrency)%nat = k) by (apply div_in_batch; lia).
        rewrite Hdiv.
        assert (Hb : is_Some (batchResults !! (j - k * maxConcurrency)%nat)).
        { apply lookup_lt_is_Some. rewrite Hblen.
          apply lookup_lt_Some in Hp. lia. }
        destruct Hb as [x Hx].
        destruct (Hbatch _ _ Hx) as (p' & v & Hp' & _ & -> & Hv).
        replace (k * maxConcurrency + (j - k * maxConcurrency))%nat with j in * by lia.
        rewrite Hp in Hp'. injection Hp' as <-.
        split; [exact Hab|]. split.
        -- rewrite <- (translateUnit_finish provider (List.length paragraphs)).
           apply Hfin. unfold batchPromises.
           apply elem_of_lookup_imap. exists (j - k * maxConcurrency)%nat, p.
           split; [f_equal; lia|].
           rewrite slice_lookup. destruct (decide _); [|lia].
           replace (k * maxConcurrency + (j - k * maxConcurrency))%nat with j by lia.
           exact Hp.
        -- exists v. split; [|exact Hv].
           rewrite IHlow by exact Hin.
           specialize (Hsin _ _ Hx).
           replace (k * maxConcurrency + (j - k * maxConcurrency))%nat with j in Hsin by lia.
           exact Hsin.
    + rewrite translateParagraphsFrom_done in Hout by exact Hi.
      cbn in Hout. injection Hout as <-.
      split; [exact Hlen|]. split; [reflexivity|].
      intros j p Hj Hp. apply lookup_lt_Some in Hp. lia.
Qed.

End DispatchResult.

Lemma beforeAbort_check signal t :
  beforeAbort signal t →
  match signal with Some a => (a <=? t)%N | None => false end = false.
Proof.
  destruct signal as [a|]; cbn; [|reflexivity]. intros H. apply N.leb_gt. exact H.
Qed.

Lemma promiseAll_succeeds {A} (tasks : list (Task A)) t :
  (∀ task, task ∈ tasks → ∃ v, outcome (task t) = Fulfilled v) →
  ∃ vs, outcome (promiseAll tasks t) = Fulfilled vs.
Proof.
  intros H.
  assert (Hex : ∃ vs, Forall2 (fun task v => outcome (task t) = Fulfilled v) tasks vs).
  { induction tasks as [|task tasks IH].
    - exists []. constructor.
    - destruct (H task) as [v Hv]; [left|].
      destruct IH as [vs Hvs]; [intros task' Hin; apply H; right; exact Hin|].
      exists (v :: vs). constructor; assumption. }
  destruct Hex as [vs Hvs]. exists vs. apply promiseAll_fulfilled. exact Hvs.
Qed.

Section DispatchTermination.

Variable provider : Provider.
Variable paragraphs : list string.
Variable signal : AbortSignal.
Variable maxConcurrency : nat.

Lemma loop_settles (Hcap : (0 < maxConcurrency)%nat) :
  ∀ fuel i results t,
    (List.length paragraphs ≤ i + fuel)%nat →
    outcome (translateParagraphsFrom provider fuel paragraphs signal maxConcurrency
               i results t) ≠ Pending.
Proof.
  induction fuel as [|fuel IH]; intros i results t Hfuel.
  - rewrite translateParagraphsFrom_done by lia. discriminate.
  - destruct (Nat.lt_ge_cases i (List.length paragraphs)) as [Hi|Hi].
    + rewrite translateParagraphsFrom_step by exact Hi.
      destruct (match signal with Some a => (a <=? t)%N | None => false end); [discriminate|].
      cbn zeta.
      pose proof (promiseAll_settles
                    (batchPromises provider paragraphs signal maxConcurrency i) t) as Hpa.
      destruct (outcome (promiseAll _ t)) as [batchResults|e|] eqn:E;
        cbn [outcome]; [apply IH; lia | discriminate |].
      exfalso. apply Hpa; [|reflexivity].
      intros task Hin. apply elem_of_lookup_imap in Hin as (b & p & -> & _).
      apply translateUnit_settles.
    + rewrite translateParagraphsFrom_done by exact Hi. discriminate.
Qed.

(** The run does not depend on the fuel, once there is enough of it. *)
Lemma loop_fuel (Hcap : (0 < maxConcurrency)%nat) :
  ∀ fuel fuel' i results t,
    (List.length paragraphs ≤ i + fuel)%nat →
    (List.length paragraphs ≤ i + fuel')%nat →
    translateParagraphsFrom provider fuel paragraphs signal maxConcurrency i results t
    = translateParagraphsFrom provider fuel' paragraphs signal maxConcurrency i results t.
Proof.
  induction fuel as [|fuel IH]; intros fuel' i results t H H'.
  - rewrite !translateParagraphsFrom_done by lia. reflexivity.
  - destruct (Nat.lt_ge_cases i (List.length paragraphs)) as [Hi|Hi].
    + destruct fuel' as [|fuel']; [lia|].
      rewrite !translateParagraphsFrom_step by exact Hi.
      destruct (match signal with Some a => (a <=? t)%N | None => false end); [reflexivity|].
      cbn zeta. destruct (outcome (promiseAll _ t)); try reflexivity.
      rewrite (IH fuel') by lia. reflexivity.
    + rewrite !translateParagraphsFrom_done by lia. reflexivity.
Qed.

(** Without a positive cap the loop never leaves its first batch. *)
Lemma loop_zero_cap fuel i results t :
  maxConcurrency = 0%nat →
  (i < List.length paragraphs)%nat →
  beforeAbort signal t →
  translateParagraphsFrom provider fuel paragraphs signal maxConcurrency i results t
  = mkRun Pending t [].
Proof.
  intros -> Hi Hb. induction fuel as [|fuel IH].
  - cbn [translateParagraphsFrom]. apply Nat.ltb_lt in Hi. rewrite Hi. reflexivity.
  - rewrite translateParagraphsFrom_step by exact Hi.
    rewrite beforeAbort_check by exact Hb.
    assert (E : batchPromises provider paragraphs signal 0 i = []).
    { unfold batchPromises, slice. rewrite Nat.add_0_r, Nat.sub_diag. reflexivity. }
    rewrite E. cbn. rewrite Nat.add_0_r. rewrite IH. reflexivity.
Qed.

Lemma loop_succeeds (t0 : N) (Hcap : (0 < maxConcurrency)%nat) :
  (∀ k, (k * maxConcurrency < List.length paragraphs)%nat →
        beforeAbort signal (batchStart provider paragraphs signal maxConcurrency t0 k)) →
  (∀ j p, paragraphs !! j = Some p →
     ∃ v, outcome (translate provider j p signal
                     (batchStart provider paragraphs signal maxConcurrency t0
                        (j / maxConcurrency))) = Fulfilled v) →
  ∀ fuel k results,
    (List.length paragraphs ≤ k * maxConcurrency + fuel)%nat →
    ∃ rs, outcome (translateParagraphsFrom provider fuel paragraphs signal maxConcurrency
                     (k * maxConcurrency) results
                     (batchStart provider paragraphs signal maxConcurrency t0 k))
          = Fulfilled rs.
Proof.
  intros Hsig Hunits.
  induction fuel as [|fuel IH]; intros k results Hfuel.
  - rewrite translateParagraphsFrom_done by lia. eauto.
  - destruct (Nat.lt_ge_cases (k * maxConcurrency) (List.length paragraphs)) as [Hi|Hi].
    + rewrite translateParagraphsFrom_step by exact Hi.
      rewrite beforeAbort_check by (apply Hsig; exact Hi).
      cbn zeta.
      destruct (promiseAll_succeeds
                  (batchPromises provider paragraphs signal maxConcurrency
                     (k * maxConcurrency))
                  (batchStart provider paragraphs signal maxConcurrency t0 k))
        as [vs Hvs].
      { intros task Hin. apply elem_of_lookup_imap in Hin as (b & p & -> & Hb).
        rewrite slice_lookup in Hb.
        destruct (decide (b < maxConcurrency)%nat) as [Hlt|]; [|discriminate].
        destruct (Hunits _ _ Hb) as [v Hv].
        rewrite (div_in_batch maxConcurrency k) in Hv by lia.
        exists ((k * maxConcurrency + b)%nat, v).
        apply translateUnit_fulfilled. eauto. }
      rewrite Hvs. cbn [outcome].
      change (finish (promiseAll (batchPromises provider paragraphs signal maxConcurrency
                (k * maxConcurrency))
                (batchStart provider paragraphs signal maxConcurrency t0 k)))
        with (batchStart provider paragraphs signal maxConcurrency t0 (S k)).
      replace (k * maxConcurrency + maxConcurrency)%nat with (S k * maxConcurrency)%nat by lia.
      apply IH. lia.
    + rewrite translateParagraphsFrom_done by exact Hi. eauto.
Qed.

End DispatchTermination.

(** The results of a fulfilled dispatch are complete: one per unit. *)
Lemma translateParagraphs_complete provider paragraphs signal maxConcurrency t rs :
  outcome (translateParagraphs provider paragraphs signal maxConcurrency t) = Fulfilled rs →
  List.length rs = List.length paragraphs
  ∧ ∀ j, (j < List.length paragraphs)%nat → ∃ v, rs !! j = Some (Some v).
Proof.
  intros H. destruct maxConcurrency as [|c].
  - destruct paragraphs as [|p ps].
    + cbn in H. injection H as <-. split; [reflexivity|]. cbn. intros j Hj. lia.
    + exfalso. unfold translateParagraphs in H. cbn [List.length] in H.
      pose proof (aborted_false signal t) as Hab. rewrite aborted_run in Hab. cbn in Hab.
      destruct (match signal with Some a => (a <=? t)%N | None => false end) eqn:E.
      * rewrite translateParagraphsFrom_step in H by (cbn; lia).
        rewrite E in H. discriminate.
      * rewrite loop_zero_cap in H; [discriminate | reflexivity | cbn; lia | auto].
  - destruct (loop_fulfilled provider paragraphs signal (S c) t ltac:(lia)
                (List.length paragraphs) 0 (replicate (List.length paragraphs) None) rs)
      as (Hlen & _ & Hhigh).
    + apply length_replicate.
    + exact H.
    + split; [exact Hlen|]. intros j Hj.
      destruct (lookup_lt_is_Some_2 paragraphs j Hj) as [p Hp].
      destruct (Hhigh j p ltac:(lia) Hp) as (_ & _ & v & Hv & _). eauto.
Qed.

(** C3. For a positive concurrency cap, the dispatcher settles, and
    when it fulfils it returns exactly one result per unit, at the
    position of the unit: the result at [j] is what [translate] returned
    for unit [j], whatever the latencies of the provider, hence whatever
    the order of completion. Unit [j] runs in batch [j / cap], which has
    at most [cap] units and starts at [batchStart (j / cap)]; the next
    batch starts only when every unit of this one has finished. The
    dispatch fulfils whenever the signal is not set at the start of a
    batch and every unit is translated. *)
Theorem C3_dispatcher_keeps_input_order
    (provider : Provider) (paragraphs : list string) (signal : AbortSignal)
    (maxConcurrency : nat) (t0 : N) :
  (0 < maxConcurrency)%nat →
  let r := translateParagraphs provider paragraphs signal maxConcurrency t0 in
  let start := batchStart provider paragraphs signal maxConcurrency t0 in
  let unitRun := fun j p => translate provider j p signal (start (j / maxConcurrency)%nat) in
  outcome r ≠ Pending
  ∧ (∀ i, (List.length (batchPromises provider paragraphs signal maxConcurrency i)
           ≤ maxConcurrency)%nat)
  ∧ (∀ rs, outcome r = Fulfilled rs →
       List.length rs = List.length paragraphs
       ∧ ∀ j p, paragraphs !! j = Some p →
           ∃ v, rs !! j = Some (Some v)
                ∧ outcome (unitRun j p) = Fulfilled v
                ∧ (finish (unitRun j p) ≤ start (S (j / maxConcurrency)))%N)
  ∧ ((∀ k, (k * maxConcurrency < List.length paragraphs)%nat → beforeAbort signal (start k)) →
     (∀ j p, paragraphs !! j = Some p → ∃ v, outcome (unitRun j p) = Fulfilled v) →
     ∃ rs, outcome r = Fulfilled rs).
Proof.
  intros Hcap r start unitRun. subst r start unitRun. cbn zeta.
  unfold translateParagraphs.
  split; [|split; [|split]].
  - apply loop_settles; [exact Hcap | lia].
  - intros i. unfold batchPromises. rewrite length_imap, slice_length. lia.
  - intros rs Hrs.
    destruct (loop_fulfilled provider paragraphs signal maxConcurrency t0 Hcap
                (List.length paragraphs) 0 (replicate (List.length paragraphs) None) rs
                (length_replicate _ _) Hrs) as (Hlen & _ & Hhigh).
    split; [exact Hlen|]. intros j p Hp.
    destruct (Hhigh j p ltac:(lia) Hp) as (_ & Hfin & v & Hv & Hout). eauto.
  - intros Hsig Hunits.
    apply (loop_succeeds provider paragraphs signal maxConcurrency t0 Hcap Hsig Hunits
             (List.length paragraphs) 0 (replicate (List.length paragraphs) None)).
    lia.
Qed.

(** Three units under a cap of two: the second unit is answered before
    the first, the third starts when both have finished. *)
Lemma C3_witness :
  let r := translateParagraphs echoProvider ["a"; "b"; "c"] None 2 0%N in
  (0 < 2)%nat
  ∧ finish (translate echoProvider 1 "b" None 0%N) = 9%N
  ∧ finish (translate echoProvider 0 "a" None 0%N) = 10%N
  ∧ batchStart echoProvider ["a"; "b"; "c"] None 2 0%N 1 = 10%N
  ∧ ∃ rs, outcome r = Fulfilled rs
          ∧ List.map (fun o => translatedText <$> o) rs = [Some "T:a"; Some "T:b"; Some "T:c"].
Proof.
  pose proof (C3_dispatcher_keeps_input_order echoProvider ["a"; "b"; "c"] None 2 0%N
                ltac:(lia)) as (_ & _ & Hrs & Hex).
  cbn zeta. split; [lia|]. do 3 (split; [reflexivity|]).
  destruct Hex as [rs Hout].
  - intros k _. exact I.
  - intros j p Hp.
    destruct j as [|[|[|j]]]; cbn in Hp; try discriminate;
      injection Hp as <-; eexists; vm_compute; reflexivity.
  - exists rs. split; [exact Hout|].
    destruct (Hrs rs Hout) as (Hlen & Hat).
    destruct (Hat 0%nat "a" eq_refl) as (v0 & H0 & E0 & _).
    destruct (Hat 1%nat "b" eq_refl) as (v1 & H1 & E1 & _).
    destruct (Hat 2%nat "c" eq_refl) as (v2 & H2 & E2 & _).
    vm_compute in E0, E1, E2.
    injection E0 as <-. injection E1 as <-. injection E2 as <-.
    destruct rs as [|x0 [|x1 [|x2 [|x3 rs]]]]; try discriminate.
    cbn in H0, H1, H2. injection H0 as ->. injection H1 as ->. injection H2 as ->.
    reflexivity.
Defined.

(** ** Filling in the results of the dispatch *)

Lemma plusUsage_assoc a b c : plusUsage (plusUsage a b) c = plusUsage a (plusUsage b c).
Proof. unfold plusUsage; cbn. f_equal; lia. Qed.

Lemma sumUsage_cons u us : sumUsage (u :: us) = plusUsage u (sumUsage us).
Proof. reflexivity. Qed.

Lemma plusUsage_zero a : plusUsage a (sumUsage []) = a.
Proof. destruct a. unfold plusUsage; cbn. f_equal; lia. Qed.

Lemma reportedUsages_cons result l :
  reportedUsages (Some result :: l)
  = match tokenUsage result with
    | Some u => u :: reportedUsages l
    | None => reportedUsages l
    end.
Proof. unfold reportedUsages. cbn. destruct (tokenUsage result); reflexivity. Qed.

Section FillFacts.

Variable results : list (option TranslationResult).

Lemma fillLoop_pure rest : ∀ i rp tu t,
  finish (fillLoop results rest i rp tu t) = t
  ∧ events (fillLoop results rest i rp tu t) = []
  ∧ outcome (fillLoop results rest i rp tu t) ≠ Pending.
Proof.
  induction rest as [|[index q] rest IH]; intros i rp tu t; cbn [fillLoop].
  - repeat split. discriminate.
  - destruct (mjoin (results !! i)) as [result|]; [|repeat split; discriminate].
    destruct (rp !! index) as [p|]; [apply IH | repeat split; discriminate].
Qed.

Lemma fillLoop_fulfilled rest : ∀ i rp tu t out,
  outcome (fillLoop results rest i rp tu t) = Fulfilled out →
  List.length (fst out) = List.length rp
  ∧ (∀ j, j ∉ List.map fst rest → fst out !! j = rp !! j)
  ∧ snd out = plusUsage tu
                (sumUsage (reportedUsages (take (List.length rest) (drop i results)))).
Proof.
  induction rest as [|[index q] rest IH]; intros i rp tu t out H; cbn [fillLoop] in H.
  - cbn in H. injection H as <-. cbn. rewrite plusUsage_zero. auto.
  - destruct (mjoin (results !! i)) as [result|] eqn:Er; [|discriminate].
    destruct (rp !! index) as [p|] eqn:Ep; [|discriminate].
    destruct (IH _ _ _ _ _ H) as (Hlen & Hother & Hsum).
    rewrite length_insert in Hlen. split; [exact Hlen|]. split.
    + intros j Hj. cbn in Hj. rewrite Hother.
      * apply list_lookup_insert_ne. intros ->. apply Hj. left.
      * intros Hin. apply Hj. right. exact Hin.
    + rewrite Hsum. cbn [List.length].
      destruct (results !! i) as [o|] eqn:Ei; [|discriminate].
      cbn in Er. subst o.
      rewrite (drop_S results (Some result) i Ei). cbn [take].
      rewrite reportedUsages_cons.
      destruct (tokenUsage result) as [u|]; cbn [addUsage].
      * rewrite sumUsage_cons, <- plusUsage_assoc. reflexivity.
      * reflexivity.
Qed.

Lemma fillLoop_succeeds rest : ∀ i rp tu t,
  (∀ k, (k < List.length rest)%nat → ∃ v, results !! (i + k)%nat = Some (Some v)) →
  Forall (fun ip => (fst ip < List.length rp)%nat) rest →
  ∃ out, outcome (fillLoop results rest i rp tu t) = Fulfilled out.
Proof.
  induction rest as [|[index q] rest IH]; intros i rp tu t Hres Hidx; cbn [fillLoop].
  - eexists. reflexivity.
  - destruct (Hres 0%nat ltac:(cbn; lia)) as [v Hv]. rewrite Nat.add_0_r in Hv.
    rewrite Hv. cbn [mjoin option_join].
    inversion Hidx as [|x l Hx Hrest]; subst. cbn in Hx.
    destruct (lookup_lt_is_Some_2 rp index Hx) as [p ->].
    apply IH.
    + intros k Hk. replace (S i + k)%nat with (i + S k)%nat by lia.
      apply Hres. cbn. lia.
    + rewrite length_insert. exact Hrest.
Qed.

End FillFacts.

(** ** [translateIncremental] and its dispatch *)

Section IncrementalFacts.

Variable calculateHash : string → string.
Variable provider : Provider.
Variable document : string.
Variable options : IncrementalTranslateOptions.

Lemma translateIncremental_run t :
  paragraphsToTranslate (planOf calculateHash document options) ≠ [] →
  translateIncremental calculateHash provider document options t
  = let pl := planOf calculateHash document options in
    let n := List.length (splitIntoParagraphsWithHash calculateHash document) in
    let d := dispatchOf calculateHash provider document options t in
    match outcome d with
    | Fulfilled rs =>
        let f := fillLoop rs (paragraphsToTranslate pl) 0 (resultParagraphs pl)
                   zeroUsage (finish d) in
        match outcome f with
        | Fulfilled out =>
            mkRun (Fulfilled (incrementalResult n pl out)) (finish f)
                  ((events d ++ events f) ++ [])
        | Rejected e => mkRun (Rejected e) (finish f) (events d ++ events f)
        | Pending => mkRun Pending (finish f) (events d ++ events f)
        end
    | Rejected e => mkRun (Rejected e) (finish d) (events d)
    | Pending => mkRun Pending (finish d) (events d)
    end.
Proof.
  intros Hne. unfold translateIncremental, dispatchOf, textsToTranslate.
  fold (planOf calculateHash document options).
  destruct (paragraphsToTranslate (planOf calculateHash document options)) as [|x l] eqn:E;
    [contradiction|].
  cbn [List.length Nat.ltb Nat.leb]. cbn zeta.
  repeat (rewrite bind_run; unfold andThen).
  destruct (outcome (translateParagraphs _ _ _ _ t)) as [rs|e|];
    cbn [outcome finish events resolve]; try reflexivity.
  destruct (outcome (fillLoop rs _ _ _ _ _)) as [[rp tu]|e|];
    cbn [outcome finish events resolve]; try reflexivity.
  unfold incrementalResult. rewrite E. reflexivity.
Qed.

Lemma translateIncremental_events t :
  Forall (dispatchEvent (textsToTranslate (planOf calculateHash document options))
                        (signal options))
    (events (translateIncremental calculateHash provider document options t)).
Proof.
  destruct (paragraphsToTranslate (planOf calculateHash document options)) as [|x l] eqn:E.
  - rewrite translateIncremental_nothing_pending by exact E. constructor.
  - rewrite translateIncremental_run by (rewrite E; discriminate).
    cbn zeta.
    pose proof (translateParagraphs_events provider
                  (textsToTranslate (planOf calculateHash document options))
                  (signal options) (default 3%nat (maxConcurrency options)) t) as Hd.
    fold (dispatchOf calculateHash provider document options) in Hd.
    destruct (outcome (dispatchOf calculateHash provider document options t)) as [rs|e|];
      cbn [events]; try exact Hd.
    match goal with |- context [fillLoop ?a ?b ?c ?d ?e ?f] =>
      destruct (fillLoop_pure a b c d e f) as (_ & Hev & _) end.
    destruct (outcome (fillLoop _ _ _ _ _ _)) as [out|e|]; cbn [events];
      rewrite Hev, ?app_nil_r; exact Hd.
Qed.

(** Whatever [translateIncremental] returns comes from a fulfilled
    dispatch, unless there was nothing to translate. *)
Lemma translateIncremental_fulfilled t res :
  outcome (translateIncremental calculateHash provider document options t) = Fulfilled res →
  let pl := planOf calculateHash document options in
  let n := List.length (splitIntoParagraphsWithHash calculateHash document) in
  (paragraphsToTranslate pl = [] ∧ res = incrementalResult n pl (resultParagraphs pl, zeroUsage))
  ∨ (paragraphsToTranslate pl ≠ [] ∧
     ∃ rs out,
       outcome (dispatchOf calculateHash provider document options t) = Fulfilled rs
       ∧ outcome (fillLoop rs (paragraphsToTranslate pl) 0 (resultParagraphs pl) zeroUsage
                    (finish (dispatchOf calculateHash provider document options t)))
         = Fulfilled out
       ∧ res = incrementalResult n pl out).
Proof.
  cbn zeta.
  destruct (paragraphsToTranslate (planOf calculateHash document options)) as [|x l] eqn:E.
  - rewrite translateIncremental_nothing_pending by exact E. cbn. intros H.
    injection H as <-. left. split; [reflexivity|].
    unfold incrementalResult. rewrite E. cbn. rewrite Nat.sub_0_r. reflexivity.
  - rewrite translateIncremental_run by (rewrite E; discriminate).
    cbn zeta. intros H. right. split; [discriminate|].
    destruct (outcome (dispatchOf calculateHash provider document options t)) as [rs|e|];
      try discriminate.
    rewrite E in H.
    destruct (outcome (fillLoop rs _ _ _ _ _)) as [out|e|] eqn:Ef; try discriminate.
    cbn in H. injection H as <-. exists rs, out. auto.
Qed.

(** Conversely, a fulfilled dispatch makes [translateIncremental] return. *)
Lemma translateIncremental_succeeds t rs :
  paragraphsToTranslate (planOf calculateHash document options) ≠ [] →
  outcome (dispatchOf calculateHash provider document options t) = Fulfilled rs →
  let pl := planOf calculateHash document options in
  let n := List.length (splitIntoParagraphsWithHash calculateHash document) in
  ∃ out,
    outcome (fillLoop rs (paragraphsToTranslate pl) 0 (resultParagraphs pl) zeroUsage
               (finish (dispatchOf calculateHash provider document options t)))
      = Fulfilled out
    ∧ outcome (translateIncremental calculateHash provider document options t)
      = Fulfilled (incrementalResult n pl out).
Proof.
  intros Hne Hd. cbn zeta.
  destruct (translateParagraphs_complete _ _ _ _ _ _ Hd) as (Hlen & Hall).
  unfold textsToTranslate in Hlen, Hall. rewrite length_map in Hlen, Hall.
  destruct (fillLoop_succeeds rs
              (paragraphsToTranslate (planOf calculateHash document options)) 0
              (resultParagraphs (planOf calculateHash document options)) zeroUsage
              (finish (dispatchOf calculateHash provider document options t)))
    as [out Hout].
  - intros k Hk. apply Hall. exact Hk.
  - unfold planOf.
    destruct (plan_spec (existingHashMap (existingParagraphs options))
                (splitIntoParagraphsWithHash calculateHash document)) as [-> ->].
    apply Forall_forall. intros [j p] Hin.
    apply pendingFrom_elem in Hin as (_ & Hl & _).
    apply lookup_lt_Some in Hl. cbn. rewrite length_map. lia.
  - exists out. split; [exact Hout|].
    rewrite translateIncremental_run by exact Hne. cbn zeta.
    rewrite Hd, Hout. reflexivity.
Qed.

End IncrementalFacts.

Lemma pending_segment calculateHash document options j q :
  (j, q) ∈ paragraphsToTranslate (planOf calculateHash document options) →
  splitIntoParagraphsWithHash calculateHash document !! j = Some q
  ∧ type q = Text
  ∧ existingHashMap (existingParagraphs options) !! hash q = None.
Proof.
  unfold planOf.
  destruct (plan_spec (existingHashMap (existingParagraphs options))
              (splitIntoParagraphsWithHash calculateHash document)) as [-> _].
  intros Hin. apply pendingFrom_elem in Hin as (_ & Hl & Hp).
  rewrite Nat.sub_0_r in Hl. split; [exact Hl|].
  pose proof (splitIntoParagraphsWithHash_types calculateHash document) as Hty.
  rewrite Forall_lookup in Hty. specialize (Hty _ _ Hl).
  unfold isPending in Hp.
  destruct Hty as [Hty|Hty]; rewrite Hty in Hp; [|discriminate].
  split; [exact Hty|].
  destruct (existingHashMap (existingParagraphs options) !! hash q); [discriminate|reflexivity].
Qed.

(** Every segment that is pending is queued by the plan. *)
Lemma pendingFrom_intro existing rest : ∀ i k p,
  rest !! k = Some p → isPending existing p = true →
  ∃ index, pendingFrom existing rest i !! index = Some ((i + k)%nat, p).
Proof.
  induction rest as [|q rest IH]; intros i k p Hk Hp; [discriminate|].
  cbn [pendingFrom]. destruct k as [|k].
  - injection Hk as ->. rewrite Hp, Nat.add_0_r. exists 0%nat. reflexivity.
  - cbn in Hk. destruct (IH (S i) k p Hk Hp) as [index Hindex].
    replace (i + S k)%nat with (S i + k)%nat by lia.
    destruct (isPending existing q); [exists (S index)|exists index]; exact Hindex.
Qed.

(** C2 (as amended). A segment of kind [Code] is never sent to the
    provider by [translateIncremental]: no translation unit is queued
    for it, every request carries the content of a [Text] segment at
    another position, and in the mapping that is returned its entry has
    [translatedContent] equal to [sourceContent], the content of the
    segment. Front matter has no such exemption. The segmenter gives no
    segment the kind [Frontmatter], so a front-matter block is a [Text]
    segment; every [Text] segment without an entry in the previous
    mapping is queued and its content is among the texts handed to the
    dispatcher; and the plan, which tests for [Code] only, would queue a
    segment of kind [Frontmatter] in the same way. *)
Theorem C2_code_is_passed_through
    (calculateHash : string → string) (provider : Provider)
    (document : string) (options : IncrementalTranslateOptions) (t : N) :
  let segments := splitIntoParagraphsWithHash calculateHash document in
  let pl := planOf calculateHash document options in
  let r := translateIncremental calculateHash provider document options t in
  (∀ i p, segments !! i = Some p → type p = Code →
     (∀ q, (i, q) ∉ paragraphsToTranslate pl)
     ∧ (∀ index attempt txt time,
          EvRequest index attempt txt time ∈ events r →
          ∃ j q, paragraphsToTranslate pl !! index = Some (j, q)
                 ∧ segments !! j = Some q
                 ∧ j ≠ i ∧ type q = Text ∧ txt = content q)
     ∧ (∀ res, outcome r = Fulfilled res →
          itr_paragraphs res !! i
          = Some {| sourceContent := content p; translatedContent := content p;
                    sourceHash := hash p |}))
  ∧ (∀ i p, segments !! i = Some p → type p ≠ Frontmatter)
  ∧ (∀ i p, segments !! i = Some p → type p = Text →
       existingHashMap (existingParagraphs options) !! hash p = None →
       ∃ index, paragraphsToTranslate pl !! index = Some (i, p)
                ∧ textsToTranslate pl !! index = Some (content p))
  ∧ (∀ existing currentParagraphs i p,
       currentParagraphs !! i = Some p → type p = Frontmatter →
       existing !! hash p = None →
       ∃ index, paragraphsToTranslate (plan existing currentParagraphs) !! index
                = Some (i, p)).
Proof.
  cbn zeta. split; [|split; [|split]].
  - intros i p Hp Hcode.
    assert (Hno : ∀ q, (i, q) ∉ paragraphsToTranslate (planOf calculateHash document options)).
    { intros q Hin. apply pending_segment in Hin as (Hq & Hty & _). congruence. }
    split; [exact Hno|]. split.
    + intros index attempt txt time Hin.
      pose proof (translateIncremental_events calculateHash provider document options t) as Hev.
      rewrite Forall_forall in Hev. specialize (Hev _ Hin). cbn in Hev.
      destruct Hev as [Htxt _]. unfold textsToTranslate in Htxt.
      apply list_lookup_fmap_Some in Htxt as ([j q] & -> & Hjq).
      pose proof (list_elem_of_lookup_2 _ _ _ Hjq) as Hmem.
      apply pending_segment in Hmem as (Hq & Hty & _).
      exists j, q. repeat split; try assumption; try reflexivity.
      intros ->. congruence.
    + intros res Hres.
      assert (Hentry : resultParagraphs (planOf calculateHash document options) !! i
                       = Some {| sourceContent := content p; translatedContent := content p;
                                 sourceHash := hash p |}).
      { unfold planOf.
        destruct (plan_spec (existingHashMap (existingParagraphs options))
                    (splitIntoParagraphsWithHash calculateHash document)) as [_ ->].
        rewrite list_lookup_fmap, Hp. cbn. unfold planEntry. rewrite Hcode. reflexivity. }
      apply translateIncremental_fulfilled in Hres.
      destruct Hres as [(_ & ->)|(_ & rs & out & _ & Hfill & ->)]; cbn; [exact Hentry|].
      apply fillLoop_fulfilled in Hfill as (_ & Hother & _).
      rewrite Hother; [exact Hentry|].
      intros Hin. apply list_elem_of_fmap in Hin as ([j q] & Hj & Hmem).
      cbn in Hj. subst j. exact (Hno q Hmem).
  - intros i p Hp.
    pose proof (splitIntoParagraphsWithHash_types calculateHash document) as Hty.
    rewrite Forall_lookup in Hty. destruct (Hty _ _ Hp) as [H|H]; rewrite H; discriminate.
  - intros i p Hp Hty Hnone.
    assert (isPending (existingHashMap (existingParagraphs options)) p = true) as Hpend
      by (unfold isPending; rewrite Hty, Hnone; reflexivity).
    destruct (pendingFrom_intro _ _ 0 i p Hp Hpend) as [index Hindex]. cbn [Nat.add] in Hindex.
    exists index. unfold textsToTranslate, planOf. rewrite (proj1 (plan_spec _ _)).
    split; [exact Hindex|]. rewrite list_lookup_fmap, Hindex. reflexivity.
  - intros existing currentParagraphs i p Hp Hty Hnone.
    assert (isPending existing p = true) as Hpend
      by (unfold isPending; rewrite Hty, Hnone; reflexivity).
    destruct (pendingFrom_intro _ _ 0 i p Hp Hpend) as [index Hindex]. cbn [Nat.add] in Hindex.
    exists index. rewrite (proj1 (plan_spec _ _)). exact Hindex.
Qed.

(** A document with a code block between two paragraphs: the two
    requests carry the paragraphs, the block is not touched. *)
Lemma C2_witness :
  let document := doc ["Intro"; EmptyString; "```js"; "let x = 1"; "```"; EmptyString; "Outro"] in
  let block := doc ["```js"; "let x = 1"; "```"] in
  let options := {| signal := None; existingParagraphs := None; maxConcurrency := None |} in
  let r := translateIncremental idHash echoProvider document options 0%N in
  (List.map type (splitIntoParagraphsWithHash idHash document) = [Text; Code; Text])
  ∧ (∀ index attempt txt time,
       EvRequest index attempt txt time ∈ events r → txt ≠ block)
  ∧ ∃ res, outcome r = Fulfilled res
           ∧ itr_paragraphs res !! 1%nat
             = Some {| sourceContent := block; translatedContent := block;
                       sourceHash := block |}.
Proof.
  cbn zeta.
  destruct (C2_code_is_passed_through idHash echoProvider
    (doc ["Intro"; EmptyString; "```js"; "let x = 1"; "```"; EmptyString; "Outro"])
    {| signal := None; existingParagraphs := None; maxConcurrency := None |} 0%N) as (Hcode & _).
  destruct (Hcode 1%nat
    {| content := doc ["```js"; "let x = 1"; "```"]; type := Code;
       hash := doc ["```js"; "let x = 1"; "```"]; startLine := 2; endLine := 4 |}
    ltac:(vm_compute; reflexivity) eq_refl) as (Hno & Hreq & Hres).
  split; [reflexivity|]. split.
  - intros index attempt txt time Hin Heq.
    destruct (Hreq _ _ _ _ Hin) as (j & q & _ & Hq & Hj & Hty & ->).
    destruct j as [|[|[|j]]]; vm_compute in Hq; try discriminate; try congruence;
      injection Hq as <-; vm_compute in Heq; discriminate.
  - eexists. split; [vm_compute; reflexivity|]. reflexivity.
Defined.

(** C2 as stated fails for front matter: the block between the [---]
    lines is a [Text] segment, it is the first text sent to the
    provider, and its entry in the mapping holds the answer of the
    provider, not the source. A segment of kind [Frontmatter], had the
    segmenter produced one, is queued by the plan with an empty
    [translatedContent] to fill. *)
Lemma C2_counterexample :
  let document := doc ["---"; "title: T"; "---"; EmptyString; "Body"] in
  let frontMatter := doc ["---"; "title: T"; "---"] in
  let options := {| signal := None; existingParagraphs := None; maxConcurrency := None |} in
  let r := translateIncremental idHash echoProvider document options 0%N in
  List.map (fun p => (type p, content p)) (splitIntoParagraphsWithHash idHash document)
  = [(Text, frontMatter); (Text, "Body")]
  ∧ textsToTranslate (planOf idHash document options) = [frontMatter; "Body"]
  ∧ EvRequest 0 0 frontMatter 0%N ∈ events r
  ∧ (∃ res, outcome r = Fulfilled res
            ∧ itr_paragraphs res !! 0%nat
              = Some {| sourceContent := frontMatter;
                        translatedContent := "T:" +:+ frontMatter;
                        sourceHash := frontMatter |})
  ∧ (let p := {| content := "title: T"; type := Frontmatter; hash := "h";
                 startLine := 0; endLine := 0 |} in
     paragraphsToTranslate (plan ∅ [p]) = [(0%nat, p)]
     ∧ List.map translatedContent (resultParagraphs (plan ∅ [p])) = [EmptyString]).
Proof.
  cbn zeta. split; [reflexivity|]. split; [reflexivity|].
  split; [vm_compute; left|].
  split; [eexists; split; [vm_compute; reflexivity|reflexivity]|].
  split; reflexivity.
Qed.

Lemma plusUsage_zero_l a : plusUsage zeroUsage a = a.
Proof. destruct a. reflexivity. Qed.

(** C9 (as amended). The token usage that [translateIncremental]
    returns is the sum, component by component, of the usages that the
    dispatched units report; the field is absent exactly when the total
    of that sum is zero, as it is when no unit is dispatched. *)
Theorem C9_token_usage_is_the_sum
    (calculateHash : string → string) (provider : Provider)
    (document : string) (options : IncrementalTranslateOptions) (t : N) :
  let pl := planOf calculateHash document options in
  let r := translateIncremental calculateHash provider document options t in
  (paragraphsToTranslate pl = [] →
     ∃ res, outcome r = Fulfilled res ∧ itr_tokenUsage res = None)
  ∧ (∀ rs, paragraphsToTranslate pl ≠ [] →
       outcome (dispatchOf calculateHash provider document options t) = Fulfilled rs →
       ∃ res, outcome r = Fulfilled res
              ∧ itr_tokenUsage res
                = let s := sumUsage (reportedUsages rs) in
                  if (0 <? total s)%N then Some s else None).
Proof.
  cbn zeta. split.
  - intros Hnil. rewrite translateIncremental_nothing_pending by exact Hnil.
    eexists. split; reflexivity.
  - intros rs Hne Hd.
    destruct (translateIncremental_succeeds calculateHash provider document options t rs
                Hne Hd) as (out & Hfill & Hout).
    eexists. split; [exact Hout|]. cbn [itr_tokenUsage incrementalResult].
    apply fillLoop_fulfilled in Hfill as (_ & _ & Hsum).
    destruct (translateParagraphs_complete _ _ _ _ _ _ Hd) as (Hlen & _).
    unfold textsToTranslate in Hlen. rewrite length_map in Hlen.
    rewrite <- Hlen in Hsum. change (drop 0 rs) with rs in Hsum.
    rewrite take_ge in Hsum by lia. rewrite plusUsage_zero_l in Hsum.
    rewrite Hsum. reflexivity.
Qed.

(** Two paragraphs translated by a provider that reports (1, 2, 3) for
    each: the usage returned is (2, 4, 6). *)
Lemma C9_witness :
  let options := {| signal := None; existingParagraphs := None; maxConcurrency := None |} in
  let r := translateIncremental idHash echoProvider (doc ["One"; EmptyString; "Two"])
             options 0%N in
  ∃ res, outcome r = Fulfilled res
         ∧ itr_tokenUsage res = Some {| prompt := 2; completion := 4; total := 6 |}.
Proof.
  cbn zeta.
  destruct (C9_token_usage_is_the_sum idHash echoProvider (doc ["One"; EmptyString; "Two"])
              {| signal := None; existingParagraphs := None; maxConcurrency := None |} 0%N)
    as (_ & H).
  destruct (H _ ltac:(vm_compute; discriminate) ltac:(vm_compute; reflexivity))
    as (res & Hres & Husage).
  exists res. split; [exact Hres|]. rewrite Husage. reflexivity.
Defined.

(** C9 as stated fails: one unit is dispatched to a provider that
    reports no usage, and the field is absent all the same. *)
Lemma C9_counterexample :
  let options := {| signal := None; existingParagraphs := None; maxConcurrency := None |} in
  let r := translateIncremental idHash silentProvider "Hello" options 0%N in
  events r = [EvRequest 0 0 "Hello" 0%N; EvProgress 1 1 1%N]
  ∧ ∃ res, outcome r = Fulfilled res
           ∧ changedParagraphs res = 1%nat
           ∧ itr_tokenUsage res = None.
Proof.
  cbn zeta. split; [vm_compute; reflexivity|].
  eexists. split; [vm_compute; reflexivity|]. split; reflexivity.
Qed.

(** ** Reverse translation *)

Section ModifiedFacts.

Variable savedParagraphs : list ParagraphMapping.

Lemma modifiedFrom_elem rest : ∀ i j,
  j ∈ modifiedFrom savedParagraphs rest i ↔
  ∃ cur, (i ≤ j)%nat ∧ rest !! (j - i)%nat = Some cur ∧ edited savedParagraphs j cur.
Proof.
  induction rest as [|cur rest IH]; intros i j; cbn [modifiedFrom].
  - split; [intros H; inversion H | intros (c & _ & H & _); discriminate].
  - assert (Htail : j ∈ modifiedFrom savedParagraphs rest (S i) ↔
                    ∃ c, (i < j)%nat ∧ (cur :: rest) !! (j - i)%nat = Some c ∧ edited savedParagraphs j c).
    { rewrite IH. split.
      - intros (c & Hle & Hl & He). exists c. split; [lia|].
        replace (j - i)%nat with (S (j - S i)) by lia. auto.
      - intros (c & Hlt & Hl & He). exists c. split; [lia|].
        replace (j - i)%nat with (S (j - S i)) in Hl by lia. auto. }
    assert (Hhere : ∀ c, (i ≤ j)%nat → (cur :: rest) !! (j - i)%nat = Some c →
                         (j = i ∧ c = cur) ∨ (i < j)%nat).
    { intros c Hle Hl. destruct (decide (j = i)) as [->|Hne]; [|right; lia].
      left. rewrite Nat.sub_diag in Hl. cbn in Hl. injection Hl as <-. auto. }
    destruct (savedParagraphs !! i) as [sp|] eqn:Es.
    + destruct (String.eqb cur (translatedContent sp)) eqn:Eq.
      * apply String.eqb_eq in Eq. rewrite Htail. split.
        -- intros (c & Hlt & Hl & He). exists c. split; [lia|]. auto.
        -- intros (c & Hle & Hl & He).
           destruct (Hhere c Hle Hl) as [[-> ->]|Hlt]; [|eauto].
           exfalso. destruct He as [He|(sp' & Hsp' & Hne)]; [congruence|].
           rewrite Es in Hsp'. injection Hsp' as <-. contradiction.
      * apply String.eqb_neq in Eq. rewrite elem_of_cons, Htail. split.
        -- intros [->|(c & Hlt & Hl & He)].
           ++ exists cur. rewrite Nat.sub_diag. split; [lia|]. split; [reflexivity|].
              right. eauto.
           ++ exists c. split; [lia|]. auto.
        -- intros (c & Hle & Hl & He).
           destruct (Hhere c Hle Hl) as [[-> ->]|Hlt]; [left; reflexivity | right; eauto].
    + rewrite elem_of_cons, Htail. split.
      * intros [->|(c & Hlt & Hl & He)].
        -- exists cur. rewrite Nat.sub_diag. split; [lia|]. split; [reflexivity|].
           left. exact Es.
        -- exists c. split; [lia|]. auto.
      * intros (c & Hle & Hl & He).
        destruct (Hhere c Hle Hl) as [[-> ->]|Hlt]; [left; reflexivity | right; eauto].
Qed.

Lemma modifiedFrom_ge rest i j :
  j ∈ modifiedFrom savedParagraphs rest i → (i ≤ j)%nat.
Proof. rewrite modifiedFrom_elem. intros (c & H & _). exact H. Qed.

Lemma modifiedFrom_unchanged rest : ∀ i,
  (∀ k cur, rest !! k = Some cur →
     ∃ sp, savedParagraphs !! (i + k)%nat = Some sp ∧ translatedContent sp = cur) →
  modifiedFrom savedParagraphs rest i = [].
Proof.
  induction rest as [|cur rest IH]; intros i H; cbn [modifiedFrom]; [reflexivity|].
  destruct (H 0%nat cur eq_refl) as (sp & Hsp & Heq). rewrite Nat.add_0_r in Hsp.
  rewrite Hsp, <- Heq, String.eqb_refl. apply IH.
  intros k c Hk. replace (S i + k)%nat with (i + S k)%nat by lia. apply H. exact Hk.
Qed.

End ModifiedFacts.

(** C7. When the paragraphs of the edited translation are, position by
    position, the [translatedContent] of the prior mapping,
    [reverseTranslate] returns at once, without any request to the
    provider: [modifiedIndices] is empty, the mapping is the prior
    mapping, and [newSourceContent] is the join of the prior
    [sourceContent] fields. *)
Theorem C7_unedited_translation_is_kept
    (calculateHash : string → string) (provider : Provider)
    (configMaxConcurrency : option nat)
    (currentTranslatedContent : string) (savedParagraphs : list ParagraphMapping)
    (signal : AbortSignal) (t : N) :
  splitIntoParagraphs currentTranslatedContent
    = List.map translatedContent savedParagraphs →
  reverseTranslate calculateHash provider configMaxConcurrency
    currentTranslatedContent savedParagraphs signal t
  = mkRun (Fulfilled {| modifiedIndices := [];
                        translatedParagraphs := [];
                        newSourceContent :=
                          JS.join (String JS.LF (String JS.LF EmptyString))
                                  (List.map sourceContent savedParagraphs);
                        newParagraphs := savedParagraphs |}) t [].
Proof.
  intros Hsame. unfold reverseTranslate. rewrite Hsame.
  rewrite modifiedFrom_unchanged; [reflexivity|].
  intros k cur Hk. apply list_lookup_fmap_Some in Hk as (sp & -> & Hsp).
  exists sp. split; [exact Hsp | reflexivity].
Qed.

Lemma C7_witness :
  let saved := [ {| sourceContent := "Hello"; translatedContent := "Bonjour";
                    sourceHash := "h1" |};
                 {| sourceContent := "World"; translatedContent := "Monde";
                    sourceHash := "h2" |} ] in
  let r := reverseTranslate idHash limitedProvider None
             (doc ["Bonjour"; EmptyString; EmptyString; "Monde"; EmptyString; EmptyString]) saved None 7%N in
  events r = [] ∧ finish r = 7%N
  ∧ outcome r = Fulfilled {| modifiedIndices := []; translatedParagraphs := [];
                             newSourceContent := doc ["Hello"; EmptyString; "World"];
                             newParagraphs := saved |}.
Proof.
  intros saved r. subst r.
  rewrite (C7_unedited_translation_is_kept idHash limitedProvider None
             (doc ["Bonjour"; EmptyString; EmptyString; "Monde"; EmptyString; EmptyString])
             saved None 7%N ltac:(vm_compute; reflexivity)).
  repeat split.
Defined.

Lemma collectTranslated_run results rest : ∀ i t,
  finish (collectTranslated results rest i t) = t
  ∧ events (collectTranslated results rest i t) = []
  ∧ outcome (collectTranslated results rest i t) ≠ Pending.
Proof.
  induction rest as [|index rest IH]; intros i t; cbn [collectTranslated].
  - repeat split. discriminate.
  - destruct (mjoin (results !! i)) as [result|]; [|repeat split; discriminate].
    rewrite bind_run. unfold andThen.
    destruct (IH (S i) t) as (Hf & He & Hp).
    destruct (outcome (collectTranslated results rest (S i) t)); cbn;
      rewrite ?Hf, ?He; repeat split; try discriminate; congruence.
Qed.

Lemma collectTranslated_fulfilled results rest : ∀ i t tp,
  outcome (collectTranslated results rest i t) = Fulfilled tp →
  List.map fst tp = rest
  ∧ ∀ k index, rest !! k = Some index →
      ∃ r, results !! (i + k)%nat = Some (Some r)
           ∧ tp !! k = Some (index, translatedText r).
Proof.
  induction rest as [|index rest IH]; intros i t tp H; cbn [collectTranslated] in H.
  - cbn in H. injection H as <-. split; [reflexivity|]. intros k index Hk. discriminate.
  - destruct (results !! i) as [[result|]|] eqn:Er; cbn in H; try discriminate.
    rewrite bind_run in H. apply andThen_fulfilled in H as (more & Hmore & Hret).
    cbn in Hret. injection Hret as <-.
    destruct (IH _ _ _ Hmore) as (Hfst & Hat).
    split; [cbn; rewrite Hfst; reflexivity|].
    intros [|k] idx Hk; cbn in Hk.
    + injection Hk as <-. exists result. rewrite Nat.add_0_r. auto.
    + destruct (Hat k idx Hk) as (r & Hr & Htp). exists r.
      replace (i + S k)%nat with (S i + k)%nat by lia. auto.
Qed.

Lemma collectTranslated_succeeds results rest : ∀ i t,
  (∀ k, (k < List.length rest)%nat → ∃ v, results !! (i + k)%nat = Some (Some v)) →
  ∃ tp, outcome (collectTranslated results rest i t) = Fulfilled tp.
Proof.
  induction rest as [|index rest IH]; intros i t H; cbn [collectTranslated].
  - eexists. reflexivity.
  - destruct (H 0%nat ltac:(cbn; lia)) as [v Hv]. rewrite Nat.add_0_r in Hv.
    rewrite Hv. cbn [mjoin option_join]. rewrite bind_run. unfold andThen.
    destruct (IH (S i) t) as [tp ->].
    + intros k Hk. replace (S i + k)%nat with (i + S k)%nat by lia. apply H. cbn. lia.
    + eexists. reflexivity.
Qed.

Section RebuildFacts.

Variable calculateHash : string → string.
Variable savedParagraphs : list ParagraphMapping.
Variable currentParagraphs : list string.

Lemma rebuild_spec rest : ∀ i tp spc np,
  List.map fst tp = modifiedFrom savedParagraphs rest i →
  List.length np = Nat.max (List.length savedParagraphs) i →
  spc = List.map sourceContent np →
  let out := fold_left (rebuildStep calculateHash currentParagraphs) tp (spc, np) in
  fst out = List.map sourceContent (snd out)
  ∧ (∀ j fresh, (j, fresh) ∈ tp → snd out !! j = Some (rebuiltEntry calculateHash currentParagraphs j fresh))
  ∧ (∀ j, j ∉ List.map fst tp → snd out !! j = np !! j).
Proof.
  induction rest as [|cur rest IH]; intros i tp spc np Htp Hlen Hspc; cbn zeta.
  - cbn in Htp. destruct tp; [|discriminate]. cbn.
    split; [exact Hspc|]. split; [|reflexivity]. intros j fresh H. inversion H.
  - cbn [modifiedFrom] in Htp.
    assert (Hskip : List.map fst tp = modifiedFrom savedParagraphs rest (S i) →
                    (i < List.length savedParagraphs)%nat →
                    let out := fold_left (rebuildStep calculateHash currentParagraphs) tp
                                 (spc, np) in
                    fst out = List.map sourceContent (snd out)
                    ∧ (∀ j fresh, (j, fresh) ∈ tp → snd out !! j = Some (rebuiltEntry calculateHash currentParagraphs j fresh))
                    ∧ (∀ j, j ∉ List.map fst tp → snd out !! j = np !! j)).
    { intros Htp' Hi. apply (IH (S i)); [exact Htp' | lia | exact Hspc]. }
    assert (Htake : ∀ tp' fresh,
               tp = (i, fresh) :: tp' →
               List.map fst tp' = modifiedFrom savedParagraphs rest (S i) →
               let out := fold_left (rebuildStep calculateHash currentParagraphs) tp
                            (spc, np) in
               fst out = List.map sourceContent (snd out)
               ∧ (∀ j c, (j, c) ∈ tp → snd out !! j = Some (rebuiltEntry calculateHash currentParagraphs j c))
               ∧ (∀ j, j ∉ List.map fst tp → snd out !! j = np !! j)).
    { intros tp' fresh -> Htp'. cbn [fold_left rebuildStep].
      assert (Hnotin : i ∉ List.map fst tp').
      { rewrite Htp'. intros Hin. apply modifiedFrom_ge in Hin. lia. }
      rewrite Hspc, length_map.
      destruct (i <? List.length np)%nat eqn:Ei.
      - apply Nat.ltb_lt in Ei.
        destruct (IH (S i) tp'
                    (<[i := fresh]> (List.map sourceContent np))
                    (<[i := rebuiltEntry calculateHash currentParagraphs i fresh]> np)) as (H1 & H2 & H3).
        + exact Htp'.
        + rewrite length_insert. lia.
        + rewrite list_fmap_insert. reflexivity.
        + split; [exact H1|]. split.
          * intros j c Hin. apply elem_of_cons in Hin as [Heq|Hin]; [|apply H2; exact Hin].
            injection Heq as -> ->. rewrite H3 by exact Hnotin.
            apply list_lookup_insert_eq. exact Ei.
          * intros j Hj. cbn in Hj. rewrite H3.
            -- apply list_lookup_insert_ne. intros ->. apply Hj. left.
            -- intros Hin. apply Hj. right. exact Hin.
      - apply Nat.ltb_ge in Ei.
        assert (Hi : List.length np = i) by lia.
        destruct (IH (S i) tp'
                    (List.map sourceContent np ++ [fresh])
                    (np ++ [rebuiltEntry calculateHash currentParagraphs i fresh])) as (H1 & H2 & H3).
        + exact Htp'.
        + rewrite length_app. cbn. lia.
        + rewrite map_app. reflexivity.
        + split; [exact H1|]. split.
          * intros j c Hin. apply elem_of_cons in Hin as [Heq|Hin]; [|apply H2; exact Hin].
            injection Heq as -> ->. rewrite H3 by exact Hnotin.
            rewrite lookup_app_r by lia. rewrite Hi, Nat.sub_diag. reflexivity.
          * intros j Hj. cbn in Hj. rewrite H3.
            -- destruct (Nat.lt_ge_cases j i) as [Hlt|Hge].
               ++ apply lookup_app_l. lia.
               ++ assert (j ≠ i) by (intros ->; apply Hj; left).
                  rewrite lookup_app_r by lia.
                  rewrite (lookup_ge_None_2 np j) by lia.
                  apply lookup_ge_None_2. cbn. lia.
            -- intros Hin. apply Hj. right. exact Hin. }
    destruct (savedParagraphs !! i) as [sp|] eqn:Es.
    + pose proof (lookup_lt_Some _ _ _ Es) as Hi.
      destruct (String.eqb cur (translatedContent sp)).
      * apply Hskip; assumption.
      * destruct tp as [|[i' fresh] tp']; [discriminate|].
        cbn in Htp. injection Htp as -> Htp'. apply (Htake tp' fresh eq_refl Htp').
    + destruct tp as [|[i' fresh] tp']; [discriminate|].
      cbn in Htp. injection Htp as -> Htp'. apply (Htake tp' fresh eq_refl Htp').
Qed.

End RebuildFacts.

Section ReverseFacts.

Variable calculateHash : string → string.
Variable provider : Provider.
Variable configMaxConcurrency : option nat.
Variable currentTranslatedContent : string.
Variable savedParagraphs : list ParagraphMapping.
Variable signal : AbortSignal.

Lemma reverseTranslate_run t :
  modifiedFrom savedParagraphs (splitIntoParagraphs currentTranslatedContent) 0 ≠ [] →
  reverseTranslate calculateHash provider configMaxConcurrency
    currentTranslatedContent savedParagraphs signal t
  = let d := reverseDispatch provider configMaxConcurrency currentTranslatedContent
               savedParagraphs signal t in
    match outcome d with
    | Fulfilled rs =>
        let c := collectTranslated rs
                   (modifiedFrom savedParagraphs
                      (splitIntoParagraphs currentTranslatedContent) 0) 0 (finish d) in
        match outcome c with
        | Fulfilled tp =>
            mkRun (Fulfilled (reverseResult calculateHash currentTranslatedContent
                                savedParagraphs tp))
                  (finish c) (events d ++ events c ++ [])
        | Rejected e => mkRun (Rejected e) (finish c) (events d ++ events c)
        | Pending => mkRun Pending (finish c) (events d ++ events c)
        end
    | Rejected e => mkRun (Rejected e) (finish d) (events d)
    | Pending => mkRun Pending (finish d) (events d)
    end.
Proof.
  intros Hne. unfold reverseTranslate, reverseDispatch, reverseResult.
  destruct (modifiedFrom savedParagraphs (splitIntoParagraphs currentTranslatedContent) 0)
    as [|x l] eqn:E; [contradiction|].
  cbn [List.length Nat.eqb]. cbn zeta.
  rewrite bind_run; unfold andThen.
  destruct (outcome (translateParagraphs _ _ _ _ t)) as [rs|e|];
    cbn [outcome finish events resolve]; try reflexivity.
  rewrite bind_run; unfold andThen.
  destruct (outcome (collectTranslated rs _ _ _)) as [tp|e|];
    cbn [outcome finish events resolve]; try reflexivity.
  destruct (fold_left _ tp _) as [spc np]. reflexivity.
Qed.

Lemma reverseTranslate_fulfilled t res :
  outcome (reverseTranslate calculateHash provider configMaxConcurrency
             currentTranslatedContent savedParagraphs signal t) = Fulfilled res →
  let modified :=
    modifiedFrom savedParagraphs (splitIntoParagraphs currentTranslatedContent) 0 in
  let d := reverseDispatch provider configMaxConcurrency currentTranslatedContent
             savedParagraphs signal t in
  (modified = [] ∧ modifiedIndices res = [] ∧ newParagraphs res = savedParagraphs
   ∧ newSourceContent res = joinParagraphs (List.map sourceContent savedParagraphs))
  ∨ (modified ≠ [] ∧
     ∃ rs tp, outcome d = Fulfilled rs
              ∧ outcome (collectTranslated rs modified 0 (finish d)) = Fulfilled tp
              ∧ res = reverseResult calculateHash currentTranslatedContent
                        savedParagraphs tp).
Proof.
  cbn zeta.
  destruct (modifiedFrom savedParagraphs (splitIntoParagraphs currentTranslatedContent) 0)
    as [|x l] eqn:E.
  - unfold reverseTranslate. rewrite E. cbn. intros H. injection H as <-.
    left. cbn. auto.
  - rewrite reverseTranslate_run by (rewrite E; discriminate).
    cbn zeta. rewrite E. intros H. right. split; [discriminate|].
    destruct (outcome (reverseDispatch _ _ _ _ _ t)) as [rs|e|]; try discriminate.
    destruct (outcome (collectTranslated rs _ _ _)) as [tp|e|] eqn:Ec; try discriminate.
    cbn in H. injection H as <-. exists rs, tp. auto.
Qed.

Lemma reverseTranslate_succeeds t rs :
  modifiedFrom savedParagraphs (splitIntoParagraphs currentTranslatedContent) 0 ≠ [] →
  outcome (reverseDispatch provider configMaxConcurrency currentTranslatedContent
             savedParagraphs signal t) = Fulfilled rs →
  ∃ tp, outcome (reverseTranslate calculateHash provider configMaxConcurrency
                   currentTranslatedContent savedParagraphs signal t)
        = Fulfilled (reverseResult calculateHash currentTranslatedContent
                       savedParagraphs tp).
Proof.
  intros Hne Hd.
  destruct (translateParagraphs_complete _ _ _ _ _ _ Hd) as (_ & Hall).
  rewrite length_map in Hall.
  destruct (collectTranslated_succeeds rs
              (modifiedFrom savedParagraphs (splitIntoParagraphs currentTranslatedContent) 0)
              0 (finish (reverseDispatch provider configMaxConcurrency
                           currentTranslatedContent savedParagraphs signal t)))
    as [tp Htp].
  - intros k Hk. apply Hall. exact Hk.
  - exists tp. rewrite reverseTranslate_run by exact Hne. cbn zeta.
    rewrite Hd, Htp. reflexivity.
Qed.

End ReverseFacts.

(** C8 (as amended). In [reverseTranslate], position [i] is marked
    modified exactly when the edited paragraph [i] differs from
    [savedParagraphs[i].translatedContent] or there is no saved entry at
    [i]. When the dispatch of the modified paragraphs fulfils,
    [reverseTranslate] returns; the entry of the [k]-th modified index
    gets the text of the [k]-th result as [sourceContent], the edited
    paragraph as [translatedContent] and the hash of the new
    [sourceContent] as [sourceHash]. An untouched entry keeps its
    [sourceContent] and [translatedContent], and its [sourceHash] unless
    that is empty and some other index is modified: then the hash of its
    [sourceContent] is filled in. The rebuilt source is the join of the
    [sourceContent] fields of the new mapping. *)
Theorem C8_reverse_rebuilds_modified_entries
    (calculateHash : string → string) (provider : Provider)
    (configMaxConcurrency : option nat)
    (currentTranslatedContent : string) (savedParagraphs : list ParagraphMapping)
    (signal : AbortSignal) (t : N) :
  let currentParagraphs := splitIntoParagraphs currentTranslatedContent in
  let r := reverseTranslate calculateHash provider configMaxConcurrency
             currentTranslatedContent savedParagraphs signal t in
  let d := reverseDispatch provider configMaxConcurrency currentTranslatedContent
             savedParagraphs signal t in
  (∀ rs, outcome d = Fulfilled rs → ∃ res, outcome r = Fulfilled res)
  ∧ (∀ res, outcome r = Fulfilled res →
       (∀ i, i ∈ modifiedIndices res ↔
             ∃ cur, currentParagraphs !! i = Some cur ∧ edited savedParagraphs i cur)
       ∧ (∀ k i, modifiedIndices res !! k = Some i →
            ∃ cur rs result,
              currentParagraphs !! i = Some cur
              ∧ outcome d = Fulfilled rs
              ∧ rs !! k = Some (Some result)
              ∧ newParagraphs res !! i
                = Some {| sourceContent := translatedText result;
                          translatedContent := cur;
                          sourceHash := calculateHash (translatedText result) |})
       ∧ (∀ i sp, i ∉ modifiedIndices res → savedParagraphs !! i = Some sp →
            newParagraphs res !! i
            = Some (match modifiedIndices res with
                    | [] => sp
                    | _ => withSourceHash calculateHash sp
                    end))
       ∧ newSourceContent res
         = joinParagraphs (List.map sourceContent (newParagraphs res))).
Proof.
  cbn zeta. split.
  - intros rs Hd.
    destruct (modifiedFrom savedParagraphs (splitIntoParagraphs currentTranslatedContent) 0)
      as [|x l] eqn:E.
    + unfold reverseTranslate. rewrite E. cbn. eauto.
    + destruct (reverseTranslate_succeeds calculateHash provider configMaxConcurrency
                  currentTranslatedContent savedParagraphs signal t rs) as [tp Htp];
        [rewrite E; discriminate | exact Hd | eauto].
  - intros res Hres.
    assert (Hmod : modifiedIndices res
                   = modifiedFrom savedParagraphs
                       (splitIntoParagraphs currentTranslatedContent) 0).
    { apply reverseTranslate_fulfilled in Hres.
      destruct Hres as [(Hnil & Hm & _)|(_ & rs & tp & _ & _ & ->)];
        [congruence | reflexivity]. }
    assert (Hmark : ∀ i, i ∈ modifiedIndices res ↔
              ∃ cur, splitIntoParagraphs currentTranslatedContent !! i = Some cur
                     ∧ edited savedParagraphs i cur).
    { intros i. rewrite Hmod, modifiedFrom_elem. rewrite Nat.sub_0_r. split.
      - intros (cur & _ & H1 & H2). eauto.
      - intros (cur & H1 & H2). exists cur. split; [lia|]. auto. }
    split; [exact Hmark|].
    apply reverseTranslate_fulfilled in Hres. cbn zeta in Hres.
    destruct Hres as [(Hnil & Hm & Hnp & Hsrc)|(Hne & rs & tp & Hd & Hc & ->)].
    + rewrite Hm, Hnp. split; [|split].
      * intros k i Hk. discriminate.
      * intros i sp _ Hsp. exact Hsp.
      * exact Hsrc.
    + destruct (collectTranslated_fulfilled _ _ _ _ _ Hc) as (Hfst & Hat).
      destruct (rebuild_spec calculateHash savedParagraphs
                  (splitIntoParagraphs currentTranslatedContent)
                  (splitIntoParagraphs currentTranslatedContent) 0 tp
                  (List.map sourceContent savedParagraphs)
                  (List.map (withSourceHash calculateHash) savedParagraphs))
        as (Hsrc & Hin & Hout).
      * exact Hfst.
      * rewrite length_map. lia.
      * rewrite map_map. reflexivity.
      * cbn [modifiedIndices newParagraphs newSourceContent reverseResult].
        split; [|split].
        -- intros k i Hk.
           destruct (Hat k i Hk) as (result & Hr & Htp).
           assert (Hi : i ∈ modifiedFrom savedParagraphs
                          (splitIntoParagraphs currentTranslatedContent) 0)
             by (apply list_elem_of_lookup; eauto).
           rewrite <- Hmod in Hi.
           apply Hmark in Hi as (cur & Hcur & _).
           exists cur, rs, result. split; [exact Hcur|]. split; [exact Hd|].
           split; [exact Hr|].
           rewrite (Hin i (translatedText result)) by (apply list_elem_of_lookup; eauto).
           unfold rebuiltEntry. rewrite Hcur. reflexivity.
        -- intros i sp Hi Hsp. rewrite Hout by (rewrite Hfst; exact Hi).
           rewrite list_lookup_fmap, Hsp.
           destruct (modifiedFrom savedParagraphs _ 0); [contradiction | reflexivity].
        -- rewrite Hsrc. reflexivity.
Qed.

(** The second of three paragraphs is edited: only index 1 is
    modified, and the source paragraphs 0 and 2 are rebuilt as they were. *)
Lemma C8_witness :
  let saved := [ {| sourceContent := "one"; translatedContent := "un"; sourceHash := "h1" |};
                 {| sourceContent := "two"; translatedContent := "deux"; sourceHash := "h2" |};
                 {| sourceContent := "three"; translatedContent := "trois";
                    sourceHash := "h3" |} ] in
  let r := reverseTranslate idHash echoProvider None
             (doc ["un"; EmptyString; "DEUX"; EmptyString; "trois"]) saved None 0%N in
  ∃ res, outcome r = Fulfilled res
         ∧ modifiedIndices res = [1%nat]
         ∧ newParagraphs res
           = [ {| sourceContent := "one"; translatedContent := "un"; sourceHash := "h1" |};
               {| sourceContent := "T:DEUX"; translatedContent := "DEUX";
                  sourceHash := idHash "T:DEUX" |};
               {| sourceContent := "three"; translatedContent := "trois";
                  sourceHash := "h3" |} ]
         ∧ newSourceContent res = doc ["one"; EmptyString; "T:DEUX"; EmptyString; "three"].
Proof.
  intros saved r. subst r.
  destruct (C8_reverse_rebuilds_modified_entries idHash echoProvider None
              (doc ["un"; EmptyString; "DEUX"; EmptyString; "trois"]) saved None 0%N)
    as (Hex & _).
  destruct (Hex _ ltac:(vm_compute; reflexivity)) as [res Hres].
  exists res. split; [exact Hres|].
  vm_compute in Hres. injection Hres as <-. repeat split.
Defined.

(** C8 as stated fails: index 0 is untouched, yet its entry is not
    carried over unchanged, because its empty [sourceHash] is filled in. *)
Lemma C8_counterexample :
  let saved := [ {| sourceContent := "one"; translatedContent := "un";
                    sourceHash := EmptyString |};
                 {| sourceContent := "two"; translatedContent := "deux"; sourceHash := "h2" |} ] in
  let r := reverseTranslate idHash echoProvider None
             (doc ["un"; EmptyString; "DEUX"]) saved None 0%N in
  ∃ res, outcome r = Fulfilled res
         ∧ modifiedIndices res = [1%nat]
         ∧ newParagraphs res !! 0%nat
           = Some {| sourceContent := "one"; translatedContent := "un";
                     sourceHash := idHash "one" |}
         ∧ newParagraphs res !! 0%nat ≠ saved !! 0%nat.
Proof.
  cbn zeta. eexists. split; [vm_compute; reflexivity|].
  split; [reflexivity|]. split; [reflexivity|]. discriminate.
Qed.

(** ** The retry policy *)

Lemma attemptsOf_app a b : attemptsOf (a ++ b) = attemptsOf a ++ attemptsOf b.
Proof. unfold attemptsOf. apply omap_app. Qed.

Lemma sleepsOf_app a b : sleepsOf (a ++ b) = sleepsOf a ++ sleepsOf b.
Proof. unfold sleepsOf. apply omap_app. Qed.

Lemma retryDelay_policy e attempt : retryDelay e attempt = policyDelay e attempt.
Proof. unfold retryDelay, policyDelay. destruct (code e); reflexivity. Qed.

Lemma classifyError_not_retryable errorMessage :
  let e := classifyError (ThrownOther errorMessage) in
  retryable e = false ↔ code e = AUTH_ERROR ∨ code e = CANCELLED.
Proof.
  cbn zeta. unfold classifyError.
  repeat match goal with
         | |- context [if ?b then _ else _] => destruct b
         end; cbn; split; intros H; try discriminate; auto;
    destruct H; discriminate.
Qed.

Section RetryTrace.

Context {T : Type}.
Variable operation : nat → Task T.
Variable maxRetries : nat.
Variable err : nat → Thrown.
Variable index : nat.
Variable content : string.
Variable n : nat.

Hypothesis operation_fails : ∀ k t, outcome (operation k t) = Rejected (err k).
Hypothesis operation_requests : ∀ k t, events (operation k t) = [EvRequest index k content t].
Hypothesis retryable_before : ∀ k, (k < n)%nat → retryable (classifyError (err k)) = true.
Hypothesis stops_at :
  retryable (classifyError (err n)) = false ∨ S n = maxRetries.

Lemma withRetryFrom_trace : ∀ d attempt remaining lastError t,
  (attempt + d = n)%nat → (attempt + remaining = maxRetries)%nat → (n < maxRetries)%nat →
  let r := withRetryFrom operation maxRetries None remaining attempt lastError t in
  outcome r = Rejected (ThrownTranslationError (classifyError (err n)))
  ∧ attemptsOf (events r) = seq attempt (S d)
  ∧ sleepsOf (events r)
    = List.map (fun k => policyDelay (classifyError (err k)) k) (seq attempt d).
Proof.
  induction d as [|d IH]; intros attempt remaining lastError t Hd Hrem Hn; cbn zeta.
  - assert (attempt = n) by lia. subst attempt.
    destruct remaining as [|remaining]; [lia|].
    rewrite withRetryFrom_step. cbn zeta.
    rewrite operation_fails, operation_requests.
    destruct (negb (retryable (classifyError (err n)))) eqn:Er.
    + cbn. auto.
    + destruct stops_at as [Hs|Hs].
      { rewrite Hs in Er. discriminate. }
      assert (remaining = 0%nat) by lia. subst remaining.
      assert (Hlt : (n <? maxRetries - 1)%nat = false) by (apply Nat.ltb_ge; lia).
      rewrite Hlt. cbn. auto.
  - destruct remaining as [|remaining]; [lia|].
    rewrite withRetryFrom_step. cbn zeta.
    rewrite operation_fails, operation_requests.
    rewrite (retryable_before attempt) by lia. cbn [negb].
    assert (Hlt : (attempt <? maxRetries - 1)%nat = true) by (apply Nat.ltb_lt; lia).
    rewrite Hlt.
    destruct (IH (S attempt) remaining (Some (classifyError (err attempt)))
                (finish (sleep (retryDelay (classifyError (err attempt)) attempt)
                           (finish (operation attempt t))))) as (Ho & Ha & Hs);
      [lia | lia | exact Hn |].
    cbn [outcome events]. split; [exact Ho|].
    rewrite !attemptsOf_app, !sleepsOf_app, Ha, Hs.
    cbn. rewrite retryDelay_policy. auto.
Qed.

End RetryTrace.

(** The events of a run of failing attempts, instant by instant. *)
Section RetrySchedule.

Context {T : Type}.
Variable operation : nat → Task T.
Variable maxRetries : nat.
Variable err : nat → Thrown.
Variable index : nat.
Variable content : string.
Variable n : nat.

Hypothesis operation_fails : ∀ k t, outcome (operation k t) = Rejected (err k).
Hypothesis operation_requests : ∀ k t, events (operation k t) = [EvRequest index k content t].
Hypothesis retryable_before : ∀ k, (k < n)%nat → retryable (classifyError (err k)) = true.
Hypothesis stops_at :
  retryable (classifyError (err n)) = false ∨ S n = maxRetries.

Lemma withRetryFrom_schedule : ∀ d attempt remaining lastError t,
  (attempt + d = n)%nat → (attempt + remaining = maxRetries)%nat → (n < maxRetries)%nat →
  let r := withRetryFrom operation maxRetries None remaining attempt lastError t in
  events r = retryTrace operation err index content attempt d t
  ∧ finish r = retryFinish operation err attempt d t.
Proof.
  induction d as [|d IH]; intros attempt remaining lastError t Hd Hrem Hn; cbn zeta.
  - assert (attempt = n) by lia. subst attempt.
    destruct remaining as [|remaining]; [lia|].
    rewrite withRetryFrom_step. cbn zeta.
    rewrite operation_fails, operation_requests.
    destruct (negb (retryable (classifyError (err n)))) eqn:Er.
    + cbn. auto.
    + destruct stops_at as [Hs|Hs].
      { rewrite Hs in Er. discriminate. }
      assert (remaining = 0%nat) by lia. subst remaining.
      assert (Hlt : (n <? maxRetries - 1)%nat = false) by (apply Nat.ltb_ge; lia).
      rewrite Hlt. cbn. auto.
  - destruct remaining as [|remaining]; [lia|].
    rewrite withRetryFrom_step. cbn zeta.
    rewrite operation_fails, operation_requests.
    rewrite (retryable_before attempt) by lia. cbn [negb].
    assert (Hlt : (attempt <? maxRetries - 1)%nat = true) by (apply Nat.ltb_lt; lia).
    rewrite Hlt.
    destruct (IH (S attempt) remaining (Some (classifyError (err attempt)))
                (finish (sleep (retryDelay (classifyError (err attempt)) attempt)
                           (finish (operation attempt t))))) as (He & Hf);
      [lia | lia | exact Hn |].
    cbn [outcome events finish]. rewrite He, Hf.
    cbn [sleep finish events retryTrace retryFinish app]. rewrite retryDelay_policy. auto.
Qed.

End RetrySchedule.

Lemma requestTimes_retryTrace {T} (operation : nat → Task T) err index content : ∀ d attempt t,
  requestTimes (retryTrace operation err index content attempt d t)
  = t :: match d with
         | O => []
         | S d' =>
             requestTimes
               (retryTrace operation err index content (S attempt) d'
                  (finish (operation attempt t)
                   + policyDelay (classifyError (err attempt)) attempt))
         end.
Proof. intros [|d] attempt t; reflexivity. Qed.

Lemma retryTrace_spacing {T} (operation : nat → Task T) err index content : ∀ d attempt t k tk,
  (k < d)%nat →
  requestTimes (retryTrace operation err index content attempt d t) !! k = Some tk →
  requestTimes (retryTrace operation err index content attempt d t) !! S k
  = Some (finish (operation (attempt + k)%nat tk)
          + policyDelay (classifyError (err (attempt + k)%nat)) (attempt + k)%nat)%N.
Proof.
  induction d as [|d IH]; intros attempt t k tk Hk H; [lia|].
  rewrite requestTimes_retryTrace in H |- *. destruct k as [|k].
  - cbn in H. injection H as <-. rewrite Nat.add_0_r.
    cbn [lookup list_lookup]. rewrite requestTimes_retryTrace. reflexivity.
  - cbn [lookup list_lookup] in H |- *.
    replace (attempt + S k)%nat with (S attempt + k)%nat by lia.
    apply IH; [lia|exact H].
Qed.

(** C4. [withRetry] makes its attempts one after the other. An error
    whose classification is not retryable is surfaced at once, without a
    pause and without a further attempt; among the errors that
    [classifyError] classifies by their message these are exactly
    [AUTH_ERROR] and [CANCELLED]. After a retryable error it pauses for
    60000 ms when the code is [RATE_LIMIT], and for 1000 ms doubled per
    attempt otherwise, and the next attempt starts when the pause is
    over: the run is the trace [retryTrace], in which the pause after
    attempt [k] begins at the instant the attempt has failed, and the
    request of attempt [k + 1] is made at that instant plus the delay.
    When [maxRetries] attempts have failed it rejects, at the instant
    the last attempt has failed, with the classification of the last
    error; [translate] uses [maxRetries = 3]. Here the failing attempts
    are [0 .. n], and [n] is either the first that is not retryable or
    the last that is allowed. *)
Theorem C4_retry_policy {T : Type}
    (operation : nat → Task T) (maxRetries : nat) (err : nat → Thrown)
    (index : nat) (content : string) (n : nat) (t : N) :
  (∀ k t', outcome (operation k t') = Rejected (err k)) →
  (∀ k t', events (operation k t') = [EvRequest index k content t']) →
  (n < maxRetries)%nat →
  (∀ k, (k < n)%nat → retryable (classifyError (err k)) = true) →
  retryable (classifyError (err n)) = false ∨ S n = maxRetries →
  let r := withRetry operation maxRetries None t in
  outcome r = Rejected (ThrownTranslationError (classifyError (err n)))
  ∧ attemptsOf (events r) = seq 0 (S n)
  ∧ sleepsOf (events r)
    = List.map (fun k => match code (classifyError (err k)) with
                         | RATE_LIMIT => 60000%N
                         | _ => (1000 * 2 ^ N.of_nat k)%N
                         end) (seq 0 n)
  ∧ events r = retryTrace operation err index content 0 n t
  ∧ finish r = retryFinish operation err 0 n t
  ∧ requestTimes (events r) !! 0%nat = Some t
  ∧ (∀ k tk, (k < n)%nat → requestTimes (events r) !! k = Some tk →
       requestTimes (events r) !! S k
       = Some (finish (operation k tk)
               + match code (classifyError (err k)) with
                 | RATE_LIMIT => 60000
                 | _ => 1000 * 2 ^ N.of_nat k
                 end)%N)
  ∧ (∀ errorMessage,
       retryable (classifyError (ThrownOther errorMessage)) = false ↔
       code (classifyError (ThrownOther errorMessage)) = AUTH_ERROR
       ∨ code (classifyError (ThrownOther errorMessage)) = CANCELLED)
  ∧ (∀ provider i paragraph signal,
       translate provider i paragraph signal
       = withRetry (fun attempt =>
                      x ← generateText provider i attempt paragraph;
                      resolve {| translatedText := text x;
                                 tokenUsage := convertTokenUsage (usage x) |})
                   3 signal).
Proof.
  intros Hfail Hreq Hn Hbefore Hstop. cbn zeta.
  destruct (withRetryFrom_trace operation maxRetries err index content n
              Hfail Hreq Hbefore Hstop n 0 maxRetries None t) as (Ho & Ha & Hs);
    [lia | lia | exact Hn |].
  destruct (withRetryFrom_schedule operation maxRetries err index content n
              Hfail Hreq Hbefore Hstop n 0 maxRetries None t) as (He & Hf);
    [lia | lia | exact Hn |].
  fold (withRetry operation maxRetries None t) in He, Hf.
  split; [exact Ho|]. split; [exact Ha|]. split; [exact Hs|].
  split; [exact He|]. split; [exact Hf|].
  split; [rewrite He, requestTimes_retryTrace; reflexivity|].
  split.
  { intros k tk Hk Htk. rewrite He in Htk |- *.
    exact (retryTrace_spacing operation err index content n 0 t k tk Hk Htk). }
  split; [intros errorMessage; apply classifyError_not_retryable | reflexivity].
Qed.

(** Three attempts of 5 ms each: a network error, then two rate limits.
    The pauses are 1000 ms and 60000 ms, the requests are made at the
    instants 0, 1005 and 61010, and the last error is propagated at
    61015. *)
Lemma C4_witness :
  let err := fun k => match k with
                      | O => ThrownOther "connect ECONNREFUSED"
                      | _ => ThrownOther "HTTP 429"
                      end in
  let operation : nat → Task string :=
    fun k t => mkRun (Rejected (err k)) (t + 5)%N [EvRequest 0 k "Hello" t] in
  let r := withRetry operation 3 None 0%N in
  outcome r = Rejected (ThrownTranslationError
                {| message := "Rate limit exceeded. Please wait before retrying.";
                   code := RATE_LIMIT; retryable := true |})
  ∧ attemptsOf (events r) = [0; 1; 2]%nat
  ∧ sleepsOf (events r) = [1000; 60000]%N
  ∧ events r = [EvRequest 0 0 "Hello" 0%N; EvSleep 1000 5%N;
                EvRequest 0 1 "Hello" 1005%N; EvSleep 60000 1010%N;
                EvRequest 0 2 "Hello" 61010%N]
  ∧ requestTimes (events r) = [0; 1005; 61010]%N
  ∧ finish r = 61015%N.
Proof.
  intros err operation r. subst r.
  destruct (C4_retry_policy operation 3 err 0 "Hello" 2 0%N)
    as (Ho & Ha & Hs & He & Hf & _).
  - reflexivity.
  - reflexivity.
  - lia.
  - intros [|[|k]] Hk; [reflexivity | reflexivity | lia].
  - right. reflexivity.
  - rewrite Ho, Ha, Hs, He, Hf. repeat split.
Defined.

(** ** Cancellation *)



(** A check that comes after the signal ends the run. *)
Section RetryCancelled.

Context {T : Type}.
Variable operation : nat → Task T.
Variable maxRetries : nat.
Variable err : nat → Thrown.
Variable index : nat.
Variable content : string.
Variable a : N.
Variable n : nat.

Hypothesis operation_fails :
  ∀ k t, (k < n)%nat → outcome (operation k t) = Rejected (err k).
Hypothesis operation_requests :
  ∀ k t, (k < n)%nat → events (operation k t) = [EvRequest index k content t].
Hypothesis retryable_before : ∀ k, (k < n)%nat → retryable (classifyError (err k)) = true.


End RetryCancelled.

Section DispatchCancelled.

Variable provider : Provider.
Variable paragraphs : list string.
Variable a : N.
Variable maxConcurrency : nat.
Variable t0 : N.
Variable K : nat.

Hypothesis cap_positive : (0 < maxConcurrency)%nat.
Hypothesis batch_exists : (K * maxConcurrency < List.length paragraphs)%nat.
Hypothesis started_before :
  ∀ k, (k < K)%nat →
       (batchStart provider paragraphs (Some a) maxConcurrency t0 k < a)%N.
Hypothesis signal_set :
  (a ≤ batchStart provider paragraphs (Some a) maxConcurrency t0 K)%N.
Hypothesis units_fulfil :
  ∀ j p, (j < K * maxConcurrency)%nat → paragraphs !! j = Some p →
    ∃ v, outcome (translate provider j p (Some a)
                    (batchStart provider paragraphs (Some a) maxConcurrency t0
                       (j / maxConcurrency))) = Fulfilled v.


End DispatchCancelled.




(** ** Lines *)

Lemma split_nonempty sep s : JS.split sep s ≠ [].
Proof.
  destruct s as [|c s]; cbn; [discriminate|].
  destruct (Ascii.eqb c sep); [discriminate|].
  destruct (JS.split sep s); discriminate.
Qed.

Lemma split_noLF s : Forall noLF (JS.split JS.LF s).
Proof.
  induction s as [|c s IH]; cbn.
  - repeat constructor.
  - destruct (Ascii.eqb c JS.LF) eqn:E.
    + constructor; [exact I | exact IH].
    + apply Ascii.eqb_neq in E.
      destruct (JS.split JS.LF s) as [|l ls].
      * repeat constructor. exact E.
      * inversion IH; subst. constructor; [split; assumption | assumption].
Qed.

Lemma split_line s : noLF s → JS.split JS.LF s = [s].
Proof.
  induction s as [|c s IH]; cbn; [reflexivity|].
  intros [Hc Hs]. apply Ascii.eqb_neq in Hc. rewrite Hc, (IH Hs). reflexivity.
Qed.

Lemma split_app a b :
  JS.split JS.LF (a +:+ String JS.LF b) = JS.split JS.LF a ++ JS.split JS.LF b.
Proof.
  induction a as [|c a IH]; cbn [String.append JS.split].
  - reflexivity.
  - change (String c a +:+ String JS.LF b) with (String c (a +:+ String JS.LF b)).
    cbn [JS.split]. rewrite IH.
    destruct (Ascii.eqb c JS.LF); [reflexivity|].
    pose proof (split_nonempty JS.LF a) as Hne.
    destruct (JS.split JS.LF a) as [|l ls]; [contradiction | reflexivity].
Qed.

Lemma join_cons2 sep x y rest :
  JS.join sep (x :: y :: rest) = x +:+ sep +:+ JS.join sep (y :: rest).
Proof. reflexivity. Qed.

Lemma split_join (ls : list string) :
  ls ≠ [] → Forall noLF ls →
  JS.split JS.LF (JS.join (String JS.LF EmptyString) ls) = ls.
Proof.
  induction ls as [|x ls IH]; [contradiction|]. intros _ Hall.
  inversion Hall as [|x' ls' Hx Hls]; subst.
  destruct ls as [|y ls].
  - cbn. apply split_line. exact Hx.
  - rewrite join_cons2.
    change (String JS.LF EmptyString +:+ JS.join (String JS.LF EmptyString) (y :: ls))
      with (String JS.LF (JS.join (String JS.LF EmptyString) (y :: ls))).
    rewrite split_app, (split_line x Hx), IH by (discriminate || assumption).
    reflexivity.
Qed.

Lemma split_join_segments (segs : list (list string)) :
  Forall (fun ls => ls ≠ [] ∧ Forall noLF ls) segs →
  JS.split JS.LF
    (JS.join (String JS.LF (String JS.LF EmptyString))
       (List.map (JS.join (String JS.LF EmptyString)) segs))
  = interleave segs.
Proof.
  induction segs as [|s segs IH]; intros Hall; [reflexivity|].
  inversion Hall as [|s' segs' [Hne Hs] Hrest]; subst.
  destruct segs as [|s2 segs].
  - cbn. apply split_join; assumption.
  - cbn [List.map]. rewrite join_cons2.
    change (String JS.LF (String JS.LF EmptyString) +:+ ?r)
      with (String JS.LF (EmptyString +:+ String JS.LF r)).
    rewrite split_app, split_app, split_join by assumption.
    cbn [List.map] in IH. rewrite IH by exact Hrest. reflexivity.
Qed.

(** ** The round trip of the segmenter *)

Lemma blank_not_fence l : isBlankLine l = true → isFenceLine l = false.
Proof.
  unfold isBlankLine, isFenceLine. intros H. apply String.eqb_eq in H. rewrite H. reflexivity.
Qed.

Lemma significant_text ls rest :
  Forall (fun l => isFenceLine l = false ∧ isBlankLine l = false) ls →
  significantLines false (ls ++ rest) = ls ++ significantLines false rest.
Proof.
  induction 1 as [|l ls [Hf Hb] _ IH]; cbn; [reflexivity|].
  rewrite Hf, Hb, IH. reflexivity.
Qed.

Lemma significant_inside mid rest :
  Forall (fun l => isFenceLine l = false) mid →
  significantLines true (mid ++ rest) = mid ++ significantLines true rest.
Proof.
  induction 1 as [|l ls Hf _ IH]; cbn; [reflexivity|].
  rewrite Hf, IH. reflexivity.
Qed.

Lemma significant_open ls rest :
  openCode ls → significantLines false (ls ++ rest) = ls ++ significantLines true rest.
Proof.
  intros (f & mid & -> & Hf & Hmid). cbn. rewrite Hf. cbn.
  rewrite significant_inside by exact Hmid. reflexivity.
Qed.

Lemma significant_closed ls rest :
  closedCode ls → significantLines false (ls ++ rest) = ls ++ significantLines false rest.
Proof.
  intros (f & mid & g & -> & Hf & Hg & Hmid). cbn. rewrite Hf. cbn.
  rewrite <- app_assoc, significant_inside by exact Hmid.
  cbn. rewrite Hg. cbn. rewrite <- app_assoc. reflexivity.
Qed.

Lemma significant_segment ls rest :
  closedSegment ls → significantLines false (ls ++ rest) = ls ++ significantLines false rest.
Proof.
  intros [[_ H]|H]; [apply significant_text | apply significant_closed]; exact H.
Qed.

Lemma closedSegment_nonempty ls : closedSegment ls → ls ≠ [].
Proof.
  intros [[H _]|(f & mid & g & -> & _)]; [exact H | discriminate].
Qed.

Lemma openCode_nonempty ls : openCode ls → ls ≠ [].
Proof. intros (f & mid & -> & _). discriminate. Qed.

Lemma significant_blank rest :
  significantLines false (EmptyString :: rest) = significantLines false rest.
Proof. reflexivity. Qed.

(** The lines of the joined segments, without the blank lines between
    them, are the lines of the segments. *)
Lemma significant_interleave (segs : list (list string)) (last : list string) :
  Forall closedSegment segs →
  last = [] ∨ closedSegment last ∨ openCode last →
  significantLines false
    (interleave (segs ++ match last with [] => [] | _ => [last] end))
  = concat segs ++ last.
Proof.
  intros Hsegs Hlast.
  assert (Hend : significantLines false last = last).
  { destruct Hlast as [->|[H|H]]; [reflexivity| |].
    - pose proof (significant_segment last [] H) as E.
      cbn in E. rewrite !app_nil_r in E. exact E.
    - pose proof (significant_open last [] H) as E.
      cbn in E. rewrite !app_nil_r in E. exact E. }
  induction Hsegs as [|s segs Hs _ IH].
  - cbn. destruct last; [reflexivity | exact Hend].
  - cbn [app concat].
    destruct (segs ++ match last with [] => [] | _ => [last] end) as [|s2 more] eqn:E.
    + cbn [interleave].
      assert (segs = [] ∧ last = []) as [-> ->].
      { destruct segs; [|discriminate]. destruct last; [auto | discriminate]. }
      pose proof (significant_segment s [] Hs) as Es.
      cbn in Es. rewrite !app_nil_r in Es. cbn. rewrite !app_nil_r. exact Es.
    + change (interleave (s :: s2 :: more))
        with (s ++ EmptyString :: interleave (s2 :: more)).
      rewrite significant_segment by exact Hs.
      rewrite significant_blank, IH, app_assoc. reflexivity.
Qed.

Section SegmenterInvariant.

Variable calculateHash : string → string.
Variable lines : list string.

Lemma concat_snoc {A} (ls : list (list A)) (l : list A) : concat (ls ++ [l]) = concat ls ++ l.
Proof. rewrite concat_app. cbn. rewrite app_nil_r. reflexivity. Qed.

Ltac norm_app :=
  repeat (rewrite <- app_assoc || rewrite <- app_comm_cons); cbn [app].

Lemma splitStep_inv st segs i line :
  SegInv st segs i → noLF line → nth i lines EmptyString = line →
  ∃ segs',
    SegInv (splitStep calculateHash lines st i line) segs' (S i)
    ∧ ∀ rest,
        concat segs ++ currentParagraph st
          ++ significantLines (inCodeBlock st) (line :: rest)
        = concat segs'
          ++ currentParagraph (splitStep calculateHash lines st i line)
          ++ significantLines (inCodeBlock (splitStep calculateHash lines st i line)) rest.
Proof.
  intros (Hcontent & Hsegs & Hcur & Hstate) Hline Hnth.
  destruct st as [ps cur sl inc cbs]. cbn [paragraphs currentParagraph inCodeBlock
    codeBlockStart st_startLine] in *.
  unfold splitStep. cbn [paragraphs currentParagraph inCodeBlock codeBlockStart st_startLine].
  fold (isFenceLine line). fold (isBlankLine line). cbn [significantLines].
  destruct (isFenceLine line) eqn:Hf; destruct inc; cbn [andb negb].
  - (* the closing fence *)
    destruct Hstate as [(f & mid & -> & Hff & Hmid) _].
    exists (segs ++ [(f :: mid) ++ [line]]). split.
    + unfold SegInv. cbn [paragraphs currentParagraph inCodeBlock codeBlockStart].
      split; [|split; [|split]].
      * rewrite !map_app, Hcontent. reflexivity.
      * apply Forall_app; split; [exact Hsegs|]. apply Forall_cons_2; [|apply Forall_nil_2].
        split.
        -- right. exists f, mid, line. auto.
        -- apply Forall_app; split; [exact Hcur|]. apply Forall_cons_2; [exact Hline|].
           apply Forall_nil_2.
      * apply Forall_nil_2.
      * left. reflexivity.
    + intros rest. cbn [paragraphs currentParagraph inCodeBlock].
      rewrite concat_snoc. norm_app. reflexivity.
  - (* an opening fence *)
    cbn [paragraphs currentParagraph inCodeBlock codeBlockStart].
    rewrite Hnth, Nat.eqb_refl.
    exists (match cur with [] => segs | _ => segs ++ [cur] end). split.
    + unfold SegInv. cbn [paragraphs currentParagraph inCodeBlock codeBlockStart].
      split; [|split; [|split]].
      * destruct cur; [exact Hcontent|]. rewrite !map_app, Hcontent. reflexivity.
      * destruct cur as [|c0 cur']; [exact Hsegs|].
        apply Forall_app; split; [exact Hsegs|]. apply Forall_cons_2; [|apply Forall_nil_2].
        split; [|exact Hcur]. left.
        destruct Hstate as [H|H]; [discriminate | exact H].
      * apply Forall_cons_2; [exact Hline | apply Forall_nil_2].
      * split; [|lia]. exists line, []. split; [reflexivity|]. split; [exact Hf|].
        apply Forall_nil_2.
    + intros rest. destruct cur as [|c0 cur']; cbn [app]; [reflexivity|].
      rewrite concat_snoc. norm_app. reflexivity.
  - (* a line inside a code block *)
    cbn [paragraphs currentParagraph inCodeBlock codeBlockStart].
    destruct Hstate as [(f & mid & -> & Hff & Hmid) Hlt].
    assert (Hne : (i =? cbs)%nat = false) by (apply Nat.eqb_neq; lia).
    rewrite Hne. exists segs. split.
    + unfold SegInv. cbn [paragraphs currentParagraph inCodeBlock codeBlockStart].
      split; [exact Hcontent|]. split; [exact Hsegs|]. split.
      * apply Forall_app; split; [exact Hcur|]. apply Forall_cons_2; [exact Hline|].
        apply Forall_nil_2.
      * split; [|lia]. exists f, (mid ++ [line]). split; [reflexivity|].
        split; [exact Hff|]. apply Forall_app; split; [exact Hmid|].
        apply Forall_cons_2; [exact Hf | apply Forall_nil_2].
    + intros rest. norm_app. reflexivity.
  - (* outside code *)
    cbn [paragraphs currentParagraph inCodeBlock codeBlockStart].
    destruct (isBlankLine line) eqn:Hb;
      cbn [paragraphs currentParagraph inCodeBlock codeBlockStart].
    + exists (match cur with [] => segs | _ => segs ++ [cur] end). split.
      * unfold SegInv. cbn [paragraphs currentParagraph inCodeBlock codeBlockStart].
        split; [|split; [|split]].
        -- destruct cur; [exact Hcontent|]. rewrite !map_app, Hcontent. reflexivity.
        -- destruct cur as [|c0 cur']; [exact Hsegs|].
           apply Forall_app; split; [exact Hsegs|].
           apply Forall_cons_2; [|apply Forall_nil_2].
           split; [|exact Hcur]. left.
           destruct Hstate as [H|H]; [discriminate | exact H].
        -- apply Forall_nil_2.
        -- left. reflexivity.
      * intros rest. destruct cur as [|c0 cur']; cbn [app]; [reflexivity|].
        rewrite concat_snoc. norm_app. reflexivity.
    + exists segs. split.
      * unfold SegInv. cbn [paragraphs currentParagraph inCodeBlock codeBlockStart].
        split; [exact Hcontent|]. split; [exact Hsegs|]. split.
        -- apply Forall_app; split; [exact Hcur|]. apply Forall_cons_2; [exact Hline|].
           apply Forall_nil_2.
        -- right. split; [destruct cur; discriminate|].
           apply Forall_app; split.
           ++ destruct Hstate as [->|[_ H]]; [apply Forall_nil_2 | exact H].
           ++ apply Forall_cons_2; [auto | apply Forall_nil_2].
      * intros rest. norm_app. reflexivity.
Qed.

Lemma splitLoop_inv rest : ∀ i st segs,
  SegInv st segs i → Forall noLF rest → skipn i lines = rest →
  ∃ segs',
    SegInv (splitLoop calculateHash lines rest i st) segs' (i + List.length rest)
    ∧ concat segs ++ currentParagraph st ++ significantLines (inCodeBlock st) rest
      = concat segs'
        ++ currentParagraph (splitLoop calculateHash lines rest i st)
        ++ significantLines (inCodeBlock (splitLoop calculateHash lines rest i st)) [].
Proof.
  induction rest as [|line rest IH]; intros i st segs Hinv Hall Hskip.
  - exists segs. cbn [splitLoop List.length]. rewrite Nat.add_0_r. auto.
  - inversion Hall as [|l ls Hline Hrest]; subst.
    assert (Hnth : nth i lines EmptyString = line).
    { rewrite <- (firstn_skipn i lines) at 1. rewrite Hskip.
      assert (Hi : (i ≤ List.length lines)%nat).
      { destruct (Nat.le_gt_cases i (List.length lines)) as [H|H]; [exact H|].
        rewrite skipn_all2 in Hskip by lia. discriminate. }
      rewrite app_nth2 by (rewrite length_take; lia).
      rewrite length_take. replace (i - Nat.min i (List.length lines))%nat with 0%nat by lia.
      reflexivity. }
    destruct (splitStep_inv st segs i line Hinv Hline Hnth) as (segs1 & Hinv1 & Heq1).
    destruct (IH (S i) _ segs1 Hinv1 Hrest) as (segs' & Hinv' & Heq').
    { rewrite <- (Nat.add_1_r i), <- drop_drop, Hskip. reflexivity. }
    exists segs'. cbn [splitLoop List.length].
    replace (i + S (List.length rest))%nat with (S i + List.length rest)%nat by lia.
    split; [exact Hinv'|]. rewrite Heq1. exact Heq'.
Qed.

End SegmenterInvariant.

(** The segments of a document, as lists of lines: closed segments,
    then possibly a last one that may be a code block left open. *)
Lemma splitIntoParagraphsWithHash_segments calculateHash document :
  ∃ (segs : list (list string)) (last : list string),
    List.map content (splitIntoParagraphsWithHash calculateHash document)
      = List.map (JS.join (String JS.LF EmptyString))
                 (segs ++ match last with [] => [] | _ => [last] end)
    ∧ Forall (fun ls => closedSegment ls ∧ Forall noLF ls) segs
    ∧ Forall noLF last
    ∧ (last = [] ∨ closedSegment last ∨ openCode last)
    ∧ significantLines false (JS.split JS.LF document) = concat segs ++ last.
Proof.
  unfold splitIntoParagraphsWithHash. set (lines := JS.split JS.LF document).
  destruct (splitLoop_inv calculateHash lines lines 0 (splitInit) [])
    as (segs & (Hcontent & Hsegs & Hcur & Hstate) & Heq).
  - unfold SegInv, splitInit. cbn. repeat split; auto.
  - apply split_noLF.
  - reflexivity.
  - cbn [concat app splitInit currentParagraph inCodeBlock] in Heq.
    set (st := splitLoop calculateHash lines lines 0 splitInit) in *.
    exists segs, (currentParagraph st).
    split; [|split; [exact Hsegs|split; [exact Hcur|split]]].
    + unfold splitFinish. destruct (currentParagraph st) as [|c0 cur'].
      * rewrite app_nil_r. exact Hcontent.
      * rewrite !map_app, Hcontent. reflexivity.
    + destruct (inCodeBlock st).
      * right. right. apply Hstate.
      * destruct Hstate as [H|H]; [left; exact H | right; left; left; exact H].
    + rewrite Heq. destruct (inCodeBlock st); cbn; rewrite app_nil_r; reflexivity.
Qed.

(** *** The normal form *)

Lemma join_split s : JS.join (String JS.LF EmptyString) (JS.split JS.LF s) = s.
Proof.
  induction s as [|c s IH]; [reflexivity|]. cbn [JS.split].
  pose proof (split_nonempty JS.LF s) as Hne.
  destruct (Ascii.eqb_spec c JS.LF) as [->|Hc].
  - destruct (JS.split JS.LF s) as [|l ls]; [congruence|].
    rewrite join_cons2, IH. reflexivity.
  - destruct (JS.split JS.LF s) as [|l ls]; [congruence|].
    rewrite <- IH. destruct ls; reflexivity.
Qed.

Lemma joinedLines_snoc (segs : list (list string)) (c : list string) :
  joinedLines (segs ++ [c])
  = joinedLines segs ++ match segs with [] => [] | _ => [EmptyString] end ++ c.
Proof.
  induction segs as [|s segs IH]; [reflexivity|].
  destruct segs as [|s2 segs]; [reflexivity|].
  change (joinedLines ((s :: s2 :: segs) ++ [c]))
    with (s ++ [EmptyString] ++ joinedLines ((s2 :: segs) ++ [c])).
  change (joinedLines (s :: s2 :: segs))
    with (s ++ [EmptyString] ++ joinedLines (s2 :: segs)).
  rewrite IH, <- !app_assoc. reflexivity.
Qed.

Lemma linesOfSegments_snoc calculateHash ps cur ty s e :
  cur ≠ [] → Forall noLF cur →
  linesOfSegments (ps ++ [mkParagraph calculateHash cur ty s e])
  = linesOfSegments ps ++ [cur].
Proof.
  intros Hne Hcur. unfold linesOfSegments. rewrite List.map_app. cbn [List.map mkParagraph content].
  rewrite split_join by assumption. reflexivity.
Qed.

Ltac flat_app :=
  cbn [linesOfSegments List.map];
  repeat (progress cbn [app] || rewrite <- app_assoc); reflexivity.

Section NormalForm.

Variable calculateHash : string → string.
Variable lines : list string.

Lemma splitStep_normal st segs i line :
  SegInv st segs i → noLF line → nth i lines EmptyString = line →
  ∀ rest,
    emittedLines st
      ++ normalizeLines (inCodeBlock st) (startedOf st) (pendingOf st) (line :: rest)
    = emittedLines (splitStep calculateHash lines st i line)
      ++ normalizeLines (inCodeBlock (splitStep calculateHash lines st i line))
           (startedOf (splitStep calculateHash lines st i line))
           (pendingOf (splitStep calculateHash lines st i line)) rest.
Proof.
  intros (Hcontent & Hsegs & Hcur & Hstate) Hline Hnth rest.
  destruct st as [ps cur sl inc cbs]. cbn [paragraphs currentParagraph inCodeBlock
    codeBlockStart st_startLine] in *.
  unfold splitStep. cbn [paragraphs currentParagraph inCodeBlock codeBlockStart st_startLine].
  fold (isFenceLine line). fold (isBlankLine line). cbn [normalizeLines].
  destruct (isFenceLine line) eqn:Hf; destruct inc; cbn [andb negb].
  - (* the closing fence *)
    destruct Hstate as [(f & mid & -> & Hff & Hmid) _].
    unfold emittedLines, pendingOf, startedOf.
    cbn [paragraphs currentParagraph inCodeBlock codeBlockStart st_startLine].
    rewrite linesOfSegments_snoc;
      [|discriminate
       |apply Forall_app; split; [exact Hcur|repeat constructor; exact Hline]].
    rewrite app_nil_r, !joinedLines_snoc.
    assert (startedNow : match ps ++ [mkParagraph calculateHash ((f :: mid) ++ [line]) Code
                                        (Z.of_nat cbs) (Z.of_nat i)] with
                         | [] => false
                         | _ => true
                         end = true) by (destruct ps; reflexivity).
    rewrite startedNow. flat_app.
  - (* an opening fence *)
    cbn [paragraphs currentParagraph inCodeBlock codeBlockStart st_startLine].
    rewrite ?Hnth, Nat.eqb_refl.
    unfold emittedLines, pendingOf, startedOf.
    cbn [paragraphs currentParagraph inCodeBlock codeBlockStart st_startLine].
    destruct cur as [|c0 cur'].
    + rewrite app_nil_r, joinedLines_snoc.
      destruct ps as [|p ps']; flat_app.
    + cbn [paragraphs currentParagraph inCodeBlock codeBlockStart st_startLine].
      rewrite linesOfSegments_snoc; [|discriminate|exact Hcur].
      rewrite (joinedLines_snoc (linesOfSegments ps ++ [c0 :: cur'])).
      destruct ps as [|p ps']; flat_app.
  - (* a line inside a code block *)
    destruct Hstate as [(f & mid & -> & Hff & Hmid) Hlt].
    assert (Hne : (i =? cbs)%nat = false) by (apply Nat.eqb_neq; lia).
    cbn [paragraphs currentParagraph inCodeBlock codeBlockStart st_startLine].
    rewrite ?Hnth, ?Hne.
    unfold emittedLines, pendingOf, startedOf.
    cbn [paragraphs currentParagraph inCodeBlock codeBlockStart st_startLine].
    cbn [app]. rewrite !joinedLines_snoc. destruct ps; flat_app.
  - (* outside code *)
    destruct (isBlankLine line) eqn:Hb;
      unfold emittedLines, pendingOf, startedOf;
      cbn [paragraphs currentParagraph inCodeBlock codeBlockStart st_startLine].
    + destruct cur as [|c0 cur'];
        cbn [paragraphs currentParagraph inCodeBlock codeBlockStart st_startLine].
      * destruct ps; reflexivity.
      * rewrite linesOfSegments_snoc; [|discriminate|exact Hcur].
        rewrite app_nil_r. destruct ps; reflexivity.
    + destruct cur as [|c0 cur'].
      * cbn [app]. rewrite app_nil_r, joinedLines_snoc.
        destruct ps as [|p ps']; flat_app.
      * cbn [app]. rewrite !joinedLines_snoc. destruct ps; flat_app.
Qed.

Lemma splitLoop_normal rest : ∀ i st segs,
  SegInv st segs i → Forall noLF rest → skipn i lines = rest →
  emittedLines st ++ normalizeLines (inCodeBlock st) (startedOf st) (pendingOf st) rest
  = emittedLines (splitLoop calculateHash lines rest i st).
Proof.
  induction rest as [|line rest IH]; intros i st segs Hinv Hall Hskip.
  - cbn. apply app_nil_r.
  - inversion Hall as [|l ls Hline Hrest]; subst.
    assert (Hnth : nth i lines EmptyString = line).
    { rewrite <- (firstn_skipn i lines) at 1. rewrite Hskip.
      assert (Hi : (i ≤ List.length lines)%nat).
      { destruct (Nat.le_gt_cases i (List.length lines)) as [H|H]; [exact H|].
        rewrite skipn_all2 in Hskip by lia. discriminate. }
      rewrite app_nth2 by (rewrite length_take; lia).
      rewrite length_take. replace (i - Nat.min i (List.length lines))%nat with 0%nat by lia.
      reflexivity. }
    destruct (splitStep_inv calculateHash lines st segs i line Hinv Hline Hnth)
      as (segs1 & Hinv1 & _).
    rewrite (splitStep_normal st segs i line Hinv Hline Hnth). cbn [splitLoop].
    apply (IH (S i) _ segs1 Hinv1 Hrest).
    rewrite <- (Nat.add_1_r i), <- drop_drop, Hskip. reflexivity.
Qed.

End NormalForm.

Lemma split_join_all (segs : list (list string)) :
  Forall (fun ls => ls ≠ [] ∧ Forall noLF ls) segs →
  List.map (JS.split JS.LF) (List.map (JS.join (String JS.LF EmptyString)) segs) = segs.
Proof.
  induction 1 as [|s segs [Hne Hs] _ IH]; [reflexivity|].
  cbn [List.map]. rewrite split_join, IH by assumption. reflexivity.
Qed.

Lemma normalizeLines_no_fence lines : ∀ started pending,
  Forall (fun l => isFenceLine l = false) lines →
  normalizeLines false started pending lines = collapseBlankRuns started pending lines.
Proof.
  induction lines as [|l rest IH]; intros started pending Hall; [reflexivity|].
  inversion Hall as [|l' rest' Hl Hrest]; subst.
  cbn [normalizeLines collapseBlankRuns]. rewrite Hl.
  destruct (isBlankLine l); rewrite IH by exact Hrest; reflexivity.
Qed.

(** Joining the segments of a document gives the normal form of its
    lines. *)
Lemma joinParsedParagraphs_normal calculateHash document :
  joinParsedParagraphs (splitIntoParagraphsWithHash calculateHash document)
  = doc (normalizeLines false false false (JS.split JS.LF document)).
Proof.
  unfold splitIntoParagraphsWithHash. set (lines := JS.split JS.LF document).
  assert (Hinit : SegInv splitInit [] 0).
  { unfold SegInv, splitInit. cbn. repeat split; auto. }
  pose proof (splitLoop_normal calculateHash lines lines 0 splitInit [] Hinit
                (split_noLF document) eq_refl) as Hnormal.
  destruct (splitLoop_inv calculateHash lines lines 0 splitInit [] Hinit
              (split_noLF document) eq_refl)
    as (segs & (Hcontent & Hsegs & Hcur & Hstate) & _).
  change (emittedLines splitInit) with (@nil string) in Hnormal.
  cbn [app splitInit inCodeBlock] in Hnormal.
  change (startedOf splitInit) with false in Hnormal.
  change (pendingOf splitInit) with false in Hnormal.
  rewrite Hnormal. clear Hnormal.
  set (st := splitLoop calculateHash lines lines 0 splitInit) in *.
  assert (Hne : Forall (fun ls => ls ≠ [] ∧ Forall noLF ls) segs).
  { eapply Forall_impl; [exact Hsegs|]. cbn. intros ls [H1 H2].
    split; [apply closedSegment_nonempty; exact H1 | exact H2]. }
  assert (Hps : linesOfSegments (paragraphs st) = segs).
  { unfold linesOfSegments.
    rewrite <- (List.map_map content (JS.split JS.LF)), Hcontent.
    apply split_join_all. exact Hne. }
  unfold emittedLines, joinParsedParagraphs, splitFinish, doc. rewrite Hps.
  destruct (currentParagraph st) as [|c0 cur'] eqn:Ecur.
  - rewrite app_nil_r, Hcontent. destruct segs as [|s segs']; [reflexivity|].
    rewrite <- (join_split (JS.join _ _)).
    rewrite split_join_segments by exact Hne. reflexivity.
  - rewrite List.map_app, Hcontent. cbn [List.map mkParagraph content].
    change ([JS.join (String JS.LF EmptyString) (c0 :: cur')])
      with (List.map (JS.join (String JS.LF EmptyString)) [c0 :: cur']).
    rewrite <- List.map_app.
    rewrite <- (join_split (JS.join _ _)).
    rewrite split_join_segments.
    + destruct segs; reflexivity.
    + apply Forall_app; split; [exact Hne|].
      apply Forall_cons_2; [|apply Forall_nil_2]. split; [discriminate | exact Hcur].
Qed.

(** C6 (as amended). Joining the segments of a document gives the
    document in normal form, character for character: outside fenced
    code, leading and trailing blank lines are dropped and every run of
    blank lines becomes one empty line; the lines of a fenced block,
    blank ones included, are kept as they are; and an empty line is put
    before an opening fence and after a closing fence wherever a line
    comes before or after, also where the document had none. So for a
    document without a fence line the joined text is the document with
    its blank-line runs collapsed, as the claim says. It follows that,
    once the white-space-only lines outside code blocks are removed, the
    joined text and the document have the same lines in the same order,
    and that the joined text is those lines, cut into the segments
    (paragraphs, closed code blocks, and possibly a last code block left
    open), with exactly one empty line between two segments. *)
Theorem C6_join_split_keeps_significant_lines
    (calculateHash : string → string) (document : string) :
  let joined :=
    joinParsedParagraphs (splitIntoParagraphsWithHash calculateHash document) in
  joined = doc (normalizeLines false false false (JS.split JS.LF document))
  ∧ (Forall (fun l => isFenceLine l = false) (JS.split JS.LF document) →
     joined = doc (collapseBlankRuns false false (JS.split JS.LF document)))
  ∧ significantLines false (JS.split JS.LF joined)
    = significantLines false (JS.split JS.LF document)
  ∧ ∃ segs : list (list string),
      JS.split JS.LF joined = interleave segs
      ∧ concat segs = significantLines false (JS.split JS.LF document)
      ∧ Forall (fun ls => closedSegment ls ∨ openCode ls) segs.
Proof.
  split; [apply joinParsedParagraphs_normal|].
  split.
  { intros Hall. rewrite joinParsedParagraphs_normal, normalizeLines_no_fence by exact Hall.
    reflexivity. }
  destruct (splitIntoParagraphsWithHash_segments calculateHash document)
    as (segs & last & Hcontent & Hsegs & Hlast & Hshape & Hsig).
  assert (Hclosed : Forall closedSegment segs).
  { eapply Forall_impl; [exact Hsegs|]. cbn. intros ls [H _]. exact H. }
  assert (Hlines : JS.split JS.LF
            (joinParsedParagraphs (splitIntoParagraphsWithHash calculateHash document))
          = interleave (segs ++ match last with [] => [] | _ => [last] end)).
  { unfold joinParsedParagraphs. rewrite Hcontent. apply split_join_segments.
    apply Forall_app; split.
    - eapply Forall_impl; [exact Hsegs|]. cbn. intros ls [H1 H2].
      split; [apply closedSegment_nonempty; exact H1 | exact H2].
    - destruct last as [|c0 last']; [apply Forall_nil_2|].
      apply Forall_cons_2; [|apply Forall_nil_2]. split; [discriminate | exact Hlast]. }
  rewrite Hlines. split.
  - rewrite significant_interleave; [symmetry; exact Hsig | exact Hclosed | exact Hshape].
  - exists (segs ++ match last with [] => [] | _ => [last] end).
    split; [reflexivity|]. split.
    + rewrite Hsig, concat_app. destruct last; cbn; rewrite ?app_nil_r; reflexivity.
    + apply Forall_app; split.
      * eapply Forall_impl; [exact Hclosed|]. cbn. auto.
      * destruct last as [|c0 last']; [apply Forall_nil_2|].
        apply Forall_cons_2; [|apply Forall_nil_2].
        destruct Hshape as [H|[H|H]]; [discriminate | left; exact H | right; exact H].
Qed.

(** Two paragraphs between blank lines come back with one empty line
    between them; a code block that touches its neighbours comes back
    with an empty line on either side, and the blank lines inside it
    stay. *)
Lemma C6_witness :
  let plain := doc [EmptyString; "a"; "  "; EmptyString; "b"; EmptyString] in
  let fenced := doc ["a"; "```"; "x"; EmptyString; EmptyString; "y"; "```"; "b"] in
  Forall (fun l => isFenceLine l = false) (JS.split JS.LF plain)
  ∧ joinParsedParagraphs (splitIntoParagraphsWithHash idHash plain)
    = doc ["a"; EmptyString; "b"]
  ∧ joinParsedParagraphs (splitIntoParagraphsWithHash idHash fenced)
    = doc ["a"; EmptyString; "```"; "x"; EmptyString; EmptyString; "y"; "```";
           EmptyString; "b"].
Proof.
  cbn zeta.
  assert (Hplain : Forall (fun l => isFenceLine l = false)
            (JS.split JS.LF (doc [EmptyString; "a"; "  "; EmptyString; "b"; EmptyString])))
    by (vm_compute; repeat constructor).
  split; [exact Hplain|]. split.
  - rewrite (proj1 (proj2 (C6_join_split_keeps_significant_lines idHash
               (doc [EmptyString; "a"; "  "; EmptyString; "b"; EmptyString]))) Hplain).
    reflexivity.
  - rewrite (proj1 (C6_join_split_keeps_significant_lines idHash
               (doc ["a"; "```"; "x"; EmptyString; EmptyString; "y"; "```"; "b"]))).
    reflexivity.
Defined.

(** C6 as stated fails: a paragraph directly followed by a code fence
    comes back with a blank line between them, which no collapsing of
    blank-line runs of the document can produce. *)
Lemma C6_counterexample :
  let document := doc ["text"; "```"; "code"; "```"] in
  let joined := joinParsedParagraphs (splitIntoParagraphsWithHash idHash document) in
  joined = doc ["text"; EmptyString; "```"; "code"; "```"]
  ∧ collapseBlankRuns false false (JS.split JS.LF document)
    = ["text"; "```"; "code"; "```"]
  ∧ collapseBlankRuns false false (JS.split JS.LF joined)
    = ["text"; EmptyString; "```"; "code"; "```"]
  ∧ collapseBlankRuns false false (JS.split JS.LF joined)
    ≠ collapseBlankRuns false false (JS.split JS.LF document).
Proof.
  cbn zeta. split; [reflexivity|]. split; [reflexivity|]. split; [reflexivity|].
  vm_compute. discriminate.
Qed.

(** ** Remarks *)

(** The plan itself has no case for [Frontmatter]: a segment of that
    kind, which the segmenter never produces, would be planned like a
    text paragraph. *)
Lemma plan_of_a_frontmatter_segment :
  let p := {| content := "title: T"; type := Frontmatter; hash := "h";
              startLine := 0; endLine := 0 |} in
  paragraphsToTranslate (plan ∅ [p]) = [(0%nat, p)].
Proof. reflexivity. Qed.

(** With a cap of zero the dispatch of a non-empty list never settles. *)
Lemma dispatch_with_zero_cap provider paragraphs t :
  paragraphs ≠ [] →
  outcome (translateParagraphs provider paragraphs None 0 t) = Pending.
Proof.
  intros Hne. unfold translateParagraphs.
  rewrite loop_zero_cap; [reflexivity | reflexivity | | exact I].
  destruct paragraphs; [contradiction | cbn; lia].
Qed.

(** A front-matter block is segmented as text, so the forward path
    sends it to the provider like any paragraph. *)
Lemma front_matter_is_dispatched :
  let r := translateIncremental idHash echoProvider
             (doc ["---"; "title: T"; "---"; EmptyString; "Body"])
             {| signal := None; existingParagraphs := None; maxConcurrency := None |} 0%N in
  List.map (fun ev => match ev with EvRequest _ _ txt _ => txt | _ => EmptyString end)
           (List.filter (fun ev => match ev with EvRequest _ _ _ _ => true | _ => false end)
                        (events r))
  = [doc ["---"; "title: T"; "---"]; "Body"].
Proof. vm_compute. reflexivity. Qed.

(** * Further properties *)

(** ** The size check *)

(** X1. [checkDocumentSize] reports the estimate of [estimateTokens],
    which is the length divided by four and rounded up; it accepts
    exactly the documents of at most 400000 code units, agrees with
    [isContentTooLarge] at its default limit, and gives a message
    exactly when it rejects. *)
Theorem checkDocumentSize_limit (document : string) :
  let r := TranslationEngine.checkDocumentSize document in
  let n := N.of_nat (String.length document) in
  estimatedTokens r = estimateTokens document
  ∧ (n ≤ 4 * estimateTokens document)%N
  ∧ (4 * estimateTokens document < n + 4)%N
  ∧ (valid r = true ↔ (n ≤ 400000)%N)
  ∧ valid r = negb (isContentTooLarge document None)
  ∧ (valid r = true ↔ sizeMessage r = None).
Proof.
  cbv zeta. unfold TranslationEngine.checkDocumentSize, isContentTooLarge, estimateTokens.
  cbn [default].
  set (n := N.of_nat (String.length document)). clearbody n.
  pose proof (N.div_mod n 4 ltac:(lia)) as Hdm.
  pose proof (N.mod_lt n 4 ltac:(lia)) as Hlt.
  destruct (N.eqb_spec (n mod 4) 0) as [Hz|Hz].
  - destruct (N.ltb_spec 100000 (n / 4)) as [Hbig|Hsmall]; cbn;
      repeat split; try lia; try congruence; intros; try discriminate; try lia; try (exfalso; lia).
  - assert (0 < n mod 4)%N as Hpos by (destruct (n mod 4)%N; [congruence|reflexivity]).
    destruct (N.ltb_spec 100000 (n / 4 + 1)) as [Hbig|Hsmall]; cbn;
      repeat split; try lia; try congruence; intros; try discriminate; try lia; try (exfalso; lia).
Qed.

(** ** The segmenter: digests and line ranges *)

Section SegHash.
Variable calculateHash : string → string.

Lemma splitStep_digest lines st i line :
  Forall (digestOf calculateHash) (paragraphs st) →
  Forall (digestOf calculateHash) (paragraphs (splitStep calculateHash lines st i line)).
Proof.
  intros H. unfold splitStep.
  destruct (JS.startsWith (JS.trim line) fence); cbn [andb].
  - destruct (inCodeBlock st); cbn.
    + apply Forall_app; split; [exact H|]. apply Forall_cons_2; [reflexivity|apply Forall_nil_2].
    + destruct (currentParagraph st); [exact H|].
      apply Forall_app; split; [exact H|]. apply Forall_cons_2; [reflexivity|apply Forall_nil_2].
  - destruct (inCodeBlock st); cbn; [exact H|].
    destruct (String.eqb (JS.trim line) EmptyString); cbn; [|exact H].
    destruct (currentParagraph st); [exact H|].
    apply Forall_app; split; [exact H|]. apply Forall_cons_2; [reflexivity|apply Forall_nil_2].
Qed.

Lemma splitLoop_digest lines rest : ∀ i st,
  Forall (digestOf calculateHash) (paragraphs st) →
  Forall (digestOf calculateHash) (paragraphs (splitLoop calculateHash lines rest i st)).
Proof.
  induction rest as [|l rest IH]; intros i st H; cbn; [exact H|].
  apply IH, splitStep_digest, H.
Qed.
End SegHash.

Lemma slice_snoc {A} (a : list A) (s i : nat) (x : A) :
  a !! i = Some x → (s ≤ i)%nat → slice a s i ++ [x] = slice a s (S i).
Proof.
  intros Hx Hs. unfold slice.
  replace (S i - s)%nat with (S (i - s)) by lia.
  symmetry. apply take_S_r. rewrite lookup_drop.
  replace (s + (i - s))%nat with i by lia. exact Hx.
Qed.

Lemma slice_single {A} (a : list A) (i : nat) (x : A) :
  a !! i = Some x → slice a i (S i) = [x].
Proof.
  intros Hx. rewrite <- (slice_snoc a i i x Hx (le_n _)).
  unfold slice. rewrite Nat.sub_diag. reflexivity.
Qed.

Lemma slice_nonempty {A} (a : list A) (s i : nat) :
  (s < i)%nat → (i ≤ List.length a)%nat → slice a s i ≠ [].
Proof.
  intros Hs Hi Hnil. apply (f_equal List.length) in Hnil.
  unfold slice in Hnil. rewrite length_take, length_drop in Hnil. cbn in Hnil. lia.
Qed.

Section Ranges.
Variable calculateHash : string → string.
Variable lines : list string.

Lemma mkParagraph_exact ty (s i : nat) :
  (s < i)%nat → (i ≤ List.length lines)%nat →
  exactRange lines (mkParagraph calculateHash (slice lines s i) ty (Z.of_nat s) (Z.of_nat i - 1)).
Proof.
  intros Hs Hi. exists s, (i - 1)%nat. cbn.
  repeat split; try lia.
  replace (S (i - 1)) with i by lia. reflexivity.
Qed.

Lemma splitStep_range st i line :
  RangeInv lines st i → lines !! i = Some line →
  RangeInv lines (splitStep calculateHash lines st i line) (S i).
Proof.
  intros [Hps Hcur] Hline.
  assert (i < List.length lines)%nat as Hi by (apply lookup_lt_Some in Hline; exact Hline).
  assert (nth i lines EmptyString = line) as Hnth by (apply nth_lookup_Some with (d := EmptyString) in Hline; exact Hline).
  unfold splitStep.
  destruct (JS.startsWith (JS.trim line) fence); cbn [andb].
  - destruct (inCodeBlock st) eqn:Hin.
    + (* the closing fence *)
      destruct Hcur as [Hlt Hcur]. unfold RangeInv. split; cbn.
      * apply Forall_app; split; [exact Hps|]. apply Forall_cons_2; [|apply Forall_nil_2].
        rewrite Hcur, (slice_snoc lines _ i line Hline) by lia.
        replace (Z.of_nat i) with (Z.of_nat (S i) - 1)%Z by lia.
        apply mkParagraph_exact; lia.
      * left; reflexivity.
    + (* an opening fence *)
      unfold RangeInv. cbn. rewrite Nat.eqb_refl, Hnth. cbn. split.
      * destruct Hcur as [Hcur|(s & Hs & Hlt & Hcur)].
        -- rewrite Hcur. exact Hps.
        -- destruct (currentParagraph st) as [|c0 cur'] eqn:Hc; [exact Hps|].
           apply Forall_app; split; [exact Hps|]. apply Forall_cons_2; [|apply Forall_nil_2].
           rewrite Hcur, Hs. apply mkParagraph_exact; lia.
      * split; [lia|]. symmetry. apply slice_single, Hline.
  - destruct (inCodeBlock st) eqn:Hin.
    + destruct Hcur as [Hlt Hcur]. unfold RangeInv. cbn. split; [exact Hps|]. split; [lia|].
      destruct (currentParagraph st) as [|c0 cur'] eqn:Hc.
      * exfalso. symmetry in Hcur. revert Hcur. apply slice_nonempty; lia.
      * replace (i =? codeBlockStart st)%nat with false by (symmetry; apply Nat.eqb_neq; lia).
        rewrite Hcur. apply slice_snoc; [exact Hline|lia].
    + unfold RangeInv. cbn.
      destruct (String.eqb (JS.trim line) EmptyString); cbn.
      * split; [|left; reflexivity].
        destruct Hcur as [Hcur|(s & Hs & Hlt & Hcur)].
        -- rewrite Hcur. exact Hps.
        -- destruct (currentParagraph st) as [|c0 cur'] eqn:Hc; [exact Hps|].
           apply Forall_app; split; [exact Hps|]. apply Forall_cons_2; [|apply Forall_nil_2].
           rewrite Hcur, Hs. apply mkParagraph_exact; lia.
      * split; [exact Hps|]. right.
        destruct Hcur as [Hcur|(s & Hs & Hlt & Hcur)].
        -- rewrite Hcur. exists i. split; [reflexivity|]. split; [lia|].
           symmetry. apply slice_single, Hline.
        -- exists s. split.
           ++ destruct (currentParagraph st); [|exact Hs].
              exfalso. symmetry in Hcur. revert Hcur. apply slice_nonempty; lia.
           ++ split; [lia|]. rewrite Hcur. apply slice_snoc; [exact Hline|lia].
Qed.

Lemma splitLoop_range rest : ∀ i st,
  RangeInv lines st i → skipn i lines = rest →
  RangeInv lines (splitLoop calculateHash lines rest i st) (i + List.length rest).
Proof.
  induction rest as [|l rest IH]; intros i st Hinv Hrest; cbn [splitLoop List.length].
  - rewrite Nat.add_0_r. exact Hinv.
  - replace (i + S (List.length rest))%nat with (S i + List.length rest)%nat by lia.
    assert (lines !! i = Some l) as Hl.
    { pose proof (lookup_drop lines i 0) as H. rewrite Nat.add_0_r in H.
      rewrite <- H, Hrest. reflexivity. }
    apply IH.
    + apply splitStep_range; assumption.
    + rewrite <- (Nat.add_1_r i), <- drop_drop, Hrest. reflexivity.
Qed.

End Ranges.

(** X2. Every segment carries the digest of its own content. Every
    text segment, and every segment but the last, is exactly the lines
    [startLine] to [endLine] of the document, with
    [0 <= startLine <= endLine < number of lines]. (The last segment,
    when it is a code block left open, keeps the [startLine] of the
    paragraph before it.) *)
Theorem text_segments_span_their_lines (calculateHash : string → string) (document : string) :
  let lines := JS.split JS.LF document in
  let segments := splitIntoParagraphsWithHash calculateHash document in
  ∀ j p, segments !! j = Some p →
    hash p = calculateHash (content p)
    ∧ (type p = Text ∨ (S j < List.length segments)%nat →
       ∃ s e : nat,
         startLine p = Z.of_nat s ∧ endLine p = Z.of_nat e
         ∧ (s ≤ e)%nat ∧ (e < List.length lines)%nat
         ∧ content p = JS.join (String JS.LF EmptyString) (slice lines s (S e))).
Proof.
  cbv zeta. intros j p Hp. split.
  - assert (Forall (digestOf calculateHash) (splitIntoParagraphsWithHash calculateHash document)) as H.
    { unfold splitIntoParagraphsWithHash, splitFinish.
      set (lines := JS.split JS.LF document).
      pose proof (splitLoop_digest calculateHash lines lines 0 splitInit (Forall_nil_2 _)) as H.
      destruct (currentParagraph _); [exact H|].
      apply Forall_app; split; [exact H|]. apply Forall_cons_2; [reflexivity|apply Forall_nil_2]. }
    rewrite Forall_forall in H. apply H. eapply list_elem_of_lookup_2, Hp.
  - revert Hp. unfold splitIntoParagraphsWithHash, splitFinish.
    set (lines := JS.split JS.LF document).
    destruct (splitLoop_range calculateHash lines lines 0 splitInit) as [Hps Hcur].
    { split; [apply Forall_nil_2|]. left; reflexivity. }
    { reflexivity. }
    set (st := splitLoop calculateHash lines lines 0 splitInit) in *.
    cbn [Nat.add] in Hcur.
    assert (∀ q, q ∈ paragraphs st → exactRange lines q) as Hall
      by (apply Forall_forall; exact Hps).
    destruct (currentParagraph st) as [|c0 cur'] eqn:Hc.
    + intros Hp _. apply Hall. eapply list_elem_of_lookup_2, Hp.
    + intros Hp Hcond.
      destruct (decide (j < List.length (paragraphs st))%nat) as [Hj|Hj].
      * rewrite lookup_app_l in Hp by exact Hj. apply Hall. eapply list_elem_of_lookup_2, Hp.
      * rewrite lookup_app_r in Hp by lia.
        rewrite length_app in Hcond. cbn [List.length] in Hcond.
        destruct (j - List.length (paragraphs st))%nat eqn:Hd; [|destruct n; discriminate].
        cbn in Hp. injection Hp as <-.
        destruct Hcond as [Hty|Hlt]; [|lia].
        destruct (inCodeBlock st); [discriminate|].
        destruct Hcur as [Hcur|(s & Hs & Hlt & Hcur)]; [discriminate|].
        rewrite Hcur, Hs. apply mkParagraph_exact; lia.
Qed.

Lemma text_segments_span_their_lines_witness :
  let document := doc ["intro"; "more"; EmptyString; "```"; "code"] in
  let p := {| content := doc ["intro"; "more"]; type := Text;
              hash := idHash (doc ["intro"; "more"]); startLine := 0; endLine := 1 |} in
  splitIntoParagraphsWithHash idHash document !! 0%nat = Some p
  ∧ hash p = idHash (content p)
  ∧ ∃ s e : nat,
      startLine p = Z.of_nat s ∧ endLine p = Z.of_nat e
      ∧ (s ≤ e)%nat ∧ (e < List.length (JS.split JS.LF document))%nat
      ∧ content p
        = JS.join (String JS.LF EmptyString) (slice (JS.split JS.LF document) s (S e)).
Proof.
  cbv zeta. split; [reflexivity|].
  destruct (text_segments_span_their_lines idHash
              (doc ["intro"; "more"; EmptyString; "```"; "code"]) 0
              {| content := doc ["intro"; "more"]; type := Text;
                 hash := idHash (doc ["intro"; "more"]); startLine := 0; endLine := 1 |}
              eq_refl) as [Hhash Hrange].
  split; [exact Hhash|]. apply Hrange. left. reflexivity.
Defined.

(** The last segment of a document whose code block is left open has
    the [startLine] of the paragraph before the block. *)
Example open_code_block_start_line :
  List.map (fun p => (type p, startLine p, endLine p))
    (splitIntoParagraphsWithHash idHash (doc ["intro"; "```"; "code"]))
  = [(Text, 0%Z, 0%Z); (Code, 0%Z, 2%Z)].
Proof. reflexivity. Qed.

Lemma significantLines_nil lines :
  significantLines false lines = [] ↔ Forall (fun l => isBlankLine l = true) lines.
Proof.
  induction lines as [|l lines IH]; cbn [significantLines].
  - split; [intros _; apply Forall_nil_2|reflexivity].
  - destruct (isFenceLine l) eqn:Hf.
    + split; [discriminate|]. intros H. apply Forall_cons in H as [Hb _].
      apply blank_not_fence in Hb. congruence.
    + destruct (isBlankLine l) eqn:Hb.
      * rewrite IH. split; [intros H; apply Forall_cons_2; assumption|].
        intros H. apply Forall_cons in H as [_ H]. exact H.
      * split; [discriminate|]. intros H. apply Forall_cons in H as [Hb' _]. congruence.
Qed.

(** X3. A document has no segment exactly when all its lines are
    blank (white space only). *)
Theorem blank_document_has_no_segment (calculateHash : string → string) (document : string) :
  splitIntoParagraphsWithHash calculateHash document = []
  ↔ Forall (fun l => isBlankLine l = true) (JS.split JS.LF document).
Proof.
  destruct (splitIntoParagraphsWithHash_segments calculateHash document)
    as (segs & last & Hcontent & Hsegs & _ & Hlast & Hsig).
  rewrite <- significantLines_nil, Hsig.
  split.
  - intros Hnil. rewrite Hnil in Hcontent. cbn in Hcontent.
    symmetry in Hcontent. apply fmap_nil_inv in Hcontent.
    apply app_eq_nil in Hcontent as [-> Hl]. destruct last; [reflexivity|discriminate].
  - intros Hnil. apply app_eq_nil in Hnil as [Hc ->].
    assert (segs = []) as ->.
    { destruct segs as [|s segs]; [reflexivity|].
      apply Forall_cons in Hsegs as [[Hs _] _]. apply closedSegment_nonempty in Hs.
      cbn in Hc. apply app_eq_nil in Hc as [Hc _]. congruence. }
    cbn in Hcontent. apply fmap_nil_inv in Hcontent. exact Hcontent.
Qed.

(** ** [splitIntoParagraphs] and [joinParagraphs] *)

Lemma splitBlank_nonempty b s : JS.splitBlank b s ≠ [].
Proof.
  revert b. induction s as [|c s IH]; intros b; cbn; [discriminate|].
  destruct (b && Ascii.eqb c JS.LF); [apply IH|].
  destruct (Ascii.eqb c JS.LF && JS.startsWith s (String JS.LF EmptyString)); [discriminate|].
  destruct (JS.splitBlank false s); discriminate.
Qed.

Lemma noLeadLF_cons c q : noLeadLF (String c q) ↔ Ascii.eqb c JS.LF = false.
Proof.
  unfold noLeadLF, lineFeed. cbn [JS.startsWith]. rewrite (Ascii.eqb_sym JS.LF c).
  destruct q; cbn; rewrite andb_true_r; tauto.
Qed.

Lemma startsWith_LF c q : JS.startsWith (String c q) lineFeed = Ascii.eqb c JS.LF.
Proof.
  unfold lineFeed. cbn [JS.startsWith]. rewrite (Ascii.eqb_sym JS.LF c).
  destruct q; cbn; apply andb_true_r.
Qed.

Lemma splitBlank_after_separator q :
  noLeadLF q → JS.splitBlank true q = JS.splitBlank false q.
Proof.
  destruct q as [|c q]; [reflexivity|]. intros H. apply noLeadLF_cons in H.
  cbn [JS.splitBlank andb]. rewrite H. reflexivity.
Qed.

Lemma noBlankRun_cons c s :
  noBlankRun (String c s) ↔
  (Ascii.eqb c JS.LF && JS.startsWith s lineFeed = false) ∧ noBlankRun s.
Proof.
  unfold noBlankRun.
  change (JS.includes (String c s) blankRun)
    with (Ascii.eqb JS.LF c && JS.startsWith s lineFeed || JS.includes s blankRun).
  rewrite orb_false_iff, (Ascii.eqb_sym JS.LF c). tauto.
Qed.

Lemma endsLF_cons c s : s ≠ EmptyString → endsLF (String c s) = endsLF s.
Proof. destruct s; [congruence|reflexivity]. Qed.

Lemma noLeadLF_app q r : q ≠ EmptyString → noLeadLF q → noLeadLF (q +:+ r).
Proof.
  destruct q as [|c q]; [congruence|]. intros _ H. apply noLeadLF_cons in H.
  change (String c q +:+ r) with (String c (q +:+ r)). apply noLeadLF_cons, H.
Qed.

(** A paragraph without blank run, not ending in a line feed, is cut
    off at the separator that follows it. *)
Lemma splitBlank_separator s : ∀ q,
  noBlankRun s → endsLF s = false → noLeadLF q →
  JS.splitBlank false (s +:+ blankRun +:+ q) = s :: JS.splitBlank false q.
Proof.
  induction s as [|c s IH]; intros q Hs He Hq.
  - rewrite <- (splitBlank_after_separator q Hq). destruct q; reflexivity.
  - apply noBlankRun_cons in Hs as [Hc Hs].
    change (String c s +:+ blankRun +:+ q) with (String c (s +:+ blankRun +:+ q)).
    cbn [JS.splitBlank andb].
    assert (Ascii.eqb c JS.LF && JS.startsWith (s +:+ blankRun +:+ q) lineFeed = false) as Hsep.
    { destruct (Ascii.eqb c JS.LF) eqn:Hlf; [|reflexivity]. cbn [andb] in Hc |- *.
      destruct s as [|d s].
      - cbn [endsLF] in He. congruence.
      - change (String d s +:+ blankRun +:+ q) with (String d (s +:+ blankRun +:+ q)).
        rewrite startsWith_LF in Hc |- *. exact Hc. }
    unfold lineFeed in Hsep. rewrite Hsep.
    rewrite IH; [reflexivity|exact Hs| |exact Hq].
    destruct s as [|d s]; [reflexivity|]. rewrite <- He. symmetry. apply endsLF_cons. discriminate.
Qed.

Lemma splitBlank_single s : noBlankRun s → JS.splitBlank false s = [s].
Proof.
  induction s as [|c s IH]; intros Hs; [reflexivity|].
  apply noBlankRun_cons in Hs as [Hc Hs].
  cbn [JS.splitBlank andb]. unfold lineFeed in Hc. rewrite Hc, (IH Hs). reflexivity.
Qed.

Lemma splitBlank_joinParagraphs ps :
  ps ≠ [] → joinable ps → JS.splitBlank false (joinParagraphs ps) = ps.
Proof.
  induction ps as [|p rest IH]; intros Hne Hj; [congruence|].
  destruct rest as [|q rest].
  - cbn. apply splitBlank_single. apply Hj.
  - destruct Hj as (Hp & (He & Hq & Hqne) & Hrest).
    unfold joinParagraphs in *.
    change (JS.join (String JS.LF (String JS.LF EmptyString)) (p :: q :: rest))
      with (p +:+ blankRun +:+ JS.join blankRun (q :: rest)).
    rewrite splitBlank_separator; [|exact Hp|exact He|].
    + f_equal. apply IH; [discriminate|exact Hrest].
    + destruct rest; [exact Hq|]. apply noLeadLF_app; assumption.
Qed.

(** What [splitBlank] returns. *)
Lemma splitBlank_head_prefix s p ps :
  JS.splitBlank false s = p :: ps → JS.startsWith p lineFeed = true →
  JS.startsWith s lineFeed = true.
Proof.
  destruct s as [|c s].
  - cbn. intros [= <- <-]. discriminate.
  - cbn [JS.splitBlank andb].
    destruct (Ascii.eqb c JS.LF && JS.startsWith s (String JS.LF EmptyString)) eqn:Hsep.
    + intros [= <- <-]. discriminate.
    + destruct (JS.splitBlank false s); intros [= <- <-]; rewrite !startsWith_LF; auto.
Qed.

Lemma splitBlank_head_empty s ps :
  JS.splitBlank false s = EmptyString :: ps → ps ≠ [] → JS.startsWith s lineFeed = true.
Proof.
  destruct s as [|c s].
  - cbn. intros [= <-]. congruence.
  - cbn [JS.splitBlank andb].
    destruct (Ascii.eqb c JS.LF && JS.startsWith s (String JS.LF EmptyString)) eqn:Hsep.
    + intros _ _. apply andb_true_iff in Hsep as [Hc _].
      rewrite startsWith_LF. exact Hc.
    + destruct (JS.splitBlank false s); intros [=].
Qed.

Lemma splitBlank_pieces s : ∀ b,
  Forall noBlankRun (JS.splitBlank b s)
  ∧ allButLast (fun p => endsLF p = false) (JS.splitBlank b s)
  ∧ Forall noLeadLF (tail (JS.splitBlank b s))
  ∧ (b = true → Forall noLeadLF (JS.splitBlank b s)).
Proof.
  induction s as [|c s IH]; intros b.
  - cbn. split; [|split; [|split]]; auto.
    + apply Forall_cons_2; [reflexivity|apply Forall_nil_2].
    + intros _. apply Forall_cons_2; [reflexivity|apply Forall_nil_2].
  - cbn [JS.splitBlank].
    destruct (b && Ascii.eqb c JS.LF) eqn:H1.
    { destruct (IH true) as (A & B & C & D). split; [|split; [|split]]; auto. }
    destruct (Ascii.eqb c JS.LF && JS.startsWith s (String JS.LF EmptyString)) eqn:H2.
    { destruct (IH true) as (A & B & C & D). specialize (D eq_refl).
      assert (b = false) as ->.
      { apply andb_true_iff in H2 as [Hc _]. rewrite Hc, andb_true_r in H1. exact H1. }
      split; [|split; [|split]].
      - apply Forall_cons_2; [reflexivity|exact A].
      - cbn [allButLast]. split; [destruct (JS.splitBlank true s); auto|exact B].
      - exact D.
      - discriminate. }
    destruct (IH false) as (A & B & C & _).
    destruct (JS.splitBlank false s) as [|p ps] eqn:Hsp.
    { exfalso. exact (splitBlank_nonempty _ _ Hsp). }
    apply Forall_cons in A as [Ap A].
    assert (noLeadLF (String c p) ∨ (b = false ∧ JS.startsWith s lineFeed = false ∧ Ascii.eqb c JS.LF = true)) as Hc.
    { destruct (Ascii.eqb c JS.LF) eqn:Hlf.
      - right. rewrite andb_true_r in H1. cbn [andb] in H2. auto.
      - left. apply noLeadLF_cons. exact Hlf. }
    split; [|split; [|split]].
    + apply Forall_cons_2; [|exact A]. apply noBlankRun_cons. split; [|exact Ap].
      destruct Hc as [Hc|(_ & Hs & Hlf)].
      * apply noLeadLF_cons in Hc. rewrite Hc. reflexivity.
      * rewrite Hlf. cbn [andb].
        destruct (JS.startsWith p lineFeed) eqn:Hp; [|reflexivity].
        rewrite (splitBlank_head_prefix s p ps Hsp Hp) in Hs. discriminate.
    + cbn [allButLast] in *. destruct B as [B1 B2]. split; [|exact B2].
      destruct ps as [|p2 ps2]; [exact I|].
      destruct p as [|d p].
      * cbn. assert (JS.startsWith s lineFeed = true) as Hs
          by (apply (splitBlank_head_empty s (p2 :: ps2) Hsp); discriminate).
        destruct Hc as [Hc|(_ & Hs' & _)]; [|congruence].
        apply noLeadLF_cons in Hc. exact Hc.
      * rewrite endsLF_cons by discriminate. exact B1.
    + exact C.
    + intros ->. apply Forall_cons_2.
      * destruct Hc as [Hc|(Hb & _)]; [exact Hc|discriminate].
      * exact C.
Qed.

Lemma allButLast_filter P f ps : allButLast P ps → allButLast P (List.filter f ps).
Proof.
  induction ps as [|p rest IH]; [auto|]. cbn [allButLast List.filter]. intros [Hp Hrest].
  specialize (IH Hrest). destruct (f p); [|exact IH].
  cbn [allButLast]. split; [|exact IH].
  destruct (List.filter f rest) eqn:Hf; [exact I|].
  destruct rest; [discriminate|exact Hp].
Qed.

Lemma Forall_tail_filter (P : string → Prop) f ps :
  Forall P (tail ps) → Forall P (tail (List.filter f ps)).
Proof.
  destruct ps as [|p rest]; [auto|]. cbn [tail List.filter]. intros H.
  assert (Forall P (List.filter f rest)) as Hf.
  { apply Forall_forall. intros x Hx. rewrite Forall_forall in H. apply H.
    apply list_elem_of_In, filter_In in Hx as [Hx _]. apply list_elem_of_In. exact Hx. }
  destruct (f p); [exact Hf|]. destruct (List.filter f rest); [apply Forall_nil_2|].
  apply Forall_cons in Hf as [_ Hf]. exact Hf.
Qed.

Lemma joinable_intro ps :
  Forall noBlankRun ps → allButLast (fun p => endsLF p = false) ps →
  Forall noLeadLF (tail ps) → Forall (fun p => p ≠ EmptyString) ps → joinable ps.
Proof.
  induction ps as [|p rest IH]; [auto|]. intros A B C D.
  apply Forall_cons in A as [Ap A]. apply Forall_cons in D as [Dp D].
  cbn [allButLast tail] in *. destruct B as [Bp B].
  cbn [joinable]. split; [exact Ap|]. split.
  - destruct rest as [|q rest]; [exact I|].
    apply Forall_cons in C as [Cq C]. apply Forall_cons in D as [Dq D]. auto.
  - apply IH; auto. destruct rest; [apply Forall_nil_2|].
    apply Forall_cons in C as [_ C]. exact C.
Qed.

Lemma nonBlank_nonempty p : nonBlank p = true → p ≠ EmptyString.
Proof. intros H ->. discriminate. Qed.

Lemma filter_all {A} (f : A → bool) (l : list A) :
  Forall (fun x => f x = true) l → List.filter f l = l.
Proof.
  induction l as [|x l IH]; [reflexivity|]. intros H. apply Forall_cons in H as [Hx H].
  cbn. rewrite Hx, (IH H). reflexivity.
Qed.

Lemma splitIntoParagraphs_joinable s : joinable (splitIntoParagraphs s).
Proof.
  unfold splitIntoParagraphs. destruct (splitBlank_pieces s false) as (A & B & C & _).
  apply joinable_intro.
  - apply Forall_forall. intros x Hx. rewrite Forall_forall in A. apply A.
    apply list_elem_of_In, filter_In in Hx as [Hx _]. apply list_elem_of_In. exact Hx.
  - apply allButLast_filter, B.
  - apply Forall_tail_filter, C.
  - apply Forall_forall. intros x Hx.
    apply list_elem_of_In, filter_In in Hx as [_ Hx]. apply nonBlank_nonempty, Hx.
Qed.

Lemma splitIntoParagraphs_of_joinable ps :
  joinable ps → Forall (fun p => nonBlank p = true) ps →
  splitIntoParagraphs (joinParagraphs ps) = ps.
Proof.
  intros Hj Hnb. unfold splitIntoParagraphs.
  destruct ps as [|p rest]; [reflexivity|].
  rewrite splitBlank_joinParagraphs; [|discriminate|exact Hj].
  apply filter_all, Hnb.
Qed.

(** X4. No paragraph of [splitIntoParagraphs] is blank, and none
    contains a blank line (two line feeds in a row). *)
Theorem splitIntoParagraphs_paragraphs (document : string) :
  Forall (fun p => JS.trim p ≠ EmptyString
                   ∧ JS.includes p (String JS.LF (String JS.LF EmptyString)) = false)
         (splitIntoParagraphs document).
Proof.
  apply Forall_forall. intros p Hp. split.
  - unfold splitIntoParagraphs in Hp.
    apply list_elem_of_In, filter_In in Hp as [_ Hp].
    intros Ht. rewrite Ht in Hp. discriminate.
  - unfold splitIntoParagraphs in Hp.
    destruct (splitBlank_pieces document false) as (A & _).
    rewrite Forall_forall in A. apply A.
    apply list_elem_of_In, filter_In in Hp as [Hp _]. apply list_elem_of_In. exact Hp.
Qed.

(** X5. Splitting is stable under joining: the paragraphs of a text,
    joined by [joinParagraphs] and split again, are the same paragraphs. *)
Theorem splitIntoParagraphs_joinParagraphs_stable (document : string) :
  splitIntoParagraphs (joinParagraphs (splitIntoParagraphs document))
  = splitIntoParagraphs document.
Proof.
  apply splitIntoParagraphs_of_joinable.
  - apply splitIntoParagraphs_joinable.
  - apply Forall_forall. intros x Hx. unfold splitIntoParagraphs in Hx.
    apply list_elem_of_In, filter_In in Hx as [_ Hx]. exact Hx.
Qed.

Lemma cleanParagraphs_joinable ps : Forall cleanParagraph ps → joinable ps.
Proof.
  induction ps as [|p rest IH]; [intros _; exact I|].
  intros H. apply Forall_cons in H as [Hp H].
  destruct Hp as (Hnb & Hrun & Hlead & Hend). cbn [joinable].
  split; [exact Hrun|]. split; [|apply IH, H].
  destruct rest as [|q rest]; [exact I|].
  apply Forall_cons in H as [(Hq & _ & Hql & _) _].
  split; [exact Hend|]. split; [exact Hql|]. apply nonBlank_nonempty, Hq.
Qed.

(** X6. [splitIntoParagraphs] undoes [joinParagraphs] on paragraphs
    that are not blank, have no blank line inside and no line feed at
    either end. *)
Theorem splitIntoParagraphs_joinParagraphs (ps : list string) :
  Forall cleanParagraph ps → splitIntoParagraphs (joinParagraphs ps) = ps.
Proof.
  intros H. apply splitIntoParagraphs_of_joinable.
  - apply cleanParagraphs_joinable, H.
  - eapply Forall_impl; [exact H|]. intros p Hp. apply Hp.
Qed.

Lemma splitIntoParagraphs_joinParagraphs_witness :
  Forall cleanParagraph ["# Title"; doc ["one"; "two"]]
  ∧ splitIntoParagraphs (joinParagraphs ["# Title"; doc ["one"; "two"]])
    = ["# Title"; doc ["one"; "two"]].
Proof.
  assert (Forall cleanParagraph ["# Title"; doc ["one"; "two"]]) as H.
  { apply Forall_cons_2; [|apply Forall_cons_2; [|apply Forall_nil_2]];
      (split; [reflexivity|split; [reflexivity|split; reflexivity]]). }
  split; [exact H|]. apply (splitIntoParagraphs_joinParagraphs _ H).
Defined.

(** ** The forward path: the mapping that is returned *)

Lemma fold_insert_lookup_Some (ps : list ParagraphMapping) :
  ∀ (m : gmap string ParagraphMapping) h e,
    fold_left (fun m p => <[sourceHash p := p]> m) ps m !! h = Some e →
    (e ∈ ps ∧ sourceHash e = h) ∨ m !! h = Some e.
Proof.
  induction ps as [|p ps IH]; intros m h e H; cbn in H; [right; exact H|].
  apply IH in H as [[Hin Hh]|H].
  - left. split; [right; exact Hin|exact Hh].
  - destruct (decide (sourceHash p = h)) as [Heq|Hne].
    + rewrite <- Heq, lookup_insert_eq in H. injection H as <-.
      left. split; [left|exact Heq].
    + rewrite lookup_insert_ne in H by exact Hne. right. exact H.
Qed.

Lemma fold_insert_lookup_other (ps : list ParagraphMapping) :
  ∀ (m : gmap string ParagraphMapping) h,
    Forall (fun p => sourceHash p ≠ h) ps →
    fold_left (fun m p => <[sourceHash p := p]> m) ps m !! h = m !! h.
Proof.
  induction ps as [|p ps IH]; intros m h H; cbn; [reflexivity|].
  apply Forall_cons in H as [Hp H]. rewrite IH by exact H.
  apply lookup_insert_ne. exact Hp.
Qed.

(** A later entry of the prior mapping replaces an earlier one of the same hash. *)
Lemma existingHashMap_last (l1 l2 : list ParagraphMapping) (e : ParagraphMapping) :
  Forall (fun p => sourceHash p ≠ sourceHash e) l2 →
  existingHashMap (Some (l1 ++ e :: l2)) !! sourceHash e = Some e.
Proof.
  intros H. unfold existingHashMap. rewrite fold_left_app. cbn [fold_left].
  rewrite fold_insert_lookup_other by exact H. apply lookup_insert_eq.
Qed.

Lemma existingHashMap_lookup_Some existingParagraphs h e :
  existingHashMap existingParagraphs !! h = Some e → sourceHash e = h.
Proof.
  destruct existingParagraphs as [ps|]; cbn; [|rewrite lookup_empty; discriminate].
  intros H. apply fold_insert_lookup_Some in H as [[_ H]|H]; [exact H|].
  rewrite lookup_empty in H. discriminate.
Qed.

Lemma existingHashMap_NoDup (ps : list ParagraphMapping) j e :
  NoDup (List.map sourceHash ps) → ps !! j = Some e →
  existingHashMap (Some ps) !! sourceHash e = Some e.
Proof.
  intros Hnd Hj.
  rewrite <- (take_drop_middle ps j e Hj) in Hnd |- *.
  apply existingHashMap_last.
  rewrite map_app in Hnd. apply NoDup_app in Hnd as (_ & _ & Hnd).
  cbn in Hnd. apply NoDup_cons in Hnd as [Hnotin _].
  apply Forall_forall. intros p Hp Heq. apply Hnotin.
  rewrite <- Heq. apply list_elem_of_fmap_2. exact Hp.
Qed.

Lemma planEntry_sourceHash existingParagraphs p :
  sourceHash (planEntry (existingHashMap existingParagraphs) p) = hash p.
Proof.
  unfold planEntry. destruct (type p); try reflexivity;
    destruct (existingHashMap existingParagraphs !! hash p) eqn:E; try reflexivity;
    apply existingHashMap_lookup_Some in E; exact E.
Qed.

Lemma planEntry_pending existing p :
  isPending existing p = true →
  planEntry existing p
  = {| sourceContent := content p; translatedContent := EmptyString; sourceHash := hash p |}.
Proof.
  unfold isPending, planEntry. destruct (type p); try discriminate;
    destruct (existing !! hash p); try discriminate; reflexivity.
Qed.

Lemma pendingFrom_index existing rest : ∀ i j p,
  rest !! (j - i)%nat = Some p → (i ≤ j)%nat → isPending existing p = false →
  j ∉ List.map fst (pendingFrom existing rest i).
Proof.
  intros i j p Hp Hij Hnot Hin.
  apply list_elem_of_fmap in Hin as ([j' q] & Hj & Hin). cbn in Hj. subst j'.
  apply pendingFrom_elem in Hin as (_ & Hq & Hpend). congruence.
Qed.

(** The filling loop writes [translatedContent] only. *)
Lemma fillLoop_keeps results rest : ∀ i rp tu t out,
  outcome (fillLoop results rest i rp tu t) = Fulfilled out →
  List.map sourceContent (fst out) = List.map sourceContent rp
  ∧ List.map sourceHash (fst out) = List.map sourceHash rp.
Proof.
  induction rest as [|[index q] rest IH]; intros i rp tu t out H; cbn [fillLoop] in H.
  - cbn in H. injection H as <-. split; reflexivity.
  - destruct (mjoin (results !! i)) as [result|]; [|discriminate].
    destruct (rp !! index) as [p|] eqn:Hp; [|discriminate].
    apply IH in H as [H1 H2]. rewrite H1, H2, !list_fmap_insert. cbn.
    split; apply list_insert_id; rewrite list_lookup_fmap, Hp; reflexivity.
Qed.

Section ResultFacts.

Variable calculateHash : string → string.
Variable provider : Provider.
Variable document : string.
Variable options : IncrementalTranslateOptions.

Let segments := splitIntoParagraphsWithHash calculateHash document.
Let existing := existingHashMap (existingParagraphs options).

Lemma translateIncremental_entries t res :
  outcome (translateIncremental calculateHash provider document options t) = Fulfilled res →
  List.map sourceHash (itr_paragraphs res) = List.map hash segments
  ∧ List.map sourceContent (itr_paragraphs res)
    = List.map (fun p => sourceContent (planEntry existing p)) segments
  ∧ (∀ j p, segments !! j = Some p → isPending existing p = false →
       itr_paragraphs res !! j = Some (planEntry existing p))
  ∧ changedParagraphs res = List.length (pendingFrom existing segments 0)
  ∧ reusedParagraphs res
    = (List.length segments - List.length (pendingFrom existing segments 0))%nat
  ∧ itr_translatedText res
    = joinParagraphs (List.map translatedContent (itr_paragraphs res)).
Proof.
  intros H. apply translateIncremental_fulfilled in H. cbv zeta in H.
  unfold planOf in H.
  destruct (plan_spec existing segments) as [Hpend Hrp].
  fold segments existing in H. 
  assert (List.map sourceHash (List.map (planEntry existing) segments)
          = List.map hash segments) as Hhash.
  { rewrite map_map. apply map_ext. intros p. apply planEntry_sourceHash. }
  destruct H as [[Hnil ->]|(Hne & rs & out & Hd & Hf & ->)];
    unfold incrementalResult; cbn [itr_paragraphs changedParagraphs reusedParagraphs
                                   itr_translatedText fst].
  - rewrite Hrp, <- Hpend. repeat split; auto.
    + apply map_map.
    + intros j p Hj _. rewrite list_lookup_fmap, Hj. reflexivity.
  - pose proof (fillLoop_keeps _ _ _ _ _ _ _ Hf) as [Hk1 Hk2].
    pose proof (fillLoop_fulfilled _ _ _ _ _ _ _ Hf) as (_ & Hother & _).
    rewrite Hk1, Hk2, Hrp, <- Hpend. repeat split; auto.
    + apply map_map.
    + intros j p Hj Hnot. rewrite Hother.
      * rewrite Hrp, list_lookup_fmap, Hj. reflexivity.
      * rewrite Hpend. apply (pendingFrom_index existing segments 0 j p); [|lia|exact Hnot].
        rewrite Nat.sub_0_r. exact Hj.
Qed.

End ResultFacts.

Lemma pendingFrom_filter existing rest : ∀ i,
  List.length (pendingFrom existing rest i)
  = List.length (List.filter (isPending existing) rest).
Proof.
  induction rest as [|p rest IH]; intros i; cbn; [reflexivity|].
  destruct (isPending existing p); cbn; rewrite (IH (S i)); reflexivity.
Qed.

(** X7. A fulfilled [translateIncremental] returns one mapping entry
    for every segment, in the order of the segments, each with the hash
    of its segment. [changedParagraphs] is the number of segments that
    are not code and whose hash is not in the prior mapping,
    [changedParagraphs + reusedParagraphs] is the number of segments,
    and [translatedText] is the [translatedContent] of the entries
    joined by blank lines. *)
Theorem translateIncremental_result_shape
    (calculateHash : string → string) (provider : Provider)
    (document : string) (options : IncrementalTranslateOptions) (t : N)
    (res : IncrementalTranslationResult) :
  outcome (translateIncremental calculateHash provider document options t) = Fulfilled res →
  let segments := splitIntoParagraphsWithHash calculateHash document in
  let existing := existingHashMap (existingParagraphs options) in
  List.length (itr_paragraphs res) = List.length segments
  ∧ List.map sourceHash (itr_paragraphs res) = List.map hash segments
  ∧ changedParagraphs res = List.length (List.filter (isPending existing) segments)
  ∧ (changedParagraphs res + reusedParagraphs res = List.length segments)%nat
  ∧ itr_translatedText res
    = joinParagraphs (List.map translatedContent (itr_paragraphs res)).
Proof.
  intros H. cbv zeta.
  apply translateIncremental_entries in H as (Hhash & _ & _ & Hch & Hre & Htext).
  split; [|split; [exact Hhash|split; [|split; [|exact Htext]]]].
  - apply (f_equal List.length) in Hhash. rewrite !length_map in Hhash. exact Hhash.
  - rewrite Hch. apply pendingFrom_filter.
  - rewrite Hch, Hre.
    pose proof (pendingFrom_length (existingHashMap (existingParagraphs options))
                  (splitIntoParagraphsWithHash calculateHash document) 0). lia.
Qed.

Lemma translateIncremental_result_shape_witness :
  let options := {| signal := None; existingParagraphs := None; maxConcurrency := None |} in
  let document := doc ["Title"; EmptyString; "```"; "x"; "```"; EmptyString; "Body"] in
  let block := doc ["```"; "x"; "```"] in
  let res :=
    {| itr_translatedText := doc ["T:Title"; EmptyString; block; EmptyString; "T:Body"];
       itr_paragraphs :=
         [ {| sourceContent := "Title"; translatedContent := "T:Title";
              sourceHash := "Title" |};
           {| sourceContent := block; translatedContent := block; sourceHash := block |};
           {| sourceContent := "Body"; translatedContent := "T:Body";
              sourceHash := "Body" |} ];
       changedParagraphs := 2;
       reusedParagraphs := 1;
       itr_tokenUsage := Some {| prompt := 2; completion := 4; total := 6 |} |} in
  outcome (translateIncremental idHash echoProvider document options 0%N) = Fulfilled res
  ∧ List.length (itr_paragraphs res)
    = List.length (splitIntoParagraphsWithHash idHash document)
  ∧ List.map sourceHash (itr_paragraphs res)
    = List.map hash (splitIntoParagraphsWithHash idHash document)
  ∧ changedParagraphs res
    = List.length (List.filter (isPending (existingHashMap None))
                               (splitIntoParagraphsWithHash idHash document))
  ∧ (changedParagraphs res + reusedParagraphs res
     = List.length (splitIntoParagraphsWithHash idHash document))%nat
  ∧ itr_translatedText res
    = joinParagraphs (List.map translatedContent (itr_paragraphs res)).
Proof.
  cbv zeta. split; [vm_compute; reflexivity|].
  match goal with
  | |- context [changedParagraphs ?res] =>
      exact (translateIncremental_result_shape idHash echoProvider
               (doc ["Title"; EmptyString; "```"; "x"; "```"; EmptyString; "Body"])
               {| signal := None; existingParagraphs := None; maxConcurrency := None |}
               0%N res ltac:(vm_compute; reflexivity))
  end.
Defined.

Lemma planEntry_rerun (ps : list ParagraphMapping) j p e :
  NoDup (List.map sourceHash ps) → ps !! j = Some e → sourceHash e = hash p →
  (type p = Code →
   e = {| sourceContent := content p; translatedContent := content p;
          sourceHash := hash p |}) →
  planEntry (existingHashMap (Some ps)) p = e.
Proof.
  intros Hnd He Heq Hcode. unfold planEntry.
  pose proof (existingHashMap_NoDup ps j e Hnd He) as Hl. rewrite Heq in Hl.
  destruct (type p); rewrite ?Hl; auto. symmetry. auto.
Qed.

(** X8. The mapping that a fulfilled [translateIncremental] returns is
    a cache for the same document: a second run that is given it as
    [existingParagraphs] makes no request, whatever the provider, the
    signal and the concurrency, and reuses every segment. When the
    hashes of the segments are pairwise distinct, the second run
    returns the same mapping and the same text. *)
Theorem rerun_dispatches_nothing
    (calculateHash : string → string) (provider : Provider)
    (document : string) (options : IncrementalTranslateOptions) (t : N)
    (res : IncrementalTranslationResult) :
  outcome (translateIncremental calculateHash provider document options t) = Fulfilled res →
  ∀ (provider' : Provider) (signal' : AbortSignal) (maxConcurrency' : option nat) (t' : N),
    let segments := splitIntoParagraphsWithHash calculateHash document in
    let r' := translateIncremental calculateHash provider' document
                {| signal := signal'; existingParagraphs := Some (itr_paragraphs res);
                   maxConcurrency := maxConcurrency' |} t' in
    events r' = [] ∧ finish r' = t'
    ∧ ∃ res', outcome r' = Fulfilled res'
              ∧ changedParagraphs res' = 0%nat
              ∧ reusedParagraphs res' = List.length segments
              ∧ (NoDup (List.map hash segments) →
                 itr_paragraphs res' = itr_paragraphs res
                 ∧ itr_translatedText res' = itr_translatedText res).
Proof.
  intros H provider' signal' maxConcurrency' t'. cbv zeta.
  pose proof (translateIncremental_entries _ _ _ _ _ _ H)
    as (Hhash & _ & Hkept & _ & _ & Htext).
  set (segments := splitIntoParagraphsWithHash calculateHash document) in *.
  set (existing' := existingHashMap (Some (itr_paragraphs res))).
  assert (Hcached : ∀ j p, segments !! j = Some p →
            ∃ e, itr_paragraphs res !! j = Some e ∧ sourceHash e = hash p).
  { intros j p Hj.
    assert (List.map sourceHash (itr_paragraphs res) !! j = Some (hash p)) as Hl
      by (rewrite Hhash, list_lookup_fmap, Hj; reflexivity).
    rewrite list_lookup_fmap in Hl.
    destruct (itr_paragraphs res !! j) as [e|]; [|discriminate].
    injection Hl as Hl. exists e. auto. }
  assert (Hnone : Forall (fun p => isPending existing' p = false) segments).
  { apply Forall_forall. intros p Hp. apply list_elem_of_lookup in Hp as [j Hj].
    destruct (Hcached j p Hj) as (e & He & Heq).
    unfold isPending, existing'. destruct (type p); try reflexivity;
      (destruct (proj2 (existingHashMap_lookup (itr_paragraphs res) (hash p))) as [x ->];
       [exists e; split; [eapply list_elem_of_lookup_2, He|exact Heq]|reflexivity]). }
  assert (Hplan : paragraphsToTranslate (plan existing' segments) = []).
  { rewrite (proj1 (plan_spec existing' segments)). apply pendingFrom_nil, Hnone. }
  rewrite (translateIncremental_nothing_pending calculateHash provider' document
             {| signal := signal'; existingParagraphs := Some (itr_paragraphs res);
                maxConcurrency := maxConcurrency' |} t' Hplan).
  cbn [events finish outcome]. split; [reflexivity|]. split; [reflexivity|].
  eexists. split; [reflexivity|]. cbn [changedParagraphs reusedParagraphs itr_paragraphs
                                       itr_translatedText existingParagraphs].
  fold segments existing'. split; [reflexivity|]. split; [reflexivity|].
  intros Hnd.
  assert (resultParagraphs (plan existing' segments) = itr_paragraphs res) as Hsame.
  { rewrite (proj2 (plan_spec existing' segments)). unfold existing'.
    apply list_eq. intros j. rewrite list_lookup_fmap.
    destruct (segments !! j) as [p|] eqn:Hj; cbn [fmap option_fmap option_map].
    - destruct (Hcached j p Hj) as (e & He & Heq). rewrite He. f_equal.
      apply (planEntry_rerun (itr_paragraphs res) j); [rewrite Hhash; exact Hnd|exact He|exact Heq|].
      intros Hty.
      assert (isPending (existingHashMap (existingParagraphs options)) p = false) as Hpend
        by (unfold isPending; rewrite Hty; reflexivity).
      rewrite (Hkept j p Hj Hpend) in He. injection He as <-.
      unfold planEntry. rewrite Hty. reflexivity.
    - symmetry. apply lookup_ge_None.
      apply lookup_ge_None in Hj. apply (f_equal List.length) in Hhash.
      rewrite !length_map in Hhash. lia. }
  rewrite Hsame. split; [reflexivity|]. rewrite Htext. reflexivity.
Qed.

Lemma rerun_dispatches_nothing_witness :
  let document := doc ["One"; EmptyString; "Two"] in
  let res :=
    {| itr_translatedText := doc ["T:One"; EmptyString; "T:Two"];
       itr_paragraphs :=
         [ {| sourceContent := "One"; translatedContent := "T:One"; sourceHash := "One" |};
           {| sourceContent := "Two"; translatedContent := "T:Two"; sourceHash := "Two" |} ];
       changedParagraphs := 2;
       reusedParagraphs := 0;
       itr_tokenUsage := Some {| prompt := 2; completion := 4; total := 6 |} |} in
  outcome (translateIncremental idHash echoProvider document
             {| signal := None; existingParagraphs := None; maxConcurrency := None |} 0%N)
    = Fulfilled res
  ∧ let r' := translateIncremental idHash limitedProvider document
                {| signal := Some 0%N; existingParagraphs := Some (itr_paragraphs res);
                   maxConcurrency := Some 0%nat |} 5%N in
    events r' = [] ∧ finish r' = 5%N
    ∧ ∃ res', outcome r' = Fulfilled res'
              ∧ changedParagraphs res' = 0%nat
              ∧ reusedParagraphs res'
                = List.length (splitIntoParagraphsWithHash idHash document)
              ∧ (NoDup (List.map hash (splitIntoParagraphsWithHash idHash document)) →
                 itr_paragraphs res' = itr_paragraphs res
                 ∧ itr_translatedText res' = itr_translatedText res).
Proof.
  cbv zeta. split; [vm_compute; reflexivity|].
  match goal with
  | |- context [itr_translatedText ?res] =>
      exact (rerun_dispatches_nothing idHash echoProvider (doc ["One"; EmptyString; "Two"])
               {| signal := None; existingParagraphs := None; maxConcurrency := None |}
               0%N res ltac:(vm_compute; reflexivity)
               limitedProvider (Some 0%N) (Some 0%nat) 5%N)
  end.
Defined.

(** X9. A segment that is not code and whose hash is in the prior
    mapping is not dispatched, and its entry in the result is the last
    prior entry of that hash, as it is (its [sourceContent] is not
    compared with the segment). *)
Theorem cached_segment_reuses_last_entry
    (calculateHash : string → string) (provider : Provider)
    (document : string) (options : IncrementalTranslateOptions)
    (i : nat) (p : ParsedParagraph) (l1 l2 : list ParagraphMapping) (e : ParagraphMapping) :
  splitIntoParagraphsWithHash calculateHash document !! i = Some p →
  type p ≠ Code →
  existingParagraphs options = Some (l1 ++ e :: l2) →
  sourceHash e = hash p →
  Forall (fun e' => sourceHash e' ≠ hash p) l2 →
  (∀ q, (i, q) ∉ paragraphsToTranslate (planOf calculateHash document options))
  ∧ ∀ t res,
      outcome (translateIncremental calculateHash provider document options t)
        = Fulfilled res →
      itr_paragraphs res !! i = Some e.
Proof.
  intros Hp Hty Hprior Heq Hlater.
  assert (existingHashMap (existingParagraphs options) !! hash p = Some e) as Hl.
  { rewrite Hprior, <- Heq. apply existingHashMap_last. rewrite Heq. exact Hlater. }
  split.
  - intros q Hq. apply pending_segment in Hq as (Hq & _ & Hnone). congruence.
  - intros t res Hres.
    apply translateIncremental_entries in Hres as (_ & _ & Hkept & _).
    rewrite (Hkept i p Hp).
    + unfold planEntry. rewrite Hl. destruct (type p); congruence.
    + unfold isPending. rewrite Hl. destruct (type p); reflexivity.
Qed.

Lemma cached_segment_reuses_last_entry_witness :
  let old := {| sourceContent := "Hello"; translatedContent := "Salut";
                sourceHash := idHash "Hello" |} in
  let new := {| sourceContent := "Hello!"; translatedContent := "Bonjour";
                sourceHash := idHash "Hello" |} in
  let options := {| signal := None; existingParagraphs := Some [old; new];
                    maxConcurrency := None |} in
  (∀ q, (0%nat, q) ∉ paragraphsToTranslate (planOf idHash "Hello" options))
  ∧ ∀ t res,
      outcome (translateIncremental idHash echoProvider "Hello" options t) = Fulfilled res →
      itr_paragraphs res !! 0%nat = Some new.
Proof.
  cbv zeta.
  apply (cached_segment_reuses_last_entry idHash echoProvider "Hello"
           {| signal := None;
              existingParagraphs :=
                Some [ {| sourceContent := "Hello"; translatedContent := "Salut";
                          sourceHash := idHash "Hello" |};
                       {| sourceContent := "Hello!"; translatedContent := "Bonjour";
                          sourceHash := idHash "Hello" |} ];
              maxConcurrency := None |}
           0 {| content := "Hello"; type := Text; hash := idHash "Hello";
                startLine := 0; endLine := 0 |}
           [ {| sourceContent := "Hello"; translatedContent := "Salut";
                sourceHash := idHash "Hello" |} ] []).
  - reflexivity.
  - discriminate.
  - reflexivity.
  - reflexivity.
  - apply Forall_nil_2.
Defined.

(** ** The reverse path *)

Lemma reverseTranslate_nothing_modified calculateHash provider configMaxConcurrency
    currentTranslatedContent savedParagraphs signal t :
  modifiedFrom savedParagraphs (splitIntoParagraphs currentTranslatedContent) 0 = [] →
  reverseTranslate calculateHash provider configMaxConcurrency
    currentTranslatedContent savedParagraphs signal t
  = mkRun (Fulfilled {| modifiedIndices := [];
                        translatedParagraphs := [];
                        newSourceContent :=
                          joinParagraphs (List.map sourceContent savedParagraphs);
                        newParagraphs := savedParagraphs |}) t [].
Proof. intros H. unfold reverseTranslate. rewrite H. reflexivity. Qed.

(** X10. Paragraphs deleted at the end of the translation are not
    seen by [reverseTranslate]: when the paragraphs of the current text
    are the first saved translations, position by position, nothing is
    dispatched and the saved mapping and the whole saved source are
    returned. *)
Theorem reverse_ignores_deleted_tail
    (calculateHash : string → string) (provider : Provider)
    (configMaxConcurrency : option nat)
    (currentTranslatedContent : string) (savedParagraphs : list ParagraphMapping)
    (deleted : list string) (signal : AbortSignal) (t : N) :
  List.map translatedContent savedParagraphs
    = splitIntoParagraphs currentTranslatedContent ++ deleted →
  reverseTranslate calculateHash provider configMaxConcurrency
    currentTranslatedContent savedParagraphs signal t
  = mkRun (Fulfilled {| modifiedIndices := [];
                        translatedParagraphs := [];
                        newSourceContent :=
                          joinParagraphs (List.map sourceContent savedParagraphs);
                        newParagraphs := savedParagraphs |}) t [].
Proof.
  intros Hsame. apply reverseTranslate_nothing_modified.
  apply modifiedFrom_unchanged. intros k cur Hk. cbn [Nat.add].
  assert (List.map translatedContent savedParagraphs !! k = Some cur) as Hl
    by (rewrite Hsame; apply lookup_app_l_Some; exact Hk).
  apply list_lookup_fmap_Some in Hl as (sp & -> & Hsp).
  exists sp. split; [exact Hsp | reflexivity].
Qed.

Lemma reverse_ignores_deleted_tail_witness :
  let saved := [ {| sourceContent := "Hello"; translatedContent := "Bonjour";
                    sourceHash := "h1" |};
                 {| sourceContent := "World"; translatedContent := "Monde";
                    sourceHash := "h2" |} ] in
  List.map translatedContent saved = splitIntoParagraphs "Bonjour" ++ ["Monde"]
  ∧ reverseTranslate idHash echoProvider None "Bonjour" saved None 3%N
    = mkRun (Fulfilled {| modifiedIndices := [];
                          translatedParagraphs := [];
                          newSourceContent := joinParagraphs ["Hello"; "World"];
                          newParagraphs := saved |}) 3%N [].
Proof.
  cbv zeta. split; [reflexivity|].
  exact (reverse_ignores_deleted_tail idHash echoProvider None "Bonjour"
           [ {| sourceContent := "Hello"; translatedContent := "Bonjour";
                sourceHash := "h1" |};
             {| sourceContent := "World"; translatedContent := "Monde";
                sourceHash := "h2" |} ] ["Monde"] None 3%N eq_refl).
Defined.

Section ReverseShape.

Variable calculateHash : string → string.
Variable savedParagraphs : list ParagraphMapping.
Variable currentParagraphs : list string.

Lemma rebuild_length rest : ∀ i tp spc np,
  List.map fst tp = modifiedFrom savedParagraphs rest i →
  List.length np = Nat.max (List.length savedParagraphs) i →
  List.length (snd (fold_left (rebuildStep calculateHash currentParagraphs) tp (spc, np)))
  = Nat.max (List.length savedParagraphs) (i + List.length rest).
Proof.
  induction rest as [|cur rest IH]; intros i tp spc np Htp Hlen.
  - cbn in Htp. destruct tp; [|discriminate]. cbn. rewrite Nat.add_0_r. exact Hlen.
  - cbn [modifiedFrom] in Htp. cbn [List.length].
    replace (i + S (List.length rest))%nat with (S i + List.length rest)%nat by lia.
    assert (Htake : ∀ tp' fresh,
               tp = (i, fresh) :: tp' →
               List.map fst tp' = modifiedFrom savedParagraphs rest (S i) →
               List.length (snd (fold_left (rebuildStep calculateHash currentParagraphs) tp
                                   (spc, np)))
               = Nat.max (List.length savedParagraphs) (S i + List.length rest)).
    { intros tp' fresh -> Htp'. cbn [fold_left rebuildStep].
      destruct (i <? List.length np)%nat eqn:Ei.
      - apply Nat.ltb_lt in Ei. apply IH; [exact Htp'|]. rewrite length_insert. lia.
      - apply Nat.ltb_ge in Ei. apply IH; [exact Htp'|]. rewrite length_app. cbn. lia. }
    destruct (savedParagraphs !! i) as [sp|] eqn:Es.
    + pose proof (lookup_lt_Some _ _ _ Es) as Hi.
      destruct (String.eqb cur (translatedContent sp)).
      * apply IH; [exact Htp|lia].
      * destruct tp as [|[i' fresh] tp']; [discriminate|].
        cbn in Htp. injection Htp as -> Htp'. apply (Htake tp' fresh eq_refl Htp').
    + destruct tp as [|[i' fresh] tp']; [discriminate|].
      cbn in Htp. injection Htp as -> Htp'. apply (Htake tp' fresh eq_refl Htp').
Qed.

Lemma modifiedFrom_increasing rest : ∀ i a b ia ib,
  modifiedFrom savedParagraphs rest i !! a = Some ia →
  modifiedFrom savedParagraphs rest i !! b = Some ib →
  (a < b)%nat → (ia < ib)%nat.
Proof.
  induction rest as [|cur rest IH]; intros i a b ia ib Ha Hb Hab; [discriminate|].
  cbn [modifiedFrom] in Ha, Hb.
  assert (Hcons : ∀ l, (i :: l) !! a = Some ia → (i :: l) !! b = Some ib →
                       l = modifiedFrom savedParagraphs rest (S i) → (ia < ib)%nat).
  { intros l Ha' Hb' ->. destruct b as [|b]; [lia|]. cbn in Hb'.
    destruct a as [|a].
    - cbn in Ha'. injection Ha' as <-.
      apply list_elem_of_lookup_2, modifiedFrom_ge in Hb'. lia.
    - cbn in Ha'. apply (IH (S i) a b); [assumption|assumption|lia]. }
  destruct (savedParagraphs !! i) as [sp|].
  - destruct (String.eqb cur (translatedContent sp)).
    + apply (IH (S i) a b); assumption.
    + eapply Hcons; eauto.
  - eapply Hcons; eauto.
Qed.

Lemma modifiedFrom_bound rest i j :
  j ∈ modifiedFrom savedParagraphs rest i → (j < i + List.length rest)%nat.
Proof.
  intros H. apply modifiedFrom_elem in H as (cur & Hij & Hcur & _).
  apply lookup_lt_Some in Hcur. lia.
Qed.

End ReverseShape.

(** X11. The shape of a fulfilled [reverseTranslate]: the new mapping
    has as many entries as the longer of the saved mapping and the
    current paragraphs; [translatedParagraphs] carries the modified
    indices in their order; these are indices of current paragraphs,
    strictly increasing. *)
Theorem reverseTranslate_result_shape
    (calculateHash : string → string) (provider : Provider)
    (configMaxConcurrency : option nat)
    (currentTranslatedContent : string) (savedParagraphs : list ParagraphMapping)
    (signal : AbortSignal) (t : N) (res : ReverseTranslationResult) :
  outcome (reverseTranslate calculateHash provider configMaxConcurrency
             currentTranslatedContent savedParagraphs signal t) = Fulfilled res →
  let currentParagraphs := splitIntoParagraphs currentTranslatedContent in
  List.length (newParagraphs res)
    = Nat.max (List.length savedParagraphs) (List.length currentParagraphs)
  ∧ List.map fst (translatedParagraphs res) = modifiedIndices res
  ∧ (∀ i, i ∈ modifiedIndices res → (i < List.length currentParagraphs)%nat)
  ∧ (∀ a b ia ib, modifiedIndices res !! a = Some ia → modifiedIndices res !! b = Some ib →
       (a < b)%nat → (ia < ib)%nat).
Proof.
  intros H. cbv zeta.
  destruct (modifiedFrom savedParagraphs (splitIntoParagraphs currentTranslatedContent) 0)
    as [|m0 ms] eqn:Hm.
  - rewrite reverseTranslate_nothing_modified in H by exact Hm.
    cbn in H. injection H as <-. cbn [newParagraphs modifiedIndices translatedParagraphs].
    assert (List.length (splitIntoParagraphs currentTranslatedContent)
            ≤ List.length savedParagraphs)%nat as Hle.
    { destruct (Nat.le_gt_cases (List.length (splitIntoParagraphs currentTranslatedContent))
                  (List.length savedParagraphs)) as [Hle|Hgt]; [exact Hle|].
      destruct (lookup_lt_is_Some_2 (splitIntoParagraphs currentTranslatedContent)
                  (List.length savedParagraphs) Hgt) as [cur Hcur].
      assert (List.length savedParagraphs
              ∈ modifiedFrom savedParagraphs
                  (splitIntoParagraphs currentTranslatedContent) 0) as Hin.
      { apply modifiedFrom_elem. exists cur. split; [lia|]. rewrite Nat.sub_0_r.
        split; [exact Hcur|]. left. apply lookup_ge_None_2. lia. }
      rewrite Hm in Hin. inversion Hin. }
    split; [lia|]. split; [reflexivity|].
    split; [intros i Hi; inversion Hi|]. intros a b ia ib Ha. discriminate.
  - apply reverseTranslate_fulfilled in H. cbv zeta in H.
    destruct H as [(Hnil & _)|(Hne & rs & tp & Hd & Hc & ->)]; [congruence|].
    apply collectTranslated_fulfilled in Hc as [Hfst _].
    unfold reverseResult. cbn [newParagraphs modifiedIndices translatedParagraphs].
    split.
    + rewrite (rebuild_length calculateHash savedParagraphs _
                 (splitIntoParagraphs currentTranslatedContent) 0);
        [|exact Hfst|rewrite length_map; lia].
      reflexivity.
    + split; [exact Hfst|]. split.
      * intros i Hi. apply modifiedFrom_bound in Hi. exact Hi.
      * apply modifiedFrom_increasing.
Qed.

Lemma reverseTranslate_result_shape_witness :
  let saved := [ {| sourceContent := "one"; translatedContent := "un"; sourceHash := "h1" |} ] in
  let current := doc ["un"; EmptyString; "deux"; EmptyString; "trois"] in
  let res :=
    {| modifiedIndices := [1; 2]%nat;
       translatedParagraphs := [(1%nat, "T:deux"); (2%nat, "T:trois")];
       newSourceContent := doc ["one"; EmptyString; "T:deux"; EmptyString; "T:trois"];
       newParagraphs :=
         [ {| sourceContent := "one"; translatedContent := "un"; sourceHash := "h1" |};
           {| sourceContent := "T:deux"; translatedContent := "deux";
              sourceHash := "T:deux" |};
           {| sourceContent := "T:trois"; translatedContent := "trois";
              sourceHash := "T:trois" |} ] |} in
  outcome (reverseTranslate idHash echoProvider None current saved None 0%N) = Fulfilled res
  ∧ List.length (newParagraphs res)
    = Nat.max (List.length saved) (List.length (splitIntoParagraphs current))
  ∧ List.map fst (translatedParagraphs res) = modifiedIndices res
  ∧ (∀ i, i ∈ modifiedIndices res → (i < List.length (splitIntoParagraphs current))%nat)
  ∧ (∀ a b ia ib, modifiedIndices res !! a = Some ia → modifiedIndices res !! b = Some ib →
       (a < b)%nat → (ia < ib)%nat).
Proof.
  cbv zeta. split; [vm_compute; reflexivity|].
  match goal with
  | |- context [translatedParagraphs ?res] =>
      exact (reverseTranslate_result_shape idHash echoProvider None
               (doc ["un"; EmptyString; "deux"; EmptyString; "trois"])
               [ {| sourceContent := "one"; translatedContent := "un"; sourceHash := "h1" |} ]
               None 0%N res ltac:(vm_compute; reflexivity))
  end.
Defined.

Lemma planEntry_fresh p :
  sourceContent (planEntry (existingHashMap None) p) = content p.
Proof.
  unfold planEntry, existingHashMap. rewrite lookup_empty. destruct (type p); reflexivity.
Qed.

(** X12. Forward, then reverse without an edit. When every translated
    content of a fulfilled [translateIncremental] is a clean paragraph
    (not blank, no blank line inside, no line feed at either end),
    [reverseTranslate] on the returned text and mapping finds nothing
    modified and makes no request; the source it returns is the join
    of the source contents, which for a run without prior mapping is
    [joinParsedParagraphs] of the segments of the document. *)
Theorem unedited_translation_reverses_to_nothing
    (calculateHash : string → string) (provider : Provider)
    (document : string) (options : IncrementalTranslateOptions) (t : N)
    (res : IncrementalTranslationResult) :
  outcome (translateIncremental calculateHash provider document options t) = Fulfilled res →
  Forall cleanParagraph (List.map translatedContent (itr_paragraphs res)) →
  (∀ (provider' : Provider) (configMaxConcurrency : option nat) (signal' : AbortSignal)
     (t' : N),
     reverseTranslate calculateHash provider' configMaxConcurrency
       (itr_translatedText res) (itr_paragraphs res) signal' t'
     = mkRun (Fulfilled {| modifiedIndices := [];
                           translatedParagraphs := [];
                           newSourceContent :=
                             joinParagraphs (List.map sourceContent (itr_paragraphs res));
                           newParagraphs := itr_paragraphs res |}) t' [])
  ∧ (existingParagraphs options = None →
     joinParagraphs (List.map sourceContent (itr_paragraphs res))
     = joinParsedParagraphs (splitIntoParagraphsWithHash calculateHash document)).
Proof.
  intros H Hclean.
  apply translateIncremental_entries in H as (_ & Hsrc & _ & _ & _ & Htext).
  split.
  - intros provider' configMaxConcurrency signal' t'.
    apply reverseTranslate_nothing_modified.
    rewrite Htext, (splitIntoParagraphs_joinParagraphs _ Hclean).
    apply modifiedFrom_unchanged. intros k cur Hk. cbn [Nat.add].
    apply list_lookup_fmap_Some in Hk as (sp & -> & Hsp).
    exists sp. split; [exact Hsp | reflexivity].
  - intros Hnone. rewrite Hsrc, Hnone. unfold joinParagraphs, joinParsedParagraphs.
    f_equal. apply map_ext. intros p. apply planEntry_fresh.
Qed.

Lemma unedited_translation_reverses_to_nothing_witness :
  let document := doc ["One"; EmptyString; "```"; "x"; "```"] in
  let options := {| signal := None; existingParagraphs := None; maxConcurrency := None |} in
  let block := doc ["```"; "x"; "```"] in
  let res :=
    {| itr_translatedText := doc ["T:One"; EmptyString; block];
       itr_paragraphs :=
         [ {| sourceContent := "One"; translatedContent := "T:One"; sourceHash := "One" |};
           {| sourceContent := block; translatedContent := block; sourceHash := block |} ];
       changedParagraphs := 1;
       reusedParagraphs := 1;
       itr_tokenUsage := Some {| prompt := 1; completion := 2; total := 3 |} |} in
  outcome (translateIncremental idHash echoProvider document options 0%N) = Fulfilled res
  ∧ Forall cleanParagraph (List.map translatedContent (itr_paragraphs res))
  ∧ reverseTranslate idHash limitedProvider None
      (itr_translatedText res) (itr_paragraphs res) None 9%N
    = mkRun (Fulfilled {| modifiedIndices := [];
                          translatedParagraphs := [];
                          newSourceContent :=
                            joinParagraphs (List.map sourceContent (itr_paragraphs res));
                          newParagraphs := itr_paragraphs res |}) 9%N []
  ∧ joinParagraphs (List.map sourceContent (itr_paragraphs res)) = document.
Proof.
  cbv zeta. split; [vm_compute; reflexivity|].
  match goal with |- ?C ∧ _ => assert C as Hclean end.
  { apply Forall_cons_2; [|apply Forall_cons_2; [|apply Forall_nil_2]];
      (split; [reflexivity|split; [reflexivity|split; reflexivity]]). }
  split; [exact Hclean|].
  match goal with
  | |- context [itr_translatedText ?res] =>
      destruct (unedited_translation_reverses_to_nothing idHash echoProvider
                  (doc ["One"; EmptyString; "```"; "x"; "```"])
                  {| signal := None; existingParagraphs := None; maxConcurrency := None |}
                  0%N res ltac:(vm_compute; reflexivity) Hclean) as [Hrev Hsrc]
  end.
  split; [apply Hrev|]. exact (eq_trans (Hsrc eq_refl) eq_refl).
Defined.

(** ** The retry loop and the dispatcher: what a run may contain *)

Lemma countEvents_app f a b : countEvents f (a ++ b) = (countEvents f a + countEvents f b)%nat.
Proof. unfold countEvents. rewrite List.filter_app, length_app. reflexivity. Qed.

Lemma progressOf_app a b : progressOf (a ++ b) = progressOf a ++ progressOf b.
Proof. apply omap_app. Qed.

Lemma sumFrom_app c i n m : sumFrom c i (n + m) = (sumFrom c i n + sumFrom c (i + n) m)%nat.
Proof.
  unfold sumFrom. rewrite seq_app, map_app.
  induction (List.map c (seq i n)) as [|x l IH]; cbn; [reflexivity|]. rewrite IH. lia.
Qed.

Lemma sumFrom_const k i n : sumFrom (fun _ => k) i n = (k * n)%nat.
Proof.
  unfold sumFrom. revert i. induction n as [|n IH]; intros i; cbn; [lia|].
  rewrite IH. lia.
Qed.

Lemma sumFrom_single k j i n :
  (sumFrom (fun x => if (x =? j)%nat then k else 0%nat) i n ≤ k)%nat
  ∧ ((j < i)%nat → sumFrom (fun x => if (x =? j)%nat then k else 0%nat) i n = 0%nat).
Proof.
  unfold sumFrom. revert i. induction n as [|n IH]; intros i; cbn; [split; [lia|reflexivity]|].
  destruct (IH (S i)) as [IH1 IH2]. destruct (Nat.eqb_spec i j) as [->|Hne].
  - rewrite IH2 by lia. split; [lia|]. lia.
  - split; [exact IH1|]. intros H. apply IH2. lia.
Qed.

Section RetryBounds.

Context {T : Type}.
Variable operation : nat → Task T.
Variable maxRetries : nat.
Variable signal : AbortSignal.
Variable index : nat.
Variable content : string.

Hypothesis operation_requests : ∀ k t, events (operation k t) = [EvRequest index k content t].
Hypothesis operation_takes_time : ∀ k t, (t ≤ finish (operation k t))%N.

Lemma withRetryFrom_bounds : ∀ remaining attempt lastError t,
  (attempt + remaining = maxRetries)%nat →
  let r := withRetryFrom operation maxRetries signal remaining attempt lastError t in
  (countEvents isRequest (events r) ≤ remaining)%nat
  ∧ (countEvents isSleep (events r) ≤ remaining - 1)%nat
  ∧ Forall (retryEvent maxRetries index content) (events r)
  ∧ (t ≤ finish r)%N
  ∧ Forall (fun ev => (t ≤ eventTime ev)%N) (events r).
Proof.
  induction remaining as [|remaining IH]; intros attempt lastError t Hrem; cbn zeta.
  - cbn. destruct lastError; cbn; (split; [lia|split; [lia|split; [constructor|split; [lia|constructor]]]]).
  - rewrite withRetryFrom_step.
    destruct (match signal with Some a => (a <=? t)%N | None => false end).
    { cbn. split; [lia|split; [lia|split; [constructor|split; [lia|constructor]]]]. }
    cbn zeta. pose proof (operation_takes_time attempt t) as Hfin.
    assert (Hreq : (retryEvent maxRetries index content) (EvRequest index attempt content t))
      by (cbn; repeat split; lia).
    destruct (outcome (operation attempt t)) as [v|error|]; cbn [events finish];
      rewrite ?operation_requests.
    + cbn. split; [lia|split; [lia|split; [|split; [exact Hfin|]]]];
        repeat constructor; try exact Hreq; cbn; lia.
    + destruct (negb (retryable (classifyError error))); cbn [events finish].
      * cbn. split; [lia|split; [lia|split; [|split; [exact Hfin|]]]];
          repeat constructor; try exact Hreq; cbn; lia.
      * set (pause := (if (attempt <? maxRetries - 1)%nat
                       then sleep (retryDelay (classifyError error) attempt)
                       else resolve ()) (finish (operation attempt t))).
        assert (Hpause : (finish (operation attempt t) ≤ finish pause)%N
                         ∧ (countEvents isRequest (events pause) = 0)%nat
                         ∧ (countEvents isSleep (events pause)
                            ≤ if (attempt <? maxRetries - 1)%nat then 1 else 0)%nat
                         ∧ Forall (retryEvent maxRetries index content) (events pause)
                         ∧ Forall (fun ev => (finish (operation attempt t) ≤ eventTime ev)%N)
                                  (events pause)).
        { subst pause. destruct (attempt <? maxRetries - 1)%nat eqn:Hlt; cbn.
          - apply Nat.ltb_lt in Hlt.
            split; [lia|split; [reflexivity|split; [lia|split]]];
              repeat constructor; cbn; try lia.
            exists (classifyError error), attempt. split; [lia|reflexivity].
          - split; [lia|split; [reflexivity|split; [lia|split; constructor]]]. }
        destruct Hpause as (Hp1 & Hp2 & Hp3 & Hp4 & Hp5).
        destruct (IH (S attempt) (Some (classifyError error)) (finish pause))
          as (H1 & H2 & H3 & H4 & H5); [lia|].
        rewrite !countEvents_app, Hp2.
        split; [cbn; lia|]. split.
        { cbn [countEvents List.filter isSleep List.length] . 
          change (countEvents isSleep [EvRequest index attempt content t]) with 0%nat.
          destruct (attempt <? maxRetries - 1)%nat eqn:Hlt.
          - apply Nat.ltb_lt in Hlt. lia.
          - lia. }
        split; [|split; [lia|]].
        { apply Forall_cons_2; [exact Hreq|]. apply Forall_app; split; assumption. }
        apply Forall_cons_2; [cbn; lia|]. apply Forall_app; split.
        -- eapply Forall_impl; [exact Hp5|]. cbn. intros; lia.
        -- eapply Forall_impl; [exact H5|]. cbn. intros; lia.
    + cbn. split; [lia|split; [lia|split; [|split; [exact Hfin|]]]];
        repeat constructor; try exact Hreq; cbn; lia.
Qed.

End RetryBounds.

Section UnitBounds.

Variable provider : Provider.

Lemma translate_bounds index content signal t :
  let r := translate provider index content signal t in
  (countEvents isRequest (events r) ≤ 3)%nat
  ∧ (countEvents isSleep (events r) ≤ 2)%nat
  ∧ Forall (retryEvent 3 index content) (events r)
  ∧ (t ≤ finish r)%N
  ∧ Forall (fun ev => (t ≤ eventTime ev)%N) (events r).
Proof.
  unfold translate, withRetry.
  apply (withRetryFrom_bounds _ DEFAULT_MAX_RETRIES signal index content); [| |reflexivity].
  - intros k t'. rewrite operation_run. destruct (provider _) as [latency [e|r]]; reflexivity.
  - intros k t'. rewrite operation_run. destruct (provider _) as [latency [e|r]]; cbn; lia.
Qed.

Lemma retryEvent_withinPolicy index content ev :
  retryEvent 3 index content ev → withinPolicy ev.
Proof.
  destruct ev as [i a c time|ms time|c n time]; cbn; [tauto| |tauto].
  intros (e & k & Hk & ->). unfold retryDelay, RATE_LIMIT_DELAY_MS, RETRY_DELAY_MS.
  destruct (TranslationErrorCode_eqb (code e) RATE_LIMIT); [auto|].
  destruct k as [|[|k]]; [auto|auto|lia].
Qed.

Lemma retryEvent_count j index content evs :
  Forall (retryEvent 3 index content) evs →
  countEvents (isRequestOf j) evs
  = if (index =? j)%nat then countEvents isRequest evs else 0%nat.
Proof.
  induction 1 as [|ev evs Hev _ IH]; [destruct (index =? j)%nat; reflexivity|].
  change (ev :: evs) with ([ev] ++ evs). rewrite !countEvents_app, IH.
  destruct ev as [i a c time|ms time|c n time]; cbn in Hev |- *.
  - destruct Hev as (-> & _). unfold countEvents. cbn.
    destruct (index =? j)%nat; reflexivity.
  - destruct (index =? j)%nat; reflexivity.
  - destruct Hev.
Qed.

Lemma retryEvent_progress index content evs :
  Forall (retryEvent 3 index content) evs → progressOf evs = [].
Proof.
  induction 1 as [|ev evs Hev _ IH]; [reflexivity|].
  destruct ev; cbn in Hev |- *; [exact IH|exact IH|destruct Hev].
Qed.

(** One unit of a batch. *)
Lemma translateUnit_bounds total signal j paragraph t :
  let r := translateUnit provider total signal j paragraph t in
  (∀ j', countEvents (isRequestOf j') (events r)
         ≤ if (j =? j')%nat then 3 else 0)%nat
  ∧ (countEvents isRequest (events r) ≤ 3)%nat
  ∧ (countEvents isSleep (events r) ≤ 2)%nat
  ∧ Forall withinPolicy (events r)
  ∧ (t ≤ finish r)%N
  ∧ Forall (fun ev => (t ≤ eventTime ev)%N) (events r)
  ∧ Forall (fun ev => match ev with
                      | EvRequest i _ _ _ => i = j
                      | EvProgress c n time => c = (j + 1)%nat ∧ n = total
                      | _ => True
                      end) (events r)
  ∧ progressOf (events r)
    = match outcome r with Fulfilled _ => [((j + 1)%nat, total)] | _ => [] end
  ∧ (∀ x, outcome r = Fulfilled x → EvProgress (j + 1) total (finish r) ∈ events r).
Proof.
  cbv zeta. rewrite translateUnit_run. cbv zeta.
  destruct (translate_bounds j paragraph signal t) as (H1 & H2 & H3 & H4 & H5).
  pose proof (retryEvent_count) as Hcount.
  assert (Hidx : Forall (fun ev => match ev with
                      | EvRequest i _ _ _ => i = j
                      | EvProgress c n time => c = (j + 1)%nat ∧ n = total
                      | _ => True
                      end) (events (translate provider j paragraph signal t))).
  { eapply Forall_impl; [exact H3|]. intros [i a c time|ms time|c n time]; cbn; tauto. }
  assert (Hpol : Forall withinPolicy (events (translate provider j paragraph signal t))).
  { eapply Forall_impl; [exact H3|]. apply retryEvent_withinPolicy. }
  assert (Hper : ∀ j', (countEvents (isRequestOf j')
                          (events (translate provider j paragraph signal t))
                        ≤ if (j =? j')%nat then 3 else 0)%nat).
  { intros j'. rewrite (retryEvent_count j' j paragraph _ H3).
    destruct (j =? j')%nat; lia. }
  pose proof (retryEvent_progress j paragraph _ H3) as Hprog.
  destruct (outcome (translate provider j paragraph signal t)) as [v|e|];
    cbn [events finish outcome].
  - rewrite app_nil_r, !countEvents_app, progressOf_app, Hprog.
    change (countEvents isRequest [EvProgress (j + 1) total
              (finish (translate provider j paragraph signal t))]) with 0%nat.
    change (countEvents isSleep [EvProgress (j + 1) total
              (finish (translate provider j paragraph signal t))]) with 0%nat.
    split; [intros j'; specialize (Hper j'); rewrite countEvents_app;
            change (countEvents (isRequestOf j') [EvProgress (j + 1) total
                      (finish (translate provider j paragraph signal t))]) with 0%nat;
            destruct (j =? j')%nat; lia|].
    split; [lia|]. split; [lia|].
    split; [apply Forall_app; split; [exact Hpol|repeat constructor]|].
    split; [exact H4|].
    split; [apply Forall_app; split; [exact H5|repeat constructor; exact H4]|].
    split; [apply Forall_app; split; [exact Hidx|repeat constructor]|].
    split; [reflexivity|].
    intros x _. apply elem_of_app. right. left.
  - repeat split; auto. intros x Hx. discriminate.
  - repeat split; auto. intros x Hx. discriminate.
Qed.

End UnitBounds.

Lemma promiseAll_events_eq {A} (tasks : list (Task A)) t :
  events (promiseAll tasks t) = concat (List.map (fun task => events (task t)) tasks).
Proof.
  unfold promiseAll. rewrite map_map.
  destruct (firstRejection _) as [[t' e]|]; [reflexivity|].
  destruct (fulfilledValues _); reflexivity.
Qed.

Lemma imap_count {A} (g : Event → bool) (c : nat → nat) t (l : list string) :
  ∀ (f : nat → string → Task A) i,
    (∀ b p, l !! b = Some p → (countEvents g (events (f b p t)) ≤ c (i + b)%nat)%nat) →
    (countEvents g (concat (List.map (fun task => events (task t)) (imap f l)))
     ≤ sumFrom c i (List.length l))%nat.
Proof.
  induction l as [|x l IH]; intros f i H; [cbn; lia|].
  cbn [imap List.map concat List.length]. rewrite countEvents_app.
  change (sumFrom c i (S (List.length l))) with (c i + sumFrom c (S i) (List.length l))%nat.
  pose proof (H 0%nat x eq_refl) as H0. rewrite Nat.add_0_r in H0.
  assert (∀ b p, l !! b = Some p →
            (countEvents g (events ((f ∘ S) b p t)) ≤ c (S i + b)%nat)%nat) as H'.
  { intros b p Hb. replace (S i + b)%nat with (i + S b)%nat by lia.
    unfold compose. apply (H (S b)). exact Hb. }
  specialize (IH (f ∘ S) (S i) H'). lia.
Qed.

Lemma imap_progress {A} (h : nat → nat * nat) t (l : list string) :
  ∀ (f : nat → string → Task A) i,
    (∀ b p, l !! b = Some p → progressOf (events (f b p t)) = [h (i + b)%nat]) →
    progressOf (concat (List.map (fun task => events (task t)) (imap f l)))
    = List.map h (seq i (List.length l)).
Proof.
  induction l as [|x l IH]; intros f i H; [reflexivity|].
  cbn [imap List.map concat List.length seq]. rewrite progressOf_app.
  pose proof (H 0%nat x eq_refl) as H0. rewrite Nat.add_0_r in H0. rewrite H0.
  cbn [app]. f_equal. apply (IH (f ∘ S) (S i)).
  intros b p Hb. unfold compose. replace (S i + b)%nat with (i + S b)%nat by lia.
  apply (H (S b)). exact Hb.
Qed.

Section DispatchBounds.

Variable provider : Provider.
Variable paragraphs : list string.
Variable signal : AbortSignal.
Variable maxConcurrency : nat.

Lemma batch_unit i b p :
  slice paragraphs i (i + maxConcurrency) !! b = Some p →
  paragraphs !! (i + b)%nat = Some p ∧ (b < maxConcurrency)%nat.
Proof.
  rewrite slice_lookup. destruct (decide (b < maxConcurrency)%nat); [auto|discriminate].
Qed.

Lemma batch_count (g : Event → bool) (c : nat → nat) i t :
  (∀ j p t', paragraphs !! j = Some p →
     (countEvents g (events (translateUnit provider (List.length paragraphs) signal j p t'))
      ≤ c j)%nat) →
  (countEvents g (events (promiseAll (batchPromises provider paragraphs signal maxConcurrency i) t))
   ≤ sumFrom c i (Nat.min maxConcurrency (List.length paragraphs - i)))%nat.
Proof.
  intros H. rewrite promiseAll_events_eq. unfold batchPromises.
  rewrite <- slice_length. apply imap_count.
  intros b p Hb. apply batch_unit in Hb as [Hb _]. apply H. exact Hb.
Qed.

Lemma sumFrom_batch (c : nat → nat) i :
  (sumFrom c i (Nat.min maxConcurrency (List.length paragraphs - i))
   + sumFrom c (i + maxConcurrency) (List.length paragraphs - (i + maxConcurrency))
   ≤ sumFrom c i (List.length paragraphs - i))%nat.
Proof.
  destruct (Nat.le_gt_cases maxConcurrency (List.length paragraphs - i)) as [Hle|Hgt].
  - rewrite Nat.min_l by exact Hle.
    pose proof (sumFrom_app c i maxConcurrency
                  (List.length paragraphs - (i + maxConcurrency))) as E.
    replace (maxConcurrency + (List.length paragraphs - (i + maxConcurrency)))%nat
      with (List.length paragraphs - i)%nat in E by lia.
    lia.
  - rewrite Nat.min_r by lia.
    replace (List.length paragraphs - (i + maxConcurrency))%nat with 0%nat by lia.
    cbn. lia.
Qed.

Lemma loop_count (g : Event → bool) (c : nat → nat) :
  (∀ j p t, paragraphs !! j = Some p →
     (countEvents g (events (translateUnit provider (List.length paragraphs) signal j p t))
      ≤ c j)%nat) →
  ∀ fuel i results t,
    (countEvents g
       (events (translateParagraphsFrom provider fuel paragraphs signal maxConcurrency
                  i results t))
     ≤ sumFrom c i (List.length paragraphs - i))%nat.
Proof.
  intros H. induction fuel as [|fuel IH]; intros i results t.
  - cbn. destruct (negb _); cbn; lia.
  - destruct (Nat.lt_ge_cases i (List.length paragraphs)) as [Hi|Hi].
    + rewrite translateParagraphsFrom_step by exact Hi.
      destruct (match signal with Some a => (a <=? t)%N | None => false end); [cbn; lia|].
      cbn zeta. pose proof (batch_count g c i t H) as Hb.
      pose proof (sumFrom_batch c i) as Hs.
      destruct (outcome (promiseAll (batchPromises provider paragraphs signal maxConcurrency i) t));
        cbn [events app]; rewrite ?countEvents_app; try lia.
      specialize (IH (i + maxConcurrency)%nat
                     (storeBatch v results)
                     (finish (promiseAll (batchPromises provider paragraphs signal
                                            maxConcurrency i) t))).
      lia.
    + rewrite translateParagraphsFrom_done by exact Hi. cbn. lia.
Qed.

Lemma loop_forall (Q : Event → Prop) :
  (∀ j p t, paragraphs !! j = Some p →
     Forall Q (events (translateUnit provider (List.length paragraphs) signal j p t))) →
  ∀ fuel i results t,
    Forall Q (events (translateParagraphsFrom provider fuel paragraphs signal maxConcurrency
                        i results t)).
Proof.
  intros H. induction fuel as [|fuel IH]; intros i results t.
  - cbn. destruct (negb _); constructor.
  - destruct (Nat.lt_ge_cases i (List.length paragraphs)) as [Hi|Hi].
    + rewrite translateParagraphsFrom_step by exact Hi.
      destruct (match signal with Some a => (a <=? t)%N | None => false end); [constructor|].
      cbn zeta.
      assert (Forall Q (events (promiseAll (batchPromises provider paragraphs signal
                                              maxConcurrency i) t))) as Hpa.
      { apply promiseAll_events. intros task Hin.
        apply elem_of_lookup_imap in Hin as (b & p & -> & Hb).
        apply batch_unit in Hb as [Hb _]. apply H. exact Hb. }
      destruct (outcome (promiseAll (batchPromises provider paragraphs signal maxConcurrency i) t));
        cbn; try exact Hpa.
      apply Forall_app; split; [exact Hpa | apply IH].
    + rewrite translateParagraphsFrom_done by exact Hi. constructor.
Qed.

Lemma loop_progress : ∀ fuel i results t rs,
  outcome (translateParagraphsFrom provider fuel paragraphs signal maxConcurrency
             i results t) = Fulfilled rs →
  progressOf (events (translateParagraphsFrom provider fuel paragraphs signal maxConcurrency
                        i results t))
  = List.map (fun j => ((j + 1)%nat, List.length paragraphs))
             (seq i (List.length paragraphs - i)).
Proof.
  induction fuel as [|fuel IH]; intros i results t rs.
  - destruct (Nat.lt_ge_cases i (List.length paragraphs)) as [Hi|Hi].
    + cbn [translateParagraphsFrom]. apply Nat.ltb_lt in Hi. rewrite Hi.
      intros H. discriminate H.
    + rewrite translateParagraphsFrom_done by exact Hi. cbn.
      replace (List.length paragraphs - i)%nat with 0%nat by lia. reflexivity.
  - destruct (Nat.lt_ge_cases i (List.length paragraphs)) as [Hi|Hi].
    + rewrite translateParagraphsFrom_step by exact Hi.
      destruct (match signal with Some a => (a <=? t)%N | None => false end);
        [intros H; discriminate H|].
      cbn zeta.
      destruct (outcome (promiseAll (batchPromises provider paragraphs signal maxConcurrency i) t))
        as [batchResults|e|] eqn:Hpa; cbn [outcome events app];
        [|intros H; discriminate H|intros H; discriminate H].
      intros Hrs. rewrite progressOf_app, (IH _ _ _ _ Hrs).
      rewrite promiseAll_events_eq. unfold batchPromises.
      rewrite (imap_progress (fun j => ((j + 1)%nat, List.length paragraphs)) t _ _ i).
      * rewrite <- map_app. f_equal. rewrite slice_length.
        destruct (Nat.le_gt_cases maxConcurrency (List.length paragraphs - i)) as [Hle|Hgt].
        -- rewrite Nat.min_l by exact Hle. rewrite <- seq_app. f_equal. lia.
        -- rewrite Nat.min_r by lia.
           replace (List.length paragraphs - (i + maxConcurrency))%nat with 0%nat by lia.
           cbn. apply app_nil_r.
      * intros b p Hb.
        apply promiseAll_fulfilled in Hpa.
        assert (batchPromises provider paragraphs signal maxConcurrency i !! b
                = Some (translateUnit provider (List.length paragraphs) signal (i + b) p))
          as Htask by (unfold batchPromises; rewrite list_lookup_imap, Hb; reflexivity).
        destruct (Forall2_lookup_l _ _ _ _ _ Hpa Htask) as (x & _ & Hx).
        destruct (translateUnit_bounds provider (List.length paragraphs) signal (i + b) p t)
          as (_ & _ & _ & _ & _ & _ & _ & Hprog & _).
        rewrite Hprog, Hx. reflexivity.
    + rewrite translateParagraphsFrom_done by exact Hi. cbn.
      replace (List.length paragraphs - i)%nat with 0%nat by lia. reflexivity.
Qed.

End DispatchBounds.

(** X13. Whatever the provider answers, a dispatch stays within the
    retry policy: no paragraph is requested more than three times, so
    there are at most [3 n] requests and [2 n] pauses for [n]
    paragraphs; the attempts are numbered below 3 and every pause lasts
    1000, 2000 or 60000 ms. *)
Theorem dispatch_stays_within_the_retry_policy
    (provider : Provider) (paragraphs : list string) (signal : AbortSignal)
    (maxConcurrency : nat) (t : N) :
  let evs := events (translateParagraphs provider paragraphs signal maxConcurrency t) in
  (∀ j, countEvents (isRequestOf j) evs ≤ 3)%nat
  ∧ (countEvents isRequest evs ≤ 3 * List.length paragraphs)%nat
  ∧ (countEvents isSleep evs ≤ 2 * List.length paragraphs)%nat
  ∧ Forall withinPolicy evs.
Proof.
  cbv zeta. unfold translateParagraphs. split; [|split; [|split]].
  - intros j.
    pose proof (loop_count provider paragraphs signal maxConcurrency (isRequestOf j)
                  (fun x => if (x =? j)%nat then 3 else 0)%nat) as H.
    etransitivity; [apply H|].
    + intros j' p t' _.
      destruct (translateUnit_bounds provider (List.length paragraphs) signal j' p t')
        as (Hper & _). apply Hper.
    + apply sumFrom_single.
  - pose proof (loop_count provider paragraphs signal maxConcurrency isRequest
                  (fun _ => 3%nat)) as H.
    etransitivity; [apply H|].
    + intros j' p t' _.
      destruct (translateUnit_bounds provider (List.length paragraphs) signal j' p t')
        as (_ & Hreq & _). exact Hreq.
    + rewrite sumFrom_const. lia.
  - pose proof (loop_count provider paragraphs signal maxConcurrency isSleep
                  (fun _ => 2%nat)) as H.
    etransitivity; [apply H|].
    + intros j' p t' _.
      destruct (translateUnit_bounds provider (List.length paragraphs) signal j' p t')
        as (_ & _ & Hsl & _). exact Hsl.
    + rewrite sumFrom_const. lia.
  - apply loop_forall. intros j p t' _.
    destruct (translateUnit_bounds provider (List.length paragraphs) signal j p t')
      as (_ & _ & _ & Hpol & _). exact Hpol.
Qed.

(** X14. What [onParagraphProgress] is told. Every report carries the
    number of paragraphs as its total and the index of a unit plus one
    as its current value (not a count of the units done). In a
    dispatch that fulfils, every unit reports once: listed by unit, the
    reports are [(1, n), (2, n), ..., (n, n)]. *)
Theorem progress_reports_of_a_dispatch
    (provider : Provider) (paragraphs : list string) (signal : AbortSignal)
    (maxConcurrency : nat) (t : N) :
  let r := translateParagraphs provider paragraphs signal maxConcurrency t in
  Forall (fun cn => (1 ≤ fst cn)%nat ∧ (fst cn ≤ List.length paragraphs)%nat
                    ∧ snd cn = List.length paragraphs)
         (progressOf (events r))
  ∧ ∀ rs, outcome r = Fulfilled rs →
      progressOf (events r)
      = List.map (fun j => ((j + 1)%nat, List.length paragraphs))
                 (seq 0 (List.length paragraphs)).
Proof.
  cbv zeta. unfold translateParagraphs. split.
  - assert (Forall (fun ev => match ev with
                              | EvProgress c n _ =>
                                  (1 ≤ c)%nat ∧ (c ≤ List.length paragraphs)%nat
                                  ∧ n = List.length paragraphs
                              | _ => True
                              end)
              (events (translateParagraphsFrom provider (List.length paragraphs) paragraphs
                         signal maxConcurrency 0
                         (replicate (List.length paragraphs) None) t))) as H.
    { apply loop_forall. intros j p t' Hj.
      destruct (translateUnit_bounds provider (List.length paragraphs) signal j p t')
        as (_ & _ & _ & _ & _ & _ & Hidx & _).
      eapply Forall_impl; [exact Hidx|].
      apply lookup_lt_Some in Hj.
      intros [i a c time|ms time|c n time]; cbn; auto. intros [-> ->]. lia. }
    induction H as [|ev evs Hev _ IH]; [constructor|].
    destruct ev as [i a c time|ms time|c n time]; cbn; try exact IH.
    constructor; [exact Hev|exact IH].
  - intros rs Hrs.
    rewrite (loop_progress provider paragraphs signal maxConcurrency _ _ _ _ _ Hrs).
    rewrite Nat.sub_0_r. reflexivity.
Qed.

Lemma progress_reports_of_a_dispatch_witness :
  let r := translateParagraphs echoProvider ["a"; "b"; "c"] None 2 0%N in
  (∃ rs, outcome r = Fulfilled rs)
  ∧ progressOf (events r) = [(1, 3); (2, 3); (3, 3)]%nat
  ∧ List.map eventTime
      (List.filter (fun ev => negb (isRequest ev)) (events r)) = [10; 9; 18]%N.
Proof.
  cbv zeta. split; [eexists; vm_compute; reflexivity|].
  split; [|vm_compute; reflexivity].
  destruct (progress_reports_of_a_dispatch echoProvider ["a"; "b"; "c"] None 2 0%N)
    as [_ H].
  exact (H [Some {| translatedText := "T:a";
                    tokenUsage := Some {| prompt := 1; completion := 2; total := 3 |} |};
            Some {| translatedText := "T:b";
                    tokenUsage := Some {| prompt := 1; completion := 2; total := 3 |} |};
            Some {| translatedText := "T:c";
                    tokenUsage := Some {| prompt := 1; completion := 2; total := 3 |} |}]
           ltac:(vm_compute; reflexivity)).
Defined.

Section Barrier.

Variable provider : Provider.
Variable paragraphs : list string.
Variable signal : AbortSignal.
Variable maxConcurrency : nat.
Hypothesis Hcap : (0 < maxConcurrency)%nat.

Lemma batch_event i t ev :
  ev ∈ events (promiseAll (batchPromises provider paragraphs signal maxConcurrency i) t) →
  ∃ b p, paragraphs !! (i + b)%nat = Some p ∧ (b < maxConcurrency)%nat
         ∧ ev ∈ events (translateUnit provider (List.length paragraphs) signal (i + b) p t).
Proof.
  rewrite promiseAll_events_eq. intros H.
  apply list_elem_of_In, in_concat in H as (evs & Hevs & Hev).
  apply in_map_iff in Hevs as (task & <- & Htask).
  apply list_elem_of_In, elem_of_lookup_imap in Htask as (b & p & -> & Hb).
  apply batch_unit in Hb as [Hb Hlt].
  exists b, p. split; [exact Hb|]. split; [exact Hlt|]. apply list_elem_of_In. exact Hev.
Qed.

Lemma batch_progress i t batchResults j p :
  outcome (promiseAll (batchPromises provider paragraphs signal maxConcurrency i) t)
    = Fulfilled batchResults →
  paragraphs !! j = Some p → (i ≤ j)%nat → (j < i + maxConcurrency)%nat →
  ∃ tj, EvProgress (j + 1) (List.length paragraphs) tj
          ∈ events (promiseAll (batchPromises provider paragraphs signal maxConcurrency i) t)
        ∧ (tj ≤ finish (promiseAll (batchPromises provider paragraphs signal
                                      maxConcurrency i) t))%N.
Proof.
  intros Hpa Hj Hij Hlt.
  set (task := translateUnit provider (List.length paragraphs) signal j p).
  assert (batchPromises provider paragraphs signal maxConcurrency i !! (j - i)%nat
          = Some task) as Htask.
  { unfold batchPromises. rewrite list_lookup_imap, slice_lookup.
    destruct (decide (j - i < maxConcurrency)%nat); [|lia].
    replace (i + (j - i))%nat with j by lia. rewrite Hj. reflexivity. }
  pose proof (promiseAll_fulfilled_finish _ _ _ Hpa) as [_ Hfin].
  apply promiseAll_fulfilled in Hpa.
  destruct (Forall2_lookup_l _ _ _ _ _ Hpa Htask) as (x & _ & Hx).
  destruct (translateUnit_bounds provider (List.length paragraphs) signal j p t)
    as (_ & _ & _ & _ & _ & _ & _ & _ & Hin).
  exists (finish (task t)). split.
  - rewrite promiseAll_events_eq. apply list_elem_of_In, in_concat.
    exists (events (task t)). split.
    + apply in_map_iff. exists task. split; [reflexivity|].
      apply list_elem_of_In. eapply list_elem_of_lookup_2, Htask.
    + apply list_elem_of_In. apply (Hin x). exact Hx.
  - apply Hfin. eapply list_elem_of_lookup_2, Htask.
Qed.

Lemma loop_barrier : ∀ fuel k results t,
  let r := translateParagraphsFrom provider fuel paragraphs signal maxConcurrency
             (k * maxConcurrency) results t in
  Forall (fun ev => (t ≤ eventTime ev)%N) (events r)
  ∧ ∀ j attempt txt tj, EvRequest j attempt txt tj ∈ events r →
      (k * maxConcurrency ≤ j)%nat
      ∧ ∀ i, (k * maxConcurrency ≤ i)%nat → (i < j / maxConcurrency * maxConcurrency)%nat →
          ∃ ti, EvProgress (i + 1) (List.length paragraphs) ti ∈ events r ∧ (ti ≤ tj)%N.
Proof.
  induction fuel as [|fuel IH]; intros k results t; cbv zeta.
  - assert (events (translateParagraphsFrom provider 0 paragraphs signal maxConcurrency
                      (k * maxConcurrency) results t) = []) as ->
      by (cbn; destruct (negb _); reflexivity).
    split; [constructor|]. intros j a txt tj H. inversion H.
  - destruct (Nat.lt_ge_cases (k * maxConcurrency) (List.length paragraphs)) as [Hi|Hi].
    2: { rewrite translateParagraphsFrom_done by exact Hi. cbn.
         split; [constructor|]. intros j a txt tj H. inversion H. }
    pose proof (translateParagraphsFrom_events provider paragraphs signal maxConcurrency
                  (S fuel) (k * maxConcurrency) results t) as Hdisp.
    revert Hdisp.
    rewrite translateParagraphsFrom_step by exact Hi.
    destruct (match signal with Some a => (a <=? t)%N | None => false end).
    { cbn. intros _. split; [constructor|]. intros j a txt tj H. inversion H. }
    cbn zeta.
    set (pa := promiseAll (batchPromises provider paragraphs signal maxConcurrency
                             (k * maxConcurrency)) t).
    assert (Hpa_time : Forall (fun ev => (t ≤ eventTime ev)%N) (events pa)).
    { apply promiseAll_events. intros task Hin.
      apply elem_of_lookup_imap in Hin as (b & p & -> & Hb).
      destruct (translateUnit_bounds provider (List.length paragraphs) signal
                  (k * maxConcurrency + b) p t) as (_ & _ & _ & _ & _ & Ht & _).
      exact Ht. }
    assert (Hpa_req : ∀ j a txt tj, EvRequest j a txt tj ∈ events pa →
              (k * maxConcurrency ≤ j)%nat ∧ (j / maxConcurrency)%nat = k).
    { intros j a txt tj Hin. apply batch_event in Hin as (b & p & Hb & Hlt & Hin).
      destruct (translateUnit_bounds provider (List.length paragraphs) signal
                  (k * maxConcurrency + b) p t) as (_ & _ & _ & _ & _ & _ & Hidx & _).
      rewrite Forall_forall in Hidx. specialize (Hidx _ Hin). cbn in Hidx. subst j.
      split; [lia|]. apply div_in_batch; lia. }
    destruct (outcome pa) as [batchResults|e|] eqn:Hout; cbn [events outcome app].
    + specialize (IH (S k) (storeBatch batchResults results) (finish pa)).
      cbv zeta in IH. replace (S k * maxConcurrency)%nat
        with (k * maxConcurrency + maxConcurrency)%nat in IH by lia.
      destruct IH as [IHt IHb].
      pose proof (promiseAll_fulfilled_finish _ _ _ Hout) as [Hfin _]. fold pa in Hfin.
      set (r' := translateParagraphsFrom provider fuel paragraphs signal maxConcurrency
                   (k * maxConcurrency + maxConcurrency)
                   (storeBatch batchResults results) (finish pa)) in *.
      intros Hdisp. split.
      * apply Forall_app; split; [exact Hpa_time|].
        eapply Forall_impl; [exact IHt|]. cbn. intros; lia.
      * intros j a txt tj Hin.
        assert (j < List.length paragraphs)%nat as Hjn.
        { rewrite Forall_forall in Hdisp. specialize (Hdisp _ Hin). cbn in Hdisp.
          destruct Hdisp as [Hl _]. apply lookup_lt_Some in Hl. exact Hl. }
        apply elem_of_app in Hin as [Hin|Hin].
        -- destruct (Hpa_req j a txt tj Hin) as [Hge Hdiv]. split; [exact Hge|].
           intros i Hi1 Hi2. rewrite Hdiv in Hi2. lia.
        -- destruct (IHb j a txt tj Hin) as [Hge Hprog]. split; [lia|].
           intros i Hi1 Hi2.
           destruct (Nat.lt_ge_cases i (k * maxConcurrency + maxConcurrency)) as [Hlt|Hge'].
           ++ assert (j / maxConcurrency * maxConcurrency ≤ j)%nat as Hdm
                by (rewrite Nat.mul_comm; apply Nat.Div0.mul_div_le).
              destruct (lookup_lt_is_Some_2 paragraphs i ltac:(lia)) as [p Hp].
              destruct (batch_progress (k * maxConcurrency) t batchResults i p Hout Hp Hi1 Hlt)
                as (ti & Hti & Hle). fold pa in Hti, Hle.
              exists ti. split; [apply elem_of_app; left; exact Hti|].
              rewrite Forall_forall in IHt. specialize (IHt _ Hin). cbn in IHt. lia.
           ++ destruct (Hprog i Hge' Hi2) as (ti & Hti & Hle).
              exists ti. split; [apply elem_of_app; right; exact Hti|exact Hle].
    + intros _. rewrite app_nil_r || idtac. split; [exact Hpa_time|].
      intros j a txt tj Hin. destruct (Hpa_req j a txt tj Hin) as [Hge Hdiv].
      split; [exact Hge|]. intros i Hi1 Hi2. rewrite Hdiv in Hi2. lia.
    + intros _. split; [exact Hpa_time|].
      intros j a txt tj Hin. destruct (Hpa_req j a txt tj Hin) as [Hge Hdiv].
      split; [exact Hge|]. intros i Hi1 Hi2. rewrite Hdiv in Hi2. lia.
Qed.

End Barrier.

(** X15. Batches do not overlap: when a request is made for unit [j],
    every unit of an earlier batch has reported its progress, that is
    has fulfilled, no later than that request. (So a unit that fails
    for good keeps every later batch from starting.) *)
Theorem batches_do_not_overlap
    (provider : Provider) (paragraphs : list string) (signal : AbortSignal)
    (maxConcurrency : nat) (t : N)
    (j attempt : nat) (txt : string) (tj : N) (i : nat) :
  let r := translateParagraphs provider paragraphs signal maxConcurrency t in
  EvRequest j attempt txt tj ∈ events r →
  (i < j / maxConcurrency * maxConcurrency)%nat →
  ∃ ti, EvProgress (i + 1) (List.length paragraphs) ti ∈ events r ∧ (ti ≤ tj)%N.
Proof.
  cbv zeta. intros Hin Hi.
  destruct maxConcurrency as [|cap]; [cbn in Hi; lia|].
  unfold translateParagraphs in *.
  destruct (loop_barrier provider paragraphs signal (S cap) ltac:(lia)
              (List.length paragraphs) 0 (replicate (List.length paragraphs) None) t)
    as [_ H].
  cbn [Nat.mul] in H. destruct (H j attempt txt tj Hin) as [_ Hprog].
  apply Hprog; [lia|exact Hi].
Qed.

Lemma batches_do_not_overlap_witness :
  let r := translateParagraphs echoProvider ["a"; "b"; "c"] None 2 0%N in
  EvRequest 2 0 "c" 10%N ∈ events r
  ∧ (1 < 2 / 2 * 2)%nat
  ∧ ∃ ti, EvProgress (1 + 1) 3 ti ∈ events r ∧ (ti ≤ 10)%N.
Proof.
  cbv zeta.
  assert (EvRequest 2 0 "c" 10%N
          ∈ events (translateParagraphs echoProvider ["a"; "b"; "c"] None 2 0%N)) as Hin.
  { vm_compute. do 4 right. left. }
  assert (1 < 2 / 2 * 2)%nat as Hlt by (vm_compute; lia).
  split; [exact Hin|]. split; [exact Hlt|].
  exact (batches_do_not_overlap echoProvider ["a"; "b"; "c"] None 2 0%N 2 0 "c" 10%N 1
           Hin Hlt).
Defined.

Section RetrySuccess.

Context {T : Type}.
Variable operation : nat → Task T.
Variable maxRetries : nat.
Variable err : nat → Thrown.
Variable value : T.
Variable index : nat.
Variable content : string.
Variable n : nat.

Hypothesis operation_fails :
  ∀ k t, (k < n)%nat → outcome (operation k t) = Rejected (err k).
Hypothesis operation_succeeds : ∀ t, outcome (operation n t) = Fulfilled value.
Hypothesis operation_requests : ∀ k t, events (operation k t) = [EvRequest index k content t].
Hypothesis retryable_before : ∀ k, (k < n)%nat → retryable (classifyError (err k)) = true.

Lemma withRetryFrom_success : ∀ d attempt remaining lastError t,
  (attempt + d = n)%nat → (attempt + remaining = maxRetries)%nat → (n < maxRetries)%nat →
  let r := withRetryFrom operation maxRetries None remaining attempt lastError t in
  outcome r = Fulfilled value
  ∧ attemptsOf (events r) = seq attempt (S d)
  ∧ sleepsOf (events r)
    = List.map (fun k => policyDelay (classifyError (err k)) k) (seq attempt d).
Proof.
  induction d as [|d IH]; intros attempt remaining lastError t Hd Hrem Hn; cbn zeta.
  - assert (attempt = n) by lia. subst attempt.
    destruct remaining as [|remaining]; [lia|].
    rewrite withRetryFrom_step. cbn zeta.
    rewrite operation_succeeds, operation_requests. cbn. auto.
  - destruct remaining as [|remaining]; [lia|].
    rewrite withRetryFrom_step. cbn zeta.
    rewrite operation_fails, operation_requests by lia.
    rewrite (retryable_before attempt) by lia. cbn [negb].
    assert (Hlt : (attempt <? maxRetries - 1)%nat = true) by (apply Nat.ltb_lt; lia).
    rewrite Hlt.
    destruct (IH (S attempt) remaining (Some (classifyError (err attempt)))
                (finish (sleep (retryDelay (classifyError (err attempt)) attempt)
                           (finish (operation attempt t))))) as (Ho & Ha & Hs);
      [lia | lia | exact Hn |].
    cbn [outcome events]. split; [exact Ho|].
    rewrite !attemptsOf_app, !sleepsOf_app, Ha, Hs.
    cbn. rewrite retryDelay_policy. auto.
Qed.

End RetrySuccess.

(** X16. [withRetry] returns the value of the first attempt that
    succeeds: after [n] retryable failures, with [n] below
    [maxRetries], attempt [n] fulfils with its value; the attempts made
    are [0 .. n] and the pauses are those of the policy for the [n]
    failures. *)
Theorem withRetry_returns_the_first_success {T : Type}
    (operation : nat → Task T) (maxRetries : nat) (err : nat → Thrown) (value : T)
    (index : nat) (content : string) (n : nat) (t : N) :
  (∀ k t', (k < n)%nat → outcome (operation k t') = Rejected (err k)) →
  (∀ t', outcome (operation n t') = Fulfilled value) →
  (∀ k t', events (operation k t') = [EvRequest index k content t']) →
  (∀ k, (k < n)%nat → retryable (classifyError (err k)) = true) →
  (n < maxRetries)%nat →
  let r := withRetry operation maxRetries None t in
  outcome r = Fulfilled value
  ∧ attemptsOf (events r) = seq 0 (S n)
  ∧ sleepsOf (events r)
    = List.map (fun k => match code (classifyError (err k)) with
                         | RATE_LIMIT => 60000%N
                         | _ => (1000 * 2 ^ N.of_nat k)%N
                         end) (seq 0 n).
Proof.
  intros Hfail Hok Hreq Hretry Hn. cbv zeta. unfold withRetry.
  apply (withRetryFrom_success operation maxRetries err value index content n
           Hfail Hok Hreq Hretry n 0 maxRetries None t); lia.
Qed.

Lemma withRetry_returns_the_first_success_witness :
  let err := fun k : nat => ThrownOther "socket timeout" in
  let operation : nat → Task string :=
    fun k t => mkRun (match k with
                      | 2%nat => Fulfilled "Bonjour"
                      | _ => Rejected (err k)
                      end) (t + 5)%N [EvRequest 0 k "Hello" t] in
  let r := withRetry operation 3 None 0%N in
  outcome r = Fulfilled "Bonjour"
  ∧ attemptsOf (events r) = [0; 1; 2]%nat
  ∧ sleepsOf (events r) = [1000; 2000]%N
  ∧ finish r = 3015%N.
Proof.
  cbv zeta.
  destruct (withRetry_returns_the_first_success
              (fun k t => mkRun (match k with
                                 | 2%nat => Fulfilled "Bonjour"
                                 | _ => Rejected (ThrownOther "socket timeout")
                                 end) (t + 5)%N [EvRequest 0 k "Hello" t])
              3 (fun _ => ThrownOther "socket timeout") "Bonjour" 0 "Hello" 2 0%N)
    as (Ho & Ha & Hs).
  - intros k t' Hk. destruct k as [|[|k]]; [reflexivity|reflexivity|lia].
  - reflexivity.
  - reflexivity.
  - intros k _. reflexivity.
  - lia.
  - split; [exact Ho|]. split; [exact Ha|]. split; [exact Hs|]. reflexivity.
Defined.

(** ** Language detection and its cache *)

Lemma withRetryFrom_rejected {T} (operation : nat → Task T) maxRetries signal :
  ∀ remaining attempt lastError t e,
    outcome (withRetryFrom operation maxRetries signal remaining attempt lastError t)
      = Rejected e →
    (remaining = 0%nat → lastError ≠ None) →
    ∃ te, e = ThrownTranslationError te.
Proof.
  induction remaining as [|remaining IH]; intros attempt lastError t e H Hlast.
  - destruct lastError as [te|]; [|exfalso; apply (Hlast eq_refl); reflexivity].
    cbn in H. injection H as <-. eexists. reflexivity.
  - rewrite withRetryFrom_step in H.
    destruct (match signal with Some a => (a <=? t)%N | None => false end).
    { cbn in H. injection H as <-. eexists. reflexivity. }
    cbn zeta in H. destruct (outcome (operation attempt t)) as [v|error|]; cbn in H;
      try discriminate.
    destruct (negb (retryable (classifyError error))); cbn in H.
    + injection H as <-. eexists. reflexivity.
    + apply IH in H; [exact H|]. intros _. discriminate.
Qed.

Section DetectionFacts.

Variable detector : Provider.

Lemma detect_operation_run attempt content t :
  (r ← generateText detector 0 attempt content; resolve (JS.trim (text r))) t
  = let '(latency, answer) :=
      detector {| req_index := 0; req_attempt := attempt;
                  req_content := content; req_time := t |} in
    mkRun (match answer with
           | inl e => Rejected e
           | inr r => Fulfilled (JS.trim (text r))
           end)
          (t + latency)%N [EvRequest 0 attempt content t].
Proof.
  rewrite bind_run. unfold andThen, generateText.
  destruct (detector _) as [latency [e|r]]; reflexivity.
Qed.

Lemma store_after (w : Task string) cacheKey languageCache t :
  (result ← w;
   now' ← dateNow;
   resolve (result,
            match usableKey cacheKey with
            | Some key => <[key := {| language := result; timestamp := now' |}]> languageCache
            | None => languageCache
            end)) t
  = match outcome (w t) with
    | Fulfilled result =>
        mkRun (Fulfilled (result, cacheStore languageCache cacheKey result (finish (w t))))
              (finish (w t)) (events (w t))
    | Rejected e => mkRun (Rejected e) (finish (w t)) (events (w t))
    | Pending => mkRun Pending (finish (w t)) (events (w t))
    end.
Proof.
  rewrite bind_run. unfold andThen at 1.
  destruct (outcome (w t)) as [result|e|]; try reflexivity.
  rewrite bind_run. unfold andThen, dateNow, resolve, cacheStore.
  cbn [outcome finish events]. rewrite !app_nil_r. reflexivity.
Qed.

Lemma detectLanguage_run content cacheKey languageCache t :
  detectLanguage detector content cacheKey languageCache t
  = match cacheLookup languageCache cacheKey t with
    | Some lang => mkRun (Fulfilled (lang, languageCache)) t []
    | None =>
        let w := detection detector content t in
        match outcome w with
        | Fulfilled result =>
            mkRun (Fulfilled (result, cacheStore languageCache cacheKey result (finish w)))
                  (finish w) (events w)
        | Rejected e => mkRun (Rejected e) (finish w) (events w)
        | Pending => mkRun Pending (finish w) (events w)
        end
    end.
Proof.
  unfold detectLanguage. rewrite bind_run. unfold andThen at 1.
  change (dateNow t) with (mkRun (Fulfilled t) t []).
  cbn [outcome finish events app].
  fold (cacheLookup languageCache cacheKey t).
  destruct (cacheLookup languageCache cacheKey t) as [lang|]; [reflexivity|].
  rewrite (store_after (withRetry _ _ _)). cbv zeta. unfold detection.
  destruct (outcome (withRetry _ _ _ t)); reflexivity.
Qed.

Lemma detection_bounds content t :
  let w := detection detector content t in
  (countEvents isRequest (events w) ≤ 3)%nat
  ∧ Forall (retryEvent 3 0 (JS.substringTo 500 content)) (events w)
  ∧ (t ≤ finish w)%N
  ∧ outcome w ≠ Pending
  ∧ events w ≠ []
  ∧ (∀ e, outcome w = Rejected e → ∃ te, e = ThrownTranslationError te).
Proof.
  cbv zeta. unfold detection, withRetry.
  destruct (withRetryFrom_bounds
              (fun attempt =>
                 r ← generateText detector 0 attempt (JS.substringTo 500 content);
                 resolve (JS.trim (text r)))
              DEFAULT_MAX_RETRIES None 0 (JS.substringTo 500 content)) with
    (remaining := DEFAULT_MAX_RETRIES) (attempt := 0%nat) (lastError := @None TranslationError)
    (t := t) as (H1 & _ & H3 & H4 & _).
  - intros k t'. rewrite detect_operation_run. destruct (detector _) as [latency [e|r]]; reflexivity.
  - intros k t'. rewrite detect_operation_run. destruct (detector _) as [latency [e|r]]; cbn; lia.
  - reflexivity.
  - split; [exact H1|]. split; [exact H3|]. split; [exact H4|]. split; [|split].
    + apply withRetryFrom_settles. intros k t'. rewrite detect_operation_run.
      destruct (detector _) as [latency [e|r]]; discriminate.
    + unfold DEFAULT_MAX_RETRIES. rewrite withRetryFrom_step. cbn zeta.
      rewrite detect_operation_run. destruct (detector _) as [latency [e|r]]; cbn.
      * destruct (negb (retryable (classifyError e))); discriminate.
      * discriminate.
    + intros e He. apply (withRetryFrom_rejected _ _ _ _ _ _ _ _ He). discriminate.
Qed.

End DetectionFacts.

(** X17. [detectLanguage] with a cache key: a first call that succeeds
    stores the trimmed answer under the key, and a second call with the
    same key, made less than 24 hours after the first one returned,
    answers from the cache, whatever its content is: it sends no
    request, takes no time and leaves the cache as it is. A call made
    24 hours after the first one returned, or later, asks the provider
    again. *)
Theorem detectLanguage_second_call_is_served_from_cache
    (detector : Provider) (content : string) (cacheKey : option string) (key : string)
    (languageCache languageCache' : gmap string CachedLanguage) (t : N) (lang : string) :
  usableKey cacheKey = Some key →
  let r := detectLanguage detector content cacheKey languageCache t in
  events r ≠ [] →
  outcome r = Fulfilled (lang, languageCache') →
  (∀ (detector' : Provider) (content' : string) (t' : N),
     (finish r ≤ t')%N → (t' < finish r + LANGUAGE_CACHE_TTL)%N →
     detectLanguage detector' content' cacheKey languageCache' t'
     = mkRun (Fulfilled (lang, languageCache')) t' [])
  ∧ (∀ (detector' : Provider) (content' : string) (t' : N),
       (finish r + LANGUAGE_CACHE_TTL ≤ t')%N →
       events (detectLanguage detector' content' cacheKey languageCache' t') ≠ []).
Proof.
  intros Hkey. cbv zeta. rewrite detectLanguage_run.
  destruct (cacheLookup languageCache cacheKey t) as [hit|]; [cbn; congruence|].
  cbv zeta. destruct (outcome (detection detector content t)) as [result|e|] eqn:Hw;
    cbn [events outcome finish]; [|discriminate|discriminate].
  intros _ [= <- <-].
  set (t1 := finish (detection detector content t)).
  assert (Hlook : ∀ t', cacheLookup (cacheStore languageCache cacheKey result t1) cacheKey t'
                        = if (Z.of_N t' - Z.of_N t1 <? Z.of_N LANGUAGE_CACHE_TTL)%Z
                          then Some result else None).
  { intros t'. unfold cacheLookup, cacheStore. rewrite Hkey. cbn.
    rewrite lookup_insert_eq. reflexivity. }
  split.
  - intros detector' content' t' H1 H2. rewrite detectLanguage_run, Hlook.
    destruct (Z.ltb_spec (Z.of_N t' - Z.of_N t1) (Z.of_N LANGUAGE_CACHE_TTL));
      [reflexivity|lia].
  - intros detector' content' t' H1. rewrite detectLanguage_run, Hlook.
    destruct (Z.ltb_spec (Z.of_N t' - Z.of_N t1) (Z.of_N LANGUAGE_CACHE_TTL)); [lia|].
    cbv zeta.
    destruct (detection_bounds detector' content' t') as (_ & _ & _ & _ & Hne & _).
    destruct (outcome (detection detector' content' t')); exact Hne.
Qed.

Lemma detectLanguage_second_call_is_served_from_cache_witness :
  let r := detectLanguage frenchDetector "Bonjour" (Some "a.md") ∅ 0%N in
  let cache' : gmap string CachedLanguage :=
    {[ "a.md" := {| language := "fr"; timestamp := 7%N |} ]} in
  usableKey (Some "a.md") = Some "a.md"
  ∧ events r = [EvRequest 0 0 "Bonjour" 0%N]
  ∧ outcome r = Fulfilled ("fr", cache')
  ∧ detectLanguage limitedProvider "Hello" (Some "a.md") cache' 86400006%N
    = mkRun (Fulfilled ("fr", cache')) 86400006%N []
  ∧ events (detectLanguage limitedProvider "Hello" (Some "a.md") cache' 86400007%N) ≠ [].
Proof.
  cbv zeta.
  assert (outcome (detectLanguage frenchDetector "Bonjour" (Some "a.md") ∅ 0%N)
          = Fulfilled ("fr", {[ "a.md" := {| language := "fr"; timestamp := 7%N |} ]}))
    as Hout by reflexivity.
  assert (events (detectLanguage frenchDetector "Bonjour" (Some "a.md") ∅ 0%N)
          = [EvRequest 0 0 "Bonjour" 0%N]) as Hev by reflexivity.
  destruct (detectLanguage_second_call_is_served_from_cache frenchDetector "Bonjour"
              (Some "a.md") "a.md" ∅
              {[ "a.md" := {| language := "fr"; timestamp := 7%N |} ]} 0%N "fr"
              eq_refl ltac:(rewrite Hev; discriminate) Hout) as [Hhit Hmiss].
  split; [reflexivity|]. split; [exact Hev|]. split; [exact Hout|]. split.
  - apply Hhit; vm_compute; [discriminate|reflexivity].
  - apply Hmiss. vm_compute. discriminate.
Defined.

Lemma detectLanguage_without_key detector content languageCache t :
  detectLanguage detector content None languageCache t
  = let w := detection detector content t in
    match outcome w with
    | Fulfilled result => mkRun (Fulfilled (result, languageCache)) (finish w) (events w)
    | Rejected e => mkRun (Rejected e) (finish w) (events w)
    | Pending => mkRun Pending (finish w) (events w)
    end.
Proof. rewrite detectLanguage_run. reflexivity. Qed.

Lemma validateApiKey_run detector languageCache t :
  validateApiKey detector languageCache t
  = let w := detection detector "Hello world" t in
    match outcome w with
    | Fulfilled _ => mkRun (Fulfilled (true, languageCache)) (finish w) (events w)
    | Rejected error =>
        if TranslationErrorCode_eqb (code (classifyError error)) AUTH_ERROR
        then mkRun (Fulfilled (false, languageCache)) (finish w) (events w)
        else mkRun (Rejected (ThrownTranslationError (classifyError error)))
                   (finish w) (events w)
    | Pending => mkRun Pending (finish w) (events w)
    end.
Proof.
  unfold validateApiKey, tryCatch. rewrite bind_run. unfold andThen.
  rewrite detectLanguage_without_key. cbv zeta.
  destruct (outcome (detection detector "Hello world" t)) as [result|e|];
    cbn [outcome finish events]; try reflexivity.
  - cbn. rewrite app_nil_r. reflexivity.
  - destruct (TranslationErrorCode_eqb (code (classifyError e)) AUTH_ERROR);
      cbn; rewrite app_nil_r; reflexivity.
Qed.

Lemma TranslationErrorCode_eqb_eq a b : TranslationErrorCode_eqb a b = true ↔ a = b.
Proof. destruct a, b; cbn; split; congruence. Qed.

(** X18. [validateApiKey] settles after one to three requests and,
    having no cache key, leaves the language cache as it is. It answers
    [true] when the first request for the fixed text succeeds, [false]
    when that request fails with an authentication error, and it
    rejects only with an error that is not an authentication error. *)
Theorem validateApiKey_answers
    (detector : Provider) (languageCache : gmap string CachedLanguage) (t : N) :
  let r := validateApiKey detector languageCache t in
  let request := {| req_index := 0; req_attempt := 0; req_content := "Hello world";
                    req_time := t |} in
  outcome r ≠ Pending
  ∧ (1 ≤ countEvents isRequest (events r))%nat
  ∧ (countEvents isRequest (events r) ≤ 3)%nat
  ∧ (∀ valid languageCache', outcome r = Fulfilled (valid, languageCache') →
       languageCache' = languageCache)
  ∧ (∀ e, outcome r = Rejected e →
       ∃ te, e = ThrownTranslationError te ∧ code te ≠ AUTH_ERROR)
  ∧ (∀ answer, snd (detector request) = inr answer →
       r = mkRun (Fulfilled (true, languageCache)) (t + fst (detector request))%N
                 [EvRequest 0 0 "Hello world" t])
  ∧ (∀ error, snd (detector request) = inl error →
       code (classifyError error) = AUTH_ERROR →
       retryable (classifyError error) = false →
       r = mkRun (Fulfilled (false, languageCache)) (t + fst (detector request))%N
                 [EvRequest 0 0 "Hello world" t]).
Proof.
  cbv zeta. rewrite validateApiKey_run. cbv zeta.
  destruct (detection_bounds detector "Hello world" t)
    as (Hcount & _ & _ & Hsettles & Hne & Hrej).
  assert (Hone : (1 ≤ countEvents isRequest (events (detection detector "Hello world" t)))%nat).
  { unfold detection, withRetry, DEFAULT_MAX_RETRIES. rewrite withRetryFrom_step. cbn zeta.
    rewrite detect_operation_run. destruct (detector _) as [latency [e|r]]; cbn [outcome events].
    - destruct (negb (retryable (classifyError e))); cbn [events app];
        change (EvRequest 0 0 (JS.substringTo 500 "Hello world") t :: ?l)
          with ([EvRequest 0 0 (JS.substringTo 500 "Hello world") t] ++ l);
        rewrite ?countEvents_app; cbn; lia.
    - cbn. lia. }
  assert (Hfirst : ∀ latency answer,
            detector {| req_index := 0; req_attempt := 0; req_content := "Hello world";
                        req_time := t |} = (latency, answer) →
            match answer with
            | inr a => detection detector "Hello world" t
                       = mkRun (Fulfilled (JS.trim (text a))) (t + latency)%N
                               [EvRequest 0 0 "Hello world" t]
            | inl error =>
                retryable (classifyError error) = false →
                detection detector "Hello world" t
                = mkRun (Rejected (ThrownTranslationError (classifyError error)))
                        (t + latency)%N [EvRequest 0 0 "Hello world" t]
            end).
  { intros latency answer Hd.
    unfold detection, withRetry, DEFAULT_MAX_RETRIES. rewrite withRetryFrom_step. cbn zeta.
    rewrite detect_operation_run.
    change (JS.substringTo 500 "Hello world") with "Hello world". rewrite Hd.
    destruct answer as [error|a]; cbn [outcome finish events app]; [|reflexivity].
    intros ->. reflexivity. }
  split; [|split; [|split; [|split; [|split; [|split]]]]].
  - destruct (outcome (detection detector "Hello world" t)) as [v|e|]; cbn;
      [discriminate| |congruence].
    destruct (TranslationErrorCode_eqb _ _); discriminate.
  - destruct (outcome (detection detector "Hello world" t)) as [v|e|]; cbn [events];
      [exact Hone| |exact Hone].
    destruct (TranslationErrorCode_eqb _ _); exact Hone.
  - destruct (outcome (detection detector "Hello world" t)) as [v|e|]; cbn [events];
      [exact Hcount| |exact Hcount].
    destruct (TranslationErrorCode_eqb _ _); exact Hcount.
  - intros valid languageCache'.
    destruct (outcome (detection detector "Hello world" t)) as [v|e|]; cbn [outcome].
    + intros [= _ <-]. reflexivity.
    + destruct (TranslationErrorCode_eqb _ _); cbn [outcome]; [|discriminate].
      intros [= _ <-]. reflexivity.
    + discriminate.
  - intros e.
    destruct (outcome (detection detector "Hello world" t)) as [v|e'|]; cbn [outcome];
      [discriminate| |discriminate].
    destruct (TranslationErrorCode_eqb _ _) eqn:Hauth; cbn [outcome]; [discriminate|].
    intros [= <-]. eexists. split; [reflexivity|].
    intros Hc. apply TranslationErrorCode_eqb_eq in Hc. congruence.
  - intros answer Hans.
    destruct (detector _) as [latency ans] eqn:Hd. cbn in Hans. subst ans.
    rewrite (Hfirst latency (inr answer) eq_refl). reflexivity.
  - intros error Hans Hcode Hretry.
    destruct (detector _) as [latency ans] eqn:Hd. cbn in Hans. subst ans.
    rewrite (Hfirst latency (inl error) eq_refl Hretry). cbn [outcome finish events fst].
    assert (classifyError (ThrownTranslationError (classifyError error)) = classifyError error)
      as -> by reflexivity.
    rewrite Hcode. reflexivity.
Qed.

Lemma validateApiKey_answers_witness :
  validateApiKey unauthorizedDetector ∅ 2%N
  = mkRun (Fulfilled (false, ∅)) 6%N [EvRequest 0 0 "Hello world" 2%N].
Proof.
  destruct (validateApiKey_answers unauthorizedDetector ∅ 2%N)
    as (_ & _ & _ & _ & _ & _ & H).
  exact (H (ThrownOther "401 Unauthorized") eq_refl eq_refl eq_refl).
Defined.

Section MappingFacts.

Variable calculateHash : string → string.
Variable provider : Provider.
Variable detector : Provider.

Lemma detect_or_none document languageCache t :
  tryCatch ('(lang, languageCache') ← detectLanguage detector document None languageCache;
            resolve (Some lang, languageCache'))
           (fun _ => resolve (None, languageCache)) t
  = let d := detection detector document t in
    mkRun (match outcome d with
           | Fulfilled lang => Fulfilled (Some lang, languageCache)
           | Rejected _ => Fulfilled (None, languageCache)
           | Pending => Pending
           end) (finish d) (events d).
Proof.
  unfold tryCatch. rewrite bind_run. unfold andThen.
  rewrite detectLanguage_without_key. cbv zeta.
  destruct (outcome (detection detector document t)) as [lang|e|];
    cbn [outcome finish events resolve]; rewrite ?app_nil_r; reflexivity.
Qed.

Lemma translateWithMapping_run document signal languageCache t :
  TranslationEngine.translateWithMapping calculateHash provider detector document signal
    languageCache t
  = let ri := translateIncremental calculateHash provider document
                {| signal := signal; existingParagraphs := None; maxConcurrency := None |} t in
    match outcome ri with
    | Fulfilled res =>
        let d := detection detector document (finish ri) in
        mkRun (match outcome d with
               | Fulfilled lang => Fulfilled (withLanguage res (Some lang), languageCache)
               | Rejected _ => Fulfilled (withLanguage res None, languageCache)
               | Pending => Pending
               end)
              (finish d) (events ri ++ events d)
    | Rejected e => mkRun (Rejected e) (finish ri) (events ri)
    | Pending => mkRun Pending (finish ri) (events ri)
    end.
Proof.
  unfold TranslationEngine.translateWithMapping. rewrite bind_run. unfold andThen at 1.
  cbv zeta.
  destruct (outcome (translateIncremental _ _ _ _ t)) as [res|e|]; try reflexivity.
  rewrite bind_run. unfold andThen. rewrite detect_or_none. cbv zeta.
  destruct (outcome (detection detector document _)) as [lang|e|];
    cbn [outcome finish events resolve]; rewrite ?app_nil_r; reflexivity.
Qed.

End MappingFacts.

(** X19. [translateWithMapping]: a failed language detection does not
    fail the translation. The call is the incremental translation
    followed by a detection on the document; it rejects only when the
    translation does, and otherwise returns the translation with the
    detected language, or without one when the detection failed; the
    language cache is left as it is. *)
Theorem translateWithMapping_survives_a_failed_detection
    (calculateHash : string → string) (provider detector : Provider)
    (document : string) (signal : AbortSignal)
    (languageCache : gmap string CachedLanguage) (t : N) :
  let r := TranslationEngine.translateWithMapping calculateHash provider detector
             document signal languageCache t in
  let ri := translateIncremental calculateHash provider document
              {| signal := signal; existingParagraphs := None; maxConcurrency := None |} t in
  let d := detection detector document (finish ri) in
  (∀ e, outcome ri = Rejected e → r = mkRun (Rejected e) (finish ri) (events ri))
  ∧ (∀ res, outcome ri = Fulfilled res →
       outcome r
       = Fulfilled (withLanguage res (match outcome d with
                                      | Fulfilled lang => Some lang
                                      | _ => None
                                      end),
                    languageCache)
       ∧ events r = events ri ++ events d
       ∧ finish r = finish d)
  ∧ (∀ x, outcome r = Fulfilled x → ∃ res, outcome ri = Fulfilled res).
Proof.
  cbv zeta. rewrite translateWithMapping_run. cbv zeta.
  set (ri := translateIncremental calculateHash provider document _ t).
  split; [|split].
  - intros e He. rewrite He. reflexivity.
  - intros res Hres. rewrite Hres. cbn [outcome events finish].
    destruct (detection_bounds detector document (finish ri)) as (_ & _ & _ & Hset & _).
    destruct (outcome (detection detector document (finish ri))); [auto|auto|congruence].
  - intros x. destruct (outcome ri) as [res|e|]; cbn [outcome]; [eauto|discriminate|discriminate].
Qed.

Lemma translateWithMapping_survives_a_failed_detection_witness :
  let res :=
    {| itr_translatedText := "T:Hello";
       itr_paragraphs :=
         [ {| sourceContent := "Hello"; translatedContent := "T:Hello";
              sourceHash := "Hello" |} ];
       changedParagraphs := 1;
       reusedParagraphs := 0;
       itr_tokenUsage := Some {| prompt := 1; completion := 2; total := 3 |} |} in
  let r := TranslationEngine.translateWithMapping idHash echoProvider unauthorizedDetector
             "Hello" None ∅ 0%N in
  outcome (translateIncremental idHash echoProvider "Hello"
             {| signal := None; existingParagraphs := None; maxConcurrency := None |} 0%N)
    = Fulfilled res
  ∧ outcome r = Fulfilled (withLanguage res None, ∅)
  ∧ events r = [EvRequest 0 0 "Hello" 0%N; EvProgress 1 1 10%N; EvRequest 0 0 "Hello" 10%N]
  ∧ finish r = 14%N.
Proof.
  cbv zeta.
  destruct (translateWithMapping_survives_a_failed_detection idHash echoProvider
              unauthorizedDetector "Hello" None ∅ 0%N) as (_ & H & _).
  match goal with
  | |- _ = Fulfilled ?res ∧ _ =>
      destruct (H res ltac:(vm_compute; reflexivity)) as (Ho & He & Hf)
  end.
  split; [vm_compute; reflexivity|].
  split; [exact Ho|]. split; [rewrite He; vm_compute; reflexivity|].
  rewrite Hf. vm_compute. reflexivity.
Defined.

(** ** [extractTextForTranslation] and [restoreCodeBlocks] *)

Lemma append_cons c (a b : string) : String c a +:+ b = String c (a +:+ b).
Proof. reflexivity. Qed.

Lemma append_assoc (a b c : string) : (a +:+ b) +:+ c = a +:+ (b +:+ c).
Proof. induction a as [|x a IH]; [reflexivity|]. rewrite !append_cons, IH. reflexivity. Qed.

Lemma append_nil_r (a : string) : a +:+ EmptyString = a.
Proof. induction a as [|x a IH]; [reflexivity|]. rewrite append_cons, IH. reflexivity. Qed.

Lemma startsWith_sliceFrom s : ∀ p,
  JS.startsWith s p = true → s = p +:+ JS.sliceFrom (String.length p) s.
Proof.
  induction s as [|c s IH]; intros [|a p]; cbn [JS.startsWith String.length JS.sliceFrom];
    try reflexivity; try discriminate.
  intros H. apply andb_true_iff in H as [Ha Hp].
  apply Ascii.eqb_eq in Ha. subst a. rewrite append_cons. f_equal. apply IH, Hp.
Qed.

Lemma startsWith_append p s : JS.startsWith (p +:+ s) p = true.
Proof.
  induction p as [|a p IH]; [destruct s; reflexivity|].
  rewrite append_cons. cbn [JS.startsWith]. rewrite Ascii.eqb_refl. exact IH.
Qed.

Lemma startsWith_append_l p q s :
  JS.startsWith s p = true → JS.startsWith (s +:+ q) p = true.
Proof.
  revert s. induction p as [|a p IH]; intros s; [destruct s; destruct q; reflexivity|].
  destruct s as [|c s]; [cbn; discriminate|]. rewrite append_cons. cbn [JS.startsWith].
  intros H. apply andb_true_iff in H as [Ha Hp]. rewrite Ha. cbn [andb]. apply IH, Hp.
Qed.

Lemma splitAtFirst_spec p s : ∀ a b,
  JS.splitAtFirst p s = Some (a, b) → s = a +:+ p +:+ b.
Proof.
  induction s as [|c s IH]; intros a b; cbn [JS.splitAtFirst].
  - destruct (JS.startsWith EmptyString p) eqn:Hp; [|discriminate].
    intros [= <- <-]. apply startsWith_sliceFrom, Hp.
  - destruct (JS.startsWith (String c s) p) eqn:Hp.
    + intros [= <- <-]. apply startsWith_sliceFrom, Hp.
    + destruct (JS.splitAtFirst p s) as [[a' b']|]; [|discriminate].
      intros [= <- <-]. rewrite append_cons. f_equal. apply IH. reflexivity.
Qed.

Lemma matchFrontmatter_spec document matched rest :
  matchFrontmatter document = Some (matched, rest) →
  document = matched +:+ rest
  ∧ JS.startsWith matched ("---" +:+ String JS.LF EmptyString) = true.
Proof.
  unfold matchFrontmatter.
  destruct (JS.startsWith document _) eqn:Hopen; [|discriminate].
  destruct (JS.splitAtFirst _ _) as [[inner after]|] eqn:Hsplit; [|discriminate].
  intros [= <- <-]. apply startsWith_sliceFrom in Hopen. apply splitAtFirst_spec in Hsplit.
  change (String.length ("---" +:+ String JS.LF EmptyString)) with 4%nat in Hopen.
  rewrite Hsplit in Hopen. split.
  - rewrite Hopen at 1. rewrite !append_assoc. reflexivity.
  - apply startsWith_append.
Qed.

Lemma noBacktick_append a b : noBacktick (a +:+ b) ↔ noBacktick a ∧ noBacktick b.
Proof.
  induction a as [|c a IH]; [cbn; tauto|]. rewrite append_cons. cbn [noBacktick].
  rewrite IH. tauto.
Qed.

Lemma replaceMatches_no_code_block callback s : ∀ k,
  noBacktick s → JS.replaceMatches matchCodeBlock callback 0 k s = (s, []).
Proof.
  induction s as [|c s IH]; intros k H; [reflexivity|]. destruct H as [Hc Hs].
  cbn [JS.replaceMatches].
  assert (matchCodeBlock (String c s) = None) as ->.
  { unfold matchCodeBlock, fence. cbn [JS.startsWith].
    destruct (Ascii.eqb_spec "`" c) as [E|_]; [subst c; congruence|reflexivity]. }
  rewrite (IH k Hs). reflexivity.
Qed.

Lemma replaceMatches_no_inline_code callback s : ∀ k,
  noBacktick s → JS.replaceMatches matchInlineCode callback 0 k s = (s, []).
Proof.
  induction s as [|c s IH]; intros k H; [reflexivity|]. destruct H as [Hc Hs].
  cbn [JS.replaceMatches matchInlineCode].
  destruct (Ascii.eqb_spec c "`") as [E|_]; [subst c; congruence|].
  rewrite (IH k Hs). reflexivity.
Qed.

Lemma extract_frontmatter document :
  ∃ body,
    document = default EmptyString (frontmatter (extractTextForTranslation document)) +:+ body
    ∧ (noBacktick document →
       extractTextForTranslation document
       = {| translatableText := body; codeBlocks := [];
            frontmatter := frontmatter (extractTextForTranslation document) |}).
Proof.
  unfold extractTextForTranslation.
  destruct (matchFrontmatter document) as [[matched rest]|] eqn:Hm.
  - apply matchFrontmatter_spec in Hm as [Hdoc _]. exists rest. split.
    + destruct (JS.replaceMatches matchCodeBlock _ _ _ rest) as [w blocks].
      destruct (JS.replaceMatches matchInlineCode _ _ _ w) as [tt inl]. exact Hdoc.
    + intros Hnb. rewrite Hdoc in Hnb. apply noBacktick_append in Hnb as [_ Hnb].
      rewrite (replaceMatches_no_code_block _ _ _ Hnb). cbn [List.length].
      rewrite (replaceMatches_no_inline_code _ _ _ Hnb). reflexivity.
  - exists document. split.
    + destruct (JS.replaceMatches matchCodeBlock _ _ _ document) as [w blocks].
      destruct (JS.replaceMatches matchInlineCode _ _ _ w) as [tt inl]. reflexivity.
    + intros Hnb.
      rewrite (replaceMatches_no_code_block _ _ _ Hnb). cbn [List.length].
      rewrite (replaceMatches_no_inline_code _ _ _ Hnb). reflexivity.
Qed.

Lemma restoreCodeBlocks_frontmatter translatedText extracted :
  JS.startsWith (restoreCodeBlocks translatedText extracted)
                (default EmptyString (frontmatter extracted)) = true.
Proof.
  unfold restoreCodeBlocks. destruct (frontmatter extracted) as [f|]; cbn [default].
  - apply startsWith_append.
  - destruct (fold_left _ _ _); reflexivity.
Qed.

(** X20. For a document without backtick, [extractTextForTranslation]
    records no code, the document is its front matter followed by the
    translatable text, [restoreCodeBlocks] only puts the front matter
    back in front, and extraction followed by restoration gives the
    document back. *)
Theorem extract_then_restore_without_code (document : string) :
  noBacktick document →
  let extracted := extractTextForTranslation document in
  codeBlocks extracted = []
  ∧ document = default EmptyString (frontmatter extracted) +:+ translatableText extracted
  ∧ (∀ translated,
       restoreCodeBlocks translated extracted
       = default EmptyString (frontmatter extracted) +:+ translated)
  ∧ restoreCodeBlocks (translatableText extracted) extracted = document.
Proof.
  intros Hnb. cbv zeta.
  destruct (extract_frontmatter document) as (body & Hdoc & Hex). specialize (Hex Hnb).
  assert (Hrestore : ∀ translated,
            restoreCodeBlocks translated (extractTextForTranslation document)
            = default EmptyString (frontmatter (extractTextForTranslation document))
              +:+ translated).
  { intros translated. unfold restoreCodeBlocks. rewrite Hex. cbn.
    destruct (frontmatter (extractTextForTranslation document)); reflexivity. }
  assert (translatableText (extractTextForTranslation document) = body) as Htt
    by (rewrite Hex; reflexivity).
  split; [rewrite Hex; reflexivity|]. split; [rewrite Htt; exact Hdoc|].
  split; [exact Hrestore|]. rewrite Hrestore, Htt. symmetry. exact Hdoc.
Qed.

Lemma extract_then_restore_without_code_witness :
  let document := doc ["---"; "title: T"; "---"; EmptyString; "Body text"] in
  let extracted := extractTextForTranslation document in
  noBacktick document
  ∧ frontmatter extracted = Some (doc ["---"; "title: T"; "---"; EmptyString])
  ∧ translatableText extracted = doc [EmptyString; "Body text"]
  ∧ restoreCodeBlocks (translatableText extracted) extracted = document.
Proof.
  cbv zeta.
  assert (noBacktick (doc ["---"; "title: T"; "---"; EmptyString; "Body text"])) as Hnb
    by (cbn; repeat split; discriminate).
  split; [exact Hnb|]. split; [reflexivity|]. split; [reflexivity|].
  apply (extract_then_restore_without_code _ Hnb).
Defined.

Lemma engine_translate_run provider document t :
  TranslationEngine.translate provider document t
  = let extracted := extractTextForTranslation document in
    let s := translate provider 0 (translatableText extracted) None t in
    match outcome s with
    | Fulfilled v =>
        mkRun (Fulfilled {| translatedText := restoreCodeBlocks (translatedText v) extracted;
                            tokenUsage := tokenUsage v |})
              (finish s) (events s)
    | Rejected e => mkRun (Rejected e) (finish s) (events s)
    | Pending => mkRun Pending (finish s) (events s)
    end.
Proof.
  unfold TranslationEngine.translate. cbv zeta. rewrite bind_run. unfold andThen.
  destruct (outcome (translate provider 0 _ None t)); cbn [outcome finish events resolve];
    rewrite ?app_nil_r; reflexivity.
Qed.

(** X21. [TranslationEngine.translate] (the translation of a selection)
    sends the provider nothing but the translatable text of the
    document, whose front matter is a prefix of the document and of
    every result; for a document without backtick the result is the
    front matter followed by the provider's answer. *)
Theorem selection_translation_keeps_front_matter
    (provider : Provider) (document : string) (t : N) :
  let extracted := extractTextForTranslation document in
  let frontMatter := default EmptyString (frontmatter extracted) in
  let r := TranslationEngine.translate provider document t in
  let s := translate provider 0 (translatableText extracted) None t in
  events r = events s
  ∧ Forall (fun ev => match ev with
                      | EvRequest _ _ txt _ => txt = translatableText extracted
                      | _ => True
                      end) (events r)
  ∧ (∃ body, document = frontMatter +:+ body)
  ∧ (∀ res, outcome r = Fulfilled res →
       ∃ v, outcome s = Fulfilled v
            ∧ translatedText res = restoreCodeBlocks (translatedText v) extracted
            ∧ tokenUsage res = tokenUsage v
            ∧ JS.startsWith (translatedText res) frontMatter = true)
  ∧ (noBacktick document →
     document = frontMatter +:+ translatableText extracted
     ∧ ∀ res, outcome r = Fulfilled res →
         ∃ v, outcome s = Fulfilled v
              ∧ translatedText res = frontMatter +:+ translatedText v).
Proof.
  cbv zeta. rewrite engine_translate_run. cbv zeta.
  set (extracted := extractTextForTranslation document).
  set (s := translate provider 0 (translatableText extracted) None t).
  assert (Hev : events (match outcome s with
                        | Fulfilled v =>
                            mkRun (Fulfilled
                                     {| translatedText :=
                                          restoreCodeBlocks (translatedText v) extracted;
                                        tokenUsage := tokenUsage v |})
                                  (finish s) (events s)
                        | Rejected e => mkRun (Rejected e) (finish s) (events s)
                        | Pending => mkRun Pending (finish s) (events s)
                        end) = events s)
    by (destruct (outcome s); reflexivity).
  assert (Hres : ∀ res,
            outcome (match outcome s with
                     | Fulfilled v =>
                         mkRun (Fulfilled
                                  {| translatedText :=
                                       restoreCodeBlocks (translatedText v) extracted;
                                     tokenUsage := tokenUsage v |})
                               (finish s) (events s)
                     | Rejected e => mkRun (Rejected e) (finish s) (events s)
                     | Pending => mkRun Pending (finish s) (events s)
                     end) = Fulfilled res →
            ∃ v, outcome s = Fulfilled v
                 ∧ translatedText res = restoreCodeBlocks (translatedText v) extracted
                 ∧ tokenUsage res = tokenUsage v).
  { intros res. destruct (outcome s) as [v|e|]; cbn [outcome]; try discriminate.
    intros [= <-]. exists v. auto. }
  split; [exact Hev|]. split.
  { rewrite Hev. apply translate_events; cbn; auto. }
  destruct (extract_frontmatter document) as (body & Hdoc & _).
  split; [exists body; exact Hdoc|]. split.
  - intros res H. destruct (Hres res H) as (v & Hv & Htext & Husage).
    exists v. split; [exact Hv|]. split; [exact Htext|]. split; [exact Husage|].
    rewrite Htext. apply restoreCodeBlocks_frontmatter.
  - intros Hnb.
    destruct (extract_then_restore_without_code document Hnb) as (_ & Hd & Hrestore & _).
    split; [exact Hd|]. intros res H. destruct (Hres res H) as (v & Hv & Htext & _).
    exists v. split; [exact Hv|]. rewrite Htext. apply Hrestore.
Qed.

Lemma selection_translation_keeps_front_matter_witness :
  let document := doc ["---"; "title: T"; "---"; "Body"] in
  let r := TranslationEngine.translate echoProvider document 0%N in
  noBacktick document
  ∧ events r = [EvRequest 0 0 "Body" 0%N]
  ∧ ∃ res, outcome r = Fulfilled res
           ∧ translatedText res = doc ["---"; "title: T"; "---"; "T:Body"].
Proof.
  cbv zeta.
  assert (noBacktick (doc ["---"; "title: T"; "---"; "Body"])) as Hnb
    by (cbn; repeat split; discriminate).
  destruct (selection_translation_keeps_front_matter echoProvider
              (doc ["---"; "title: T"; "---"; "Body"]) 0%N)
    as (Hev & _ & _ & _ & Hclean).
  destruct (Hclean Hnb) as [_ Hres].
  split; [exact Hnb|]. split; [rewrite Hev; vm_compute; reflexivity|].
  eexists. split; [vm_compute; reflexivity|].
  destruct (Hres _ ltac:(vm_compute; reflexivity)) as (v & Hv & Htext).
  vm_compute in Hv. injection Hv as <-. vm_compute. reflexivity.
Defined.

(** ** [chunkContent] *)

Lemma sumTokens_app a b : sumTokens (a ++ b) = (sumTokens a + sumTokens b)%N.
Proof.
  unfold sumTokens. induction a as [|x a IH]; cbn; [reflexivity|]. rewrite IH. lia.
Qed.

Lemma greedyGroups_snoc max groups g p :
  greedyGroups max (groups ++ [g]) → (max < sumTokens g + estimateTokens p)%N →
  greedyGroups max ((groups ++ [g]) ++ [[p]]).
Proof.
  induction groups as [|g0 groups IH]; intros H Hp.
  - cbn. auto.
  - cbn [app greedyGroups] in *. destruct H as [H0 H]. split; [|apply IH; assumption].
    destruct groups as [|g1 groups]; cbn [app] in *; exact H0.
Qed.

Lemma greedyGroups_grow max groups c cur p :
  greedyGroups max (groups ++ [c :: cur]) →
  greedyGroups max (groups ++ [(c :: cur) ++ [p]]).
Proof.
  induction groups as [|g0 groups IH]; intros H.
  - cbn. auto.
  - cbn [app greedyGroups] in *. destruct H as [H0 H]. split; [|apply IH; assumption].
    destruct groups as [|g1 groups]; cbn [app] in *; exact H0.
Qed.

Section ChunkFacts.

Variable maxTokensPerChunk : N.

Lemma chunkStep_inv st groups paragraph :
  ChunkInv maxTokensPerChunk st groups → (estimateTokens paragraph ≤ maxTokensPerChunk)%N →
  ∃ groups',
    ChunkInv maxTokensPerChunk (chunkStep maxTokensPerChunk st paragraph) groups'
    ∧ currentChunk (chunkStep maxTokensPerChunk st paragraph) ≠ []
    ∧ concat groups' ++ currentChunk (chunkStep maxTokensPerChunk st paragraph)
      = (concat groups ++ currentChunk st) ++ [paragraph].
Proof.
  intros (Hch & Hgr & Htok & Hle & Hempty & Hgreedy) Hfit. unfold chunkStep.
  destruct (N.ltb_spec maxTokensPerChunk (estimateTokens paragraph)) as [Hbig|_]; [lia|].
  destruct (N.ltb_spec maxTokensPerChunk (currentTokens st + estimateTokens paragraph))
    as [Hflush|Hkeep]; unfold ChunkInv; cbv zeta; cbn [chunks currentChunk currentTokens].
  - assert (currentChunk st ≠ []) as Hne.
    { intros Hnil. rewrite Htok, Hnil in Hflush. cbn in Hflush. lia. }
    exists (groups ++ [currentChunk st]). split; [|split].
    + split; [rewrite Hch, map_app; reflexivity|].
      split; [apply Forall_app; split; [exact Hgr|apply Forall_cons_2; [auto|apply Forall_nil_2]]|].
      split; [unfold sumTokens; cbn; lia|].
      split; [unfold sumTokens; cbn; lia|].
      split; [discriminate|].
      cbn [app]. apply greedyGroups_snoc.
      * destruct (currentChunk st); [congruence|exact Hgreedy].
      * rewrite <- Htok. exact Hflush.
    + discriminate.
    + rewrite concat_app. cbn. rewrite app_nil_r. reflexivity.
  - exists groups. split; [|split].
    + split; [exact Hch|]. split; [exact Hgr|].
      split; [rewrite sumTokens_app, Htok; unfold sumTokens; cbn; lia|].
      split; [rewrite sumTokens_app, <- Htok; unfold sumTokens; cbn; lia|].
      split; [intros H; destruct (currentChunk st); discriminate|].
      destruct (currentChunk st) as [|c cur] eqn:Hc.
      * rewrite (Hempty eq_refl). cbn. auto.
      * apply (greedyGroups_grow _ groups c cur paragraph) in Hgreedy.
        cbn [app] in *. exact Hgreedy.
    + destruct (currentChunk st); discriminate.
    + rewrite app_assoc. reflexivity.
Qed.

Lemma chunkLoop_inv paragraphs : ∀ st groups,
  ChunkInv maxTokensPerChunk st groups →
  Forall (fun p => (estimateTokens p ≤ maxTokensPerChunk)%N) paragraphs →
  ∃ groups',
    ChunkInv maxTokensPerChunk (fold_left (chunkStep maxTokensPerChunk) paragraphs st) groups'
    ∧ concat groups' ++ currentChunk (fold_left (chunkStep maxTokensPerChunk) paragraphs st)
      = (concat groups ++ currentChunk st) ++ paragraphs.
Proof.
  induction paragraphs as [|p rest IH]; intros st groups Hinv Hfit.
  - exists groups. split; [exact Hinv|]. rewrite app_nil_r. reflexivity.
  - apply Forall_cons in Hfit as [Hp Hfit].
    destruct (chunkStep_inv st groups p Hinv Hp) as (g1 & Hinv1 & _ & Heq1).
    destruct (IH _ g1 Hinv1 Hfit) as (g2 & Hinv2 & Heq2).
    exists g2. split; [exact Hinv2|]. cbn [fold_left]. rewrite Heq2, Heq1, <- app_assoc.
    reflexivity.
Qed.

End ChunkFacts.

(** X22. [chunkContent], when every paragraph fits the limit: the
    chunks are the paragraphs of the content, in order, cut into
    non-empty groups and joined by a blank line; the estimates of the
    paragraphs of a group add up to the limit at most, and a group is
    closed only when the next paragraph would exceed it. *)
Theorem chunkContent_groups_whole_paragraphs (content : string) (maxTokensPerChunk : N) :
  Forall (fun p => (estimateTokens p ≤ maxTokensPerChunk)%N) (splitIntoParagraphs content) →
  ∃ groups : list (list string),
    chunkContent content (Some maxTokensPerChunk) = List.map joinParagraphs groups
    ∧ concat groups = splitIntoParagraphs content
    ∧ Forall (fun g => g ≠ [] ∧ (sumTokens g ≤ maxTokensPerChunk)%N) groups
    ∧ greedyGroups maxTokensPerChunk groups.
Proof.
  intros Hfit. unfold chunkContent.
  change (default 4000%N (Some maxTokensPerChunk)) with maxTokensPerChunk. cbv zeta.
  destruct (chunkLoop_inv maxTokensPerChunk (splitIntoParagraphs content)
              {| chunks := []; currentChunk := []; currentTokens := 0 |} [])
    as (groups & (Hch & Hgr & Htok & Hle & Hempty & Hgreedy) & Heq).
  - repeat split; cbn; auto. lia.
  - exact Hfit.
  - cbn [concat app currentChunk] in Heq.
    set (st := fold_left (chunkStep maxTokensPerChunk) (splitIntoParagraphs content) _) in *.
    destruct (currentChunk st) as [|c cur] eqn:Hc.
    + exists groups. rewrite app_nil_r in Heq, Hgreedy.
      split; [exact Hch|]. split; [exact Heq|]. split; [exact Hgr|exact Hgreedy].
    + exists (groups ++ [c :: cur]). split; [rewrite Hch, map_app; reflexivity|].
      split; [rewrite concat_app; cbn; rewrite app_nil_r; exact Heq|].
      split; [|exact Hgreedy].
      apply Forall_app; split; [exact Hgr|].
      apply Forall_cons_2; [split; [discriminate|exact Hle]|apply Forall_nil_2].
Qed.

Lemma chunkContent_groups_whole_paragraphs_witness :
  let content := doc ["aaaa"; ""; "bbbb"; ""; "cccc"] in
  Forall (fun p => (estimateTokens p ≤ 2)%N) (splitIntoParagraphs content)
  ∧ chunkContent content (Some 2%N) = [doc ["aaaa"; ""; "bbbb"]; "cccc"]
  ∧ ∃ groups : list (list string),
      chunkContent content (Some 2%N) = List.map joinParagraphs groups
      ∧ concat groups = splitIntoParagraphs content
      ∧ Forall (fun g => g ≠ [] ∧ (sumTokens g ≤ 2)%N) groups
      ∧ greedyGroups 2 groups.
Proof.
  cbv zeta.
  assert (Forall (fun p => (estimateTokens p ≤ 2)%N)
            (splitIntoParagraphs (doc ["aaaa"; ""; "bbbb"; ""; "cccc"]))) as Hfit.
  { replace (splitIntoParagraphs (doc ["aaaa"; ""; "bbbb"; ""; "cccc"]))
      with ["aaaa"; "bbbb"; "cccc"] by (vm_compute; reflexivity).
    repeat constructor; vm_compute; discriminate. }
  split; [exact Hfit|]. split; [vm_compute; reflexivity|].
  exact (chunkContent_groups_whole_paragraphs _ 2%N Hfit).
Defined.

Lemma chunkLoop_fits maxTokensPerChunk rest : ∀ st,
  currentTokens st = sumTokens (currentChunk st) →
  (sumTokens (currentChunk st) + sumTokens rest ≤ maxTokensPerChunk)%N →
  fold_left (chunkStep maxTokensPerChunk) rest st
  = {| chunks := chunks st;
       currentChunk := currentChunk st ++ rest;
       currentTokens := sumTokens (currentChunk st ++ rest) |}.
Proof.
  induction rest as [|p rest IH]; intros st Htok Hle.
  - cbn [fold_left]. rewrite app_nil_r, <- Htok. destruct st; reflexivity.
  - cbn [fold_left].
    assert (sumTokens (p :: rest) = (estimateTokens p + sumTokens rest)%N) as Hs
      by reflexivity.
    rewrite Hs in Hle.
    assert (chunkStep maxTokensPerChunk st p
            = {| chunks := chunks st; currentChunk := currentChunk st ++ [p];
                 currentTokens := currentTokens st + estimateTokens p |}) as Hstep.
    { unfold chunkStep. cbv zeta.
      destruct (N.ltb_spec maxTokensPerChunk (estimateTokens p)); [lia|].
      destruct (N.ltb_spec maxTokensPerChunk (currentTokens st + estimateTokens p));
        [lia|reflexivity]. }
    rewrite Hstep, IH; cbn [chunks currentChunk currentTokens].
    + rewrite <- app_assoc. reflexivity.
    + rewrite sumTokens_app, Htok. unfold sumTokens. cbn. lia.
    + rewrite sumTokens_app. unfold sumTokens at 2. cbn. lia.
Qed.

(** X23. [chunkContent], when the estimates of all paragraphs add up to
    the limit at most: the result is one chunk, the paragraphs joined by
    a blank line, and no chunk when there is no paragraph. *)
Theorem chunkContent_single_chunk (content : string) (maxTokensPerChunk : N) :
  (sumTokens (splitIntoParagraphs content) ≤ maxTokensPerChunk)%N →
  chunkContent content (Some maxTokensPerChunk)
  = match splitIntoParagraphs content with
    | [] => []
    | paragraphs => [joinParagraphs paragraphs]
    end.
Proof.
  intros Hle. unfold chunkContent.
  change (default 4000%N (Some maxTokensPerChunk)) with maxTokensPerChunk. cbv zeta.
  rewrite chunkLoop_fits; cbn [chunks currentChunk currentTokens app]; auto.
Qed.

Lemma chunkContent_single_chunk_witness :
  let content := doc ["aaaa"; ""; "bbbb"; ""; ""; "cccc"] in
  (sumTokens (splitIntoParagraphs content) ≤ 3)%N
  ∧ chunkContent content (Some 3%N) = [doc ["aaaa"; ""; "bbbb"; ""; "cccc"]].
Proof.
  cbv zeta.
  assert (sumTokens (splitIntoParagraphs (doc ["aaaa"; ""; "bbbb"; ""; ""; "cccc"])) ≤ 3)%N
    as Hle by (vm_compute; discriminate).
  split; [exact Hle|].
  exact (eq_trans (chunkContent_single_chunk _ 3%N Hle) eq_refl).
Defined.

Lemma length_append (a b : string) :
  String.length (a +:+ b) = (String.length a + String.length b)%nat.
Proof. induction a as [|c a IH]; [reflexivity|]. rewrite append_cons. cbn. rewrite IH. reflexivity. Qed.

Lemma joinParagraphs_length p g :
  (String.length (joinParagraphs (p :: g)) + 2
   = fold_right (fun q n => (String.length q + 2 + n)%nat) 0%nat (p :: g))%nat.
Proof.
  revert p. induction g as [|q g IH]; intros p.
  - cbn. lia.
  - change (joinParagraphs (p :: q :: g))
      with (p +:+ String JS.LF (String JS.LF EmptyString) +:+ joinParagraphs (q :: g)).
    rewrite !length_append. specialize (IH q). cbn [fold_right] in *.
    change (String.length (String JS.LF (String JS.LF EmptyString))) with 2%nat. lia.
Qed.

Lemma estimateTokens_bounds s :
  (N.of_nat (String.length s) ≤ 4 * estimateTokens s)%N
  ∧ (4 * estimateTokens s < N.of_nat (String.length s) + 4)%N.
Proof.
  unfold estimateTokens. cbv zeta.
  generalize (N.of_nat (String.length s)). intros n.
  pose proof (N.div_mod' n 4) as Hd.
  pose proof (N.mod_lt n 4 ltac:(discriminate)) as Hm.
  destruct (N.eqb_spec (n mod 4) 0) as [E|E].
  - rewrite E in Hd. generalize dependent (n / 4)%N. intros q Hd. lia.
  - generalize dependent (n mod 4)%N. generalize dependent (n / 4)%N. intros q r Hd Hm E. lia.
Qed.

Lemma sumTokens_lengths g :
  Forall (fun p => p ≠ EmptyString) g →
  (N.of_nat (fold_right (fun q n => (String.length q + 2 + n)%nat) 0%nat g) ≤ 6 * sumTokens g)%N.
Proof.
  induction g as [|p g IH]; intros H; [cbn; lia|].
  apply Forall_cons in H as [Hp H]. specialize (IH H).
  change (sumTokens (p :: g)) with (estimateTokens p + sumTokens g)%N.
  cbn [fold_right]. pose proof (estimateTokens_bounds p) as [Hb _].
  assert (1 ≤ String.length p)%nat by (destruct p; [congruence|cbn; lia]).
  lia.
Qed.

Lemma splitIntoParagraphs_nonempty content :
  Forall (fun p => p ≠ EmptyString) (splitIntoParagraphs content).
Proof.
  apply Forall_forall. intros p Hp. unfold splitIntoParagraphs in Hp.
  apply list_elem_of_In, filter_In in Hp as [_ Hp]. intros ->. discriminate Hp.
Qed.

Lemma Forall_concat {A} (P : A → Prop) (groups : list (list A)) :
  Forall P (concat groups) → Forall (Forall P) groups.
Proof.
  induction groups as [|g groups IH]; intros H; [constructor|].
  cbn in H. apply Forall_app in H as [Hg H]. constructor; auto.
Qed.

Lemma group_estimate (maxTokensPerChunk : N) (g : list string) :
  g ≠ [] → Forall (fun p => p ≠ EmptyString) g → (sumTokens g ≤ maxTokensPerChunk)%N →
  (2 * estimateTokens (joinParagraphs g) ≤ 3 * maxTokensPerChunk)%N.
Proof.
  intros Hg Hp Hsum. destruct g as [|p g]; [congruence|].
  pose proof (joinParagraphs_length p g) as Hlen.
  pose proof (sumTokens_lengths (p :: g) Hp) as Hs.
  pose proof (estimateTokens_bounds (joinParagraphs (p :: g))) as [_ Hb].
  lia.
Qed.

(** X24. [chunkContent], when every paragraph fits the limit: the
    estimate of a chunk, which counts the blank lines between its
    paragraphs too, is at most one and a half times the limit. *)
Theorem chunk_estimates_stay_below_one_and_a_half_limits
    (content : string) (maxTokensPerChunk : N) :
  Forall (fun p => (estimateTokens p ≤ maxTokensPerChunk)%N) (splitIntoParagraphs content) →
  Forall (fun chunk => (2 * estimateTokens chunk ≤ 3 * maxTokensPerChunk)%N)
         (chunkContent content (Some maxTokensPerChunk)).
Proof.
  intros Hfit. unfold chunkContent.
  change (default 4000%N (Some maxTokensPerChunk)) with maxTokensPerChunk. cbv zeta.
  destruct (chunkLoop_inv maxTokensPerChunk (splitIntoParagraphs content)
              {| chunks := []; currentChunk := []; currentTokens := 0 |} [])
    as (groups & (Hch & Hgr & _ & Hle & _) & Heq).
  { repeat split; cbn; auto. lia. }
  { exact Hfit. }
  cbn [concat app currentChunk] in Heq.
  set (st := fold_left (chunkStep maxTokensPerChunk) (splitIntoParagraphs content) _) in *.
  pose proof (splitIntoParagraphs_nonempty content) as Hne. rewrite <- Heq in Hne.
  apply Forall_app in Hne as [Hne Hcur]. apply Forall_concat in Hne.
  assert (Forall (fun chunk => (2 * estimateTokens chunk ≤ 3 * maxTokensPerChunk)%N)
            (chunks st)) as Hclosed.
  { rewrite Hch. clear Hch Heq. induction groups as [|g groups IH]; [constructor|].
    apply Forall_cons in Hgr as [[Hg Hsum] Hgr]. apply Forall_cons in Hne as [Hp Hne].
    cbn [List.map]. constructor; [|apply IH; assumption].
    apply group_estimate; assumption. }
  destruct (currentChunk st) as [|c cur]; [exact Hclosed|].
  apply Forall_app. split; [exact Hclosed|]. constructor; [|constructor].
  apply group_estimate; [discriminate|exact Hcur|exact Hle].
Qed.

Lemma chunk_estimates_stay_below_one_and_a_half_limits_witness :
  let content := doc ["aaaa"; ""; "bbbb"; ""; "cccc"] in
  Forall (fun p => (estimateTokens p ≤ 2)%N) (splitIntoParagraphs content)
  ∧ List.map estimateTokens (chunkContent content (Some 2%N)) = [3%N; 1%N]
  ∧ Forall (fun chunk => (2 * estimateTokens chunk ≤ 3 * 2)%N)
           (chunkContent content (Some 2%N)).
Proof.
  cbv zeta.
  assert (Forall (fun p => (estimateTokens p ≤ 2)%N)
            (splitIntoParagraphs (doc ["aaaa"; ""; "bbbb"; ""; "cccc"]))) as Hfit.
  { replace (splitIntoParagraphs (doc ["aaaa"; ""; "bbbb"; ""; "cccc"]))
      with ["aaaa"; "bbbb"; "cccc"] by (vm_compute; reflexivity).
    repeat constructor; vm_compute; discriminate. }
  split; [exact Hfit|]. split; [vm_compute; reflexivity|].
  exact (chunk_estimates_stay_below_one_and_a_half_limits _ 2%N Hfit).
Defined.

(** ** Extraction and restoration with code *)

Lemma append_nil_l (b : string) : EmptyString +:+ b = b.
Proof. reflexivity. Qed.

Lemma lacks_append c a b : lacks c (a +:+ b) ↔ lacks c a ∧ lacks c b.
Proof.
  induction a as [|x a IH].
  - rewrite append_nil_l. cbn. tauto.
  - rewrite append_cons. cbn. rewrite IH. tauto.
Qed.

Lemma plain_append a b : plain (a +:+ b) ↔ plain a ∧ plain b.
Proof. unfold plain. rewrite !lacks_append. tauto. Qed.

Lemma sliceFrom_append u x : JS.sliceFrom (String.length u) (u +:+ x) = x.
Proof. induction u as [|c u IH]; [reflexivity|]. rewrite append_cons. exact IH. Qed.

Lemma substringTo_append u x : JS.substringTo (String.length u) (u +:+ x) = u.
Proof.
  induction u as [|c u IH]; [destruct x; reflexivity|].
  rewrite append_cons. cbn. rewrite IH. reflexivity.
Qed.

Lemma substringTo_sliceFrom n : ∀ s, s = JS.substringTo n s +:+ JS.sliceFrom n s.
Proof.
  induction n as [|n IH]; intros [|c s]; try reflexivity.
  cbn [JS.substringTo JS.sliceFrom]. rewrite append_cons, <- IH. reflexivity.
Qed.

Lemma lacks_substringTo c n s : lacks c s → lacks c (JS.substringTo n s).
Proof.
  intros H. rewrite (substringTo_sliceFrom n s) in H. apply lacks_append in H. tauto.
Qed.

Lemma startsWith_mismatch a c s p : a ≠ c → JS.startsWith (String c s) (String a p) = false.
Proof. intros H. cbn. apply Ascii.eqb_neq in H. rewrite H. reflexivity. Qed.

Lemma startsWith_prefix p q : ∀ s, JS.startsWith s (p +:+ q) = true → JS.startsWith s p = true.
Proof.
  induction p as [|a p IH]; intros s H; [destruct s; reflexivity|].
  rewrite append_cons in H. destruct s as [|b s]; [discriminate|].
  cbn in *. apply andb_true_iff in H as [-> H]. cbn. apply IH. exact H.
Qed.

(** *** [String.prototype.replace] with a string pattern *)

Lemma expandReplacement_plain matched before after r :
  lacks "$" r → JS.expandReplacement matched before after r = r.
Proof.
  induction r as [|c r IH]; [reflexivity|]. intros [Hc Hr].
  cbn [JS.expandReplacement]. apply Ascii.eqb_neq in Hc. rewrite Hc, (IH Hr). reflexivity.
Qed.

Lemma replaceFirst_plain p r s :
  lacks "$" r →
  JS.replaceFirst p r s
  = match JS.splitAtFirst p s with
    | Some (before, after) => before +:+ r +:+ after
    | None => s
    end.
Proof.
  intros H. unfold JS.replaceFirst. destruct (JS.splitAtFirst p s) as [[b a]|]; [|reflexivity].
  rewrite expandReplacement_plain by exact H. reflexivity.
Qed.

Lemma splitAtFirst_eq p s :
  JS.splitAtFirst p s
  = if JS.startsWith s p then Some (EmptyString, JS.sliceFrom (String.length p) s)
    else match s with
         | EmptyString => None
         | String c s' =>
             match JS.splitAtFirst p s' with
             | Some (before, after) => Some (String c before, after)
             | None => None
             end
         end.
Proof. destruct s; reflexivity. Qed.

Lemma splitAtFirst_over p u y :
  noStart p u y →
  JS.splitAtFirst p (u +:+ y)
  = match JS.splitAtFirst p y with
    | Some (before, after) => Some (u +:+ before, after)
    | None => None
    end.
Proof.
  induction u as [|c u IH]; intros H.
  - rewrite append_nil_l. destruct (JS.splitAtFirst p y) as [[b a]|]; reflexivity.
  - destruct H as [H0 H]. rewrite splitAtFirst_eq, H0. rewrite append_cons, (IH H).
    destruct (JS.splitAtFirst p y) as [[b a]|]; reflexivity.
Qed.

Lemma replaceFirst_over p r u y :
  noStart p u y → lacks "$" r →
  JS.replaceFirst p r (u +:+ y) = u +:+ JS.replaceFirst p r y.
Proof.
  intros H Hr. rewrite !replaceFirst_plain by exact Hr. rewrite (splitAtFirst_over _ _ _ H).
  destruct (JS.splitAtFirst p y) as [[b a]|]; [|reflexivity].
  rewrite append_assoc. reflexivity.
Qed.

Lemma replaceFirst_hit p r x :
  lacks "$" r → JS.replaceFirst p r (p +:+ x) = r +:+ x.
Proof.
  intros Hr. rewrite replaceFirst_plain by exact Hr.
  rewrite splitAtFirst_eq, startsWith_append, sliceFrom_append. reflexivity.
Qed.

Lemma noStart_lacks a p u y : lacks a u → noStart (String a p) u y.
Proof.
  induction u as [|c u IH]; [intros _; exact I|]. intros [Hc Hu]. split; [|exact (IH Hu)].
  rewrite append_cons. apply startsWith_mismatch. congruence.
Qed.

Lemma noStart_app p a b y : noStart p a (b +:+ y) → noStart p b y → noStart p (a +:+ b) y.
Proof.
  induction a as [|c a IH]; intros Ha Hb; [exact Hb|].
  destruct Ha as [H0 Ha]. rewrite append_cons. split; [|exact (IH Ha Hb)].
  rewrite <- append_cons, append_assoc. exact H0.
Qed.

Lemma noStart_weaken p q u y : noStart p u y → noStart (p +:+ q) u y.
Proof.
  induction u as [|c u IH]; [intros _; exact I|]. intros [H0 H]. split; [|exact (IH H)].
  destruct (JS.startsWith (String c u +:+ y) (p +:+ q)) eqn:E; [|reflexivity].
  apply startsWith_prefix in E. congruence.
Qed.

(** *** The placeholders *)

Lemma string_of_uint_lacks c d :
  c ≠ "0"%char → c ≠ "1"%char → c ≠ "2"%char → c ≠ "3"%char → c ≠ "4"%char →
  c ≠ "5"%char → c ≠ "6"%char → c ≠ "7"%char → c ≠ "8"%char → c ≠ "9"%char →
  lacks c (NilEmpty.string_of_uint d).
Proof.
  intros. induction d; cbn; auto.
Qed.

Lemma numberToString_lacks c n :
  c = "_"%char ∨ c = "$"%char ∨ c = "`"%char → lacks c (JS.numberToString n).
Proof.
  intros H. apply string_of_uint_lacks; destruct H as [->|[->| ->]]; discriminate.
Qed.

Lemma numberToString_nonempty n : JS.numberToString n ≠ EmptyString.
Proof.
  unfold JS.numberToString. intros H.
  pose proof (NilEmpty.usu (N.to_uint n)) as Hu. rewrite H in Hu. cbn in Hu.
  injection Hu as Hu. pose proof (Unsigned.of_to n) as Hn. rewrite <- Hu in Hn.
  cbn in Hn. subst n. discriminate Hu.
Qed.

Lemma numberToString_inj a b : JS.numberToString a = JS.numberToString b → a = b.
Proof.
  unfold JS.numberToString. intros H. apply Unsigned.to_uint_inj.
  pose proof (NilEmpty.usu (N.to_uint a)) as Ha. rewrite H, NilEmpty.usu in Ha.
  congruence.
Qed.

Lemma append_inj_r (c a b : string) :
  lacks "_" a → lacks "_" b → a +:+ String "_" c = b +:+ String "_" c → a = b.
Proof.
  revert b. induction a as [|x a IH]; intros [|y b] Ha Hb H.
  - reflexivity.
  - rewrite append_nil_l, append_cons in H. injection H as <- _. destruct Hb as [Hb _].
    congruence.
  - rewrite append_nil_l, append_cons in H. injection H as -> _. destruct Ha as [Ha _].
    congruence.
  - rewrite !append_cons in H. injection H as -> H. destruct Ha as [_ Ha], Hb as [_ Hb].
    rewrite (IH b Ha Hb H). reflexivity.
Qed.

Lemma codeBlockPlaceholder_head k :
  codeBlockPlaceholder k
  = String "_" (String "_" (String "C"
      ("ODE_BLOCK_" +:+ JS.numberToString (N.of_nat k) +:+ "__"))).
Proof. reflexivity. Qed.

Lemma inlineCodePlaceholder_head k :
  inlineCodePlaceholder k
  = String "_" (String "_" (String "I"
      ("NLINE_CODE_" +:+ JS.numberToString (N.of_nat k) +:+ "__"))).
Proof. reflexivity. Qed.

Lemma codeBlockPlaceholder_inj a b :
  codeBlockPlaceholder a = codeBlockPlaceholder b → a = b.
Proof.
  unfold codeBlockPlaceholder. intros H.
  assert (JS.numberToString (N.of_nat a) +:+ "__" = JS.numberToString (N.of_nat b) +:+ "__")
    as H' by (cbv [String.append] in H; injection H as H; exact H).
  apply append_inj_r in H'; try (apply numberToString_lacks; auto).
  apply numberToString_inj in H'. lia.
Qed.

Lemma inlineCodePlaceholder_inj a b :
  inlineCodePlaceholder a = inlineCodePlaceholder b → a = b.
Proof.
  unfold inlineCodePlaceholder. intros H.
  assert (JS.numberToString (N.of_nat a) +:+ "__" = JS.numberToString (N.of_nat b) +:+ "__")
    as H' by (cbv [String.append] in H; injection H as H; exact H).
  apply append_inj_r in H'; try (apply numberToString_lacks; auto).
  apply numberToString_inj in H'. lia.
Qed.

Lemma placeholders_differ a b : codeBlockPlaceholder a ≠ inlineCodePlaceholder b.
Proof. rewrite codeBlockPlaceholder_head, inlineCodePlaceholder_head. discriminate. Qed.

Lemma codeBlockPlaceholder_lacks c k :
  c = "$"%char ∨ c = "`"%char → lacks c (codeBlockPlaceholder k).
Proof.
  intros H. unfold codeBlockPlaceholder. rewrite !lacks_append.
  split; [|split; [apply numberToString_lacks; tauto|]];
    destruct H as [->| ->]; cbn; repeat split; discriminate.
Qed.

(** *** Looking for a block placeholder in a text with inline placeholders *)

Lemma quiet_app a b : quiet a → quiet b → quiet (a +:+ b).
Proof.
  induction 1 as [|c w Hc Hw IH|k w Hw IH]; intros Hb.
  - exact Hb.
  - rewrite append_cons. apply quiet_char; auto.
  - rewrite append_assoc. apply quiet_inline; auto.
Qed.

Lemma quiet_lacks b : lacks "_" b → quiet b.
Proof.
  induction b as [|c b IH]; [intros _; apply quiet_nil|].
  intros [Hc Hb]. apply quiet_char; auto.
Qed.

Lemma quiet_next_underscore w z :
  quiet w → JS.startsWith (w +:+ String "_" (String "_" z)) "_C" = false.
Proof.
  intros [|c w' Hc Hw|k w' Hw].
  - reflexivity.
  - rewrite append_cons. apply startsWith_mismatch. congruence.
  - rewrite inlineCodePlaceholder_head, !append_cons. reflexivity.
Qed.

Lemma quiet_next_word pat : ∀ w z,
  lacks "_" pat → quiet w →
  JS.startsWith (w +:+ String "_" (String "_" z)) (pat +:+ "_B") = false.
Proof.
  induction pat as [|a pat IH]; intros w z Hpat Hw.
  - rewrite append_nil_l. destruct Hw as [|c w' Hc Hw|k w' Hw].
    + reflexivity.
    + rewrite append_cons. apply startsWith_mismatch. congruence.
    + rewrite inlineCodePlaceholder_head, !append_cons. reflexivity.
  - destruct Hpat as [Ha Hpat]. rewrite append_cons. destruct Hw as [|c w' Hc Hw|k w' Hw].
    + rewrite append_nil_l. apply startsWith_mismatch. exact Ha.
    + rewrite append_cons. cbn [JS.startsWith]. rewrite (IH w' z Hpat Hw).
      apply andb_false_r.
    + rewrite inlineCodePlaceholder_head, !append_cons. apply startsWith_mismatch. exact Ha.
Qed.

Lemma noStart_inline k j y :
  JS.startsWith y "_C" = false → JS.startsWith y "CODE_B" = false →
  noStart (codeBlockPlaceholder k) (inlineCodePlaceholder j) y.
Proof.
  intros H1 H2.
  destruct (JS.numberToString (N.of_nat j)) as [|c digits] eqn:Hj;
    [exfalso; exact (numberToString_nonempty _ Hj)|].
  pose proof (numberToString_lacks "_" (N.of_nat j) (or_introl eq_refl)) as Hl.
  rewrite Hj in Hl. destruct Hl as [Hc Hl].
  unfold inlineCodePlaceholder. rewrite Hj.
  apply noStart_app; [|apply noStart_app].
  - change (codeBlockPlaceholder k)
      with ("__C" +:+ ("ODE_BLOCK_" +:+ JS.numberToString (N.of_nat k) +:+ "__")).
    apply noStart_weaken. rewrite append_assoc, append_cons.
    cbv [noStart String.append JS.startsWith].
    assert (Ascii.eqb "_" c = false) as E by (apply Ascii.eqb_neq; congruence).
    repeat split; try reflexivity.
    rewrite E. reflexivity.
  - rewrite codeBlockPlaceholder_head. apply noStart_lacks. split; assumption.
  - split; [|split; [|exact I]].
    + change (codeBlockPlaceholder k)
        with ("__CODE_B" +:+ ("LOCK_" +:+ JS.numberToString (N.of_nat k) +:+ "__")).
      destruct (JS.startsWith ("__" +:+ y) _) eqn:E; [|reflexivity].
      apply startsWith_prefix in E.
      change (JS.startsWith y "CODE_B" = true) in E. congruence.
    + change (codeBlockPlaceholder k)
        with ("__C" +:+ ("ODE_BLOCK_" +:+ JS.numberToString (N.of_nat k) +:+ "__")).
      destruct (JS.startsWith ("_" +:+ y) _) eqn:E; [|reflexivity].
      apply startsWith_prefix in E.
      change (JS.startsWith y "_C" = true) in E. congruence.
Qed.

Lemma replaceFirst_block_in_quiet k r pre x :
  quiet pre → lacks "$" r →
  JS.replaceFirst (codeBlockPlaceholder k) r (pre +:+ codeBlockPlaceholder k +:+ x)
  = pre +:+ r +:+ x.
Proof.
  intros Hpre Hr. induction Hpre as [|c w Hc Hw IH|j w Hw IH].
  - rewrite !append_nil_l. apply replaceFirst_hit. exact Hr.
  - change (String c w) with (String c EmptyString +:+ w). rewrite !append_assoc.
    rewrite replaceFirst_over; [rewrite IH; reflexivity| |exact Hr].
    rewrite codeBlockPlaceholder_head. apply noStart_lacks. split; [exact Hc|exact I].
  - rewrite !append_assoc. rewrite replaceFirst_over; [rewrite IH; reflexivity| |exact Hr].
    apply noStart_inline.
    + rewrite codeBlockPlaceholder_head, !append_cons. apply quiet_next_underscore. exact Hw.
    + rewrite codeBlockPlaceholder_head, !append_cons.
      apply (quiet_next_word "CODE"); [cbn; repeat split; discriminate|exact Hw].
Qed.

Lemma replaceFirst_inline_in_plain k r pre x :
  lacks "_" pre → lacks "$" r →
  JS.replaceFirst (inlineCodePlaceholder k) r (pre +:+ inlineCodePlaceholder k +:+ x)
  = pre +:+ r +:+ x.
Proof.
  intros Hpre Hr. rewrite replaceFirst_over; [|rewrite inlineCodePlaceholder_head;
    apply noStart_lacks; exact Hpre|exact Hr].
  rewrite replaceFirst_hit by exact Hr. reflexivity.
Qed.

(** *** Restoring a text read by [mix] *)

Lemma restoreAll_app a b text : restoreAll (a ++ b) text = restoreAll b (restoreAll a text).
Proof. apply fold_left_app. Qed.

Lemma restore_blocks bs ins t mid d :
  mix bs ins t mid d →
  ∀ pre, quiet pre → restoreAll bs (pre +:+ t) = pre +:+ mid.
Proof.
  induction 1 as [|c bs ins t mid d Hc Hd _ IH|k b bs ins t mid d Hb _ IH
                  |k m bs ins t mid d Hm _ IH]; intros pre Hpre.
  - reflexivity.
  - change (String c t) with (String c EmptyString +:+ t).
    change (String c mid) with (String c EmptyString +:+ mid).
    rewrite <- !append_assoc. apply IH, quiet_app; [exact Hpre|].
    apply quiet_char; [exact Hc|apply quiet_nil].
  - cbn [restoreAll fold_left fst snd].
    rewrite replaceFirst_block_in_quiet; [|exact Hpre|exact (proj2 Hb)].
    fold (restoreAll bs (pre +:+ b +:+ t)). rewrite <- !append_assoc.
    apply IH, quiet_app; [exact Hpre|]. apply quiet_lacks. exact (proj1 Hb).
  - rewrite <- !append_assoc. apply IH, quiet_app; [exact Hpre|].
    rewrite <- (append_nil_r (inlineCodePlaceholder k)). apply quiet_inline, quiet_nil.
Qed.

Lemma restore_inlines bs ins t mid d :
  mix bs ins t mid d →
  ∀ pre, lacks "_" pre → restoreAll ins (pre +:+ mid) = pre +:+ d.
Proof.
  induction 1 as [|c bs ins t mid d Hc Hd _ IH|k b bs ins t mid d Hb _ IH
                  |k m bs ins t mid d Hm _ IH]; intros pre Hpre.
  - reflexivity.
  - change (String c d) with (String c EmptyString +:+ d).
    change (String c mid) with (String c EmptyString +:+ mid).
    rewrite <- !append_assoc. apply IH, lacks_append. split; [exact Hpre|].
    split; [exact Hc|exact I].
  - rewrite <- !append_assoc. apply IH, lacks_append. split; [exact Hpre|exact (proj1 Hb)].
  - cbn [restoreAll fold_left fst snd].
    rewrite replaceFirst_inline_in_plain; [|exact Hpre|exact (proj2 Hm)].
    fold (restoreAll ins (pre +:+ m +:+ mid)). rewrite <- !append_assoc.
    apply IH, lacks_append. split; [exact Hpre|exact (proj1 Hm)].
Qed.

Lemma mix_restore bs ins t mid d :
  mix bs ins t mid d → restoreAll (bs ++ ins) t = d.
Proof.
  intros H. rewrite restoreAll_app.
  rewrite <- (append_nil_l t), (restore_blocks _ _ _ _ _ H EmptyString quiet_nil).
  exact (restore_inlines _ _ _ _ _ H EmptyString I).
Qed.

(** *** The two replacements *)

Lemma replaceMatches_skip matchAt callback skip k c s :
  JS.replaceMatches matchAt callback (S skip) k (String c s)
  = JS.replaceMatches matchAt callback skip k s.
Proof. reflexivity. Qed.

Lemma replaceMatches_hit matchAt callback k c s v :
  matchAt (String c s) = Some v →
  JS.replaceMatches matchAt callback 0 k (String c s)
  = (callback k +:+ fst (JS.replaceMatches matchAt callback (String.length v - 1) (S k) s),
     (callback k, v) :: snd (JS.replaceMatches matchAt callback (String.length v - 1) (S k) s)).
Proof.
  intros H. cbn [JS.replaceMatches]. rewrite H.
  destruct (JS.replaceMatches matchAt callback (String.length v - 1) (S k) s). reflexivity.
Qed.

Lemma replaceMatches_miss matchAt callback k c s :
  matchAt (String c s) = None →
  JS.replaceMatches matchAt callback 0 k (String c s)
  = (String c (fst (JS.replaceMatches matchAt callback 0 k s)),
     snd (JS.replaceMatches matchAt callback 0 k s)).
Proof.
  intros H. cbn [JS.replaceMatches]. rewrite H.
  destruct (JS.replaceMatches matchAt callback 0 k s). reflexivity.
Qed.

Lemma matchCodeBlock_spec s m :
  matchCodeBlock s = Some m → ∃ rest, s = m +:+ rest ∧ JS.startsWith m fence = true.
Proof.
  unfold matchCodeBlock. destruct (JS.startsWith s fence) eqn:Hs; [|discriminate].
  destruct (JS.splitAtFirst fence (JS.sliceFrom 3 s)) as [[inner after]|] eqn:Hsplit;
    [|discriminate].
  intros [= <-]. exists after. apply startsWith_sliceFrom in Hs.
  apply splitAtFirst_spec in Hsplit. change (String.length fence) with 3%nat in Hs.
  rewrite Hsplit in Hs. split; [|apply startsWith_append].
  rewrite Hs at 1. rewrite !append_assoc. reflexivity.
Qed.

Lemma inlineRun_prefix s :
  s = inlineRun s +:+ JS.sliceFrom (String.length (inlineRun s)) s.
Proof.
  induction s as [|c s IH]; [reflexivity|]. cbn [inlineRun].
  destruct (Ascii.eqb c "`" || Ascii.eqb c JS.LF); [reflexivity|].
  rewrite append_cons. cbn [String.length JS.sliceFrom]. rewrite <- IH. reflexivity.
Qed.

Lemma matchInlineCode_spec s m :
  matchInlineCode s = Some m → ∃ rest, s = m +:+ rest ∧ JS.startsWith m "`" = true.
Proof.
  destruct s as [|c s]; [discriminate|]. cbn [matchInlineCode].
  destruct (Ascii.eqb_spec c "`") as [->|_]; [|discriminate].
  destruct (negb _ && JS.startsWith _ "`") eqn:H; [|discriminate].
  apply andb_true_iff in H as [_ H]. intros [= <-].
  apply startsWith_sliceFrom in H. change (String.length "`") with 1%nat in H.
  exists (JS.sliceFrom 1 (JS.sliceFrom (String.length (inlineRun s)) s)).
  split; [|apply startsWith_append].
  rewrite (inlineRun_prefix s) at 1. rewrite H at 1.
  rewrite append_cons, append_nil_l, !append_assoc. reflexivity.
Qed.

Lemma match_tail c s m rest :
  String c s = m +:+ rest → m ≠ EmptyString →
  ∃ m', m = String c m' ∧ s = m' +:+ rest ∧ (String.length m - 1 = String.length m')%nat.
Proof.
  intros H Hm. destruct m as [|x m']; [congruence|].
  rewrite append_cons in H. injection H as -> ->. exists m'. cbn. split; [reflexivity|].
  split; [reflexivity|lia].
Qed.

Lemma startsWith_nonempty m p : JS.startsWith m (String p EmptyString) = true → m ≠ EmptyString.
Proof. intros H ->. discriminate H. Qed.

Lemma sliceFrom_nil n : JS.sliceFrom n EmptyString = EmptyString.
Proof. destruct n; reflexivity. Qed.

Lemma replaceMatches_blocks s : ∀ skip k,
  plain s →
  mix1 (snd (JS.replaceMatches matchCodeBlock codeBlockPlaceholder skip k s))
       (fst (JS.replaceMatches matchCodeBlock codeBlockPlaceholder skip k s))
       (JS.sliceFrom skip s).
Proof.
  induction s as [|c s IH]; intros skip k Hs.
  - rewrite sliceFrom_nil. destruct skip; apply mix1_nil.
  - assert (plain s) as Hs' by (destruct Hs as [[_ H1] [_ H2]]; split; assumption).
    destruct skip as [|skip]; [|rewrite replaceMatches_skip; apply IH; exact Hs'].
    destruct (matchCodeBlock (String c s)) as [m|] eqn:Hm.
    + rewrite (replaceMatches_hit _ _ _ _ _ _ Hm). cbn [fst snd JS.sliceFrom].
      destruct (matchCodeBlock_spec _ _ Hm) as (rest & Hrest & Hfence).
      assert (m ≠ EmptyString) as Hne by (intros ->; discriminate Hfence).
      destruct (match_tail _ _ _ _ Hrest Hne) as (m' & -> & Hs2 & Hlen).
      rewrite Hlen, Hrest. specialize (IH (String.length m') (S k) Hs').
      rewrite Hs2 in IH at 3. rewrite sliceFrom_append in IH.
      apply mix1_block; [|exact IH]. rewrite Hrest in Hs. apply plain_append in Hs. tauto.
    + rewrite (replaceMatches_miss _ _ _ _ _ Hm). cbn [fst snd JS.sliceFrom].
      destruct Hs as [[H1 _] [H2 _]]. apply mix1_char; [exact H1|exact H2|].
      exact (IH 0%nat k Hs').
Qed.

Lemma mix1_plain bs t d : mix1 bs t d → plain d.
Proof.
  induction 1 as [|c bs t d Hc Hd _ IH|k b bs t d Hb _ IH].
  - split; exact I.
  - destruct IH. split; split; assumption.
  - apply plain_append. tauto.
Qed.

Lemma mix1_prefix bs t d :
  mix1 bs t d → ∀ n, lacks "_" (JS.substringTo n t) → JS.substringTo n t = JS.substringTo n d.
Proof.
  induction 1 as [|c bs t d Hc Hd _ IH|k b bs t d Hb _ IH]; intros n Hn.
  - reflexivity.
  - destruct n as [|n]; [reflexivity|]. cbn [JS.substringTo] in *.
    rewrite (IH n (proj2 Hn)). reflexivity.
  - destruct n as [|n]; [destruct (b +:+ d), (codeBlockPlaceholder k +:+ t); reflexivity|].
    rewrite codeBlockPlaceholder_head, append_cons in Hn. cbn [JS.substringTo] in Hn.
    destruct Hn as [Hn _]. congruence.
Qed.

Lemma replaceMatches_over matchAt callback u : ∀ k y,
  (∀ c z, matchAt (String c z) = None ∨ c = "`"%char) →
  lacks "`" u →
  JS.replaceMatches matchAt callback 0 k (u +:+ y)
  = (u +:+ fst (JS.replaceMatches matchAt callback 0 k y),
     snd (JS.replaceMatches matchAt callback 0 k y)).
Proof.
  intros k y Hmatch. induction u as [|c u IH]; intros Hu.
  - rewrite !append_nil_l. destruct (JS.replaceMatches _ _ _ _ _); reflexivity.
  - destruct Hu as [Hc Hu]. rewrite !append_cons.
    destruct (Hmatch c (u +:+ y)) as [Hnone|Hbt]; [|congruence].
    rewrite (replaceMatches_miss _ _ _ _ _ Hnone), (IH Hu). reflexivity.
Qed.

Lemma matchInlineCode_head c z : matchInlineCode (String c z) = None ∨ c = "`"%char.
Proof.
  cbn [matchInlineCode]. destruct (Ascii.eqb_spec c "`"); [right; assumption|left; reflexivity].
Qed.

Lemma replaceMatches_inlines bs t d :
  mix1 bs t d →
  ∀ skip k,
    lacks "_" (JS.substringTo skip t) →
    Forall (fun pc => lacks "_" (snd pc))
           (snd (JS.replaceMatches matchInlineCode inlineCodePlaceholder skip k t)) →
    ∃ mid,
      mix bs (snd (JS.replaceMatches matchInlineCode inlineCodePlaceholder skip k t))
          (fst (JS.replaceMatches matchInlineCode inlineCodePlaceholder skip k t))
          mid (JS.sliceFrom skip d).
Proof.
  induction 1 as [|c bs t d Hc Hd Hmix IH|k0 b bs t d Hb Hmix IH]; intros skip k Hn HF.
  - exists EmptyString. rewrite sliceFrom_nil. destruct skip; apply mix_nil.
  - destruct skip as [|skip].
    + destruct (matchInlineCode (String c t)) as [m|] eqn:Hm.
      * rewrite (replaceMatches_hit _ _ _ _ _ _ Hm) in HF |- *. cbn [fst snd] in HF |- *.
        apply Forall_cons in HF as [Hm_ HF]. cbn [snd] in Hm_.
        destruct (matchInlineCode_spec _ _ Hm) as (rest & Hrest & Hbt).
        destruct (match_tail _ _ _ _ Hrest (startsWith_nonempty _ _ Hbt))
          as (m' & -> & Ht & Hlen).
        rewrite Hlen in HF |- *.
        assert (JS.substringTo (String.length m') t = m') as Hpre
          by (rewrite Ht; apply substringTo_append).
        assert (lacks "_" (JS.substringTo (String.length m') t)) as Hl
          by (rewrite Hpre; exact (proj2 Hm_)).
        destruct (IH (String.length m') (S k) Hl HF) as (mid & Hmid).
        exists (inlineCodePlaceholder k +:+ mid). cbn [JS.sliceFrom].
        pose proof (mix1_prefix _ _ _ Hmix _ Hl) as Hd'. rewrite Hpre in Hd'.
        pose proof (substringTo_sliceFrom (String.length m') d) as Hsplit.
        rewrite <- Hd' in Hsplit. rewrite Hsplit at 1. rewrite <- append_cons.
        apply mix_inline; [|exact Hmid].
        split; [exact Hm_|]. split; [exact Hd|]. rewrite Hd'.
        apply lacks_substringTo. exact (proj2 (mix1_plain _ _ _ Hmix)).
      * rewrite (replaceMatches_miss _ _ _ _ _ Hm) in HF |- *. cbn [fst snd] in HF |- *.
        destruct (IH 0%nat k ltac:(destruct t; exact I) HF) as (mid & Hmid).
        exists (String c mid). apply mix_char; assumption.
    + rewrite replaceMatches_skip in HF |- *. cbn [JS.substringTo] in Hn.
      exact (IH skip k (proj2 Hn) HF).
  - destruct skip as [|skip].
    + rewrite (replaceMatches_over _ _ _ _ _ matchInlineCode_head
                 (codeBlockPlaceholder_lacks _ k0 (or_intror eq_refl))) in HF |- *.
      cbn [fst snd] in HF |- *.
      destruct (IH 0%nat k ltac:(destruct t; exact I) HF) as (mid & Hmid).
      exists (b +:+ mid). apply mix_block; assumption.
    + rewrite codeBlockPlaceholder_head, !append_cons in Hn. cbn [JS.substringTo] in Hn.
      destruct Hn as [Hn _]. congruence.
Qed.

(** *** The map of the recorded code *)

Lemma mapSet_fresh key value m :
  ¬ In key (List.map fst m) → mapSet key value m = m ++ [(key, value)].
Proof.
  induction m as [|[k v] m IH]; intros H; [reflexivity|]. cbn [mapSet].
  destruct (String.eqb_spec k key) as [->|Hk]; [exfalso; apply H; left; reflexivity|].
  rewrite IH; [reflexivity|]. intros Hin. apply H. right. exact Hin.
Qed.

Lemma fold_mapSet l : ∀ acc,
  NoDup (List.map fst (acc ++ l)) →
  fold_left (fun m kv => mapSet (fst kv) (snd kv) m) l acc = acc ++ l.
Proof.
  induction l as [|[k v] l IH]; intros acc H; [rewrite app_nil_r; reflexivity|].
  cbn [fold_left fst snd]. rewrite mapSet_fresh.
  - rewrite IH; rewrite <- app_assoc; [reflexivity|exact H].
  - rewrite List.map_app in H. apply NoDup_app in H as (_ & Hd & _).
    intros Hin. apply list_elem_of_In in Hin. apply (Hd k Hin). left.
Qed.

Lemma replaceMatches_keys matchAt callback s : ∀ skip k,
  List.map fst (snd (JS.replaceMatches matchAt callback skip k s))
  = List.map callback
      (seq k (List.length (snd (JS.replaceMatches matchAt callback skip k s)))).
Proof.
  induction s as [|c s IH]; intros skip k; [reflexivity|].
  destruct skip as [|skip]; [|rewrite replaceMatches_skip; apply IH].
  destruct (matchAt (String c s)) as [m|] eqn:Hm.
  - rewrite (replaceMatches_hit _ _ _ _ _ _ Hm). cbn [fst snd List.map List.length seq].
    rewrite IH. reflexivity.
  - rewrite (replaceMatches_miss _ _ _ _ _ Hm). cbn [snd]. apply IH.
Qed.

Lemma replaceMatches_values matchAt callback (P : string → Prop) s :
  (∀ z m, matchAt z = Some m → P m) →
  ∀ skip k, Forall (fun pc => P (snd pc)) (snd (JS.replaceMatches matchAt callback skip k s)).
Proof.
  intros HP. induction s as [|c s IH]; intros skip k; [constructor|].
  destruct skip as [|skip]; [|rewrite replaceMatches_skip; apply IH].
  destruct (matchAt (String c s)) as [m|] eqn:Hm.
  - rewrite (replaceMatches_hit _ _ _ _ _ _ Hm). cbn [snd]. constructor; [|apply IH].
    exact (HP _ _ Hm).
  - rewrite (replaceMatches_miss _ _ _ _ _ Hm). cbn [snd]. apply IH.
Qed.

Lemma NoDup_map_inj {A B} (f : A → B) (l : list A) :
  (∀ x y, f x = f y → x = y) → NoDup l → NoDup (List.map f l).
Proof.
  intros Hf. induction 1 as [|x l Hx Hl IH]; [constructor|]. cbn. constructor; [|exact IH].
  intros Hin. apply list_elem_of_In, in_map_iff in Hin as (y & Hy & Hin). apply Hf in Hy.
  subst y. apply Hx, list_elem_of_In, Hin.
Qed.

Lemma placeholders_NoDup a n b m :
  NoDup (List.map codeBlockPlaceholder (seq a n) ++ List.map inlineCodePlaceholder (seq b m)).
Proof.
  apply NoDup_app. split; [|split].
  - apply NoDup_map_inj; [exact codeBlockPlaceholder_inj|apply NoDup_seq].
  - intros x Hx Hy. apply list_elem_of_In, in_map_iff in Hx as (i & <- & _).
    apply list_elem_of_In, in_map_iff in Hy as (j & Hj & _).
    exact (placeholders_differ i j (eq_sym Hj)).
  - apply NoDup_map_inj; [exact inlineCodePlaceholder_inj|apply NoDup_seq].
Qed.

Lemma extract_parts document :
  ∃ body,
    let r1 := JS.replaceMatches matchCodeBlock codeBlockPlaceholder 0 0 body in
    let r2 := JS.replaceMatches matchInlineCode inlineCodePlaceholder 0
                (List.length (snd r1)) (fst r1) in
    document
    = default EmptyString (frontmatter (extractTextForTranslation document)) +:+ body
    ∧ translatableText (extractTextForTranslation document) = fst r2
    ∧ codeBlocks (extractTextForTranslation document) = snd r1 ++ snd r2.
Proof.
  unfold extractTextForTranslation.
  destruct (matchFrontmatter document) as [[matched rest]|] eqn:Hfm.
  - exists rest. cbv zeta.
    destruct (JS.replaceMatches matchCodeBlock _ 0 0 rest) as [withoutBlocks blocks] eqn:E1.
    cbn [fst snd].
    destruct (JS.replaceMatches matchInlineCode _ 0 _ withoutBlocks) as [text inlines] eqn:E2.
    cbn [fst snd frontmatter translatableText codeBlocks default].
    split; [exact (proj1 (matchFrontmatter_spec _ _ _ Hfm))|]. split; [reflexivity|].
    apply (fold_mapSet _ []). cbn [app]. rewrite List.map_app.
    pose proof (replaceMatches_keys matchCodeBlock codeBlockPlaceholder rest 0 0) as K1.
    pose proof (replaceMatches_keys matchInlineCode inlineCodePlaceholder withoutBlocks 0
                  (List.length blocks)) as K2.
    rewrite E1 in K1. rewrite E2 in K2. cbn [snd] in K1, K2. rewrite K1, K2.
    apply placeholders_NoDup.
  - exists document. cbv zeta.
    destruct (JS.replaceMatches matchCodeBlock _ 0 0 document) as [withoutBlocks blocks] eqn:E1.
    cbn [fst snd].
    destruct (JS.replaceMatches matchInlineCode _ 0 _ withoutBlocks) as [text inlines] eqn:E2.
    cbn [fst snd frontmatter translatableText codeBlocks default].
    split; [reflexivity|]. split; [reflexivity|].
    apply (fold_mapSet _ []). cbn [app]. rewrite List.map_app.
    pose proof (replaceMatches_keys matchCodeBlock codeBlockPlaceholder document 0 0) as K1.
    pose proof (replaceMatches_keys matchInlineCode inlineCodePlaceholder withoutBlocks 0
                  (List.length blocks)) as K2.
    rewrite E1 in K1. rewrite E2 in K2. cbn [snd] in K1, K2. rewrite K1, K2.
    apply placeholders_NoDup.
Qed.

Lemma restoreCodeBlocks_restoreAll text extracted :
  restoreCodeBlocks text extracted
  = default EmptyString (frontmatter extracted) +:+ restoreAll (codeBlocks extracted) text.
Proof. unfold restoreCodeBlocks. destruct (frontmatter extracted); reflexivity. Qed.

(** X25. Extraction, then restoration, gives the document back when
    the document has neither an underscore nor a dollar sign and no
    recorded code has an underscore, that is when no inline code runs
    over the placeholder of a fenced block. *)
Theorem extract_then_restore (document : string) :
  lacks "_" document → lacks "$" document →
  Forall (fun pc => lacks "_" (snd pc)) (codeBlocks (extractTextForTranslation document)) →
  restoreCodeBlocks (translatableText (extractTextForTranslation document))
                    (extractTextForTranslation document)
  = document.
Proof.
  intros H1 H2 HF. rewrite restoreCodeBlocks_restoreAll.
  destruct (extract_parts document) as (body & Hdoc & Htext & Hcode). cbv zeta in *.
  rewrite Hcode in HF |- *. rewrite Htext. apply Forall_app in HF as [_ HF].
  assert (plain body) as Hbody.
  { rewrite Hdoc in H1, H2. apply lacks_append in H1, H2. split; tauto. }
  pose proof (replaceMatches_blocks body 0 0 Hbody) as Hm1. cbn [JS.sliceFrom] in Hm1.
  destruct (replaceMatches_inlines _ _ _ Hm1 0 _
              ltac:(destruct (fst _); exact I) HF) as (mid & Hmix).
  cbn [JS.sliceFrom] in Hmix. rewrite (mix_restore _ _ _ _ _ Hmix). symmetry. exact Hdoc.
Qed.

Lemma extract_then_restore_witness :
  let document :=
    doc ["---"; "title: T"; "---"; "Run `ls` now"; ""; "```"; "code"; "```"] in
  lacks "_" document ∧ lacks "$" document
  ∧ translatableText (extractTextForTranslation document)
    = doc ["Run __INLINE_CODE_1__ now"; ""; "__CODE_BLOCK_0__"]
  ∧ codeBlocks (extractTextForTranslation document)
    = [("__CODE_BLOCK_0__", doc ["```"; "code"; "```"]); ("__INLINE_CODE_1__", "`ls`")]
  ∧ restoreCodeBlocks (translatableText (extractTextForTranslation document))
                      (extractTextForTranslation document)
    = document.
Proof.
  cbv zeta.
  set (document := doc ["---"; "title: T"; "---"; "Run `ls` now"; ""; "```"; "code"; "```"]).
  assert (lacks "_" document) as H1 by (vm_compute; repeat split; discriminate).
  assert (lacks "$" document) as H2 by (vm_compute; repeat split; discriminate).
  assert (codeBlocks (extractTextForTranslation document)
          = [("__CODE_BLOCK_0__", doc ["```"; "code"; "```"]); ("__INLINE_CODE_1__", "`ls`")])
    as Hc by (vm_compute; reflexivity).
  split; [exact H1|]. split; [exact H2|]. split; [vm_compute; reflexivity|].
  split; [exact Hc|]. apply (extract_then_restore document H1 H2).
  rewrite Hc. repeat constructor; vm_compute; repeat split; discriminate.
Defined.

Lemma inlineRun_lacks s : lacks JS.LF (inlineRun s).
Proof.
  induction s as [|c s IH]; [exact I|]. cbn [inlineRun].
  destruct (Ascii.eqb c "`" || Ascii.eqb c JS.LF) eqn:E; [exact I|].
  apply orb_false_iff in E as [_ E]. apply Ascii.eqb_neq in E. split; assumption.
Qed.

Lemma matchInlineCode_line s m : matchInlineCode s = Some m → lacks JS.LF m.
Proof.
  destruct s as [|c s]; [discriminate|]. cbn [matchInlineCode].
  destruct (Ascii.eqb c "`"); [|discriminate].
  destruct (negb _ && JS.startsWith _ "`"); [|discriminate]. intros [= <-].
  rewrite !lacks_append. split; [split; [discriminate|exact I]|].
  split; [apply inlineRun_lacks|split; [discriminate|exact I]].
Qed.

(** X26. The map of [extractTextForTranslation] has one entry for every
    piece of code that was replaced: first the fenced blocks, under
    [__CODE_BLOCK_0__], [__CODE_BLOCK_1__], ..., then the inline codes,
    under [__INLINE_CODE_n__], ... where the one counter goes on from
    the number [n] of blocks. The keys are pairwise distinct; a block
    starts with a fence, an inline code with a backtick and has no
    line feed. *)
Theorem codeBlocks_are_numbered_by_one_counter (document : string) :
  ∃ blocks inlines : list (string * string),
    codeBlocks (extractTextForTranslation document) = blocks ++ inlines
    ∧ List.map fst blocks = List.map codeBlockPlaceholder (seq 0 (List.length blocks))
    ∧ List.map fst inlines
      = List.map inlineCodePlaceholder (seq (List.length blocks) (List.length inlines))
    ∧ NoDup (List.map fst (codeBlocks (extractTextForTranslation document)))
    ∧ Forall (fun pc => JS.startsWith (snd pc) fence = true) blocks
    ∧ Forall (fun pc => JS.startsWith (snd pc) "`" = true ∧ lacks JS.LF (snd pc)) inlines.
Proof.
  destruct (extract_parts document) as (body & _ & _ & Hcode). cbv zeta in Hcode.
  eexists _, _. split; [exact Hcode|].
  pose proof (replaceMatches_keys matchCodeBlock codeBlockPlaceholder body 0 0) as K1.
  pose proof (replaceMatches_keys matchInlineCode inlineCodePlaceholder
                (fst (JS.replaceMatches matchCodeBlock codeBlockPlaceholder 0 0 body)) 0
                (List.length
                   (snd (JS.replaceMatches matchCodeBlock codeBlockPlaceholder 0 0 body))))
    as K2.
  split; [exact K1|]. split; [exact K2|]. split; [|split].
  - rewrite Hcode, List.map_app, K1, K2. apply placeholders_NoDup.
  - apply (replaceMatches_values _ _ (fun v => JS.startsWith v fence = true)).
    intros z m Hm. destruct (matchCodeBlock_spec _ _ Hm) as (_ & _ & H). exact H.
  - apply (replaceMatches_values _ _
             (fun v => JS.startsWith v "`" = true ∧ lacks JS.LF v)).
    intros z m Hm. split; [|exact (matchInlineCode_line _ _ Hm)].
    destruct (matchInlineCode_spec _ _ Hm) as (_ & _ & H). exact H.
Qed.

(** An inline code that runs over a fenced block keeps the placeholder of
    the block: the block is looked for before the inline code is back. *)
Example inline_code_over_a_fenced_block :
  let document := "`a ```x``` b`" in
  lacks "_" document ∧ lacks "$" document
  ∧ codeBlocks (extractTextForTranslation document)
    = [("__CODE_BLOCK_0__", "```x```"); ("__INLINE_CODE_1__", "`a __CODE_BLOCK_0__ b`")]
  ∧ restoreCodeBlocks (translatableText (extractTextForTranslation document))
                      (extractTextForTranslation document)
    = "`a __CODE_BLOCK_0__ b`".
Proof.
  cbv zeta. split; [vm_compute; repeat split; discriminate|].
  split; [vm_compute; repeat split; discriminate|]. split; vm_compute; reflexivity.
Qed.

(** ** The order of the segments *)

Lemma nextFree_snoc lo ps q : nextFree lo (ps ++ [q]) = (endLine q + 1)%Z.
Proof. unfold nextFree. rewrite fold_left_app. reflexivity. Qed.

Lemma inOrder_snoc ps q : ∀ lo,
  inOrder lo (ps ++ [q])
  ↔ inOrder lo ps ∧ (nextFree lo ps ≤ startLine q)%Z ∧ (startLine q ≤ endLine q)%Z.
Proof.
  induction ps as [|p ps IH]; intros lo; cbn [app inOrder].
  - unfold nextFree. cbn. tauto.
  - rewrite IH. unfold nextFree. cbn [fold_left]. tauto.
Qed.

Lemma inOrder_lower ps : ∀ lo j p,
  inOrder lo ps → ps !! j = Some p → (lo ≤ startLine p)%Z.
Proof.
  induction ps as [|q ps IH]; intros lo j p H Hj; [discriminate|].
  destruct H as (H1 & H2 & H). destruct j as [|j].
  - injection Hj as <-. exact H1.
  - cbn in Hj. specialize (IH _ _ _ H Hj). lia.
Qed.

Lemma inOrder_lookup ps : ∀ lo j j' p p',
  inOrder lo ps → ps !! j = Some p → ps !! j' = Some p' → (j < j')%nat →
  (endLine p < startLine p')%Z.
Proof.
  induction ps as [|q ps IH]; intros lo j j' p p' H Hj Hj' Hlt; [discriminate|].
  destruct H as (H1 & H2 & H). destruct j' as [|j']; [lia|]. cbn in Hj'.
  destruct j as [|j].
  - injection Hj as <-. pose proof (inOrder_lower _ _ _ _ H Hj'). lia.
  - cbn in Hj. apply (IH _ j j' p p' H Hj Hj'). lia.
Qed.

Section Order.
Variable calculateHash : string → string.
Variable lines : list string.

Lemma splitStep_order st i line :
  OrderInv st i → OrderInv (splitStep calculateHash lines st i line) (S i).
Proof.
  intros (Hord & Hfree & Hcur). unfold splitStep.
  destruct (JS.startsWith (JS.trim line) fence); cbn [andb].
  - destruct (inCodeBlock st) eqn:Hin.
    + destruct Hcur as [Hstart Hlt]. unfold OrderInv.
      cbn [paragraphs currentParagraph st_startLine inCodeBlock codeBlockStart].
      rewrite inOrder_snoc, nextFree_snoc. unfold mkParagraph. cbn [startLine endLine].
      split; [split; [exact Hord|lia]|]. split; [lia|]. left. reflexivity.
    + unfold OrderInv.
      cbn [paragraphs currentParagraph st_startLine inCodeBlock codeBlockStart].
      destruct (currentParagraph st) as [|c0 cur'] eqn:Hc.
      * split; [exact Hord|]. split; [lia|]. split; lia.
      * destruct Hcur as [Hcur|[Hs Hlt]]; [discriminate|].
        rewrite inOrder_snoc, nextFree_snoc. unfold mkParagraph. cbn [startLine endLine].
        split; [split; [exact Hord|lia]|]. split; [lia|]. split; lia.
  - destruct (inCodeBlock st) eqn:Hin.
    + destruct Hcur as [Hstart Hlt]. unfold OrderInv.
      cbn [paragraphs currentParagraph st_startLine inCodeBlock codeBlockStart].
      split; [exact Hord|]. split; [lia|]. split; lia.
    + destruct (String.eqb (JS.trim line) EmptyString); unfold OrderInv;
        cbn [paragraphs currentParagraph st_startLine inCodeBlock codeBlockStart].
      * destruct (currentParagraph st) as [|c0 cur'] eqn:Hc.
        -- split; [exact Hord|]. split; [lia|]. left. reflexivity.
        -- destruct Hcur as [Hcur|[Hs Hlt]]; [discriminate|].
           rewrite inOrder_snoc, nextFree_snoc. unfold mkParagraph. cbn [startLine endLine].
           split; [split; [exact Hord|lia]|]. split; [lia|]. left. reflexivity.
      * split; [exact Hord|]. split; [lia|]. right.
        destruct (currentParagraph st) as [|c0 cur'] eqn:Hc; [lia|].
        destruct Hcur as [Hcur|[Hs Hlt]]; [discriminate|]. lia.
Qed.

Lemma splitLoop_order rest : ∀ i st,
  OrderInv st i →
  OrderInv (splitLoop calculateHash lines rest i st) (i + List.length rest).
Proof.
  induction rest as [|l rest IH]; intros i st Hinv; cbn [splitLoop List.length].
  - rewrite Nat.add_0_r. exact Hinv.
  - replace (i + S (List.length rest))%nat with (S i + List.length rest)%nat by lia.
    apply IH, splitStep_order, Hinv.
Qed.

End Order.

(** X27. The segments are in the order of the document: the line range
    of a segment is not empty and ends before the range of every later
    segment starts, when the later one is a text segment or is not the
    last segment (a code block left open at the end keeps the
    [startLine] of the paragraph before it). *)
Theorem segments_are_in_document_order (calculateHash : string → string) (document : string) :
  let segments := splitIntoParagraphsWithHash calculateHash document in
  ∀ j j' p p',
    segments !! j = Some p → segments !! j' = Some p' → (j < j')%nat →
    type p' = Text ∨ (S j' < List.length segments)%nat →
    (startLine p ≤ endLine p)%Z ∧ (endLine p < startLine p')%Z.
Proof.
  cbv zeta. unfold splitIntoParagraphsWithHash, splitFinish.
  set (lines := JS.split JS.LF document).
  destruct (splitLoop_order calculateHash lines lines 0 splitInit) as (Hord & Hfree & Hcur).
  { split; [exact I|]. split; [cbn; lia|]. left. reflexivity. }
  set (st := splitLoop calculateHash lines lines 0 splitInit) in *.
  cbn [Nat.add] in Hfree, Hcur.
  assert (Hin : ∀ l j j' p p', inOrder 0 l → l !! j = Some p → l !! j' = Some p' →
                  (j < j')%nat → (startLine p ≤ endLine p)%Z ∧ (endLine p < startLine p')%Z).
  { intros l j j' p p' Hl Hj Hj' Hlt. split; [|exact (inOrder_lookup _ _ _ _ _ _ Hl Hj Hj' Hlt)].
    clear Hj' Hlt. revert j Hj. generalize 0%Z as lo. revert Hl. generalize 0%Z.
    induction l as [|q l IH]; intros lo Hl lo' j Hj; [discriminate|].
    destruct Hl as (_ & H2 & Hl). destruct j as [|j]; [injection Hj as <-; exact H2|].
    exact (IH _ Hl 0%Z j Hj). }
  intros j j' p p' Hj Hj' Hlt Hcond.
  destruct (currentParagraph st) as [|c0 cur'] eqn:Hc; [exact (Hin _ _ _ _ _ Hord Hj Hj' Hlt)|].
  destruct (inCodeBlock st) eqn:Hcode.
  - destruct (decide (j' < List.length (paragraphs st))%nat) as [Hl|Hl].
    + rewrite lookup_app_l in Hj, Hj' by lia. exact (Hin _ _ _ _ _ Hord Hj Hj' Hlt).
    + exfalso. rewrite length_app in Hcond. cbn [List.length] in Hcond.
      destruct Hcond as [Hty|Hlast]; [|lia].
      rewrite lookup_app_r in Hj' by lia.
      destruct (j' - List.length (paragraphs st))%nat; [|destruct n; discriminate].
      cbn in Hj'. injection Hj' as <-. discriminate Hty.
  - destruct Hcur as [Hcur|[Hs Hlt']]; [discriminate|].
    refine (Hin _ _ _ _ _ _ Hj Hj' Hlt). apply inOrder_snoc. cbn.
    split; [exact Hord|]. split; [exact Hs|]. lia.
Qed.

Lemma segments_are_in_document_order_witness :
  let segments :=
    splitIntoParagraphsWithHash idHash (doc ["intro"; ""; "```"; "code"; "```"; "end"]) in
  List.map (fun p => (type p, startLine p, endLine p)) segments
  = [(Text, 0%Z, 0%Z); (Code, 2%Z, 4%Z); (Text, 5%Z, 5%Z)]
  ∧ ∃ p p', segments !! 1%nat = Some p ∧ segments !! 2%nat = Some p'
            ∧ (startLine p ≤ endLine p)%Z ∧ (endLine p < startLine p')%Z.
Proof.
  cbv zeta. split; [reflexivity|]. eexists _, _.
  split; [vm_compute; reflexivity|]. split; [vm_compute; reflexivity|].
  apply (segments_are_in_document_order idHash
           (doc ["intro"; ""; "```"; "code"; "```"; "end"]) 1 2);
    [vm_compute; reflexivity|vm_compute; reflexivity|lia|left; reflexivity].
Defined.

(** ** Translating an edited document *)

Lemma fold_insert_elem (ps : list ParagraphMapping) :
  ∀ (m : gmap string ParagraphMapping) h e,
  fold_left (fun m p => <[sourceHash p := p]> m) ps m !! h = Some e →
  e ∈ ps ∨ m !! h = Some e.
Proof.
  induction ps as [|p ps IH]; intros m h e H; [right; exact H|].
  cbn [fold_left] in H. destruct (IH _ _ _ H) as [Hin|Hm].
  - left. right. exact Hin.
  - destruct (decide (sourceHash p = h)) as [<-|Hne].
    + rewrite lookup_insert_eq in Hm. injection Hm as <-. left. left.
    + rewrite lookup_insert_ne in Hm by exact Hne. right. exact Hm.
Qed.

Lemma existingHashMap_elem prior h e :
  existingHashMap (Some prior) !! h = Some e → e ∈ prior ∧ sourceHash e = h.
Proof.
  intros H. split; [|exact (existingHashMap_lookup_Some _ _ _ H)].
  destruct (fold_insert_elem _ _ _ _ H) as [Hin|Hm]; [exact Hin|].
  rewrite lookup_empty in Hm. discriminate.
Qed.

Lemma isPending_isNewText prior oldHashes p :
  List.map sourceHash prior = oldHashes →
  isPending (existingHashMap (Some prior)) p = isNewText oldHashes p.
Proof.
  intros <-. unfold isPending, isNewText.
  assert (match existingHashMap (Some prior) !! hash p with
          | Some _ => false
          | None => true
          end = negb (bool_decide (hash p ∈ List.map sourceHash prior))) as E.
  { destruct (existingHashMap (Some prior) !! hash p) as [e|] eqn:Hl.
    - apply existingHashMap_elem in Hl as [Hin Hh].
      rewrite bool_decide_eq_true_2; [reflexivity|].
      rewrite <- Hh. apply list_elem_of_In, in_map, list_elem_of_In, Hin.
    - rewrite bool_decide_eq_false_2; [reflexivity|]. intros Hin.
      apply list_elem_of_In, in_map_iff in Hin as (e & He & Hin).
      assert (is_Some (existingHashMap (Some prior) !! hash p)) as [x Hx].
      { apply existingHashMap_lookup. exists e. split; [apply list_elem_of_In, Hin|exact He]. }
      congruence. }
  destruct (type p); auto.
Qed.

Lemma pendingFrom_snd existing rest : ∀ i,
  List.map snd (pendingFrom existing rest i) = List.filter (isPending existing) rest.
Proof.
  induction rest as [|p rest IH]; intros i; [reflexivity|]. cbn [pendingFrom List.filter].
  destruct (isPending existing p); cbn [List.map snd]; rewrite IH; reflexivity.
Qed.

Lemma filter_ext_eq {A} (f g : A → bool) (l : list A) :
  (∀ x, f x = g x) → List.filter f l = List.filter g l.
Proof. intros H. induction l as [|x l IH]; [reflexivity|]. cbn. rewrite H, IH. reflexivity. Qed.

Lemma map_lookup_Some {A B} (f : A → B) (l : list A) : ∀ i y,
  List.map f l !! i = Some y → ∃ x, l !! i = Some x ∧ f x = y.
Proof.
  induction l as [|a l IH]; intros [|i] y H; try discriminate.
  - injection H as <-. exists a. split; reflexivity.
  - exact (IH i y H).
Qed.

(** X28. [translateWithExisting] after an edit. Given the mapping that a
    fulfilled run returned for an old document, the run on a new
    document requests only contents of the new segments that are not
    code and whose hash is not the hash of an old segment; the index of
    a request is the position among these. They are counted as changed
    and all others as reused, and every other segment that is not code
    gets an entry of the old mapping with its hash. *)
Theorem translateWithExisting_sends_the_new_paragraphs
    (calculateHash : string → string) (provider provider' : Provider)
    (configMaxConcurrency : option nat)
    (document : string) (options : IncrementalTranslateOptions) (t : N)
    (res : IncrementalTranslationResult)
    (document' : string) (signal' : AbortSignal) (t' : N) :
  outcome (translateIncremental calculateHash provider document options t) = Fulfilled res →
  let old := splitIntoParagraphsWithHash calculateHash document in
  let new := splitIntoParagraphsWithHash calculateHash document' in
  let fresh := List.filter (isNewText (List.map hash old)) new in
  let r' := translateWithExisting calculateHash provider' configMaxConcurrency
              document' (itr_paragraphs res) signal' t' in
  Forall (fun ev => match ev with
                    | EvRequest index _ txt _ =>
                        ∃ p, fresh !! index = Some p ∧ content p = txt
                    | _ => True
                    end) (events r')
  ∧ ∀ res', outcome r' = Fulfilled res' →
      changedParagraphs res' = List.length fresh
      ∧ reusedParagraphs res' = (List.length new - List.length fresh)%nat
      ∧ ∀ j p, new !! j = Some p → type p ≠ Code → hash p ∈ List.map hash old →
          ∃ e, itr_paragraphs res' !! j = Some e
               ∧ e ∈ itr_paragraphs res ∧ sourceHash e = hash p.
Proof.
  intros Hres. cbv zeta. unfold translateWithExisting.
  set (options' := {| signal := signal'; existingParagraphs := Some (itr_paragraphs res);
                      maxConcurrency := configMaxConcurrency |}).
  destruct (translateIncremental_entries _ _ _ _ _ _ Hres) as (Hhash & _).
  assert (Hpend : ∀ p, isPending (existingHashMap (existingParagraphs options')) p
                       = isNewText (List.map hash
                                      (splitIntoParagraphsWithHash calculateHash document)) p)
    by (intros p; apply isPending_isNewText; exact Hhash).
  assert (Hfresh : List.map snd (paragraphsToTranslate
                                   (planOf calculateHash document' options'))
                   = List.filter (isNewText (List.map hash
                                     (splitIntoParagraphsWithHash calculateHash document)))
                       (splitIntoParagraphsWithHash calculateHash document')).
  { unfold planOf. rewrite (proj1 (plan_spec _ _)), pendingFrom_snd.
    apply filter_ext_eq, Hpend. }
  split.
  - pose proof (translateIncremental_events calculateHash provider' document' options' t')
      as Hev.
    eapply Forall_impl; [exact Hev|]. intros [index attempt txt time| |]; cbn; auto.
    intros [Hl _]. unfold textsToTranslate in Hl.
    rewrite <- Hfresh. rewrite <- (List.map_map snd content) in Hl.
    apply map_lookup_Some in Hl as (p & Hp & Hc). exists p. split; assumption.
  - intros res' Hres'.
    destruct (translateIncremental_entries _ _ _ _ _ _ Hres')
      as (_ & _ & Hreuse & Hchanged & Hreused & _).
    assert (List.length (pendingFrom (existingHashMap (existingParagraphs options'))
                           (splitIntoParagraphsWithHash calculateHash document') 0)
            = List.length (List.filter (isNewText (List.map hash
                             (splitIntoParagraphsWithHash calculateHash document)))
                             (splitIntoParagraphsWithHash calculateHash document'))) as Hlen.
    { rewrite <- Hfresh. unfold planOf. rewrite (proj1 (plan_spec _ _)), length_map.
      reflexivity. }
    split; [rewrite Hchanged; exact Hlen|]. split; [rewrite Hreused, Hlen; reflexivity|].
    intros j p Hj Hty Hold.
    assert (isPending (existingHashMap (existingParagraphs options')) p = false) as Hp.
    { rewrite Hpend. unfold isNewText. rewrite bool_decide_eq_true_2 by exact Hold.
      destruct (type p); reflexivity. }
    rewrite (Hreuse j p Hj Hp). eexists. split; [reflexivity|].
    unfold isPending in Hp. unfold planEntry.
    destruct (existingHashMap (existingParagraphs options') !! hash p) as [e|] eqn:Hl.
    + apply existingHashMap_elem in Hl. destruct (type p); first [exact Hl|congruence].
    + destruct (type p); first [discriminate|congruence].
Qed.

Lemma translateWithExisting_sends_the_new_paragraphs_witness :
  let document := doc ["One"; EmptyString; "Two"] in
  let document' := doc ["One"; EmptyString; "Three"; EmptyString; "Two"] in
  let res :=
    {| itr_translatedText := doc ["T:One"; EmptyString; "T:Two"];
       itr_paragraphs :=
         [ {| sourceContent := "One"; translatedContent := "T:One"; sourceHash := "One" |};
           {| sourceContent := "Two"; translatedContent := "T:Two"; sourceHash := "Two" |} ];
       changedParagraphs := 2;
       reusedParagraphs := 0;
       itr_tokenUsage := Some {| prompt := 2; completion := 4; total := 6 |} |} in
  outcome (translateIncremental idHash echoProvider document
             {| signal := None; existingParagraphs := None; maxConcurrency := None |} 0%N)
    = Fulfilled res
  ∧ let r' := translateWithExisting idHash echoProvider None document'
                (itr_paragraphs res) None 20%N in
    events r' = [EvRequest 0 0 "Three" 20%N; EvProgress 1 1 30%N]
    ∧ Forall (fun ev => match ev with
                        | EvRequest index _ txt _ =>
                            ∃ p,
                              List.filter
                                (isNewText
                                   (List.map hash (splitIntoParagraphsWithHash idHash document)))
                                (splitIntoParagraphsWithHash idHash document') !! index
                              = Some p
                              ∧ content p = txt
                        | _ => True
                        end) (events r').
Proof.
  cbv zeta. split; [vm_compute; reflexivity|]. split; [vm_compute; reflexivity|].
  match goal with
  | |- context [translateWithExisting _ _ _ _ (itr_paragraphs ?res)] =>
      exact (proj1 (translateWithExisting_sends_the_new_paragraphs idHash echoProvider
               echoProvider None (doc ["One"; EmptyString; "Two"])
               {| signal := None; existingParagraphs := None; maxConcurrency := None |}
               0%N res (doc ["One"; EmptyString; "Three"; EmptyString; "Two"]) None 20%N
               ltac:(vm_compute; reflexivity)))
  end.
Defined.

(** ** A translation that ends with a line feed *)

Lemma trimStart_append p x :
  JS.trimStart p ≠ EmptyString → JS.trimStart (p +:+ x) = JS.trimStart p +:+ x.
Proof.
  induction p as [|c p IH]; [intros H; exfalso; exact (H eq_refl)|].
  rewrite append_cons. cbn [JS.trimStart].
  destruct (JS.isWhiteSpace c); [exact IH|]. intros _. rewrite append_cons. reflexivity.
Qed.

Lemma trimEnd_append q x :
  JS.trimEnd q ≠ EmptyString → JS.trimEnd (q +:+ x) ≠ EmptyString.
Proof.
  induction q as [|c q IH]; [intros H; exfalso; exact (H eq_refl)|].
  rewrite append_cons. cbn [JS.trimEnd].
  destruct (JS.trimEnd q) as [|a t] eqn:E.
  - destruct (JS.isWhiteSpace c); [congruence|]. intros _.
    destruct (JS.trimEnd (q +:+ x)); discriminate.
  - intros _. specialize (IH ltac:(discriminate)).
    destruct (JS.trimEnd (q +:+ x)); [congruence|discriminate].
Qed.

Lemma trimEnd_nonempty q : JS.trimEnd q ≠ EmptyString → q ≠ EmptyString.
Proof. intros H ->. apply H. reflexivity. Qed.

Lemma nonBlank_trim p : nonBlank p = true ↔ JS.trim p ≠ EmptyString.
Proof.
  unfold nonBlank. destruct (JS.trim p); cbn; split; congruence.
Qed.

Lemma nonBlank_append p x : nonBlank p = true → nonBlank (p +:+ x) = true.
Proof.
  rewrite !nonBlank_trim. unfold JS.trim. intros H.
  rewrite trimStart_append by (apply trimEnd_nonempty, H). apply trimEnd_append, H.
Qed.

Lemma noBlankRun_line_feed p :
  noBlankRun p → endsLF p = false → noBlankRun (p +:+ lineFeed).
Proof.
  induction p as [|c p IH]; [intros _ _; reflexivity|]. intros Hrun Hend.
  apply noBlankRun_cons in Hrun as [Hc Hrun]. rewrite append_cons. apply noBlankRun_cons.
  destruct p as [|d p].
  - cbn [endsLF] in Hend. rewrite Hend. split; reflexivity.
  - split; [rewrite append_cons, startsWith_LF; rewrite startsWith_LF in Hc; exact Hc|].
    apply IH; [exact Hrun|]. rewrite endsLF_cons in Hend by discriminate. exact Hend.
Qed.

Lemma joinParagraphs_snoc ps p x :
  joinParagraphs (ps ++ [p]) +:+ x = joinParagraphs (ps ++ [p +:+ x]).
Proof.
  unfold joinParagraphs. induction ps as [|q ps IH]; [reflexivity|].
  destruct ps as [|q' ps].
  - cbn [app]. rewrite !join_cons2. cbn [JS.join]. rewrite !append_assoc. reflexivity.
  - cbn [app] in *. rewrite (join_cons2 _ q), (join_cons2 _ q), !append_assoc, IH.
    reflexivity.
Qed.

Lemma joinable_snoc ps p :
  Forall cleanParagraph (ps ++ [p]) → joinable (ps ++ [p +:+ lineFeed]).
Proof.
  induction ps as [|q ps IH]; intros H.
  - apply Forall_cons in H as [(Hnb & Hrun & Hlead & Hend) _]. cbn [app joinable].
    split; [apply noBlankRun_line_feed; assumption|]. split; exact I.
  - cbn [app] in H. apply Forall_cons in H as [(Hnb & Hrun & Hlead & Hend) H].
    cbn [app joinable]. split; [exact Hrun|]. split; [|apply IH, H].
    destruct ps as [|q' ps]; cbn [app] in *.
    + apply Forall_cons in H as [(Hp & _ & Hpl & _) _]. split; [exact Hend|].
      pose proof (nonBlank_nonempty _ Hp) as Hne. split; [apply noLeadLF_app; assumption|].
      destruct p; [congruence|discriminate].
    + apply Forall_cons in H as [(Hq & _ & Hql & _) _]. split; [exact Hend|].
      split; [exact Hql|apply nonBlank_nonempty, Hq].
Qed.

Lemma splitIntoParagraphs_final_line_feed ps p :
  Forall cleanParagraph (ps ++ [p]) →
  splitIntoParagraphs (joinParagraphs (ps ++ [p]) +:+ lineFeed) = ps ++ [p +:+ lineFeed].
Proof.
  intros H. rewrite joinParagraphs_snoc. apply splitIntoParagraphs_of_joinable.
  - apply joinable_snoc, H.
  - apply Forall_app in H as [Hps Hp]. apply Forall_app. split.
    + eapply Forall_impl; [exact Hps|]. intros x Hx. exact (proj1 Hx).
    + apply Forall_cons in Hp as [Hp _]. constructor; [|constructor].
      apply nonBlank_append. exact (proj1 Hp).
Qed.

Lemma modifiedFrom_prefix (savedParagraphs : list ParagraphMapping) rest : ∀ pre i,
  (∀ k e, pre !! k = Some e → savedParagraphs !! (i + k)%nat = Some e) →
  modifiedFrom savedParagraphs (List.map translatedContent pre ++ rest) i
  = modifiedFrom savedParagraphs rest (i + List.length pre).
Proof.
  induction pre as [|e pre IH]; intros i H.
  - cbn. rewrite Nat.add_0_r. reflexivity.
  - cbn [List.map app modifiedFrom List.length].
    pose proof (H 0%nat e eq_refl) as H0. rewrite Nat.add_0_r in H0.
    rewrite H0, String.eqb_refl. rewrite IH.
    + f_equal. lia.
    + intros k e' Hk. specialize (H (S k) e' Hk).
      replace (S i + k)%nat with (i + S k)%nat by lia. exact H.
Qed.

Lemma append_line_feed_neq p : p +:+ lineFeed ≠ p.
Proof.
  intros H. apply (f_equal String.length) in H. rewrite length_append in H. cbn in H. lia.
Qed.

(** X29. A line feed at the end of the translation makes
    [reverseTranslate] take the last paragraph for a modified one. When
    the saved translations are clean paragraphs and the current text is
    their join followed by one line feed, the last current paragraph is
    the saved one with the line feed; every request carries it, and a
    fulfilled run reports the last index as the only modified one. *)
Theorem final_line_feed_marks_the_last_paragraph
    (calculateHash : string → string) (provider : Provider)
    (configMaxConcurrency : option nat)
    (saved : list ParagraphMapping) (last : ParagraphMapping)
    (signal : AbortSignal) (t : N) :
  Forall cleanParagraph (List.map translatedContent (saved ++ [last])) →
  let current :=
    joinParagraphs (List.map translatedContent (saved ++ [last])) +:+ lineFeed in
  let r := reverseTranslate calculateHash provider configMaxConcurrency
             current (saved ++ [last]) signal t in
  splitIntoParagraphs current
  = List.map translatedContent saved ++ [translatedContent last +:+ lineFeed]
  ∧ Forall (fun ev => match ev with
                      | EvRequest index _ txt _ =>
                          index = 0%nat ∧ txt = translatedContent last +:+ lineFeed
                      | _ => True
                      end) (events r)
  ∧ ∀ res, outcome r = Fulfilled res → modifiedIndices res = [List.length saved].
Proof.
  intros Hclean. cbv zeta. rewrite List.map_app in Hclean |- *. cbn [List.map] in Hclean |- *.
  pose proof (splitIntoParagraphs_final_line_feed _ _ Hclean) as Hsplit.
  set (current := joinParagraphs _ +:+ lineFeed) in *.
  assert (Hmod : modifiedFrom (saved ++ [last]) (splitIntoParagraphs current) 0
                 = [List.length saved]).
  { rewrite Hsplit, modifiedFrom_prefix.
    - cbn [Nat.add modifiedFrom]. rewrite lookup_app_r by lia. rewrite Nat.sub_diag. cbn.
      destruct (String.eqb_spec (translatedContent last +:+ lineFeed)
                  (translatedContent last)) as [E|_]; [|reflexivity].
      exfalso. exact (append_line_feed_neq _ E).
    - intros k e Hk. cbn [Nat.add]. apply lookup_app_l_Some. exact Hk. }
  split; [exact Hsplit|]. split.
  - assert (events (reverseTranslate calculateHash provider configMaxConcurrency current
                      (saved ++ [last]) signal t)
            = events (reverseDispatch provider configMaxConcurrency current
                        (saved ++ [last]) signal t)) as ->.
    { rewrite reverseTranslate_run by (rewrite Hmod; discriminate). cbv zeta.
      destruct (outcome (reverseDispatch _ _ _ _ _ _)) as [rs|e|]; [|reflexivity|reflexivity].
      destruct (collectTranslated_run rs
                  (modifiedFrom (saved ++ [last]) (splitIntoParagraphs current) 0) 0
                  (finish (reverseDispatch provider configMaxConcurrency current
                             (saved ++ [last]) signal t))) as (_ & He & _).
      destruct (outcome (collectTranslated _ _ _ _)); cbn [events]; rewrite He, ?app_nil_r;
        reflexivity. }
    unfold reverseDispatch. cbv zeta. rewrite Hmod, Hsplit. cbn [List.map].
    rewrite lookup_app_r by (rewrite length_map; lia). rewrite length_map, Nat.sub_diag.
    cbn [lookup list_lookup default from_option id].
    eapply Forall_impl; [apply translateParagraphs_events|].
    intros [index attempt txt time| |]; cbn; auto. intros [Hl _].
    destruct index as [|index]; [|discriminate]. cbn in Hl. injection Hl as <-. auto.
  - intros res Hres.
    destruct (reverseTranslate_fulfilled _ _ _ _ _ _ _ _ Hres) as [(H0 & _)|(_ & rs & tp & _ & _ & ->)].
    + rewrite Hmod in H0. discriminate.
    + cbn [modifiedIndices reverseResult]. exact Hmod.
Qed.

Lemma final_line_feed_marks_the_last_paragraph_witness :
  let saved :=
    [ {| sourceContent := "One"; translatedContent := "T:One"; sourceHash := "One" |} ] in
  let last :=
    {| sourceContent := "Two"; translatedContent := "T:Two"; sourceHash := "Two" |} in
  let r := reverseTranslate idHash echoProvider None
             (doc ["T:One"; EmptyString; "T:Two"; EmptyString]) (saved ++ [last]) None 0%N in
  Forall cleanParagraph (List.map translatedContent (saved ++ [last]))
  ∧ events r = [EvRequest 0 0 (doc ["T:Two"; EmptyString]) 0%N; EvProgress 1 1 10%N]
  ∧ ∃ res, outcome r = Fulfilled res ∧ modifiedIndices res = [1%nat].
Proof.
  cbv zeta.
  assert (Forall cleanParagraph
            (List.map translatedContent
               ([ {| sourceContent := "One"; translatedContent := "T:One";
                     sourceHash := "One" |} ]
                ++ [ {| sourceContent := "Two"; translatedContent := "T:Two";
                        sourceHash := "Two" |} ]))) as Hclean
    by (repeat constructor).
  split; [exact Hclean|]. split; [vm_compute; reflexivity|].
  eexists. split; [vm_compute; reflexivity|].
  exact (proj2 (proj2 (final_line_feed_marks_the_last_paragraph idHash echoProvider None
                         _ _ None 0%N Hclean)) _ ltac:(vm_compute; reflexivity)).
Defined.

(** ** Placeholders that do not come back *)

Lemma splitAtFirst_absent p s : JS.includes s p = false → JS.splitAtFirst p s = None.
Proof.
  induction s as [|c s IH]; intros H; rewrite splitAtFirst_eq.
  - cbn [JS.includes] in H. apply orb_false_iff in H as [-> _]. reflexivity.
  - cbn [JS.includes] in H. apply orb_false_iff in H as [-> H]. rewrite (IH H). reflexivity.
Qed.

Lemma restoreAll_absent entries text :
  Forall (fun pc => JS.includes text (fst pc) = false) entries →
  restoreAll entries text = text.
Proof.
  induction entries as [|[k v] entries IH]; intros H; [reflexivity|].
  apply Forall_cons in H as [Hk H]. cbn [restoreAll fold_left fst snd] in *.
  assert (JS.replaceFirst k v text = text) as ->
    by (unfold JS.replaceFirst; rewrite (splitAtFirst_absent _ _ Hk); reflexivity).
  apply IH, H.
Qed.

(** X30. [restoreCodeBlocks] skips the placeholders that the text does
    not contain: when none of the recorded placeholders occurs in the
    text, the result is the front matter followed by the text as it is,
    and the recorded code is not put back. *)
Theorem restoreCodeBlocks_skips_missing_placeholders
    (translated : string) (extracted : ExtractedContent) :
  Forall (fun pc => JS.includes translated (fst pc) = false) (codeBlocks extracted) →
  restoreCodeBlocks translated extracted
  = default EmptyString (frontmatter extracted) +:+ translated.
Proof.
  intros H. rewrite restoreCodeBlocks_restoreAll, (restoreAll_absent _ _ H). reflexivity.
Qed.

Lemma restoreCodeBlocks_skips_missing_placeholders_witness :
  let extracted := extractTextForTranslation (doc ["Run `ls` now"]) in
  translatableText extracted = "Run __INLINE_CODE_0__ now"
  ∧ codeBlocks extracted = [("__INLINE_CODE_0__", "`ls`")]
  ∧ Forall (fun pc => JS.includes "Lancez maintenant" (fst pc) = false) (codeBlocks extracted)
  ∧ restoreCodeBlocks "Lancez maintenant" extracted = "Lancez maintenant".
Proof.
  cbv zeta.
  assert (Forall (fun pc => JS.includes "Lancez maintenant" (fst pc) = false)
            (codeBlocks (extractTextForTranslation (doc ["Run `ls` now"])))) as H
    by (vm_compute; repeat constructor).
  split; [vm_compute; reflexivity|]. split; [vm_compute; reflexivity|]. split; [exact H|].
  exact (restoreCodeBlocks_skips_missing_placeholders _ _ H).
Defined.
